(** * Graph with a nest tree: a shallow embedding of package [graph]

    The Go package keeps nodes, edges, nests, nest trees, graphs and
    attribute handles as heap objects that point at each other.  The
    embedding keeps one store per object kind; a pointer is an optional
    address into the store of its kind ([None] is Go's [nil]).  Every
    method is a computation over the whole store, so aliasing between
    arguments is kept as the code has it. *)

From stdpp Require Import base option list strings numbers.
From Stdlib Require Import ZArith Lia.

Set Default Proof Using "Type".

(** ** Machine integers, slices, pointers *)

(** Go's [int] is 64 bits wide on the platforms the package targets. *)
Definition int_wrap (z : Z) : Z := ((z + 2 ^ 63) `mod` 2 ^ 64 - 2 ^ 63)%Z.
Definition int_succ (z : Z) : Z := int_wrap (z + 1).

Definition ptr : Type := option nat.

Definition ptr_eqb (p q : ptr) : bool := bool_decide (p = q).

(** [s[i]] on a slice: out of range (also negative) is a run-time panic,
    seen here as [None]. *)
Definition idx {A} (l : list A) (i : Z) : option A :=
  if (i <? 0)%Z then None else l !! Z.to_nat i.

(** [s[i] = f(s[i])]; only used under a successful [idx]. *)
Definition upd {A} (l : list A) (i : Z) (f : A → A) : list A :=
  match idx l i with
  | Some x => <[Z.to_nat i := f x]> l
  | None => l
  end.

(** ** Data model *)

Record strAttrVal := mkVal { isSet : bool; data : string }.

Definition zeroVal : strAttrVal := mkVal false "".

Definition set_isSet (b : bool) (v : strAttrVal) : strAttrVal := mkVal b (data v).
Definition set_data (s : string) (v : strAttrVal) : strAttrVal := mkVal (isSet v) s.

(** [graphStrAttr]; [GraphStrAttr] and [NodeStrAttr] are two named types
    with this layout, kept apart by the store their pointers index. *)
Module StrAttr.
Record t := mk { attrNum : Z; isValid : bool; graph : ptr }.
End StrAttr.

(** [nestTreeStrAttr], the layout of [NestStrAttr]. *)
Module NestStrAttr.
Record t := mk { attr_num : Z; is_valid : bool; nestTree : ptr }.
End NestStrAttr.

Definition graph_str_attr_invalid : StrAttr.t := StrAttr.mk (-1) false None.
Definition node_str_attr_invalid : StrAttr.t := StrAttr.mk (-1) false None.
Definition nest_str_attr_invalid : NestStrAttr.t := NestStrAttr.mk (-1) false None.

Record AttrSpec := mkAttrSpec {
  GraphStrAttrNum : Z;
  NodeStrAttrNum : Z;
  NestStrAttrNum : Z
}.

Definition DefaultAttrSpec : AttrSpec := mkAttrSpec 0 0 0.

Module Node.
Record t := mk {
    firstIncomingEdge : ptr;
    firstOutcomingEdge : ptr;
    id : Z;
    nest : ptr;
    nextNodeInNest : ptr;
    prevNodeInNest : ptr;
    graph : ptr;
    strAttrs : list strAttrVal
  }.
Definition with_firstIncomingEdge (v : ptr) (n : t) : t :=
    mk v (firstOutcomingEdge n) (id n) (nest n) (nextNodeInNest n)
       (prevNodeInNest n) (graph n) (strAttrs n).
Definition with_firstOutcomingEdge (v : ptr) (n : t) : t :=
    mk (firstIncomingEdge n) v (id n) (nest n) (nextNodeInNest n)
       (prevNodeInNest n) (graph n) (strAttrs n).
Definition with_nest (v : ptr) (n : t) : t :=
    mk (firstIncomingEdge n) (firstOutcomingEdge n) (id n) v (nextNodeInNest n)
       (prevNodeInNest n) (graph n) (strAttrs n).
Definition with_nextNodeInNest (v : ptr) (n : t) : t :=
    mk (firstIncomingEdge n) (firstOutcomingEdge n) (id n) (nest n) v
       (prevNodeInNest n) (graph n) (strAttrs n).
Definition with_prevNodeInNest (v : ptr) (n : t) : t :=
    mk (firstIncomingEdge n) (firstOutcomingEdge n) (id n) (nest n)
       (nextNodeInNest n) v (graph n) (strAttrs n).
Definition with_strAttrs (v : list strAttrVal) (n : t) : t :=
    mk (firstIncomingEdge n) (firstOutcomingEdge n) (id n) (nest n)
       (nextNodeInNest n) (prevNodeInNest n) (graph n) v.
End Node.

Module Edge.
Record t := mk {
    id : Z;
    graph : ptr;
    srcNode : ptr;
    dstNode : ptr;
    nextOutcomingEdge : ptr;
    prevOutcomingEdge : ptr;
    nextIncomingEdge : ptr;
    prevIncomingEdge : ptr;
    nextEdgeInNest : ptr;
    prevEdgeInNest : ptr;
    nest : ptr
  }.
Definition with_prevOutcomingEdge (v : ptr) (e : t) : t :=
    mk (id e) (graph e) (srcNode e) (dstNode e) (nextOutcomingEdge e) v
       (nextIncomingEdge e) (prevIncomingEdge e) (nextEdgeInNest e)
       (prevEdgeInNest e) (nest e).
Definition with_prevIncomingEdge (v : ptr) (e : t) : t :=
    mk (id e) (graph e) (srcNode e) (dstNode e) (nextOutcomingEdge e)
       (prevOutcomingEdge e) (nextIncomingEdge e) v (nextEdgeInNest e)
       (prevEdgeInNest e) (nest e).
Definition with_nextEdgeInNest (v : ptr) (e : t) : t :=
    mk (id e) (graph e) (srcNode e) (dstNode e) (nextOutcomingEdge e)
       (prevOutcomingEdge e) (nextIncomingEdge e) (prevIncomingEdge e) v
       (prevEdgeInNest e) (nest e).
Definition with_prevEdgeInNest (v : ptr) (e : t) : t :=
    mk (id e) (graph e) (srcNode e) (dstNode e) (nextOutcomingEdge e)
       (prevOutcomingEdge e) (nextIncomingEdge e) (prevIncomingEdge e)
       (nextEdgeInNest e) v (nest e).
Definition with_nest (v : ptr) (e : t) : t :=
    mk (id e) (graph e) (srcNode e) (dstNode e) (nextOutcomingEdge e)
       (prevOutcomingEdge e) (nextIncomingEdge e) (prevIncomingEdge e)
       (nextEdgeInNest e) (prevEdgeInNest e) v.
End Edge.

Module Nest.
Record t := mk {
    id : Z;
    nestTree : ptr;
    level : Z;
    parentNest : ptr;
    firstChildNest : ptr;
    lastChildNest : ptr;
    nextSiblingNest : ptr;
    prevSiblingNest : ptr;
    firstNode : ptr;
    lastNode : ptr;
    firstEdge : ptr;
    strAttrs : list strAttrVal
  }.
Definition with_firstChildNest (v : ptr) (n : t) : t :=
    mk (id n) (nestTree n) (level n) (parentNest n) v (lastChildNest n)
       (nextSiblingNest n) (prevSiblingNest n) (firstNode n) (lastNode n)
       (firstEdge n) (strAttrs n).
Definition with_lastChildNest (v : ptr) (n : t) : t :=
    mk (id n) (nestTree n) (level n) (parentNest n) (firstChildNest n) v
       (nextSiblingNest n) (prevSiblingNest n) (firstNode n) (lastNode n)
       (firstEdge n) (strAttrs n).
Definition with_prevSiblingNest (v : ptr) (n : t) : t :=
    mk (id n) (nestTree n) (level n) (parentNest n) (firstChildNest n)
       (lastChildNest n) (nextSiblingNest n) v (firstNode n) (lastNode n)
       (firstEdge n) (strAttrs n).
Definition with_firstNode (v : ptr) (n : t) : t :=
    mk (id n) (nestTree n) (level n) (parentNest n) (firstChildNest n)
       (lastChildNest n) (nextSiblingNest n) (prevSiblingNest n) v (lastNode n)
       (firstEdge n) (strAttrs n).
Definition with_lastNode (v : ptr) (n : t) : t :=
    mk (id n) (nestTree n) (level n) (parentNest n) (firstChildNest n)
       (lastChildNest n) (nextSiblingNest n) (prevSiblingNest n) (firstNode n) v
       (firstEdge n) (strAttrs n).
Definition with_firstEdge (v : ptr) (n : t) : t :=
    mk (id n) (nestTree n) (level n) (parentNest n) (firstChildNest n)
       (lastChildNest n) (nextSiblingNest n) (prevSiblingNest n) (firstNode n)
       (lastNode n) v (strAttrs n).
Definition with_strAttrs (v : list strAttrVal) (n : t) : t :=
    mk (id n) (nestTree n) (level n) (parentNest n) (firstChildNest n)
       (lastChildNest n) (nextSiblingNest n) (prevSiblingNest n) (firstNode n)
       (lastNode n) (firstEdge n) v.
End Nest.

Module NestTree.
Record t := mk {
    baseGraph : ptr;
    nestCount : Z;
    rootNest : ptr;
    nestStrAttrAllocMap : list bool
  }.
Definition with_nestCount (v : Z) (n : t) : t :=
    mk (baseGraph n) v (rootNest n) (nestStrAttrAllocMap n).
Definition with_rootNest (v : ptr) (n : t) : t :=
    mk (baseGraph n) (nestCount n) v (nestStrAttrAllocMap n).
Definition with_nestStrAttrAllocMap (v : list bool) (n : t) : t :=
    mk (baseGraph n) (nestCount n) (rootNest n) v.
End NestTree.

Module Graph.
Record t := mk {
    nestTree : ptr;
    nodeCount : Z;
    edgeCount : Z;
    attrSpec : AttrSpec;
    graphStrAttrAllocMap : list bool;
    nodeStrAttrAllocMap : list bool;
    strAttrs : list strAttrVal
  }.
Definition with_nestTree (v : ptr) (g : t) : t :=
    mk v (nodeCount g) (edgeCount g) (attrSpec g) (graphStrAttrAllocMap g)
       (nodeStrAttrAllocMap g) (strAttrs g).
Definition with_nodeCount (v : Z) (g : t) : t :=
    mk (nestTree g) v (edgeCount g) (attrSpec g) (graphStrAttrAllocMap g)
       (nodeStrAttrAllocMap g) (strAttrs g).
Definition with_edgeCount (v : Z) (g : t) : t :=
    mk (nestTree g) (nodeCount g) v (attrSpec g) (graphStrAttrAllocMap g)
       (nodeStrAttrAllocMap g) (strAttrs g).
Definition with_graphStrAttrAllocMap (v : list bool) (g : t) : t :=
    mk (nestTree g) (nodeCount g) (edgeCount g) (attrSpec g) v
       (nodeStrAttrAllocMap g) (strAttrs g).
Definition with_nodeStrAttrAllocMap (v : list bool) (g : t) : t :=
    mk (nestTree g) (nodeCount g) (edgeCount g) (attrSpec g)
       (graphStrAttrAllocMap g) v (strAttrs g).
Definition with_strAttrs (v : list strAttrVal) (g : t) : t :=
    mk (nestTree g) (nodeCount g) (edgeCount g) (attrSpec g)
       (graphStrAttrAllocMap g) (nodeStrAttrAllocMap g) v.
End Graph.

(** ** The store *)

(** One list per object kind; the address of an object is its position.
    Nothing is ever freed by the package, so stores only grow.  The three
    handle stores hold, at address 0, the package-level invalid handle
    that the allocators return a pointer to when a pool is exhausted. *)
Record World := mkWorld {
  graphs : list Graph.t;
  nestTrees : list NestTree.t;
  nests : list Nest.t;
  nodes : list Node.t;
  edges : list Edge.t;
  graphStrAttrs : list StrAttr.t;
  nodeStrAttrs : list StrAttr.t;
  nestStrAttrs : list NestStrAttr.t
}.

Definition init_world : World :=
  mkWorld [] [] [] [] []
          [graph_str_attr_invalid] [node_str_attr_invalid] [nest_str_attr_invalid].

Definition graph_str_attr_invalid_p : ptr := Some 0.
Definition node_str_attr_invalid_p : ptr := Some 0.
Definition nest_str_attr_invalid_p : ptr := Some 0.

(** A store of the world: how to read it and how to replace it. *)
Record store (A : Type) := mkStore {
  sget : World → list A;
  sput : list A → World → World
}.
Arguments mkStore {A}.
Arguments sget {A}.
Arguments sput {A}.

Definition Graphs : store Graph.t :=
  mkStore graphs (λ l w, mkWorld l (nestTrees w) (nests w) (nodes w) (edges w)
                           (graphStrAttrs w) (nodeStrAttrs w) (nestStrAttrs w)).
Definition NestTrees : store NestTree.t :=
  mkStore nestTrees (λ l w, mkWorld (graphs w) l (nests w) (nodes w) (edges w)
                           (graphStrAttrs w) (nodeStrAttrs w) (nestStrAttrs w)).
Definition Nests : store Nest.t :=
  mkStore nests (λ l w, mkWorld (graphs w) (nestTrees w) l (nodes w) (edges w)
                           (graphStrAttrs w) (nodeStrAttrs w) (nestStrAttrs w)).
Definition Nodes : store Node.t :=
  mkStore nodes (λ l w, mkWorld (graphs w) (nestTrees w) (nests w) l (edges w)
                           (graphStrAttrs w) (nodeStrAttrs w) (nestStrAttrs w)).
Definition Edges : store Edge.t :=
  mkStore edges (λ l w, mkWorld (graphs w) (nestTrees w) (nests w) (nodes w) l
                           (graphStrAttrs w) (nodeStrAttrs w) (nestStrAttrs w)).
Definition GraphStrAttrs : store StrAttr.t :=
  mkStore graphStrAttrs (λ l w, mkWorld (graphs w) (nestTrees w) (nests w) (nodes w)
                           (edges w) l (nodeStrAttrs w) (nestStrAttrs w)).
Definition NodeStrAttrs : store StrAttr.t :=
  mkStore nodeStrAttrs (λ l w, mkWorld (graphs w) (nestTrees w) (nests w) (nodes w)
                           (edges w) (graphStrAttrs w) l (nestStrAttrs w)).
Definition NestStrAttrs : store NestStrAttr.t :=
  mkStore nestStrAttrs (λ l w, mkWorld (graphs w) (nestTrees w) (nests w) (nodes w)
                           (edges w) (graphStrAttrs w) (nodeStrAttrs w) l).

(** ** Computations

    A call either returns a value and a new world, or panics (Go's
    run-time panic, explicit or from a nil dereference or an index out of
    range), or is cut off when its loop budget is spent; the world at
    the cut is kept so that properties of unfinished runs can be stated. *)
Inductive res (A : Type) : Type :=
| Done (a : A) (w : World)
| Panic
| Cutoff (w : World).
Arguments Done {A}.
Arguments Panic {A}.
Arguments Cutoff {A}.

Definition M (A : Type) : Type := World → res A.

Definition ret {A} (a : A) : M A := λ w, Done a w.
Definition bind {A B} (m : M A) (f : A → M B) : M B :=
  λ w, match m w with
       | Done a w' => f a w'
       | Panic => Panic
       | Cutoff w' => Cutoff w'
       end.
Definition panic {A} : M A := λ _, Panic.
Definition cutoff {A} : M A := λ w, Cutoff w.

Notation "x <- m ;; k" := (bind m (λ x, k))
  (at level 100, m at next level, right associativity).
Notation "m ;;; k" := (bind m (λ _, k))
  (at level 100, right associativity).

(** [*p] for reading. *)
Definition load {A} (s : store A) (p : ptr) : M A :=
  λ w, match p with
       | Some a => match sget s w !! a with
                   | Some x => Done x w
                   | None => Panic
                   end
       | None => Panic
       end.

(** [p.field = v], as the field update [f]. *)
Definition modify {A} (s : store A) (p : ptr) (f : A → A) : M unit :=
  λ w, match p with
       | Some a => match sget s w !! a with
                   | Some _ => Done tt (sput s (alter f a (sget s w)) w)
                   | None => Panic
                   end
       | None => Panic
       end.

(** [&T{...}]: a fresh object at the end of its store. *)
Definition alloc {A} (s : store A) (x : A) : M ptr :=
  λ w, Done (Some (length (sget s w))) (sput s (sget s w ++ [x]) w).

(** [make([]T, n)]: a negative length panics. *)
Definition make {A} (zero : A) (n : Z) : M (list A) :=
  if (n <? 0)%Z then panic else ret (replicate (Z.to_nat n) zero).

(** A Go [error] result: [None] is [nil]. *)
Definition error : Type := option string.
Definition errors_New (msg : string) : error := Some msg.

(** [x.strAttrs[i]] for reading and [x.strAttrs[i].f = v] for writing, on
    the object at [p]; both panic when [i] is out of range. *)
Definition get_slot {A} (s : store A) (attrs : A → list strAttrVal)
    (p : ptr) (i : Z) : M strAttrVal :=
  x <- load s p ;;
  match idx (attrs x) i with
  | Some v => ret v
  | None => panic
  end.

Definition set_slot {A} (s : store A) (attrs : A → list strAttrVal)
    (with_attrs : list strAttrVal → A → A)
    (p : ptr) (i : Z) (f : strAttrVal → strAttrVal) : M unit :=
  x <- load s p ;;
  match idx (attrs x) i with
  | Some _ => modify s p (λ y, with_attrs (upd (attrs y) i f) y)
  | None => panic
  end.

(** [for i := 0; i < len(m); i++ { if m[i] == false { ... return } }]:
    the index the loop returns at, scanning [k] more positions from [i]. *)
Fixpoint alloc_scan (m : list bool) (i : nat) (k : nat) : option nat :=
  match k with
  | O => None
  | S k' =>
      match m !! i with
      | Some false => Some i
      | _ => alloc_scan m (S i) k'
      end
  end.

Definition first_free (m : list bool) : option nat := alloc_scan m 0 (length m).

(** ** nest_tree.go *)

Definition NT_ROOT_NEST_LEVEL : Z := 0.

(** The loop of [GetNextNest]:
    [for nest != nil && nest.nextSiblingNest == nil { nest = nest.parentNest }]. *)
Fixpoint GetNextNest_up (fuel : nat) (nest : ptr) : M ptr :=
  match nest with
  | None => ret nest
  | Some _ =>
      N <- load Nests nest ;;
      match Nest.nextSiblingNest N with
      | Some _ => ret nest
      | None =>
          match fuel with
          | O => cutoff
          | S fuel' => GetNextNest_up fuel' (Nest.parentNest N)
          end
      end
  end.

Definition Nest_GetNextNest (fuel : nat) (nest : ptr) : M ptr :=
  N <- load Nests nest ;;
  match Nest.firstChildNest N with
  | Some _ => ret (Nest.firstChildNest N)
  | None =>
      match Nest.nextSiblingNest N with
      | Some _ => ret (Nest.nextSiblingNest N)
      | None =>
          nest' <- GetNextNest_up fuel (Nest.parentNest N) ;;
          match nest' with
          | Some _ => N' <- load Nests nest' ;; ret (Nest.nextSiblingNest N')
          | None => ret None
          end
      end
  end.

(** The loop of [GetPrevNest]:
    [for prev_nest.lastChildNest != nil { prev_nest = prev_nest.lastChildNest }]. *)
Fixpoint GetPrevNest_down (fuel : nat) (prev_nest : ptr) : M ptr :=
  P <- load Nests prev_nest ;;
  match Nest.lastChildNest P with
  | None => ret prev_nest
  | Some _ =>
      match fuel with
      | O => cutoff
      | S fuel' => GetPrevNest_down fuel' (Nest.lastChildNest P)
      end
  end.

Definition Nest_GetPrevNest (fuel : nat) (nest : ptr) : M ptr :=
  N <- load Nests nest ;;
  match Nest.prevSiblingNest N with
  | None => ret (Nest.parentNest N)
  | Some _ => GetPrevNest_down fuel (Nest.prevSiblingNest N)
  end.

Definition Nest_GetStrAttrVal (nest attr : ptr) : M (string * error) :=
  A <- load NestStrAttrs attr ;;
  if negb (NestStrAttr.is_valid A) then
    ret ("", errors_New "The attribute is invalid")
  else
    N <- load Nests nest ;;
    if negb (ptr_eqb (NestStrAttr.nestTree A) (Nest.nestTree N)) then
      ret ("", errors_New "The attribute and the nest belong to different nest trees")
    else
      v <- get_slot Nests Nest.strAttrs nest (NestStrAttr.attr_num A) ;;
      if negb (isSet v) then
        ret ("", errors_New "The attribute is not set for the nest")
      else ret (data v, None).

Definition Nest_SetStrAttrVal (nest attr : ptr) (val : string) : M error :=
  A <- load NestStrAttrs attr ;;
  if negb (NestStrAttr.is_valid A) then
    ret (errors_New "The attribute is invalid")
  else
    N <- load Nests nest ;;
    if negb (ptr_eqb (NestStrAttr.nestTree A) (Nest.nestTree N)) then
      ret (errors_New "The attribute and the nest belong to different nest trees")
    else
      set_slot Nests Nest.strAttrs Nest.with_strAttrs nest
               (NestStrAttr.attr_num A) (set_isSet true) ;;;
      set_slot Nests Nest.strAttrs Nest.with_strAttrs nest
               (NestStrAttr.attr_num A) (set_data val) ;;;
      ret None.

(** Both [if] bodies of the source build an error with [errors.New] and
    drop it: there is no [return] in them. *)
Definition Nest_RemoveStrAttr (nest attr : ptr) : M error :=
  A <- load NestStrAttrs attr ;;
  let _ := if negb (NestStrAttr.is_valid A)
           then errors_New "The attribute is invalid" else None in
  N <- load Nests nest ;;
  let _ := if negb (ptr_eqb (NestStrAttr.nestTree A) (Nest.nestTree N))
           then errors_New "The attribute and the nest belong to different nest trees"
           else None in
  set_slot Nests Nest.strAttrs Nest.with_strAttrs nest
           (NestStrAttr.attr_num A) (set_isSet false) ;;;
  ret None.

Definition Nest_IsStrAttrSet (nest attr : ptr) : M (bool * error) :=
  A <- load NestStrAttrs attr ;;
  if negb (NestStrAttr.is_valid A) then
    ret (false, errors_New "The attribute is invalid")
  else
    N <- load Nests nest ;;
    if negb (ptr_eqb (NestStrAttr.nestTree A) (Nest.nestTree N)) then
      ret (false, errors_New "The attribute and the nest belong to different nest trees")
    else
      v <- get_slot Nests Nest.strAttrs nest (NestStrAttr.attr_num A) ;;
      ret (isSet v, None).

Definition Nest_addNode (nest node : ptr) : M unit :=
  N <- load Nests nest ;;
  match Nest.nestTree N with
  | None => panic
  | Some _ =>
      T <- load NestTrees (Nest.nestTree N) ;;
      Nd <- load Nodes node ;;
      if negb (ptr_eqb (NestTree.baseGraph T) (Node.graph Nd)) then panic
      else
        let first_node := Nest.firstNode N in
        match first_node with
        | Some _ => modify Nodes first_node (Node.with_prevNodeInNest node)
        | None => modify Nests nest (Nest.with_lastNode node)
        end ;;;
        modify Nodes node (Node.with_nextNodeInNest first_node) ;;;
        modify Nests nest (Nest.with_firstNode node)
  end.

Definition Nest_removeNode (nest node : ptr) : M unit :=
  N <- load Nests nest ;;
  match Nest.nestTree N with
  | None => panic
  | Some _ =>
      T <- load NestTrees (Nest.nestTree N) ;;
      Nd <- load Nodes node ;;
      if negb (ptr_eqb (NestTree.baseGraph T) (Node.graph Nd)) then panic
      else
        let next_node := Node.nextNodeInNest Nd in
        let prev_node := Node.prevNodeInNest Nd in
        match next_node with
        | Some _ => modify Nodes next_node (Node.with_prevNodeInNest prev_node)
        | None => modify Nests nest (Nest.with_lastNode prev_node)
        end ;;;
        match prev_node with
        | Some _ => modify Nodes prev_node (Node.with_nextNodeInNest next_node)
        | None => modify Nests nest (Nest.with_firstNode next_node)
        end ;;;
        modify Nodes node (Node.with_nextNodeInNest None) ;;;
        modify Nodes node (Node.with_prevNodeInNest None)
  end.

Definition Nest_addEdge (nest edge : ptr) : M unit :=
  N <- load Nests nest ;;
  match Nest.nestTree N with
  | None => panic
  | Some _ =>
      T <- load NestTrees (Nest.nestTree N) ;;
      E <- load Edges edge ;;
      if negb (ptr_eqb (NestTree.baseGraph T) (Edge.graph E)) then panic
      else
        let first_edge := Nest.firstEdge N in
        match first_edge with
        | Some _ => modify Edges first_edge (Edge.with_prevEdgeInNest edge)
        | None => ret tt
        end ;;;
        modify Edges edge (Edge.with_nextEdgeInNest first_edge) ;;;
        modify Nests nest (Nest.with_firstEdge edge)
  end.

Definition Nest_removeEdge (nest edge : ptr) : M unit :=
  N <- load Nests nest ;;
  match Nest.nestTree N with
  | None => panic
  | Some _ =>
      T <- load NestTrees (Nest.nestTree N) ;;
      E <- load Edges edge ;;
      if negb (ptr_eqb (NestTree.baseGraph T) (Edge.graph E)) then panic
      else
        let next_edge := Edge.nextEdgeInNest E in
        let prev_edge := Edge.prevEdgeInNest E in
        match next_edge with
        | Some _ => modify Edges next_edge (Edge.with_prevEdgeInNest prev_edge)
        | None => ret tt
        end ;;;
        match prev_edge with
        | Some _ => modify Edges prev_edge (Edge.with_nextEdgeInNest next_edge)
        | None => modify Nests nest (Nest.with_firstEdge next_edge)
        end ;;;
        modify Edges edge (Edge.with_nextEdgeInNest None) ;;;
        modify Edges edge (Edge.with_prevEdgeInNest None)
  end.

(** The root nest literal of the source has no [strAttrs] field: the
    root's slice is Go's zero value, the nil slice of length 0. *)
Definition newNestTree (base_graph : ptr) : M ptr :=
  match base_graph with
  | None => panic
  | Some _ =>
      G <- load Graphs base_graph ;;
      m <- make false (NestStrAttrNum (Graph.attrSpec G)) ;;
      nt_p <- alloc NestTrees (NestTree.mk base_graph 0 None m) ;;
      root_nest_p <- alloc Nests
        (Nest.mk 0 nt_p NT_ROOT_NEST_LEVEL None None None None None None None None []) ;;
      modify NestTrees nt_p (λ T, NestTree.with_nestCount (int_succ (NestTree.nestCount T)) T) ;;;
      modify NestTrees nt_p (NestTree.with_rootNest root_nest_p) ;;;
      ret nt_p
  end.

Definition NestTree_NewNest (nt : ptr) : M ptr :=
  T <- load NestTrees nt ;;
  match NestTree.rootNest T with
  | None => panic
  | Some _ =>
      match NestTree.baseGraph T with
      | None => panic
      | Some _ =>
          R <- load Nests (NestTree.rootNest T) ;;
          G <- load Graphs (NestTree.baseGraph T) ;;
          attrs <- make zeroVal (NestStrAttrNum (Graph.attrSpec G)) ;;
          nest_p <- alloc Nests
            (Nest.mk (NestTree.nestCount T) nt (int_wrap (Nest.level R + 1))
                     (NestTree.rootNest T) None None (Nest.firstChildNest R) None
                     None None None attrs) ;;
          let sibling := Nest.firstChildNest R in
          match sibling with
          | Some _ => modify Nests sibling (Nest.with_prevSiblingNest nest_p)
          | None => modify Nests (NestTree.rootNest T) (Nest.with_lastChildNest nest_p)
          end ;;;
          modify Nests (NestTree.rootNest T) (Nest.with_firstChildNest nest_p) ;;;
          modify NestTrees nt (λ T, NestTree.with_nestCount (int_succ (NestTree.nestCount T)) T) ;;;
          ret nest_p
      end
  end.

Definition NestTree_NewNestStrAttr (nt : ptr) : M (ptr * error) :=
  T <- load NestTrees nt ;;
  match first_free (NestTree.nestStrAttrAllocMap T) with
  | Some i =>
      modify NestTrees nt
        (λ T, NestTree.with_nestStrAttrAllocMap
                (<[i := true]> (NestTree.nestStrAttrAllocMap T)) T) ;;;
      new_attr <- alloc NestStrAttrs (NestStrAttr.mk (Z.of_nat i) true nt) ;;
      ret (new_attr, None)
  | None =>
      ret (nest_str_attr_invalid_p, errors_New "No available nest string attributes")
  end.

Definition NestTree_GetRootNest (nt : ptr) : M ptr :=
  T <- load NestTrees nt ;; ret (NestTree.rootNest T).


(** The sweep of [ReleaseNestStrAttr]:
    [for nest := ...; nest != nil; nest = nest.GetNextNest() { nest.RemoveStrAttr(attr) }]. *)
Fixpoint ReleaseNestStrAttr_sweep (fuel : nat) (nest attr : ptr) : M unit :=
  match nest with
  | None => ret tt
  | Some _ =>
      match fuel with
      | O => cutoff
      | S fuel' =>
          Nest_RemoveStrAttr nest attr ;;;
          next <- Nest_GetNextNest fuel nest ;;
          ReleaseNestStrAttr_sweep fuel' next attr
      end
  end.

Definition NestTree_ReleaseNestStrAttr (fuel : nat) (nt attr : ptr) : M error :=
  A <- load NestStrAttrs attr ;;
  if negb (NestStrAttr.is_valid A) then
    ret (errors_New "The attribute cannot be released. It's invalid")
  else if negb (ptr_eqb (NestStrAttr.nestTree A) nt) then
    ret (errors_New "The attribute doesn't belong to the nest tree")
  else
    let attr_num := NestStrAttr.attr_num A in
    root <- NestTree_GetRootNest nt ;;
    ReleaseNestStrAttr_sweep fuel root attr ;;;
    T <- load NestTrees nt ;;
    match idx (NestTree.nestStrAttrAllocMap T) attr_num with
    | None => panic
    | Some _ =>
        modify NestTrees nt
          (λ T, NestTree.with_nestStrAttrAllocMap
                  (upd (NestTree.nestStrAttrAllocMap T) attr_num (λ _, false)) T) ;;;
        modify NestStrAttrs attr (λ _, nest_str_attr_invalid) ;;;
        ret None
    end.

(** ** graph.go *)

Definition NewGraph (attr_spec : AttrSpec) : M ptr :=
  gm <- make false (GraphStrAttrNum attr_spec) ;;
  nm <- make false (NodeStrAttrNum attr_spec) ;;
  sa <- make zeroVal (GraphStrAttrNum attr_spec) ;;
  graph_p <- alloc Graphs (Graph.mk None 0 0 attr_spec gm nm sa) ;;
  nt <- newNestTree graph_p ;;
  modify Graphs graph_p (Graph.with_nestTree nt) ;;;
  ret graph_p.

Definition Graph_GetNestTree (graph : ptr) : M ptr :=
  G <- load Graphs graph ;; ret (Graph.nestTree G).

(** [for nest != nil && nest.firstNode == nil { nest = nest.GetNextNest() }],
    the loop shared by [Graph.GetFirstNode] and [Node.GetNextNode]. *)
Fixpoint skip_empty_fwd (fuel : nat) (nest : ptr) : M ptr :=
  match nest with
  | None => ret nest
  | Some _ =>
      N <- load Nests nest ;;
      match Nest.firstNode N with
      | Some _ => ret nest
      | None =>
          match fuel with
          | O => cutoff
          | S fuel' =>
              next <- Nest_GetNextNest fuel nest ;;
              skip_empty_fwd fuel' next
          end
      end
  end.

(** [for nest != nil && nest.lastNode == nil { nest = nest.GetPrevNest() }]
    of [Node.GetPrevNode]. *)
Fixpoint skip_empty_bwd (fuel : nat) (nest : ptr) : M ptr :=
  match nest with
  | None => ret nest
  | Some _ =>
      N <- load Nests nest ;;
      match Nest.lastNode N with
      | Some _ => ret nest
      | None =>
          match fuel with
          | O => cutoff
          | S fuel' =>
              prev <- Nest_GetPrevNest fuel nest ;;
              skip_empty_bwd fuel' prev
          end
      end
  end.

Definition Graph_GetFirstNode (fuel : nat) (graph : ptr) : M ptr :=
  G <- load Graphs graph ;;
  match Graph.nestTree G with
  | None => panic
  | Some _ =>
      T <- load NestTrees (Graph.nestTree G) ;;
      match NestTree.rootNest T with
      | None => panic
      | Some _ =>
          nest <- skip_empty_fwd fuel (NestTree.rootNest T) ;;
          match nest with
          | None => ret None
          | Some _ => N <- load Nests nest ;; ret (Nest.firstNode N)
          end
      end
  end.

Definition Graph_NewGraphStrAttr (graph : ptr) : M (ptr * error) :=
  G <- load Graphs graph ;;
  match first_free (Graph.graphStrAttrAllocMap G) with
  | Some i =>
      modify Graphs graph
        (λ G, Graph.with_graphStrAttrAllocMap
                (<[i := true]> (Graph.graphStrAttrAllocMap G)) G) ;;;
      new_attr <- alloc GraphStrAttrs (StrAttr.mk (Z.of_nat i) true graph) ;;
      ret (new_attr, None)
  | None =>
      ret (graph_str_attr_invalid_p, errors_New "No available graph string attributes")
  end.

(** As in [Nest.RemoveStrAttr], the two errors are built and dropped. *)
Definition Graph_RemoveStrAttr (graph attr : ptr) : M error :=
  A <- load GraphStrAttrs attr ;;
  let _ := if negb (StrAttr.isValid A)
           then errors_New "The attribute is invalid" else None in
  let _ := if negb (ptr_eqb (StrAttr.graph A) graph)
           then errors_New "The attribute doesn't belong to the graph" else None in
  set_slot Graphs Graph.strAttrs Graph.with_strAttrs graph
           (StrAttr.attrNum A) (set_isSet false) ;;;
  ret None.

Definition Graph_IsStrAttrSet (graph attr : ptr) : M (bool * error) :=
  A <- load GraphStrAttrs attr ;;
  if negb (StrAttr.isValid A) then
    ret (false, errors_New "The attribute is invalid")
  else if negb (ptr_eqb (StrAttr.graph A) graph) then
    ret (false, errors_New "The attribute doesn't belong to the graph")
  else
    v <- get_slot Graphs Graph.strAttrs graph (StrAttr.attrNum A) ;;
    ret (isSet v, None).

Definition Graph_SetStrAttrVal (graph attr : ptr) (val : string) : M error :=
  A <- load GraphStrAttrs attr ;;
  if negb (StrAttr.isValid A) then
    ret (errors_New "The attribute is invalid")
  else if negb (ptr_eqb (StrAttr.graph A) graph) then
    ret (errors_New "The attribute doesn't belong to the graph")
  else
    set_slot Graphs Graph.strAttrs Graph.with_strAttrs graph
             (StrAttr.attrNum A) (set_isSet true) ;;;
    set_slot Graphs Graph.strAttrs Graph.with_strAttrs graph
             (StrAttr.attrNum A) (set_data val) ;;;
    ret None.

Definition Graph_GetStrAttrVal (graph attr : ptr) : M (string * error) :=
  A <- load GraphStrAttrs attr ;;
  if negb (StrAttr.isValid A) then
    ret ("", errors_New "The attribute is invalid")
  else if negb (ptr_eqb (StrAttr.graph A) graph) then
    ret ("", errors_New "The attribute doesn't belong to the graph")
  else
    v <- get_slot Graphs Graph.strAttrs graph (StrAttr.attrNum A) ;;
    if negb (isSet v) then
      ret ("", errors_New "The attribute is not set for the graph")
    else ret (data v, None).

Definition Graph_ReleaseGraphStrAttr (graph attr : ptr) : M error :=
  A <- load GraphStrAttrs attr ;;
  if negb (StrAttr.isValid A) then
    ret (errors_New "The attribute cannot be released. It's invalid")
  else if negb (ptr_eqb (StrAttr.graph A) graph) then
    ret (errors_New "The attribute doesn't belong to the graph")
  else
    let attr_num := StrAttr.attrNum A in
    Graph_RemoveStrAttr graph attr ;;;
    G <- load Graphs graph ;;
    match idx (Graph.graphStrAttrAllocMap G) attr_num with
    | None => panic
    | Some _ =>
        modify Graphs graph
          (λ G, Graph.with_graphStrAttrAllocMap
                  (upd (Graph.graphStrAttrAllocMap G) attr_num (λ _, false)) G) ;;;
        modify GraphStrAttrs attr (λ _, graph_str_attr_invalid) ;;;
        ret None
    end.

Definition Graph_NewNodeStrAttr (graph : ptr) : M (ptr * error) :=
  G <- load Graphs graph ;;
  match first_free (Graph.nodeStrAttrAllocMap G) with
  | Some i =>
      modify Graphs graph
        (λ G, Graph.with_nodeStrAttrAllocMap
                (<[i := true]> (Graph.nodeStrAttrAllocMap G)) G) ;;;
      new_attr <- alloc NodeStrAttrs (StrAttr.mk (Z.of_nat i) true graph) ;;
      ret (new_attr, None)
  | None =>
      ret (node_str_attr_invalid_p, errors_New "No available node string attributes")
  end.

Definition Node_GetNextNode (fuel : nat) (node : ptr) : M ptr :=
  Nd <- load Nodes node ;;
  match Node.nextNodeInNest Nd with
  | Some _ => ret (Node.nextNodeInNest Nd)
  | None =>
      match Node.nest Nd with
      | None => panic
      | Some _ =>
          first <- Nest_GetNextNest fuel (Node.nest Nd) ;;
          nest <- skip_empty_fwd fuel first ;;
          match nest with
          | None => ret None
          | Some _ => N <- load Nests nest ;; ret (Nest.firstNode N)
          end
      end
  end.

Definition Node_GetPrevNode (fuel : nat) (node : ptr) : M ptr :=
  Nd <- load Nodes node ;;
  match Node.prevNodeInNest Nd with
  | Some _ => ret (Node.prevNodeInNest Nd)
  | None =>
      match Node.nest Nd with
      | None => panic
      | Some _ =>
          first <- Nest_GetPrevNest fuel (Node.nest Nd) ;;
          nest <- skip_empty_bwd fuel first ;;
          match nest with
          | None => ret None
          | Some _ => N <- load Nests nest ;; ret (Nest.lastNode N)
          end
      end
  end.

Definition Node_SetStrAttrVal (node attr : ptr) (val : string) : M error :=
  A <- load NodeStrAttrs attr ;;
  if negb (StrAttr.isValid A) then
    ret (errors_New "The attribute is invalid")
  else
    Nd <- load Nodes node ;;
    if negb (ptr_eqb (StrAttr.graph A) (Node.graph Nd)) then
      ret (errors_New "The attribute and the node belong to different graphs")
    else
      set_slot Nodes Node.strAttrs Node.with_strAttrs node
               (StrAttr.attrNum A) (set_isSet true) ;;;
      set_slot Nodes Node.strAttrs Node.with_strAttrs node
               (StrAttr.attrNum A) (set_data val) ;;;
      ret None.

Definition Node_GetStrAttrVal (node attr : ptr) : M (string * error) :=
  A <- load NodeStrAttrs attr ;;
  if negb (StrAttr.isValid A) then
    ret ("", errors_New "The attribute is invalid")
  else
    Nd <- load Nodes node ;;
    if negb (ptr_eqb (StrAttr.graph A) (Node.graph Nd)) then
      ret ("", errors_New "The attribute and the node belong to different graphs")
    else
      v <- get_slot Nodes Node.strAttrs node (StrAttr.attrNum A) ;;
      if negb (isSet v) then
        ret ("", errors_New "The attribute is not set for the node")
      else ret (data v, None).

(** The two errors are built and dropped, as in the source. *)
Definition Node_RemoveStrAttr (node attr : ptr) : M error :=
  A <- load NodeStrAttrs attr ;;
  let _ := if negb (StrAttr.isValid A)
           then errors_New "The attribute is invalid" else None in
  Nd <- load Nodes node ;;
  let _ := if negb (ptr_eqb (StrAttr.graph A) (Node.graph Nd))
           then errors_New "The attribute and the node belong to different graphs"
           else None in
  set_slot Nodes Node.strAttrs Node.with_strAttrs node
           (StrAttr.attrNum A) (set_isSet false) ;;;
  ret None.

Definition Node_IsStrAttrSet (node attr : ptr) : M (bool * error) :=
  A <- load NodeStrAttrs attr ;;
  if negb (StrAttr.isValid A) then
    ret (false, errors_New "The attribute is invalid")
  else
    Nd <- load Nodes node ;;
    if negb (ptr_eqb (StrAttr.graph A) (Node.graph Nd)) then
      ret (false, errors_New "The attribute and the node belong to different graphs")
    else
      v <- get_slot Nodes Node.strAttrs node (StrAttr.attrNum A) ;;
      ret (isSet v, None).

(** The sweep of [ReleaseNodeStrAttr]:
    [for node := ...; node != nil; node = node.GetNextNode() { node.RemoveStrAttr(attr) }]. *)
Fixpoint ReleaseNodeStrAttr_sweep (fuel : nat) (node attr : ptr) : M unit :=
  match node with
  | None => ret tt
  | Some _ =>
      match fuel with
      | O => cutoff
      | S fuel' =>
          Node_RemoveStrAttr node attr ;;;
          next <- Node_GetNextNode fuel node ;;
          ReleaseNodeStrAttr_sweep fuel' next attr
      end
  end.

Definition Graph_ReleaseNodeStrAttr (fuel : nat) (graph attr : ptr) : M error :=
  A <- load NodeStrAttrs attr ;;
  if negb (StrAttr.isValid A) then
    ret (errors_New "The attribute cannot be released. It's invalid")
  else if negb (ptr_eqb (StrAttr.graph A) graph) then
    ret (errors_New "The attribute doesn't belong to the graph")
  else
    let attr_num := StrAttr.attrNum A in
    first <- Graph_GetFirstNode fuel graph ;;
    ReleaseNodeStrAttr_sweep fuel first attr ;;;
    G <- load Graphs graph ;;
    match idx (Graph.nodeStrAttrAllocMap G) attr_num with
    | None => panic
    | Some _ =>
        modify Graphs graph
          (λ G, Graph.with_nodeStrAttrAllocMap
                  (upd (Graph.nodeStrAttrAllocMap G) attr_num (λ _, false)) G) ;;;
        modify NodeStrAttrs attr (λ _, node_str_attr_invalid) ;;;
        ret None
    end.

Definition Graph_NewNode (graph : ptr) : M ptr :=
  G <- load Graphs graph ;;
  match Graph.nestTree G with
  | None => panic
  | Some _ =>
      T <- load NestTrees (Graph.nestTree G) ;;
      match NestTree.rootNest T with
      | None => panic
      | Some _ =>
          attrs <- make zeroVal (NodeStrAttrNum (Graph.attrSpec G)) ;;
          node_p <- alloc Nodes
            (Node.mk None None (Graph.nodeCount G) (NestTree.rootNest T)
                     None None graph attrs) ;;
          Nest_addNode (NestTree.rootNest T) node_p ;;;
          modify Graphs graph (λ G, Graph.with_nodeCount (int_succ (Graph.nodeCount G)) G) ;;;
          ret node_p
      end
  end.

(** The first two loops of [calcNestAndMoveToIt] have one shape,
    [for a.level > b.level { a = a.parentNest; if a == nil { panic } }],
    run once with (a, b) = (src_nest, dst_nest) and once with
    (a, b) = (dst_nest, src_nest). *)
Fixpoint calc_lift (fuel : nat) (a b : ptr) : M ptr :=
  A <- load Nests a ;;
  B <- load Nests b ;;
  if (Nest.level B <? Nest.level A)%Z then
    match fuel with
    | O => cutoff
    | S fuel' =>
        match Nest.parentNest A with
        | None => panic
        | Some _ => calc_lift fuel' (Nest.parentNest A) b
        end
    end
  else ret a.

(** The third loop: [for dst_nest != src_nest { both step to the parent }]. *)
Fixpoint calc_meet (fuel : nat) (dst_nest src_nest : ptr) : M ptr :=
  if ptr_eqb dst_nest src_nest then ret src_nest
  else
    match fuel with
    | O => cutoff
    | S fuel' =>
        D <- load Nests dst_nest ;;
        S <- load Nests src_nest ;;
        match Nest.parentNest D, Nest.parentNest S with
        | Some _, Some _ => calc_meet fuel' (Nest.parentNest D) (Nest.parentNest S)
        | _, _ => panic
        end
    end.

Definition Edge_calcNestAndMoveToIt (fuel : nat) (edge : ptr) : M unit :=
  E <- load Edges edge ;;
  let src_node := Edge.srcNode E in
  let dst_node := Edge.dstNode E in
  match src_node, dst_node with
  | Some _, Some _ =>
      Sn <- load Nodes src_node ;;
      Dn <- load Nodes dst_node ;;
      if negb (ptr_eqb (Node.graph Sn) (Node.graph Dn)) then panic
      else if negb (ptr_eqb (Edge.graph E) (Node.graph Sn)) then panic
      else
        match Node.nest Sn, Node.nest Dn with
        | Some _, Some _ =>
            Ns <- load Nests (Node.nest Sn) ;;
            Nd <- load Nests (Node.nest Dn) ;;
            if negb (ptr_eqb (Nest.nestTree Ns) (Nest.nestTree Nd)) then panic
            else
              T <- load NestTrees (Nest.nestTree Ns) ;;
              if negb (ptr_eqb (NestTree.baseGraph T) (Edge.graph E)) then panic
              else
                src_nest <- calc_lift fuel (Node.nest Sn) (Node.nest Dn) ;;
                dst_nest <- calc_lift fuel (Node.nest Dn) src_nest ;;
                src_nest <- calc_meet fuel dst_nest src_nest ;;
                match Edge.nest E with
                | Some _ => Nest_removeEdge (Edge.nest E) edge
                | None => ret tt
                end ;;;
                modify Edges edge (Edge.with_nest src_nest) ;;;
                Nest_addEdge src_nest edge
        | _, _ => panic
        end
  | _, _ => panic
  end.

Definition Graph_NewEdge (fuel : nat) (graph src_node dst_node : ptr)
    : M (ptr * error) :=
  match src_node with
  | None => ret (None, errors_New "Pointer to the source node cannot be nil")
  | Some _ =>
      match dst_node with
      | None => ret (None, errors_New "Pointer to the destination node cannot be nil")
      | Some _ =>
          Sn <- load Nodes src_node ;;
          if negb (ptr_eqb (Node.graph Sn) graph) then
            ret (None, errors_New "Source node doesn't belong to the graph for which the method is called")
          else
            Dn <- load Nodes dst_node ;;
            if negb (ptr_eqb (Node.graph Dn) graph) then
              ret (None, errors_New "Destination node doesn't belong to the graph for which the method is called")
            else
              let src_first_out_edge := Node.firstOutcomingEdge Sn in
              let dst_first_in_edge := Node.firstIncomingEdge Dn in
              G <- load Graphs graph ;;
              edge_p <- alloc Edges
                (Edge.mk (Graph.edgeCount G) graph src_node dst_node
                         src_first_out_edge None dst_first_in_edge None
                         None None None) ;;
              match src_first_out_edge with
              | Some _ => modify Edges src_first_out_edge (Edge.with_prevOutcomingEdge edge_p)
              | None => ret tt
              end ;;;
              modify Nodes src_node (Node.with_firstOutcomingEdge edge_p) ;;;
              match dst_first_in_edge with
              | Some _ => modify Edges dst_first_in_edge (Edge.with_prevIncomingEdge edge_p)
              | None => ret tt
              end ;;;
              modify Nodes dst_node (Node.with_firstIncomingEdge edge_p) ;;;
              Edge_calcNestAndMoveToIt fuel edge_p ;;;
              modify Graphs graph (λ G, Graph.with_edgeCount (int_succ (Graph.edgeCount G)) G) ;;;
              ret (edge_p, None)
      end
  end.

Definition Node_GetFirstIncomingEdge (node : ptr) : M ptr :=
  Nd <- load Nodes node ;; ret (Node.firstIncomingEdge Nd).

Definition Node_GetFirstOutcomingEdge (node : ptr) : M ptr :=
  Nd <- load Nodes node ;; ret (Node.firstOutcomingEdge Nd).

Definition Edge_GetNextIncomingEdge (edge : ptr) : M ptr :=
  E <- load Edges edge ;; ret (Edge.nextIncomingEdge E).

Definition Edge_GetNextOutcomingEdge (edge : ptr) : M ptr :=
  E <- load Edges edge ;; ret (Edge.nextOutcomingEdge E).

(** The two loops of [MoveToNest].  Their post statements are the bare
    calls [edge.GetNextIncomingEdge()] and [edge.GetNextOutcomingEdge()]:
    the result is dropped and [edge] is never reassigned, so the next
    round runs on the same edge. *)
Fixpoint MoveToNest_fix_incoming (fuel n : nat) (edge : ptr) : M unit :=
  match edge with
  | None => ret tt
  | Some _ =>
      match n with
      | O => cutoff
      | S n' =>
          E <- load Edges edge ;;
          match Edge.nest E with
          | None => panic
          | Some _ =>
              Edge_calcNestAndMoveToIt fuel edge ;;;
              Edge_GetNextIncomingEdge edge ;;;
              MoveToNest_fix_incoming fuel n' edge
          end
      end
  end.

Fixpoint MoveToNest_fix_outcoming (fuel n : nat) (edge : ptr) : M unit :=
  match edge with
  | None => ret tt
  | Some _ =>
      match n with
      | O => cutoff
      | S n' =>
          E <- load Edges edge ;;
          match Edge.nest E with
          | None => panic
          | Some _ =>
              Edge_calcNestAndMoveToIt fuel edge ;;;
              Edge_GetNextOutcomingEdge edge ;;;
              MoveToNest_fix_outcoming fuel n' edge
          end
      end
  end.

Definition Node_MoveToNest (fuel : nat) (node nest : ptr) : M error :=
  N <- load Nests nest ;;
  T <- load NestTrees (Nest.nestTree N) ;;
  Nd <- load Nodes node ;;
  if negb (ptr_eqb (NestTree.baseGraph T) (Node.graph Nd)) then
    ret (errors_New "Attempt to move a graph node to a nest that belongs to a different graph")
  else
    match Node.nest Nd with
    | None => panic
    | Some _ =>
        Nest_removeNode (Node.nest Nd) node ;;;
        modify Nodes node (Node.with_nest nest) ;;;
        Nest_addNode nest node ;;;
        first_in <- Node_GetFirstIncomingEdge node ;;
        MoveToNest_fix_incoming fuel fuel first_in ;;;
        first_out <- Node_GetFirstOutcomingEdge node ;;
        MoveToNest_fix_outcoming fuel fuel first_out ;;;
        ret None
    end.

(** ** The public interface as a transition system *)

(** The mutating calls a client of the package can make.  The getters
    only read and are left out. *)
Inductive call : Type :=
| Call_NewGraph (attr_spec : AttrSpec)
| Call_NewGraphStrAttr (graph : ptr)
| Call_Graph_RemoveStrAttr (graph attr : ptr)
| Call_Graph_SetStrAttrVal (graph attr : ptr) (val : string)
| Call_ReleaseGraphStrAttr (graph attr : ptr)
| Call_NewNodeStrAttr (graph : ptr)
| Call_ReleaseNodeStrAttr (graph attr : ptr)
| Call_NewNode (graph : ptr)
| Call_NewEdge (graph src_node dst_node : ptr)
| Call_Node_SetStrAttrVal (node attr : ptr) (val : string)
| Call_Node_RemoveStrAttr (node attr : ptr)
| Call_MoveToNest (node nest : ptr)
| Call_NewNest (nt : ptr)
| Call_NewNestStrAttr (nt : ptr)
| Call_ReleaseNestStrAttr (nt attr : ptr)
| Call_Nest_SetStrAttrVal (nest attr : ptr) (val : string)
| Call_Nest_RemoveStrAttr (nest attr : ptr).

Definition exec (fuel : nat) (c : call) : M unit :=
  match c with
  | Call_NewGraph a => NewGraph a ;;; ret tt
  | Call_NewGraphStrAttr g => Graph_NewGraphStrAttr g ;;; ret tt
  | Call_Graph_RemoveStrAttr g a => Graph_RemoveStrAttr g a ;;; ret tt
  | Call_Graph_SetStrAttrVal g a v => Graph_SetStrAttrVal g a v ;;; ret tt
  | Call_ReleaseGraphStrAttr g a => Graph_ReleaseGraphStrAttr g a ;;; ret tt
  | Call_NewNodeStrAttr g => Graph_NewNodeStrAttr g ;;; ret tt
  | Call_ReleaseNodeStrAttr g a => Graph_ReleaseNodeStrAttr fuel g a ;;; ret tt
  | Call_NewNode g => Graph_NewNode g ;;; ret tt
  | Call_NewEdge g s d => Graph_NewEdge fuel g s d ;;; ret tt
  | Call_Node_SetStrAttrVal n a v => Node_SetStrAttrVal n a v ;;; ret tt
  | Call_Node_RemoveStrAttr n a => Node_RemoveStrAttr n a ;;; ret tt
  | Call_MoveToNest n k => Node_MoveToNest fuel n k ;;; ret tt
  | Call_NewNest t => NestTree_NewNest t ;;; ret tt
  | Call_NewNestStrAttr t => NestTree_NewNestStrAttr t ;;; ret tt
  | Call_ReleaseNestStrAttr t a => NestTree_ReleaseNestStrAttr fuel t a ;;; ret tt
  | Call_Nest_SetStrAttrVal k a v => Nest_SetStrAttrVal k a v ;;; ret tt
  | Call_Nest_RemoveStrAttr k a => Nest_RemoveStrAttr k a ;;; ret tt
  end.

(** The worlds a client can bring about: start with nothing but the
    package-level variables and make calls that return. *)
Inductive reachable : World → Prop :=
| reach_init : reachable init_world
| reach_step w fuel c w' :
    reachable w → exec fuel c w = Done tt w' → reachable w'.

(** ** Outcomes *)

(** [wp m w Q T]: from [w], [m] does not panic; if it returns, [Q] holds
    of the result and the new world; if it is cut off, [T] holds of the
    world at the cut. *)
Definition wp {A} (m : M A) (w : World) (Q : A → World → Prop)
    (T : World → Prop) : Prop :=
  match m w with
  | Done a w' => Q a w'
  | Panic => False
  | Cutoff w' => T w'
  end.

(** [keeps P m]: [m] never leaves [P], wherever it stops. *)
Definition keeps {A} (P : World → Prop) (m : M A) : Prop :=
  ∀ w, P w →
    match m w with
    | Done _ w' => P w'
    | Panic => True
    | Cutoff w' => P w'
    end.

Definition modify_w {A} (s : store A) (a : nat) (f : A → A) (w : World) : World :=
  sput s (alter f a (sget s w)) w.

Definition alloc_w {A} (s : store A) (x : A) (w : World) : World :=
  sput s (sget s w ++ [x]) w.

(** ** Nearest common ancestor, by its definition *)

(** [anc w k a]: nest [a] is [k] or lies above [k] on the parent chain. *)
Inductive anc (w : World) : nat → nat → Prop :=
| anc_refl k : anc w k k
| anc_step k K p a :
    nests w !! k = Some K → Nest.parentNest K = Some p → anc w p a → anc w k a.

(** [c] is a common ancestor of [a] and [b] that lies below every other
    common ancestor. *)
Definition is_nca (w : World) (a b c : nat) : Prop :=
  anc w a c ∧ anc w b c ∧ ∀ x, anc w a x → anc w b x → anc w c x.

(** ** Well-formed worlds *)

Definition vptr {A} (l : list A) (p : ptr) : Prop :=
  match p with
  | Some a => a < length l
  | None => True
  end.

Definition node_nest (w : World) (i : nat) : ptr :=
  N ← nodes w !! i; Node.nest N.

Definition root_of (w : World) (k : nat) : ptr :=
  K ← nests w !! k; t ← Nest.nestTree K; T ← nestTrees w !! t; NestTree.rootNest T.

Definition okGraph (w : World) (g : nat) (G : Graph.t) : Prop :=
  ∃ t T r R,
    Graph.nestTree G = Some t ∧ nestTrees w !! t = Some T ∧
    NestTree.baseGraph T = Some g ∧ NestTree.rootNest T = Some r ∧
    nests w !! r = Some R ∧ Nest.nestTree R = Some t ∧
    (0 ≤ NodeStrAttrNum (Graph.attrSpec G))%Z ∧
    (0 ≤ NestStrAttrNum (Graph.attrSpec G))%Z.

Definition okTree (w : World) (t : nat) (T : NestTree.t) : Prop :=
  ∃ g G, NestTree.baseGraph T = Some g ∧ graphs w !! g = Some G ∧
         Graph.nestTree G = Some t.

(** A nest is the root of its tree, at level 0 and without a parent, or
    a child of that root at level 1. *)
Definition okNest (w : World) (k : nat) (K : Nest.t) : Prop :=
  ∃ t T r,
    Nest.nestTree K = Some t ∧ nestTrees w !! t = Some T ∧
    NestTree.rootNest T = Some r ∧
    ((k = r ∧ Nest.level K = 0%Z ∧ Nest.parentNest K = None) ∨
     (k ≠ r ∧ Nest.level K = 1%Z ∧ Nest.parentNest K = Some r)) ∧
    vptr (nodes w) (Nest.firstNode K) ∧ vptr (nodes w) (Nest.lastNode K) ∧
    vptr (edges w) (Nest.firstEdge K).

(** The child list of a nest, as far as the traversal reads it. *)
Definition sibNest (w : World) (k : nat) (K : Nest.t) : Prop :=
  (∀ c, Nest.firstChildNest K = Some c →
        ∃ C, nests w !! c = Some C ∧ Nest.prevSiblingNest C = None ∧
             Nest.parentNest C = Some k) ∧
  (∀ d, Nest.nextSiblingNest K = Some d →
        ∃ D, nests w !! d = Some D ∧ Nest.prevSiblingNest D = Some k) ∧
  (Nest.firstChildNest K = None → Nest.lastChildNest K = None) ∧
  (Nest.parentNest K = None → Nest.nextSiblingNest K = None).

Definition okNode (w : World) (N : Node.t) : Prop :=
  vptr (edges w) (Node.firstIncomingEdge N) ∧
  vptr (edges w) (Node.firstOutcomingEdge N) ∧
  vptr (nodes w) (Node.nextNodeInNest N) ∧
  vptr (nodes w) (Node.prevNodeInNest N) ∧
  ∃ g G k K,
    Node.graph N = Some g ∧ graphs w !! g = Some G ∧
    Node.nest N = Some k ∧ nests w !! k = Some K ∧
    Nest.nestTree K = Graph.nestTree G.

Definition okEdge (w : World) (E : Edge.t) : Prop :=
  (∃ s S d D,
     Edge.srcNode E = Some s ∧ nodes w !! s = Some S ∧
     Edge.dstNode E = Some d ∧ nodes w !! d = Some D ∧
     Node.graph S = Edge.graph E ∧ Node.graph D = Edge.graph E) ∧
  vptr (edges w) (Edge.nextEdgeInNest E) ∧
  vptr (edges w) (Edge.prevEdgeInNest E) ∧
  (∀ k, Edge.nest E = Some k →
        ∃ K g G, nests w !! k = Some K ∧ Edge.graph E = Some g ∧
                 graphs w !! g = Some G ∧ Nest.nestTree K = Graph.nestTree G).

(** Both ends of an edge have a non-empty adjacency list on its side. *)
Definition adjEdge (w : World) (E : Edge.t) : Prop :=
  (∃ s S, Edge.srcNode E = Some s ∧ nodes w !! s = Some S ∧
          Node.firstOutcomingEdge S ≠ None) ∧
  (∃ d D, Edge.dstNode E = Some d ∧ nodes w !! d = Some D ∧
          Node.firstIncomingEdge D ≠ None).

(** In a tree of depth at most one the nest of an edge is the nest of
    its ends when they share it and the root otherwise. *)
Definition attrEdge (w : World) (E : Edge.t) : Prop :=
  ∃ s d ks kd r,
    Edge.srcNode E = Some s ∧ Edge.dstNode E = Some d ∧
    node_nest w s = Some ks ∧ node_nest w d = Some kd ∧
    root_of w ks = Some r ∧
    Edge.nest E = Some (if decide (ks = kd) then ks else r).

(** The invariant of reachable worlds; the edge [pend], if any, is one
    under construction, not yet linked and attributed. *)
Record Inv (pend : ptr) (w : World) : Prop := mkInv {
  inv_graph : ∀ g G, graphs w !! g = Some G → okGraph w g G;
  inv_tree : ∀ t T, nestTrees w !! t = Some T → okTree w t T;
  inv_nest : ∀ k K, nests w !! k = Some K → okNest w k K ∧ sibNest w k K;
  inv_node : ∀ i N, nodes w !! i = Some N → okNode w N;
  inv_edge : ∀ e E, edges w !! e = Some E →
               okEdge w E ∧ (Some e ≠ pend → adjEdge w E ∧ attrEdge w E)
}.

(** Fields that no call changes once the object exists. *)
Definition fixGraph (G : Graph.t) := (Graph.nestTree G, Graph.attrSpec G).
Definition fixTree (T : NestTree.t) := (NestTree.baseGraph T, NestTree.rootNest T).
Definition fixNest (K : Nest.t) :=
  (Nest.nestTree K, Nest.level K, Nest.parentNest K).
Definition sibs (K : Nest.t) :=
  (Nest.firstChildNest K, Nest.lastChildNest K, Nest.nextSiblingNest K,
   Nest.prevSiblingNest K).
Definition fixEdge (E : Edge.t) := (Edge.graph E, Edge.srcNode E, Edge.dstNode E).

(** [ext w w']: [w'] has every object of [w], with its fixed fields. *)
Record ext (w w' : World) : Prop := mkExt {
  ext_graph : ∀ g G, graphs w !! g = Some G →
                ∃ G', graphs w' !! g = Some G' ∧ fixGraph G' = fixGraph G;
  ext_tree : ∀ t T, nestTrees w !! t = Some T →
                ∃ T', nestTrees w' !! t = Some T' ∧ fixTree T' = fixTree T;
  ext_nest : ∀ k K, nests w !! k = Some K →
                ∃ K', nests w' !! k = Some K' ∧ fixNest K' = fixNest K;
  ext_node : ∀ i N, nodes w !! i = Some N →
                ∃ N', nodes w' !! i = Some N' ∧ Node.graph N' = Node.graph N;
  ext_edge : ∀ e E, edges w !! e = Some E →
                ∃ E', edges w' !! e = Some E' ∧ fixEdge E' = fixEdge E
}.

(** What the adjacency side of an edge is made of; the nest side
    ([nest], [nextEdgeInNest], [prevEdgeInNest]) is left out. *)
Definition adjOf (E : Edge.t) :=
  (Edge.id E, Edge.graph E, Edge.srcNode E, Edge.dstNode E,
   Edge.nextOutcomingEdge E, Edge.prevOutcomingEdge E,
   Edge.nextIncomingEdge E, Edge.prevIncomingEdge E).

Definition edge_nest (w : World) (e : nat) : option ptr :=
  Edge.nest <$> edges w !! e.

(** ** Attribute pools *)

(** Slot [i] of an allocation map is free and every slot below it is taken. *)
Definition lowest_free (m : list bool) (i : nat) : Prop :=
  m !! i = Some false ∧ ∀ j, j < i → m !! j = Some true.

Definition no_free (m : list bool) : Prop := ∀ i, m !! i ≠ Some false.

(** The world a computation stops in, whatever the way it stops. *)
Definition world_after {A} (m : M A) (w : World) : World :=
  match m w with
  | Done _ w' => w'
  | Panic => w
  | Cutoff w' => w'
  end.

(** A graph with one slot in each attribute pool. *)
Definition world_one_graph : World :=
  world_after (NewGraph (mkAttrSpec 1 1 1)) init_world.

(** What the spec asks of an allocator run from world [w] over the
    allocation map [m]: with a free slot, it returns a fresh valid handle
    [mk i] onto the lowest free slot [i] and marks that slot in the map
    (whose size stays as it was); it returns an error, with the
    package-level invalid handle and the world untouched, exactly when no
    slot is free. *)
Definition allocates {H} (run : res (ptr * error)) (w : World) (m : list bool)
    (handles : World → list H) (map_of : World → option (list bool))
    (mk : nat → H) (invalid : ptr) : Prop :=
  (∀ i, lowest_free m i →
     ∃ w', run = Done (Some (length (handles w)), None) w' ∧
           handles w' !! length (handles w) = Some (mk i) ∧
           map_of w' = Some (<[i := true]> m)) ∧
  (no_free m → ∃ e, run = Done (invalid, Some e) w) ∧
  ((∃ h e w', run = Done (h, Some e) w') ↔ no_free m).

(** ** Scenarios *)

(** Two nodes [a] (address 0) and [b] (address 1) in the root nest of one
    graph, and one edge from [a] to [b] (address 0). *)
Definition build_edge : M unit :=
  g <- NewGraph DefaultAttrSpec ;;
  a <- Graph_NewNode g ;;
  b <- Graph_NewNode g ;;
  Graph_NewEdge 1 g a b ;;;
  ret tt.

Definition world_edge : World := world_after build_edge init_world.

(** A tree of a root (address 0) and two nests made by [NewNest]: the
    first made is at address 1, the second at address 2. *)
Definition build_two_nests : M unit :=
  g <- NewGraph DefaultAttrSpec ;;
  t <- Graph_GetNestTree g ;;
  NestTree_NewNest t ;;;
  NestTree_NewNest t ;;;
  ret tt.

Definition world_two_nests : World := world_after build_two_nests init_world.

(** Two graphs with one node attribute slot each, a node of the first
    graph (address 0), a handle of each graph (addresses 1 and 2 of the
    node handle store) and a value set on the node through the first. *)
Definition build_foreign : M unit :=
  g1 <- NewGraph (mkAttrSpec 0 1 0) ;;
  g2 <- NewGraph (mkAttrSpec 0 1 0) ;;
  n <- Graph_NewNode g1 ;;
  h1 <- Graph_NewNodeStrAttr g1 ;;
  h2 <- Graph_NewNodeStrAttr g2 ;;
  Node_SetStrAttrVal n (fst h1) "v" ;;;
  ret tt.

Definition world_foreign : World := world_after build_foreign init_world.

(** One graph with one nest attribute slot, the slot allocated (handle at
    address 1 of the nest handle store), and one nest made by [NewNest]
    (address 1) beside the root (address 0). *)
Definition build_nest_attr : M unit :=
  g <- NewGraph (mkAttrSpec 0 0 1) ;;
  t <- Graph_GetNestTree g ;;
  NestTree_NewNestStrAttr t ;;;
  NestTree_NewNest t ;;;
  ret tt.

Definition world_nest_attr : World := world_after build_nest_attr init_world.

(** Nodes [a] and [b] moved into two different nests before the edge
    from [a] to [b] is made, and a second edge from [a] to itself. *)
Definition build_nested_edges : M unit :=
  g <- NewGraph (mkAttrSpec 1 1 1) ;;
  t <- Graph_GetNestTree g ;;
  c1 <- NestTree_NewNest t ;;
  c2 <- NestTree_NewNest t ;;
  a <- Graph_NewNode g ;;
  b <- Graph_NewNode g ;;
  Node_MoveToNest 1 a c1 ;;;
  Node_MoveToNest 1 b c2 ;;;
  Graph_NewEdge 1 g a b ;;;
  Graph_NewEdge 1 g a a ;;;
  ret tt.

Definition world_nested_edges : World := world_after build_nested_edges init_world.

(** The heads of node [n]'s two adjacency lists. *)
Definition adj_heads (n : nat) (fi fo : ptr) (w : World) : Prop :=
  ∃ N, nodes w !! n = Some N ∧
       Node.firstIncomingEdge N = fi ∧ Node.firstOutcomingEdge N = fo.

(** [MoveToNest] in two parts: the relinking of the node, from nest
    [old] to [nest], and the two loops over its edges. *)
Definition MoveToNest_relink (node old nest : ptr) : M unit :=
  Nest_removeNode old node ;;;
  modify Nodes node (Node.with_nest nest) ;;;
  Nest_addNode nest node.

Definition MoveToNest_fix (fuel : nat) (node : ptr) : M error :=
  first_in <- Node_GetFirstIncomingEdge node ;;
  MoveToNest_fix_incoming fuel fuel first_in ;;;
  first_out <- Node_GetFirstOutcomingEdge node ;;
  MoveToNest_fix_outcoming fuel fuel first_out ;;;
  ret None.

(** [world_edge] once [MoveToNest(b, root)] has relinked [b] and is about
    to enter its first loop. *)
Definition world_edge_moving : World :=
  world_after (MoveToNest_relink (Some 1) (Some 0) (Some 0)) world_edge.

(** Nest [k] of a tree with root [r]: the root, or a child of it. *)
Definition shape (w : World) (r k : nat) (K : Nest.t) : Prop :=
  nests w !! k = Some K ∧
  ((k = r ∧ Nest.level K = 0%Z ∧ Nest.parentNest K = None) ∨
   (k ≠ r ∧ Nest.level K = 1%Z ∧ Nest.parentNest K = Some r)).

(** What the moves of edges between nest lists leave alone: every node,
    the fixed fields of every object, the adjacency side of every edge. *)
Definition edge_frame (w0 w : World) : Prop :=
  ext w0 w ∧ nodes w = nodes w0 ∧
  ∀ e, adjOf <$> edges w !! e = adjOf <$> edges w0 !! e.

(** The nest of every edge but [x] is as it was. *)
Definition edge_nests_but (x : ptr) (w0 w : World) : Prop :=
  ∀ e, Some e ≠ x → edge_nest w e = edge_nest w0 e.

(** What the moves of nodes between nest lists leave alone: every edge,
    the fixed fields of every object, and of a node all but its two
    links in the list of its nest. *)
Definition nodeCore (N : Node.t) :=
  (Node.firstIncomingEdge N, Node.firstOutcomingEdge N, Node.id N,
   Node.nest N, Node.graph N, Node.strAttrs N).

Definition node_frame (w0 w : World) : Prop :=
  ext w0 w ∧ edges w = edges w0 ∧
  ∀ i, nodeCore <$> nodes w !! i = nodeCore <$> nodes w0 !! i.

Definition modify_opt_w {A} (s : store A) (p : ptr) (f : A → A) (w : World) : World :=
  match p with
  | Some a => modify_w s a f w
  | None => w
  end.

(** Edge [e] from [s] to [d] stands at the head of the outgoing list of
    [s] and of the incoming list of [d], before the former heads (read in
    [w], the world before the insertion), and has a nest. *)
Definition head_inserted (w w' : World) (s d e : nat) : Prop :=
  ∃ S D S' D' E',
    nodes w !! s = Some S ∧ nodes w !! d = Some D ∧
    nodes w' !! s = Some S' ∧ Node.firstOutcomingEdge S' = Some e ∧
    nodes w' !! d = Some D' ∧ Node.firstIncomingEdge D' = Some e ∧
    edges w !! e = None ∧ edges w' !! e = Some E' ∧
    Edge.srcNode E' = Some s ∧ Edge.dstNode E' = Some d ∧
    Edge.nextOutcomingEdge E' = Node.firstOutcomingEdge S ∧
    Edge.prevOutcomingEdge E' = None ∧
    Edge.nextIncomingEdge E' = Node.firstIncomingEdge D ∧
    Edge.prevIncomingEdge E' = None ∧
    Edge.nest E' ≠ None ∧
    (∀ f, Node.firstOutcomingEdge S = Some f →
          ∃ F', edges w' !! f = Some F' ∧ Edge.prevOutcomingEdge F' = Some e) ∧
    (∀ f, Node.firstIncomingEdge D = Some f →
          ∃ F', edges w' !! f = Some F' ∧ Edge.prevIncomingEdge F' = Some e).

(** Every edge has in [w'] the nest it has in [w]. *)
Definition same_edge_nests (w w' : World) : Prop :=
  ∀ e, edge_nest w' e = edge_nest w e.

(** [NewNest] on tree [t] made nest [c]: a child of the root at level 1,
    first in the root's child list, before the former first child. *)
Definition new_child (w w' : World) (t c : nat) : Prop :=
  ∃ T r R R' C,
    nestTrees w !! t = Some T ∧ NestTree.rootNest T = Some r ∧
    nests w !! r = Some R ∧ nests w !! c = None ∧
    nests w' !! c = Some C ∧ nests w' !! r = Some R' ∧
    Nest.nestTree C = Some t ∧ Nest.parentNest C = Some r ∧
    Nest.level C = 1%Z ∧
    Nest.nextSiblingNest C = Nest.firstChildNest R ∧
    Nest.prevSiblingNest C = None ∧
    Nest.firstChildNest C = None ∧ Nest.lastChildNest C = None ∧
    Nest.firstChildNest R' = Some c ∧
    (∀ f, Nest.firstChildNest R = Some f →
          ∃ F', nests w' !! f = Some F' ∧ Nest.prevSiblingNest F' = Some c) ∧
    (Nest.firstChildNest R = None → Nest.lastChildNest R' = Some c).

(** How [NewNest] changes the nest at [k], from [K0] to [K3]: [r] is the
    root, [c] the new nest and [fc] the former first child of the root. *)
Definition grown (r c : nat) (fc : ptr) (k : nat) (K0 K3 : Nest.t) : Prop :=
  fixNest K3 = fixNest K0 ∧
  Nest.nextSiblingNest K3 = Nest.nextSiblingNest K0 ∧
  Nest.firstChildNest K3
    = (if decide (k = r) then Some c else Nest.firstChildNest K0) ∧
  Nest.prevSiblingNest K3
    = (if decide (fc = Some k) then Some c else Nest.prevSiblingNest K0) ∧
  (k ≠ r → Nest.lastChildNest K3 = Nest.lastChildNest K0) ∧
  (fc = None → k = r → Nest.lastChildNest K3 = Some c) ∧
  Nest.firstNode K3 = Nest.firstNode K0 ∧ Nest.lastNode K3 = Nest.lastNode K0 ∧
  Nest.firstEdge K3 = Nest.firstEdge K0.

(** Every nest of [w0] is still there in [w], in the same tree, at the
    same level and under the same parent. *)
Definition nest_frame (w0 w : World) : Prop :=
  ∀ k K, nests w0 !! k = Some K →
         ∃ K', nests w !! k = Some K' ∧ fixNest K' = fixNest K.

(** ** The ends [NewEdge] refuses *)

(** [p] is a node of a graph other than the receiver [graph]. *)
Definition foreign_node (w : World) (graph p : ptr) : Prop :=
  ∃ i N, p = Some i ∧ nodes w !! i = Some N ∧ Node.graph N ≠ graph.

Definition bad_ends (w : World) (graph src dst : ptr) : Prop :=
  src = None ∨ dst = None ∨ foreign_node w graph src ∨ foreign_node w graph dst.

(** ** What the attribute methods make of a handle *)

(** The handle is released, or belongs to another owner than [owner]. *)
Definition bad_handle (A : StrAttr.t) (owner : ptr) : Prop :=
  StrAttr.isValid A = false ∨ StrAttr.graph A ≠ owner.

Definition bad_nest_handle (A : NestStrAttr.t) (owner : ptr) : Prop :=
  NestStrAttr.is_valid A = false ∨ NestStrAttr.nestTree A ≠ owner.

(** ** Attribute arrays and handles *)

(** The attribute specification graph [g] was made with, and the one of
    the base graph of tree [t]. *)
Definition gspec (w : World) (g : nat) : option AttrSpec :=
  Graph.attrSpec <$> graphs w !! g.

Definition tspec (w : World) (t : nat) : option AttrSpec :=
  T ← nestTrees w !! t; g ← NestTree.baseGraph T; gspec w g.

Definition in_pool (i n : Z) : Prop := (0 ≤ i < n)%Z.

(** Every attribute array and allocation map has the size its pool was
    given when the graph was made (the array of a root nest has none),
    and a valid handle stands for a slot of the pool of its owner. *)
Record AttrInv (w : World) : Prop := mkAttrInv {
  ai_graph : ∀ g G, graphs w !! g = Some G →
    length (Graph.strAttrs G) = Z.to_nat (GraphStrAttrNum (Graph.attrSpec G)) ∧
    length (Graph.graphStrAttrAllocMap G)
      = Z.to_nat (GraphStrAttrNum (Graph.attrSpec G)) ∧
    length (Graph.nodeStrAttrAllocMap G)
      = Z.to_nat (NodeStrAttrNum (Graph.attrSpec G));
  ai_tree : ∀ t T, nestTrees w !! t = Some T →
    ∃ spec, tspec w t = Some spec ∧
            length (NestTree.nestStrAttrAllocMap T)
              = Z.to_nat (NestStrAttrNum spec);
  ai_node : ∀ i N, nodes w !! i = Some N →
    ∃ g spec, Node.graph N = Some g ∧ gspec w g = Some spec ∧
              length (Node.strAttrs N) = Z.to_nat (NodeStrAttrNum spec);
  ai_nest : ∀ k K, nests w !! k = Some K →
    ∃ t spec, Nest.nestTree K = Some t ∧ tspec w t = Some spec ∧
              length (Nest.strAttrs K)
                = match Nest.parentNest K with
                  | Some _ => Z.to_nat (NestStrAttrNum spec)
                  | None => 0
                  end;
  ai_graph_handle : ∀ a A, graphStrAttrs w !! a = Some A →
    StrAttr.isValid A = true →
    ∃ g spec, StrAttr.graph A = Some g ∧ gspec w g = Some spec ∧
              in_pool (StrAttr.attrNum A) (GraphStrAttrNum spec);
  ai_node_handle : ∀ a A, nodeStrAttrs w !! a = Some A →
    StrAttr.isValid A = true →
    ∃ g spec, StrAttr.graph A = Some g ∧ gspec w g = Some spec ∧
              in_pool (StrAttr.attrNum A) (NodeStrAttrNum spec);
  ai_nest_handle : ∀ a A, nestStrAttrs w !! a = Some A →
    NestStrAttr.is_valid A = true →
    ∃ t spec, NestStrAttr.nestTree A = Some t ∧ tspec w t = Some spec ∧
              in_pool (NestStrAttr.attr_num A) (NestStrAttrNum spec)
}.

(** [pw m w Q T]: from [w], if [m] returns, [Q] holds of the result and
    the new world; if it is cut off, [T] holds of the world at the cut.
    A panic is allowed. *)
Definition pw {A} (m : M A) (w : World) (Q : A → World → Prop)
    (T : World → Prop) : Prop :=
  match m w with
  | Done a w' => Q a w'
  | Panic => True
  | Cutoff w' => T w'
  end.

(** ** Worlds after a write to one object *)

Definition put_node (n : nat) (N : Node.t) (w : World) : World :=
  sput Nodes (<[n := N]> (nodes w)) w.
Definition put_graph (g : nat) (G : Graph.t) (w : World) : World :=
  sput Graphs (<[g := G]> (graphs w)) w.
Definition put_nest (k : nat) (K : Nest.t) (w : World) : World :=
  sput Nests (<[k := K]> (nests w)) w.

(** Slot [i] of an attribute array holds [val]; the other slots are as
    they were. *)
Definition with_slot (l : list strAttrVal) (i : Z) (val : strAttrVal)
    : list strAttrVal :=
  <[Z.to_nat i := val]> l.

(** ** One more scenario *)

(** A graph with two slots in each pool; one handle of each kind
    (address 1 of its store), one node (address 0), and one nest made by
    [NewNest] (address 1) beside the root (address 0). *)
Definition build_attrs : M unit :=
  g <- NewGraph (mkAttrSpec 2 2 2) ;;
  t <- Graph_GetNestTree g ;;
  Graph_NewGraphStrAttr g ;;;
  Graph_NewNodeStrAttr g ;;;
  NestTree_NewNestStrAttr t ;;;
  Graph_NewNode g ;;;
  NestTree_NewNest t ;;;
  ret tt.

Definition world_attrs : World := world_after build_attrs init_world.

(** ** What [NewGraph] makes *)

Definition nonneg_spec (spec : AttrSpec) : Prop :=
  (0 ≤ GraphStrAttrNum spec)%Z ∧ (0 ≤ NodeStrAttrNum spec)%Z ∧
  (0 ≤ NestStrAttrNum spec)%Z.

(** The graph, with nest tree [t]: no nodes, no edges, every slot free
    and unset. *)
Definition fresh_graph (spec : AttrSpec) (t : nat) : Graph.t :=
  Graph.mk (Some t) 0 0 spec
           (replicate (Z.to_nat (GraphStrAttrNum spec)) false)
           (replicate (Z.to_nat (NodeStrAttrNum spec)) false)
           (replicate (Z.to_nat (GraphStrAttrNum spec)) zeroVal).

(** Its nest tree, of base graph [g] and root [r]: one nest, every slot
    free. *)
Definition fresh_tree (spec : AttrSpec) (g r : nat) : NestTree.t :=
  NestTree.mk (Some g) 1 (Some r)
              (replicate (Z.to_nat (NestStrAttrNum spec)) false).

(** The root nest of tree [t]: alone, empty, and without attribute array. *)
Definition fresh_root (t : nat) : Nest.t :=
  Nest.mk 0 (Some t) 0 None None None None None None None None [].

Definition world_with_graph (spec : AttrSpec) (w : World) : World :=
  mkWorld (graphs w ++ [fresh_graph spec (length (nestTrees w))])
          (nestTrees w ++ [fresh_tree spec (length (graphs w)) (length (nests w))])
          (nests w ++ [fresh_root (length (nestTrees w))])
          (nodes w) (edges w)
          (graphStrAttrs w) (nodeStrAttrs w) (nestStrAttrs w).

(** Every node but [n] has in [w] the edges, id, nest, graph and
    attribute values it has in [w0]. *)
Definition other_nodes_same (n : nat) (w0 w : World) : Prop :=
  ∀ i, i ≠ n → nodeCore <$> nodes w !! i = nodeCore <$> nodes w0 !! i.

(** ** The sibling lists of nests *)

(** The links of a nest to the nests around it. *)
Definition nest_links (K : Nest.t) : ptr * (ptr * ptr * ptr * ptr) :=
  (Nest.parentNest K, sibs K).

Definition links (w : World) : list (ptr * (ptr * ptr * ptr * ptr)) :=
  nest_links <$> nests w.

(** The sibling lists are doubly linked, start at the first child of the
    parent, run towards older nests and stay under one parent. *)
Record links_ok (l : list Nest.t) : Prop := mkLinksOk {
  lo_root : ∀ k K, l !! k = Some K → Nest.parentNest K = None →
              Nest.prevSiblingNest K = None;
  lo_prev : ∀ k K p, l !! k = Some K → Nest.prevSiblingNest K = Some p →
              ∃ P, l !! p = Some P ∧ Nest.nextSiblingNest P = Some k;
  lo_first : ∀ k K r, l !! k = Some K → Nest.parentNest K = Some r →
               Nest.prevSiblingNest K = None →
               ∃ R, l !! r = Some R ∧ Nest.firstChildNest R = Some k;
  lo_older : ∀ k K d, l !! k = Some K → Nest.nextSiblingNest K = Some d → d < k;
  lo_parent : ∀ k K d D, l !! k = Some K → Nest.nextSiblingNest K = Some d →
                l !! d = Some D → Nest.parentNest D = Nest.parentNest K
}.

(** [j] comes at or after [k] in the sibling list of [k]. *)
Inductive sib_reach (w : World) : nat → nat → Prop :=
| sr_refl k : sib_reach w k k
| sr_step k K d j :
    nests w !! k = Some K → Nest.nextSiblingNest K = Some d →
    sib_reach w d j → sib_reach w k j.

(** The nests the loop
    [for nest := k; nest != nil; nest = nest.GetNextNest()] goes through,
    in at most [n] rounds. *)
Fixpoint nest_walk (n fuel : nat) (w : World) (k : nat) : option (list nat) :=
  match n with
  | O => None
  | S n' =>
      match Nest_GetNextNest fuel (Some k) w with
      | Done (Some k') _ => (k ::.) <$> nest_walk n' fuel w k'
      | Done None _ => Some [k]
      | _ => None
      end
  end.

(** ** The adjacency lists of nodes *)

Definition Edge_GetSrcNode (edge : ptr) : M ptr :=
  E <- load Edges edge ;; ret (Edge.srcNode E).

Definition Edge_GetDstNode (edge : ptr) : M ptr :=
  E <- load Edges edge ;; ret (Edge.dstNode E).

Definition Edge_GetPrevOutcomingEdge (edge : ptr) : M ptr :=
  E <- load Edges edge ;; ret (Edge.prevOutcomingEdge E).

Definition Edge_GetPrevIncomingEdge (edge : ptr) : M ptr :=
  E <- load Edges edge ;; ret (Edge.prevIncomingEdge E).

(** An edge seen as the item of one list: the node that owns the list and
    the neighbours of the edge in it. *)
Record item := Item { owner : option nat; nxt : option nat; prv : option nat }.

Definition out_item (E : Edge.t) : item :=
  Item (Edge.srcNode E) (Edge.nextOutcomingEdge E) (Edge.prevOutcomingEdge E).

Definition in_item (E : Edge.t) : item :=
  Item (Edge.dstNode E) (Edge.nextIncomingEdge E) (Edge.prevIncomingEdge E).

Definition out_heads (w : World) : list ptr := Node.firstOutcomingEdge <$> nodes w.
Definition in_heads (w : World) : list ptr := Node.firstIncomingEdge <$> nodes w.
Definition out_items (w : World) : list item := out_item <$> edges w.
Definition in_items (w : World) : list item := in_item <$> edges w.

(** What the adjacency lists are made of. *)
Definition adj (w : World) : list ptr * list item * (list ptr * list item) :=
  (out_heads w, out_items w, (in_heads w, in_items w)).

(** The lists of the owners [heads] through [items] are doubly linked,
    start at the head of the owner, run towards older items and stay with
    one owner. *)
Record dll_ok (heads : list (option nat)) (items : list item) : Prop := mkDllOk {
  dl_head : ∀ o e, heads !! o = Some (Some e) →
              ∃ x, items !! e = Some x ∧ owner x = Some o ∧ prv x = None;
  dl_next : ∀ e x f, items !! e = Some x → nxt x = Some f →
              f < e ∧ ∃ y, items !! f = Some y ∧ owner y = owner x ∧
                           prv y = Some e;
  dl_prev : ∀ e x p, items !! e = Some x → prv x = Some p →
              ∃ y, items !! p = Some y ∧ owner y = owner x ∧ nxt y = Some e;
  dl_first : ∀ e x o, items !! e = Some x → owner x = Some o → prv x = None →
               heads !! o = Some (Some e)
}.

(** Both families of lists are well formed. *)
Definition adj_ok_of (v : list (option nat) * list item * (list (option nat) * list item))
    : Prop :=
  dll_ok v.1.1 v.1.2 ∧ dll_ok v.2.1 v.2.2.

(** The items met from [e] along [nxt], in at most [n] rounds. *)
Fixpoint dll_walk (n : nat) (items : list item) (e : option nat) : option (list nat) :=
  match n with
  | O => None
  | S n' =>
      match e with
      | None => Some []
      | Some a =>
          match items !! a with
          | Some x => (a ::.) <$> dll_walk n' items (nxt x)
          | None => None
          end
      end
  end.

(** The edges the loop
    [for edge := e; edge != nil; edge = edge.GetNextOutcomingEdge()]
    goes through, in at most [n] rounds. *)
Fixpoint out_walk (n : nat) (w : World) (e : ptr) : option (list nat) :=
  match n with
  | O => None
  | S n' =>
      match e with
      | None => Some []
      | Some a =>
          match Edge_GetNextOutcomingEdge e w with
          | Done e' _ => (a ::.) <$> out_walk n' w e'
          | _ => None
          end
      end
  end.

(** The same with [GetNextIncomingEdge]. *)
Fixpoint in_walk (n : nat) (w : World) (e : ptr) : option (list nat) :=
  match n with
  | O => None
  | S n' =>
      match e with
      | None => Some []
      | Some a =>
          match Edge_GetNextIncomingEdge e w with
          | Done e' _ => (a ::.) <$> in_walk n' w e'
          | _ => None
          end
      end
  end.

(** The edges that leave node [s], from [GetFirstOutcomingEdge] on. *)
Definition out_edges (n : nat) (w : World) (s : nat) : option (list nat) :=
  match Node_GetFirstOutcomingEdge (Some s) w with
  | Done e _ => out_walk n w e
  | _ => None
  end.

(** The edges that enter node [d], from [GetFirstIncomingEdge] on. *)
Definition in_edges (n : nat) (w : World) (d : nat) : option (list nat) :=
  match Node_GetFirstIncomingEdge (Some d) w with
  | Done e _ => in_walk n w e
  | _ => None
  end.

(** The head of a list, and the former head, after item [e] came first. *)
Definition set_prv (e : nat) (x : item) : item := Item (owner x) (nxt x) (Some e).

Definition push_item (o e : nat) (h : option nat) (items : list item) : list item :=
  match h with
  | Some f => alter (set_prv e) f (items ++ [Item (Some o) h None])
  | None => items ++ [Item (Some o) h None]
  end.

(** Two nodes [a] (address 0) and [b] (address 1) of one graph and three
    edges: from [a] to [b] (address 0), from [a] to [a] (address 1) and
    from [b] to [a] (address 2). *)
Definition build_fan : M unit :=
  g <- NewGraph DefaultAttrSpec ;;
  a <- Graph_NewNode g ;;
  b <- Graph_NewNode g ;;
  Graph_NewEdge 1 g a b ;;;
  Graph_NewEdge 1 g a a ;;;
  Graph_NewEdge 1 g b a ;;;
  ret tt.

Definition world_fan : World := world_after build_fan init_world.

(** ** Lists that lose items *)

Definition set_nxt (v : option nat) (x : item) : item := Item (owner x) v (prv x).
Definition set_prv_to (v : option nat) (x : item) : item := Item (owner x) (nxt x) v.
Definition set_owner (v : option nat) (x : item) : item := Item v (nxt x) (prv x).

Definition hd_or (q : option nat) (l : list nat) : option nat :=
  match l with [] => q | j :: _ => Some j end.

Fixpoint last_or (p : option nat) (l : list nat) : option nat :=
  match l with [] => p | a :: l' => last_or (Some a) l' end.

(** The items [ls] are linked in this order between [p] and [q]. *)
Fixpoint linked (items : list item) (p : option nat) (ls : list nat)
    (q : option nat) : Prop :=
  match ls with
  | [] => True
  | i :: l =>
      (∃ x, items !! i = Some x ∧ prv x = p ∧ nxt x = hd_or q l) ∧
      linked items (Some i) l q
  end.

(** [ls] is the list of owner [o]: it starts at the head of [o] and holds
    the items of [o], the item [skip] apart. *)
Definition list_of (skip : option nat) (heads : list (option nat))
    (items : list item) (o : nat) (ls : list nat) : Prop :=
  heads !! o = Some (head ls) ∧ NoDup ls ∧ linked items None ls None ∧
  ∀ i, i ∈ ls ↔ Some i ≠ skip ∧ ∃ x, items !! i = Some x ∧ owner x = Some o.

Record lists_ok (skip : option nat) (heads : list (option nat))
    (items : list item) : Prop := mkListsOk {
  lk_list : ∀ o, o < length heads → ∃ ls, list_of skip heads items o ls;
  lk_owner : ∀ i x, items !! i = Some x → Some i ≠ skip →
               ∃ o, owner x = Some o ∧ o < length heads
}.

(** What [removeNode] and [removeEdge] do to the list of [k] when they
    take out item [i], which read [x]. *)
Definition unlink (k i : nat) (x : item)
    (v : list (option nat) * list item) : list (option nat) * list item :=
  let items1 :=
    match nxt x with
    | Some n => alter (set_prv_to (prv x)) n v.2
    | None => v.2
    end in
  let heads2 :=
    match prv x with
    | Some _ => v.1
    | None => alter (λ _, nxt x) k v.1
    end in
  let items2 :=
    match prv x with
    | Some p => alter (set_nxt (nxt x)) p items1
    | None => items1
    end in
  (heads2, alter (set_prv_to None) i (alter (set_nxt None) i items2)).

(** What [addNode] and [addEdge] do to the list of [k], whose head was
    [h], when they put item [i] in front. *)
Definition push (k i : nat) (h : option nat)
    (v : list (option nat) * list item) : list (option nat) * list item :=
  let items1 :=
    match h with
    | Some f => alter (set_prv_to (Some i)) f v.2
    | None => v.2
    end in
  (alter (λ _, Some i) k v.1, alter (set_nxt h) i items1).

(** ** The nodes of a nest *)

(** A node as an item of the node list of its nest. *)
Definition node_item (N : Node.t) : item :=
  Item (Node.nest N) (Node.nextNodeInNest N) (Node.prevNodeInNest N).

Definition node_heads (w : World) : list ptr := Nest.firstNode <$> nests w.
Definition node_items (w : World) : list item := node_item <$> nodes w.

(** What the node lists are made of. *)
Definition nview (w : World) : list ptr * list item :=
  (node_heads w, node_items w).

Definition Nest_GetFirstNode (nest : ptr) : M ptr :=
  N <- load Nests nest ;; ret (Nest.firstNode N).

Definition Node_GetNextNodeInNest (node : ptr) : M ptr :=
  Nd <- load Nodes node ;; ret (Node.nextNodeInNest Nd).

Definition Node_GetNest (node : ptr) : M ptr :=
  Nd <- load Nodes node ;; ret (Node.nest Nd).

Definition Node_GetGraph (node : ptr) : M ptr :=
  Nd <- load Nodes node ;; ret (Node.graph Nd).

(** The nodes the loop
    [for node := e; node != nil; node = node.GetNextNodeInNest()]
    goes through, in at most [n] rounds. *)
Fixpoint nest_node_walk (n : nat) (w : World) (e : ptr) : option (list nat) :=
  match n with
  | O => None
  | S n' =>
      match e with
      | None => Some []
      | Some a =>
          match Node_GetNextNodeInNest e w with
          | Done e' _ => (a ::.) <$> nest_node_walk n' w e'
          | _ => None
          end
      end
  end.

(** The nodes of nest [k], from [GetFirstNode] on. *)
Definition nest_nodes (n : nat) (w : World) (k : nat) : option (list nat) :=
  match Nest_GetFirstNode (Some k) w with
  | Done e _ => nest_node_walk n w e
  | _ => None
  end.

(** The nodes the loop
    [for node := e; node != nil; node = node.GetNextNode()]
    goes through, in at most [n] rounds. *)
Fixpoint node_walk (n fuel : nat) (w : World) (e : ptr) : option (list nat) :=
  match n with
  | O => None
  | S n' =>
      match e with
      | None => Some []
      | Some a =>
          match Node_GetNextNode fuel e w with
          | Done e' _ => (a ::.) <$> node_walk n' fuel w e'
          | _ => None
          end
      end
  end.

(** The nodes of graph [g], from [GetFirstNode] on. *)
Definition graph_nodes (n fuel : nat) (w : World) (g : nat) : option (list nat) :=
  match Graph_GetFirstNode fuel (Some g) w with
  | Done e _ => node_walk n fuel w e
  | _ => None
  end.

(** One graph, the root nest (address 0) and the nests 1 and 2 made by
    [NewNest], and four nodes: node 0 moved to nest 1, nodes 1 and 3 in
    the root nest, node 2 moved to nest 1 after node 0. *)
Definition build_spread : M unit :=
  g <- NewGraph DefaultAttrSpec ;;
  t <- Graph_GetNestTree g ;;
  k1 <- NestTree_NewNest t ;;
  NestTree_NewNest t ;;;
  a <- Graph_NewNode g ;;
  Graph_NewNode g ;;;
  c <- Graph_NewNode g ;;
  Graph_NewNode g ;;;
  Node_MoveToNest 1 a k1 ;;;
  Node_MoveToNest 1 c k1 ;;;
  ret tt.

Definition world_spread : World := world_after build_spread init_world.

(** The end of [Graph.GetFirstNode] and [Node.GetNextNode]: the first
    node of the first nest with nodes, from [nest] on. *)
Definition first_node_from (fuel : nat) (nest : ptr) : M ptr :=
  nest <- skip_empty_fwd fuel nest ;;
  match nest with
  | None => ret None
  | Some _ => N <- load Nests nest ;; ret (Nest.firstNode N)
  end.

(** The nests [ks] follow each other under [GetNextNest]. *)
Definition next_chain (w : World) (ks : list nat) : Prop :=
  ∀ j a, ks !! j = Some a →
    (∃ A, nests w !! a = Some A) ∧
    ∀ f, Nest_GetNextNest (S f) (Some a) w = Done (ks !! S j) w.

(** ** The sweep of [ReleaseNodeStrAttr] *)

(** A world without the attribute values of its nodes. *)
Definition strip_node (N : Node.t) : Node.t := Node.with_strAttrs [] N.

Definition strip (w : World) : World := sput Nodes (strip_node <$> nodes w) w.

(** The node with slot [num] unset, as [RemoveStrAttr] leaves it. *)
Definition clear_slot (num : Z) (N : Node.t) : Node.t :=
  match idx (Node.strAttrs N) num with
  | Some v0 =>
      Node.with_strAttrs
        (with_slot (Node.strAttrs N) num (mkVal false (data v0))) N
  | None => N
  end.

(** The nodes of [w] with slot [num] unset on those of [l]. *)
Definition clear_in (l : list nat) (num : Z) (w : World) : list Node.t :=
  imap (λ i N, if decide (i ∈ l) then clear_slot num N else N) (nodes w).

(** ** The nests under a nest *)

Definition Nest_GetParentNest (nest : ptr) : M ptr :=
  N <- load Nests nest ;; ret (Nest.parentNest N).

Definition Nest_GetFirstChildNest (nest : ptr) : M ptr :=
  N <- load Nests nest ;; ret (Nest.firstChildNest N).

Definition Nest_GetNextSiblingNest (nest : ptr) : M ptr :=
  N <- load Nests nest ;; ret (Nest.nextSiblingNest N).

(** A nest as an item of the child list of its parent. *)
Definition child_item (K : Nest.t) : item :=
  Item (Nest.parentNest K) (Nest.nextSiblingNest K) (Nest.prevSiblingNest K).

Definition child_heads (w : World) : list ptr := Nest.firstChildNest <$> nests w.
Definition child_items (w : World) : list item := child_item <$> nests w.

(** The nests the loop
    [for c := e; c != nil; c = c.GetNextSiblingNest()]
    goes through, in at most [n] rounds. *)
Fixpoint child_walk (n : nat) (w : World) (e : ptr) : option (list nat) :=
  match n with
  | O => None
  | S n' =>
      match e with
      | None => Some []
      | Some a =>
          match Nest_GetNextSiblingNest e w with
          | Done e' _ => (a ::.) <$> child_walk n' w e'
          | _ => None
          end
      end
  end.

(** The nests under nest [k], from [GetFirstChildNest] on. *)
Definition nest_children (n : nat) (w : World) (k : nat) : option (list nat) :=
  match Nest_GetFirstChildNest (Some k) w with
  | Done e _ => child_walk n w e
  | _ => None
  end.

(** ** The edges of a nest *)

Definition Nest_GetFirstEdge (nest : ptr) : M ptr :=
  N <- load Nests nest ;; ret (Nest.firstEdge N).

Definition Edge_GetNextEdgeInNest (edge : ptr) : M ptr :=
  E <- load Edges edge ;; ret (Edge.nextEdgeInNest E).

(** An edge as an item of the edge list of its nest. *)
Definition edge_nitem (E : Edge.t) : item :=
  Item (Edge.nest E) (Edge.nextEdgeInNest E) (Edge.prevEdgeInNest E).

Definition edge_heads (w : World) : list ptr := Nest.firstEdge <$> nests w.
Definition edge_nitems (w : World) : list item := edge_nitem <$> edges w.

(** What the edge lists of the nests are made of. *)
Definition eview (w : World) : list ptr * list item :=
  (edge_heads w, edge_nitems w).

(** The edges the loop
    [for edge := e; edge != nil; edge = edge.GetNextEdgeInNest()]
    goes through, in at most [n] rounds. *)
Fixpoint nest_edge_walk (n : nat) (w : World) (e : ptr) : option (list nat) :=
  match n with
  | O => None
  | S n' =>
      match e with
      | None => Some []
      | Some a =>
          match Edge_GetNextEdgeInNest e w with
          | Done e' _ => (a ::.) <$> nest_edge_walk n' w e'
          | _ => None
          end
      end
  end.

(** The edges of nest [k], from [GetFirstEdge] on. *)
Definition nest_edges (n : nat) (w : World) (k : nat) : option (list nat) :=
  match Nest_GetFirstEdge (Some k) w with
  | Done e _ => nest_edge_walk n w e
  | _ => None
  end.

(** One graph, the root nest (address 0) and a nest made by [NewNest]
    (address 1); node 0 in the root nest, nodes 1 and 2 moved to nest 1;
    then the edges 0 from node 1 to node 2, 1 from node 0 to node 1 and
    2 from node 2 to node 1. *)
Definition build_nested_fan : M unit :=
  g <- NewGraph DefaultAttrSpec ;;
  t <- Graph_GetNestTree g ;;
  k <- NestTree_NewNest t ;;
  a <- Graph_NewNode g ;;
  b <- Graph_NewNode g ;;
  c <- Graph_NewNode g ;;
  Node_MoveToNest 1 b k ;;;
  Node_MoveToNest 1 c k ;;;
  Graph_NewEdge 2 g b c ;;;
  Graph_NewEdge 2 g a b ;;;
  Graph_NewEdge 2 g c b ;;;
  ret tt.

Definition world_nested_fan : World := world_after build_nested_fan init_world.

(** ** Identifiers *)

Definition Node_GetID (node : ptr) : M Z :=
  Nd <- load Nodes node ;; ret (Node.id Nd).

Definition Edge_GetID (edge : ptr) : M Z :=
  E <- load Edges edge ;; ret (Edge.id E).

Definition Edge_GetGraph (edge : ptr) : M ptr :=
  E <- load Edges edge ;; ret (Edge.graph E).

Definition Nest_GetID (nest : ptr) : M Z :=
  N <- load Nests nest ;; ret (Nest.id N).

Definition Nest_GetNestTree (nest : ptr) : M ptr :=
  N <- load Nests nest ;; ret (Nest.nestTree N).

(** How many of the objects [l], given by their owners, belong to [o]. *)
Fixpoint rank (o : nat) (l : list (option nat)) : nat :=
  match l with
  | [] => 0
  | p :: l' => (if decide (p = Some o) then 1 else 0) + rank o l'
  end.

(** Every object carries the number of objects its owner had before it,
    and every owner counts its objects, both as a Go [int]. *)
Record ids_ok (owners : list (option nat)) (ids : list Z) (counts : list Z)
    : Prop := mkIdsOk {
  io_id : ∀ i o, owners !! i = Some (Some o) →
            o < length counts ∧
            ids !! i = Some (int_wrap (Z.of_nat (rank o (take i owners))));
  io_count : ∀ o c, counts !! o = Some c →
               c = int_wrap (Z.of_nat (rank o owners))
}.

Definition node_ids (w : World) : list (option nat) * list Z * list Z :=
  (Node.graph <$> nodes w, Node.id <$> nodes w, Graph.nodeCount <$> graphs w).

Definition edge_ids (w : World) : list (option nat) * list Z * list Z :=
  (Edge.graph <$> edges w, Edge.id <$> edges w, Graph.edgeCount <$> graphs w).

Definition nest_ids (w : World) : list (option nat) * list Z * list Z :=
  (Nest.nestTree <$> nests w, Nest.id <$> nests w,
   NestTree.nestCount <$> nestTrees w).

Definition ids_ok_of (v : list (option nat) * list Z * list Z) : Prop :=
  ids_ok v.1.1 v.1.2 v.2.

(** What the identifiers are made of. *)
Definition all_ids (w : World) :=
  (node_ids w, edge_ids w, nest_ids w).

(** The view after an object of owner [o] was made. *)
Definition ids_grown (o : nat) (v : list (option nat) * list Z * list Z)
    : list (option nat) * list Z * list Z :=
  (v.1.1 ++ [Some o], v.1.2 ++ [default 0%Z (v.2 !! o)], alter int_succ o v.2).

(** ** The pool of graph attributes *)






(** ** More rounds for the loops *)


(** ** The pool of node attributes *)











(** ** The last node of a nest *)

Definition Nest_GetLastNode (nest : ptr) : M ptr :=
  N <- load Nests nest ;; ret (Nest.lastNode N).

Definition Node_GetPrevNodeInNest (node : ptr) : M ptr :=
  Nd <- load Nodes node ;; ret (Node.prevNodeInNest Nd).

Definition node_tails (w : World) : list ptr := Nest.lastNode <$> nests w.

(** The tail of an owner is an item of the owner without a next one, or
    there is none and the owner has no head. *)
Definition tails_ok (skip : option nat) (heads : list (option nat))
    (items : list item) (tails : list (option nat)) : Prop :=
  length tails = length heads ∧
  ∀ o t, tails !! o = Some t →
    match t with
    | Some e => Some e ≠ skip ∧
                ∃ x, items !! e = Some x ∧ owner x = Some o ∧ nxt x = None
    | None => heads !! o = Some None
    end.

(** What [removeNode] does to the tail of [k] when it takes out an item
    that read [x], and [addNode] when it puts [i] in front of head [h]. *)
Definition unlink_tail (k : nat) (x : item) (tails : list (option nat))
    : list (option nat) :=
  match nxt x with
  | Some _ => tails
  | None => alter (λ _, prv x) k tails
  end.

Definition push_tail (k i : nat) (h : option nat) (tails : list (option nat))
    : list (option nat) :=
  match h with
  | Some _ => tails
  | None => alter (λ _, Some i) k tails
  end.

(** The items a loop along the previous items goes through, from [e], in
    at most [n] rounds. *)
Fixpoint dll_walk_back (n : nat) (items : list item) (e : option nat)
    : option (list nat) :=
  match n with
  | O => None
  | S n' =>
      match e with
      | None => Some []
      | Some a =>
          match items !! a with
          | Some x => (a ::.) <$> dll_walk_back n' items (prv x)
          | None => None
          end
      end
  end.

(** The nodes the loop
    [for node := e; node != nil; node = node.GetPrevNodeInNest()]
    goes through, in at most [n] rounds. *)
Fixpoint nest_node_walk_back (n : nat) (w : World) (e : ptr) : option (list nat) :=
  match n with
  | O => None
  | S n' =>
      match e with
      | None => Some []
      | Some a =>
          match Node_GetPrevNodeInNest e w with
          | Done e' _ => (a ::.) <$> nest_node_walk_back n' w e'
          | _ => None
          end
      end
  end.

(** The nodes of nest [k], from [GetLastNode] back. *)
Definition nest_nodes_back (n : nat) (w : World) (k : nat) : option (list nat) :=
  match Nest_GetLastNode (Some k) w with
  | Done e _ => nest_node_walk_back n w e
  | _ => None
  end.

(** What the node lists and their tails are made of. *)
Definition lview (w : World) : list ptr * list item * list ptr :=
  (nview w, node_tails w).

(** ** The last nest under a nest *)

Definition Nest_GetLastChildNest (nest : ptr) : M ptr :=
  N <- load Nests nest ;; ret (Nest.lastChildNest N).

Definition Nest_GetPrevSiblingNest (nest : ptr) : M ptr :=
  N <- load Nests nest ;; ret (Nest.prevSiblingNest N).

Definition child_tails (w : World) : list ptr := Nest.lastChildNest <$> nests w.

(** What the child lists and their tails are made of. *)
Definition cview (w : World) : list ptr * list item * list ptr :=
  (child_heads w, child_items w, child_tails w).

(** The nests the loop
    [for c := e; c != nil; c = c.GetPrevSiblingNest()]
    goes through, in at most [n] rounds. *)
Fixpoint child_walk_back (n : nat) (w : World) (e : ptr) : option (list nat) :=
  match n with
  | O => None
  | S n' =>
      match e with
      | None => Some []
      | Some a =>
          match Nest_GetPrevSiblingNest e w with
          | Done e' _ => (a ::.) <$> child_walk_back n' w e'
          | _ => None
          end
      end
  end.

(** The nests under nest [k], from [GetLastChildNest] back. *)
Definition nest_children_back (n : nat) (w : World) (k : nat) : option (list nat) :=
  match Nest_GetLastChildNest (Some k) w with
  | Done e _ => child_walk_back n w e
  | _ => None
  end.

(** * Properties *)

(** ** Running computations *)

Section Running.
Context {A B : Type}.
Implicit Types (w : World) (p : ptr) (a : nat).

Lemma bind_Done (m : M A) (k : A → M B) w x w1 :
  m w = Done x w1 → bind m k w = k x w1.
Proof. intros H. unfold bind. by rewrite H. Qed.

Lemma bind_Done_inv (m : M A) (k : A → M B) w y w' :
  bind m k w = Done y w' → ∃ x w1, m w = Done x w1 ∧ k x w1 = Done y w'.
Proof.
  unfold bind. destruct (m w) as [x w1| |w1]; [|done..].
  intros H. by exists x, w1.
Qed.

Lemma load_Some (s : store A) a w x :
  sget s w !! a = Some x → load s (Some a) w = Done x w.
Proof. intros H. unfold load. by rewrite H. Qed.

Lemma load_Done_inv (s : store A) p w x w' :
  load s p w = Done x w' → w' = w ∧ ∃ a, p = Some a ∧ sget s w !! a = Some x.
Proof.
  unfold load. destruct p as [a|]; [|done].
  destruct (sget s w !! a) as [y|] eqn:E; [|done].
  intros [= -> ->]. split; [done|]. by exists a.
Qed.

Lemma modify_Some (s : store A) a f w :
  is_Some (sget s w !! a) → modify s (Some a) f w = Done tt (modify_w s a f w).
Proof. intros [x H]. unfold modify. by rewrite H. Qed.

Lemma modify_Done_inv (s : store A) p f w u w' :
  modify s p f w = Done u w' →
  ∃ a, p = Some a ∧ is_Some (sget s w !! a) ∧ w' = modify_w s a f w.
Proof.
  unfold modify. destruct p as [a|]; [|done].
  destruct (sget s w !! a) as [y|] eqn:E; [|done].
  intros [= <- <-]. exists a. eauto.
Qed.

(** *** Outcome rules *)

Lemma wp_ret (x : A) w Q T : Q x w → wp (ret x) w Q T.
Proof. done. Qed.

Lemma wp_bind (m : M A) (k : A → M B) w Q T :
  wp m w (λ x w1, wp (k x) w1 Q T) T → wp (bind m k) w Q T.
Proof. unfold wp, bind. by destruct (m w). Qed.

Lemma wp_mono (m : M A) w (Q Q' : A → World → Prop) (T T' : World → Prop) :
  wp m w Q T → (∀ x w', Q x w' → Q' x w') → (∀ w', T w' → T' w') →
  wp m w Q' T'.
Proof. unfold wp. destruct (m w); eauto. Qed.

Lemma wp_load (s : store A) a w x Q T :
  sget s w !! a = Some x → Q x w → wp (load s (Some a)) w Q T.
Proof. intros H HQ. unfold wp. by rewrite (load_Some _ _ _ _ H). Qed.

Lemma wp_modify (s : store A) a f w Q T :
  is_Some (sget s w !! a) → Q tt (modify_w s a f w) →
  wp (modify s (Some a) f) w Q T.
Proof. intros H HQ. unfold wp. by rewrite (modify_Some _ _ _ _ H). Qed.

Lemma wp_alloc (s : store A) x w Q T :
  Q (Some (length (sget s w))) (alloc_w s x w) → wp (alloc s x) w Q T.
Proof. done. Qed.

Lemma wp_Done (m : M A) w Q T x w' : wp m w Q T → m w = Done x w' → Q x w'.
Proof. unfold wp. intros H E. by rewrite E in H. Qed.

Lemma wp_eq (m m' : M A) w Q T : m w = m' w → wp m' w Q T → wp m w Q T.
Proof. unfold wp. by intros ->. Qed.

(** *** Preservation rules *)

Lemma keeps_ret P (x : A) : keeps P (ret x).
Proof. by intros w H. Qed.

Lemma keeps_panic P : keeps P (@panic A).
Proof. by intros w H. Qed.

Lemma keeps_cutoff P : keeps P (@cutoff A).
Proof. by intros w H. Qed.

Lemma keeps_bind P (m : M A) (k : A → M B) :
  keeps P m → (∀ x, keeps P (k x)) → keeps P (bind m k).
Proof.
  intros Hm Hk w H. specialize (Hm w H). unfold bind.
  destruct (m w) as [x w1| |w1]; [|done..]. by apply Hk.
Qed.

Lemma keeps_load P (s : store A) p : keeps P (load s p).
Proof.
  intros w H. unfold load. destruct p as [a|]; [|done].
  by destruct (sget s w !! a).
Qed.

Lemma keeps_modify P (s : store A) p f :
  (∀ a w, p = Some a → P w → is_Some (sget s w !! a) → P (modify_w s a f w)) →
  keeps P (modify s p f).
Proof.
  intros Hf w H. unfold modify. destruct p as [a|]; [|done].
  destruct (sget s w !! a) eqn:E; [|done]. apply Hf; eauto.
Qed.

Lemma wp_returns (m : M A) w Q :
  wp m w Q (λ _, False) → ∃ x w', m w = Done x w' ∧ Q x w'.
Proof. unfold wp. destruct (m w) as [x w'| |]; [eauto|done..]. Qed.

Lemma wp_keeps (m : M A) w P Q T :
  keeps P m → P w → wp m w Q T →
  wp m w (λ x w', Q x w' ∧ P w') (λ w', T w' ∧ P w').
Proof.
  intros Hk HP. specialize (Hk w HP). unfold wp.
  by destruct (m w).
Qed.

Lemma keeps_alloc P (s : store A) x :
  (∀ w, P w → P (alloc_w s x w)) → keeps P (alloc s x).
Proof. intros Hx w H. by apply Hx. Qed.

Lemma keeps_Done P (m : M A) w x w' : keeps P m → P w → m w = Done x w' → P w'.
Proof. intros Hm H E. specialize (Hm w H). by rewrite E in Hm. Qed.

End Running.

Lemma keeps_make {A} P (z : A) n : keeps P (make z n).
Proof. unfold make. destruct (n <? 0)%Z; [apply keeps_panic | apply keeps_ret]. Qed.

Lemma make_Done_inv {A} (z : A) n w l w' :
  make z n w = Done l w' → w' = w ∧ (0 ≤ n)%Z ∧ l = replicate (Z.to_nat n) z.
Proof.
  unfold make. destruct (Z.ltb_spec n 0); [done|]. by intros [= <- <-].
Qed.

Lemma make_nonneg {A} (z : A) n w :
  (0 ≤ n)%Z → make z n w = Done (replicate (Z.to_nat n) z) w.
Proof. intros H. unfold make. destruct (Z.ltb_spec n 0); [lia|done]. Qed.

(** ** Allocation of attribute slots *)

Lemma alloc_scan_Some m i k j :
  alloc_scan m i k = Some j → i + k = length m →
  m !! j = Some false ∧ i ≤ j ∧ ∀ j', i ≤ j' → j' < j → m !! j' = Some true.
Proof.
  revert i. induction k as [|k IH]; intros i; simpl; [done|].
  intros H Hlen.
  destruct (m !! i) as [[|]|] eqn:E.
  - destruct (IH (S i) H) as (Hj & Hle & Hlow); [lia|].
    split; [done|]. split; [lia|]. intros j' H1 H2.
    destruct (decide (j' = i)) as [->|]; [done|]. apply Hlow; lia.
  - injection H as <-. split; [done|]. split; [lia|]. intros; lia.
  - apply lookup_ge_None in E. lia.
Qed.

Lemma alloc_scan_None m i k :
  alloc_scan m i k = None → i + k = length m →
  ∀ j, i ≤ j → m !! j ≠ Some false.
Proof.
  revert i. induction k as [|k IH]; intros i; simpl.
  - intros _ Hlen j Hj E. apply lookup_lt_Some in E. lia.
  - intros H Hlen j Hj.
    destruct (m !! i) as [[|]|] eqn:E; [| done |apply lookup_ge_None in E; lia].
    destruct (decide (j = i)) as [->|]; [by rewrite E|].
    apply (IH (S i)); [done|lia..].
Qed.

Lemma first_free_Some m i : first_free m = Some i ↔ lowest_free m i.
Proof.
  unfold first_free, lowest_free. split.
  - intros H. destruct (alloc_scan_Some m 0 (length m) i H) as (?&?&Hlow); [done|].
    split; [done|]. intros j Hj. apply Hlow; lia.
  - intros [Hi Hlow].
    destruct (alloc_scan m 0 (length m)) as [j|] eqn:E.
    + destruct (alloc_scan_Some m 0 (length m) j E) as (Hj&_&Hlow'); [done|].
      f_equal. destruct (Nat.lt_trichotomy i j) as [Hlt|[->|Hlt]]; [|done|].
      * rewrite Hlow' in Hi by lia. done.
      * rewrite Hlow in Hj by lia. done.
    + exfalso. by apply (alloc_scan_None m 0 (length m) E eq_refl i); [lia|].
Qed.

Lemma first_free_None m : first_free m = None ↔ no_free m.
Proof.
  unfold first_free, no_free. split.
  - intros H i. apply (alloc_scan_None m 0 (length m) H eq_refl). lia.
  - intros H. destruct (alloc_scan m 0 (length m)) as [j|] eqn:E; [|done].
    destruct (alloc_scan_Some m 0 (length m) j E) as (Hj&_); [done|].
    by destruct (H j).
Qed.

Lemma lowest_free_or_none m : (∃ i, lowest_free m i) ∨ no_free m.
Proof.
  destruct (first_free m) as [i|] eqn:E.
  - left. exists i. by apply first_free_Some.
  - right. by apply first_free_None.
Qed.

Lemma NewNodeStrAttr_free w g G i :
  graphs w !! g = Some G → lowest_free (Graph.nodeStrAttrAllocMap G) i →
  ∃ w', Graph_NewNodeStrAttr (Some g) w
          = Done (Some (length (nodeStrAttrs w)), None) w' ∧
        nodeStrAttrs w' !! length (nodeStrAttrs w)
          = Some (StrAttr.mk (Z.of_nat i) true (Some g)) ∧
        Graph.nodeStrAttrAllocMap <$> graphs w' !! g
          = Some (<[i := true]> (Graph.nodeStrAttrAllocMap G)).
Proof.
  intros HG Hi. apply first_free_Some in Hi.
  unfold Graph_NewNodeStrAttr, bind, load, modify, alloc, ret; simpl.
  rewrite HG, Hi; simpl. rewrite HG; simpl. eexists. split; [done|]. simpl.
  split; [by apply list_lookup_middle|].
  by rewrite list_lookup_alter_eq, HG.
Qed.

Lemma NewNodeStrAttr_full w g G :
  graphs w !! g = Some G → no_free (Graph.nodeStrAttrAllocMap G) →
  Graph_NewNodeStrAttr (Some g) w
  = Done (node_str_attr_invalid_p,
          errors_New "No available node string attributes") w.
Proof.
  intros HG Hi. apply first_free_None in Hi.
  unfold Graph_NewNodeStrAttr, bind, load; simpl. by rewrite HG, Hi.
Qed.

Lemma NewGraphStrAttr_free w g G i :
  graphs w !! g = Some G → lowest_free (Graph.graphStrAttrAllocMap G) i →
  ∃ w', Graph_NewGraphStrAttr (Some g) w
          = Done (Some (length (graphStrAttrs w)), None) w' ∧
        graphStrAttrs w' !! length (graphStrAttrs w)
          = Some (StrAttr.mk (Z.of_nat i) true (Some g)) ∧
        Graph.graphStrAttrAllocMap <$> graphs w' !! g
          = Some (<[i := true]> (Graph.graphStrAttrAllocMap G)).
Proof.
  intros HG Hi. apply first_free_Some in Hi.
  unfold Graph_NewGraphStrAttr, bind, load, modify, alloc, ret; simpl.
  rewrite HG, Hi; simpl. rewrite HG; simpl. eexists. split; [done|]. simpl.
  split; [by apply list_lookup_middle|].
  by rewrite list_lookup_alter_eq, HG.
Qed.

Lemma NewGraphStrAttr_full w g G :
  graphs w !! g = Some G → no_free (Graph.graphStrAttrAllocMap G) →
  Graph_NewGraphStrAttr (Some g) w
  = Done (graph_str_attr_invalid_p,
          errors_New "No available graph string attributes") w.
Proof.
  intros HG Hi. apply first_free_None in Hi.
  unfold Graph_NewGraphStrAttr, bind, load; simpl. by rewrite HG, Hi.
Qed.

Lemma NewNestStrAttr_free w t T i :
  nestTrees w !! t = Some T → lowest_free (NestTree.nestStrAttrAllocMap T) i →
  ∃ w', NestTree_NewNestStrAttr (Some t) w
          = Done (Some (length (nestStrAttrs w)), None) w' ∧
        nestStrAttrs w' !! length (nestStrAttrs w)
          = Some (NestStrAttr.mk (Z.of_nat i) true (Some t)) ∧
        NestTree.nestStrAttrAllocMap <$> nestTrees w' !! t
          = Some (<[i := true]> (NestTree.nestStrAttrAllocMap T)).
Proof.
  intros HT Hi. apply first_free_Some in Hi.
  unfold NestTree_NewNestStrAttr, bind, load, modify, alloc, ret; simpl.
  rewrite HT, Hi; simpl. rewrite HT; simpl. eexists. split; [done|]. simpl.
  split; [by apply list_lookup_middle|].
  by rewrite list_lookup_alter_eq, HT.
Qed.

Lemma NewNestStrAttr_full w t T :
  nestTrees w !! t = Some T → no_free (NestTree.nestStrAttrAllocMap T) →
  NestTree_NewNestStrAttr (Some t) w
  = Done (nest_str_attr_invalid_p,
          errors_New "No available nest string attributes") w.
Proof.
  intros HT Hi. apply first_free_None in Hi.
  unfold NestTree_NewNestStrAttr, bind, load; simpl. by rewrite HT, Hi.
Qed.

Lemma allocates_intro {H} (run : res (ptr * error)) w m
    (handles : World → list H) map_of mk invalid :
  (∀ i, lowest_free m i →
     ∃ w', run = Done (Some (length (handles w)), None) w' ∧
           handles w' !! length (handles w) = Some (mk i) ∧
           map_of w' = Some (<[i := true]> m)) →
  (no_free m → ∃ e, run = Done (invalid, Some e) w) →
  allocates run w m handles map_of mk invalid.
Proof.
  intros Hfree Hfull. split; [done|]. split; [done|]. split.
  - intros (h & e & w' & Hrun).
    destruct (lowest_free_or_none m) as [[i Hi]|]; [|done].
    destruct (Hfree i Hi) as (w'' & Hrun' & _). congruence.
  - intros Hno. destruct (Hfull Hno) as [e He]. eauto.
Qed.

(** C8. Each of the three allocators returns a handle onto the
    lowest-numbered free slot of its pool and marks the slot allocated;
    it returns the exhaustion error exactly when the pool has no free
    slot, and then changes nothing. *)
Theorem alloc_returns_lowest_free_slot w g G t T :
  graphs w !! g = Some G → nestTrees w !! t = Some T →
  allocates (Graph_NewGraphStrAttr (Some g) w) w (Graph.graphStrAttrAllocMap G)
            graphStrAttrs
            (λ w', Graph.graphStrAttrAllocMap <$> graphs w' !! g)
            (λ i, StrAttr.mk (Z.of_nat i) true (Some g))
            graph_str_attr_invalid_p ∧
  allocates (Graph_NewNodeStrAttr (Some g) w) w (Graph.nodeStrAttrAllocMap G)
            nodeStrAttrs
            (λ w', Graph.nodeStrAttrAllocMap <$> graphs w' !! g)
            (λ i, StrAttr.mk (Z.of_nat i) true (Some g))
            node_str_attr_invalid_p ∧
  allocates (NestTree_NewNestStrAttr (Some t) w) w (NestTree.nestStrAttrAllocMap T)
            nestStrAttrs
            (λ w', NestTree.nestStrAttrAllocMap <$> nestTrees w' !! t)
            (λ i, NestStrAttr.mk (Z.of_nat i) true (Some t))
            nest_str_attr_invalid_p.
Proof.
  intros HG HT. refine (conj _ (conj _ _)).
  - apply allocates_intro.
    + intros i Hi. by apply NewGraphStrAttr_free.
    + intros Hno. eexists. by eapply NewGraphStrAttr_full.
  - apply allocates_intro.
    + intros i Hi. by apply NewNodeStrAttr_free.
    + intros Hno. eexists. by eapply NewNodeStrAttr_full.
  - apply allocates_intro.
    + intros i Hi. by apply NewNestStrAttr_free.
    + intros Hno. eexists. by eapply NewNestStrAttr_full.
Qed.

Lemma alloc_returns_lowest_free_slot_witness :
  ∃ G T,
    graphs world_one_graph !! 0 = Some G ∧
    nestTrees world_one_graph !! 0 = Some T ∧
    lowest_free (Graph.nodeStrAttrAllocMap G) 0 ∧
    allocates (Graph_NewNodeStrAttr (Some 0) world_one_graph) world_one_graph
              (Graph.nodeStrAttrAllocMap G) nodeStrAttrs
              (λ w', Graph.nodeStrAttrAllocMap <$> graphs w' !! 0)
              (λ i, StrAttr.mk (Z.of_nat i) true (Some 0))
              node_str_attr_invalid_p.
Proof.
  eexists _, _. split; [reflexivity|]. split; [reflexivity|]. split.
  - split; [reflexivity|]. intros j Hj. lia.
  - apply (alloc_returns_lowest_free_slot world_one_graph 0 _ 0 _ eq_refl eq_refl).
Defined.

(** ** Scenario worlds are reachable *)

Lemma reachable_exec w fuel c :
  reachable w →
  match exec fuel c w with
  | Done _ w' => reachable w'
  | _ => True
  end.
Proof.
  intros H. destruct (exec fuel c w) as [[] w'| |] eqn:E; [|done..].
  by eapply reach_step.
Qed.

Lemma reachable_one_graph : reachable world_one_graph.
Proof.
  pose proof reach_init as H.
  apply (reachable_exec _ 0 (Call_NewGraph (mkAttrSpec 1 1 1))) in H; vm_compute in H.
  vm_compute. exact H.
Qed.

Lemma reachable_edge : reachable world_edge.
Proof.
  pose proof reach_init as H.
  apply (reachable_exec _ 0 (Call_NewGraph DefaultAttrSpec)) in H; vm_compute in H.
  apply (reachable_exec _ 0 (Call_NewNode (Some 0))) in H; vm_compute in H.
  apply (reachable_exec _ 0 (Call_NewNode (Some 0))) in H; vm_compute in H.
  apply (reachable_exec _ 1 (Call_NewEdge (Some 0) (Some 0) (Some 1))) in H; vm_compute in H.
  vm_compute. exact H.
Qed.

Lemma reachable_two_nests : reachable world_two_nests.
Proof.
  pose proof reach_init as H.
  apply (reachable_exec _ 0 (Call_NewGraph DefaultAttrSpec)) in H; vm_compute in H.
  apply (reachable_exec _ 0 (Call_NewNest (Some 0))) in H; vm_compute in H.
  apply (reachable_exec _ 0 (Call_NewNest (Some 0))) in H; vm_compute in H.
  vm_compute. exact H.
Qed.

Lemma reachable_foreign : reachable world_foreign.
Proof.
  pose proof reach_init as H.
  apply (reachable_exec _ 0 (Call_NewGraph (mkAttrSpec 0 1 0))) in H; vm_compute in H.
  apply (reachable_exec _ 0 (Call_NewGraph (mkAttrSpec 0 1 0))) in H; vm_compute in H.
  apply (reachable_exec _ 0 (Call_NewNode (Some 0))) in H; vm_compute in H.
  apply (reachable_exec _ 0 (Call_NewNodeStrAttr (Some 0))) in H; vm_compute in H.
  apply (reachable_exec _ 0 (Call_NewNodeStrAttr (Some 1))) in H; vm_compute in H.
  apply (reachable_exec _ 0 (Call_Node_SetStrAttrVal (Some 0) (Some 1) "v")) in H; vm_compute in H.
  vm_compute. exact H.
Qed.

Lemma reachable_nest_attr : reachable world_nest_attr.
Proof.
  pose proof reach_init as H.
  apply (reachable_exec _ 0 (Call_NewGraph (mkAttrSpec 0 0 1))) in H; vm_compute in H.
  apply (reachable_exec _ 0 (Call_NewNestStrAttr (Some 0))) in H; vm_compute in H.
  apply (reachable_exec _ 0 (Call_NewNest (Some 0))) in H; vm_compute in H.
  vm_compute. exact H.
Qed.

Lemma reachable_nested_edges : reachable world_nested_edges.
Proof.
  pose proof reach_init as H.
  apply (reachable_exec _ 0 (Call_NewGraph (mkAttrSpec 1 1 1))) in H; vm_compute in H.
  apply (reachable_exec _ 0 (Call_NewNest (Some 0))) in H; vm_compute in H.
  apply (reachable_exec _ 0 (Call_NewNest (Some 0))) in H; vm_compute in H.
  apply (reachable_exec _ 0 (Call_NewNode (Some 0))) in H; vm_compute in H.
  apply (reachable_exec _ 0 (Call_NewNode (Some 0))) in H; vm_compute in H.
  apply (reachable_exec _ 1 (Call_MoveToNest (Some 0) (Some 1))) in H; vm_compute in H.
  apply (reachable_exec _ 1 (Call_MoveToNest (Some 1) (Some 2))) in H; vm_compute in H.
  apply (reachable_exec _ 1 (Call_NewEdge (Some 0) (Some 0) (Some 1))) in H; vm_compute in H.
  apply (reachable_exec _ 1 (Call_NewEdge (Some 0) (Some 0) (Some 0))) in H; vm_compute in H.
  vm_compute. exact H.
Qed.

(** ** Removing an attribute value never reports an error *)

Lemma Node_RemoveStrAttr_no_error node attr w e w' :
  Node_RemoveStrAttr node attr w ≠ Done (Some e) w'.
Proof.
  unfold Node_RemoveStrAttr. cbv zeta. intros H.
  apply bind_Done_inv in H as (A & w1 & _ & H).
  apply bind_Done_inv in H as (Nd & w2 & _ & H).
  apply bind_Done_inv in H as (u & w3 & _ & H).
  discriminate.
Qed.

Lemma Nest_RemoveStrAttr_no_error nest attr w e w' :
  Nest_RemoveStrAttr nest attr w ≠ Done (Some e) w'.
Proof.
  unfold Nest_RemoveStrAttr. cbv zeta. intros H.
  apply bind_Done_inv in H as (A & w1 & _ & H).
  apply bind_Done_inv in H as (Nd & w2 & _ & H).
  apply bind_Done_inv in H as (u & w3 & _ & H).
  discriminate.
Qed.

Lemma Graph_RemoveStrAttr_no_error graph attr w e w' :
  Graph_RemoveStrAttr graph attr w ≠ Done (Some e) w'.
Proof.
  unfold Graph_RemoveStrAttr. cbv zeta. intros H.
  apply bind_Done_inv in H as (A & w1 & _ & H).
  apply bind_Done_inv in H as (u & w3 & _ & H).
  discriminate.
Qed.

(** C5. [RemoveStrAttr] does not fail on an invalid or foreign handle.
    No call of it, on a node, a nest or a graph, returns an error.  On
    the node of the first graph, with the valid handle of the second
    graph, it returns [nil] and clears the value set through the first
    graph's handle; with the package-level invalid handle it panics on
    slot -1. *)
Theorem RemoveStrAttr_ignores_invalid_and_foreign_handles :
  (∀ node attr w e w', Node_RemoveStrAttr node attr w ≠ Done (Some e) w') ∧
  (∀ nest attr w e w', Nest_RemoveStrAttr nest attr w ≠ Done (Some e) w') ∧
  (∀ graph attr w e w', Graph_RemoveStrAttr graph attr w ≠ Done (Some e) w') ∧
  (∃ N A,
     nodes world_foreign !! 0 = Some N ∧
     nodeStrAttrs world_foreign !! 2 = Some A ∧
     StrAttr.isValid A = true ∧ Node.graph N = Some 0 ∧ StrAttr.graph A = Some 1) ∧
  Node_IsStrAttrSet (Some 0) (Some 1) world_foreign = Done (true, None) world_foreign ∧
  (∃ w', Node_RemoveStrAttr (Some 0) (Some 2) world_foreign = Done None w' ∧
         Node_IsStrAttrSet (Some 0) (Some 1) w' = Done (false, None) w') ∧
  (∃ A, nodeStrAttrs world_foreign !! 0 = Some A ∧ StrAttr.isValid A = false) ∧
  Node_RemoveStrAttr (Some 0) node_str_attr_invalid_p world_foreign = Panic.
Proof.
  split; [apply Node_RemoveStrAttr_no_error|].
  split; [apply Nest_RemoveStrAttr_no_error|].
  split; [apply Graph_RemoveStrAttr_no_error|].
  split; [eexists _, _; by vm_compute|].
  split; [by vm_compute|].
  split; [eexists; split; by vm_compute|].
  split; [eexists; by vm_compute|]. by vm_compute.
Qed.

(** ** The root nest and nest attributes *)

(** C6. The root nest has no attribute-value array.  In a graph made
    with one nest attribute slot, with that slot allocated, the root's
    array has length 0 and [SetStrAttrVal] on the root with the valid
    handle of its own tree panics (index out of range), while the same
    call on a nest made by [NewNest] stores the value. *)
Theorem root_nest_has_no_attr_array :
  (∃ G T R A,
     graphs world_nest_attr !! 0 = Some G ∧
     NestStrAttrNum (Graph.attrSpec G) = 1%Z ∧
     nestTrees world_nest_attr !! 0 = Some T ∧ NestTree.rootNest T = Some 0 ∧
     nests world_nest_attr !! 0 = Some R ∧ Nest.nestTree R = Some 0 ∧
     Nest.strAttrs R = [] ∧
     nestStrAttrs world_nest_attr !! 1 = Some A ∧
     A = NestStrAttr.mk 0 true (Some 0)) ∧
  Nest_SetStrAttrVal (Some 0) (Some 1) "x" world_nest_attr = Panic ∧
  (∃ w', Nest_SetStrAttrVal (Some 1) (Some 1) "x" world_nest_attr = Done None w' ∧
         Nest_GetStrAttrVal (Some 1) (Some 1) w' = Done ("x", None) w').
Proof.
  split; [eexists _, _, _, _; by vm_compute|].
  split; [by vm_compute|].
  eexists; split; by vm_compute.
Qed.

(** C7. The round trip fails on the root nest: with an allocated nest
    attribute slot, setting a value on the root and reading it back
    panics, and releasing the slot panics in the sweep, at its first
    nest, the root.  (One defect with C6: the root has no array.) *)
Theorem root_nest_breaks_attr_round_trip :
  reachable world_nest_attr ∧
  (v <- Nest_SetStrAttrVal (Some 0) (Some 1) "x" ;;
   Nest_GetStrAttrVal (Some 0) (Some 1)) world_nest_attr = Panic ∧
  (∀ fuel,
     NestTree_ReleaseNestStrAttr (S fuel) (Some 0) (Some 1) world_nest_attr = Panic).
Proof.
  split; [apply reachable_nest_attr|].
  split; [by vm_compute|].
  intros fuel. by vm_compute.
Qed.

(** ** [MoveToNest] on a node with edges *)

(** Structural steps of a preservation proof; [tac] handles the writes. *)
Ltac keeps_with tac :=
  repeat first
    [ apply keeps_ret
    | apply keeps_panic
    | apply keeps_cutoff
    | apply keeps_load
    | apply keeps_make
    | apply keeps_bind; [|intros ?]
    | apply keeps_modify; tac
    | apply keeps_alloc; tac
    | match goal with
      | |- keeps _ (match ?x with _ => _ end) => destruct x
      | |- keeps _ (let _ := _ in _) => cbv zeta
      end ].

Lemma adj_heads_modify_nodes n fi fo a f w :
  (∀ N, Node.firstIncomingEdge (f N) = Node.firstIncomingEdge N ∧
        Node.firstOutcomingEdge (f N) = Node.firstOutcomingEdge N) →
  adj_heads n fi fo w → adj_heads n fi fo (modify_w Nodes a f w).
Proof.
  intros Hf (N & HN & H1 & H2). unfold adj_heads, modify_w; simpl.
  destruct (decide (a = n)) as [->|Hne].
  - rewrite list_lookup_alter_eq, HN; simpl. eexists; split; [done|].
    destruct (Hf N) as [-> ->]. done.
  - rewrite list_lookup_alter_ne by done. eauto.
Qed.

Lemma keeps_adj_heads_removeNode n fi fo nest node :
  keeps (adj_heads n fi fo) (Nest_removeNode nest node).
Proof.
  unfold Nest_removeNode.
  keeps_with ltac:(intros; first [by apply adj_heads_modify_nodes | done]).
Qed.

Lemma keeps_adj_heads_addNode n fi fo nest node :
  keeps (adj_heads n fi fo) (Nest_addNode nest node).
Proof.
  unfold Nest_addNode.
  keeps_with ltac:(intros; first [by apply adj_heads_modify_nodes | done]).
Qed.

Lemma fix_incoming_never_returns fuel n e w u w' :
  MoveToNest_fix_incoming fuel n (Some e) w ≠ Done u w'.
Proof.
  revert w. induction n as [|n IH]; intros w; simpl; [done|].
  intros H. apply bind_Done_inv in H as (E & w1 & _ & H).
  destruct (Edge.nest E); [|done].
  apply bind_Done_inv in H as (? & w2 & _ & H).
  apply bind_Done_inv in H as (? & w3 & _ & H).
  by apply IH in H.
Qed.

Lemma fix_outcoming_never_returns fuel n e w u w' :
  MoveToNest_fix_outcoming fuel n (Some e) w ≠ Done u w'.
Proof.
  revert w. induction n as [|n IH]; intros w; simpl; [done|].
  intros H. apply bind_Done_inv in H as (E & w1 & _ & H).
  destruct (Edge.nest E); [|done].
  apply bind_Done_inv in H as (? & w2 & _ & H).
  apply bind_Done_inv in H as (? & w3 & _ & H).
  by apply IH in H.
Qed.

Lemma fix_incoming_nil fuel n : MoveToNest_fix_incoming fuel n None = ret tt.
Proof. by destruct n. Qed.

Lemma fix_outcoming_nil fuel n : MoveToNest_fix_outcoming fuel n None = ret tt.
Proof. by destruct n. Qed.

(** A successful return of [MoveToNest] happens only on a node whose two
    adjacency lists are empty. *)
Lemma MoveToNest_Done_no_edges fuel n nest w N w' :
  nodes w !! n = Some N →
  Node_MoveToNest fuel (Some n) nest w = Done None w' →
  Node.firstIncomingEdge N = None ∧ Node.firstOutcomingEdge N = None.
Proof.
  intros HN H. unfold Node_MoveToNest in H.
  apply bind_Done_inv in H as (K & w1 & HK & H).
  apply load_Done_inv in HK as [-> _].
  apply bind_Done_inv in H as (T & w1 & HT & H).
  apply load_Done_inv in HT as [-> _].
  apply bind_Done_inv in H as (Nd & w1 & HNd & H).
  apply load_Done_inv in HNd as [-> _].
  destruct (negb _); [done|].
  destruct (Node.nest Nd) as [k0|]; [|done].
  assert (adj_heads n (Node.firstIncomingEdge N) (Node.firstOutcomingEdge N) w)
    as HP by (by exists N).
  apply bind_Done_inv in H as (? & w1 & H1 & H).
  apply (keeps_Done _ _ _ _ _ (keeps_adj_heads_removeNode _ _ _ _ _) HP) in H1.
  apply bind_Done_inv in H as (? & w2 & H2 & H).
  apply modify_Done_inv in H2 as (a & _ & _ & ->).
  apply (adj_heads_modify_nodes _ _ _ a (Node.with_nest nest)) in H1; [|done].
  apply bind_Done_inv in H as (? & w3 & H3 & H).
  apply (keeps_Done _ _ _ _ _ (keeps_adj_heads_addNode _ _ _ _ _) H1) in H3.
  destruct H3 as (N3 & HN3 & Hi & Ho).
  apply bind_Done_inv in H as (fi & w4 & H4 & H).
  unfold Node_GetFirstIncomingEdge in H4.
  apply bind_Done_inv in H4 as (N4 & ? & H4 & [= <- <-]).
  apply load_Done_inv in H4 as [-> (? & [= <-] & H4)].
  simpl in H4. rewrite HN3 in H4. injection H4 as <-.
  apply bind_Done_inv in H as (? & w5 & H5 & H).
  destruct (Node.firstIncomingEdge N3) as [ei|] eqn:Ei;
    [by apply fix_incoming_never_returns in H5|].
  rewrite fix_incoming_nil in H5. injection H5 as _ <-.
  apply bind_Done_inv in H as (fo & w6 & H6 & H).
  unfold Node_GetFirstOutcomingEdge in H6.
  apply bind_Done_inv in H6 as (N6 & ? & H6 & [= <- <-]).
  apply load_Done_inv in H6 as [-> (? & [= <-] & H6)].
  simpl in H6. rewrite HN3 in H6. injection H6 as <-.
  apply bind_Done_inv in H as (? & w7 & H7 & H).
  destruct (Node.firstOutcomingEdge N3) as [eo|] eqn:Eo;
    [by apply fix_outcoming_never_returns in H7|].
  done.
Qed.

Lemma world_edge_moving_round fuel :
  (∃ E k, load Edges (Some 0) world_edge_moving = Done E world_edge_moving ∧
          Edge.nest E = Some k) ∧
  Edge_calcNestAndMoveToIt fuel (Some 0) world_edge_moving
    = Done tt world_edge_moving ∧
  Edge_GetNextIncomingEdge (Some 0) world_edge_moving
    = Done None world_edge_moving.
Proof.
  split; [eexists _, _; split; by vm_compute|].
  split; [destruct fuel|]; by vm_compute.
Qed.

Lemma fix_incoming_world_edge fuel n w :
  w = world_edge_moving →
  MoveToNest_fix_incoming fuel n (Some 0) w = Cutoff w.
Proof.
  intros ->. destruct (world_edge_moving_round fuel) as ((E & k & HE & Hk) & Hc & Hn).
  induction n as [|n IH]; [done|].
  cbn [MoveToNest_fix_incoming].
  rewrite (bind_Done _ _ _ _ _ HE), Hk.
  rewrite (bind_Done _ _ _ _ _ Hc), (bind_Done _ _ _ _ _ Hn).
  exact IH.
Qed.

Lemma MoveToNest_split fuel n k w K t T N k0 :
  nests w !! k = Some K → Nest.nestTree K = Some t →
  nestTrees w !! t = Some T → nodes w !! n = Some N →
  NestTree.baseGraph T = Node.graph N → Node.nest N = Some k0 →
  Node_MoveToNest fuel (Some n) (Some k) w
  = (MoveToNest_relink (Some n) (Some k0) (Some k) ;;;
     MoveToNest_fix fuel (Some n)) w.
Proof.
  intros HK Ht HT HN Hg Hk0. unfold Node_MoveToNest.
  rewrite (bind_Done _ _ _ _ _ (load_Some Nests _ _ _ HK)), Ht.
  rewrite (bind_Done _ _ _ _ _ (load_Some NestTrees _ _ _ HT)).
  rewrite (bind_Done _ _ _ _ _ (load_Some Nodes _ _ _ HN)).
  rewrite Hg, Hk0. unfold ptr_eqb. rewrite bool_decide_eq_true_2 by done.
  cbn [negb]. unfold MoveToNest_relink, MoveToNest_fix, bind.
  destruct (Nest_removeNode _ _ w) as [? w1| |]; [|done..].
  destruct (modify _ _ _ w1) as [? w2| |]; [|done..].
  by destruct (Nest_addNode _ _ w2).
Qed.

(** C2. [MoveToNest] does not run to completion on a node with an edge.
    In general it never returns success on a node whose incoming or
    outgoing list is not empty; on node [b] of the two-node graph with
    the edge from [a] to [b] it is cut off under every loop budget, never
    panicking and never returning, and so recomputes the first incoming
    edge again and again. *)
Theorem MoveToNest_does_not_end_on_node_with_edges :
  (∀ fuel n nest w N w',
     nodes w !! n = Some N →
     Node.firstIncomingEdge N ≠ None ∨ Node.firstOutcomingEdge N ≠ None →
     Node_MoveToNest fuel (Some n) nest w ≠ Done None w') ∧
  reachable world_edge ∧
  (∃ N, nodes world_edge !! 1 = Some N ∧ Node.firstIncomingEdge N = Some 0 ∧
        Node.nest N = Some 0) ∧
  (∀ fuel, ∃ w', Node_MoveToNest fuel (Some 1) (Some 0) world_edge = Cutoff w').
Proof.
  split.
  { intros fuel n nest w N w' HN Hor H.
    destruct (MoveToNest_Done_no_edges _ _ _ _ _ _ HN H) as [Hi Ho].
    by destruct Hor. }
  split; [apply reachable_edge|].
  split; [eexists; by vm_compute|].
  intros fuel. exists world_edge_moving.
  erewrite MoveToNest_split; [|by vm_compute..].
  erewrite bind_Done; [|by vm_compute].
  unfold MoveToNest_fix.
  erewrite bind_Done; [|by vm_compute].
  unfold bind. by rewrite fix_incoming_world_edge.
Qed.

(** ** The last nest of the traversal has no successor *)

(** C9, counterexample.  In the tree of a root and two nests made by
    [NewNest] the preorder is: root (0), second nest (2), first nest (1).
    The first nest is neither the root nor the first of the preorder, yet
    its successor is [nil], on which [GetPrevNest] panics: the round trip
    does not give the nest back. *)
Lemma prev_of_next_fails_on_last_nest :
  reachable world_two_nests ∧
  (∃ T, nestTrees world_two_nests !! 0 = Some T ∧ NestTree.rootNest T = Some 0) ∧
  Nest_GetNextNest 1 (Some 0) world_two_nests = Done (Some 2) world_two_nests ∧
  Nest_GetNextNest 1 (Some 2) world_two_nests = Done (Some 1) world_two_nests ∧
  (∀ fuel, Nest_GetNextNest (S fuel) (Some 1) world_two_nests
           = Done None world_two_nests) ∧
  (∀ fuel, (next <- Nest_GetNextNest (S fuel) (Some 1) ;;
            Nest_GetPrevNest (S fuel) next) world_two_nests = Panic).
Proof.
  split; [apply reachable_two_nests|].
  split; [eexists; by vm_compute|].
  split; [by vm_compute|]. split; [by vm_compute|].
  split; intros fuel; destruct fuel; by vm_compute.
Qed.

(** ** Worlds that only grow *)

Lemma ext_refl w : ext w w.
Proof. split; eauto. Qed.

Lemma ext_trans w1 w2 w3 : ext w1 w2 → ext w2 w3 → ext w1 w3.
Proof.
  intros [G1 T1 K1 N1 E1] [G2 T2 K2 N2 E2]. split.
  - intros g G H. destruct (G1 _ _ H) as (G' & H' & Hf).
    destruct (G2 _ _ H') as (G'' & H'' & Hf'). exists G''. split; [done|congruence].
  - intros t T H. destruct (T1 _ _ H) as (T' & H' & Hf).
    destruct (T2 _ _ H') as (T'' & H'' & Hf'). exists T''. split; [done|congruence].
  - intros k K H. destruct (K1 _ _ H) as (K' & H' & Hf).
    destruct (K2 _ _ H') as (K'' & H'' & Hf'). exists K''. split; [done|congruence].
  - intros i N H. destruct (N1 _ _ H) as (N' & H' & Hf).
    destruct (N2 _ _ H') as (N'' & H'' & Hf'). exists N''. split; [done|congruence].
  - intros e E H. destruct (E1 _ _ H) as (E' & H' & Hf).
    destruct (E2 _ _ H') as (E'' & H'' & Hf'). exists E''. split; [done|congruence].
Qed.

Lemma lookup_alter_keep {A B} (h : A → B) (f : A → A) (l : list A) a i x :
  (∀ y, l !! a = Some y → h (f y) = h y) →
  l !! i = Some x → ∃ x', alter f a l !! i = Some x' ∧ h x' = h x.
Proof.
  intros Hf Hx. destruct (decide (a = i)) as [->|Hne].
  - rewrite list_lookup_alter_eq, Hx. simpl. eauto.
  - rewrite list_lookup_alter_ne by done. eauto.
Qed.

Lemma lookup_alter_inv {A} (f : A → A) (l : list A) a i x' :
  alter f a l !! i = Some x' →
  (i = a ∧ ∃ x, l !! a = Some x ∧ x' = f x) ∨ (i ≠ a ∧ l !! i = Some x').
Proof.
  destruct (decide (a = i)) as [->|Hne].
  - rewrite list_lookup_alter_eq. destruct (l !! i) as [x|]; [|done].
    intros [= <-]. left. eauto.
  - rewrite list_lookup_alter_ne by done. eauto.
Qed.

Lemma lookup_snoc_inv {A} (l : list A) x i y :
  (l ++ [x]) !! i = Some y →
  (i < length l ∧ l !! i = Some y) ∨ (i = length l ∧ y = x).
Proof.
  intros H. destruct (decide (i < length l)) as [Hlt|Hge].
  - rewrite lookup_app_l in H by done. eauto.
  - rewrite lookup_app_r in H by lia.
    destruct (i - length l) as [|n] eqn:E; simpl in H; [|done].
    injection H as <-. right. split; [lia|done].
Qed.

Lemma ext_modify_graphs a f w :
  (∀ G, graphs w !! a = Some G → fixGraph (f G) = fixGraph G) →
  ext w (modify_w Graphs a f w).
Proof.
  intros Hf. split; simpl; eauto. intros g G H.
  by apply (lookup_alter_keep fixGraph).
Qed.

Lemma ext_modify_trees a f w :
  (∀ T, nestTrees w !! a = Some T → fixTree (f T) = fixTree T) →
  ext w (modify_w NestTrees a f w).
Proof.
  intros Hf. split; simpl; eauto. intros g G H.
  by apply (lookup_alter_keep fixTree).
Qed.

Lemma ext_modify_nests a f w :
  (∀ K, nests w !! a = Some K → fixNest (f K) = fixNest K) →
  ext w (modify_w Nests a f w).
Proof.
  intros Hf. split; simpl; eauto. intros g G H.
  by apply (lookup_alter_keep fixNest).
Qed.

Lemma ext_modify_nodes a f w :
  (∀ N, nodes w !! a = Some N → Node.graph (f N) = Node.graph N) →
  ext w (modify_w Nodes a f w).
Proof.
  intros Hf. split; simpl; eauto. intros g G H.
  by apply (lookup_alter_keep Node.graph).
Qed.

Lemma ext_modify_edges a f w :
  (∀ E, edges w !! a = Some E → fixEdge (f E) = fixEdge E) →
  ext w (modify_w Edges a f w).
Proof.
  intros Hf. split; simpl; eauto. intros g G H.
  by apply (lookup_alter_keep fixEdge).
Qed.

Lemma ext_alloc_nodes x w : ext w (alloc_w Nodes x w).
Proof.
  split; simpl; eauto. intros i N H. exists N. split; [|done].
  rewrite lookup_app_l; [done|]. by eapply lookup_lt_Some.
Qed.

Lemma ext_alloc_edges x w : ext w (alloc_w Edges x w).
Proof.
  split; simpl; eauto. intros i N H. exists N. split; [|done].
  rewrite lookup_app_l; [done|]. by eapply lookup_lt_Some.
Qed.

Lemma ext_alloc_nests x w : ext w (alloc_w Nests x w).
Proof.
  split; simpl; eauto. intros i N H. exists N. split; [|done].
  rewrite lookup_app_l; [done|]. by eapply lookup_lt_Some.
Qed.

Lemma ext_vptr_nodes w w' p : ext w w' → vptr (nodes w) p → vptr (nodes w') p.
Proof.
  intros Hx. destruct p as [a|]; [|done]. simpl. intros Hlt.
  destruct (lookup_lt_is_Some_2 _ _ Hlt) as [N HN].
  destruct (ext_node _ _ Hx _ _ HN) as (N' & HN' & _).
  by eapply lookup_lt_Some.
Qed.

Lemma ext_vptr_edges w w' p : ext w w' → vptr (edges w) p → vptr (edges w') p.
Proof.
  intros Hx. destruct p as [a|]; [|done]. simpl. intros Hlt.
  destruct (lookup_lt_is_Some_2 _ _ Hlt) as [N HN].
  destruct (ext_edge _ _ Hx _ _ HN) as (N' & HN' & _).
  by eapply lookup_lt_Some.
Qed.

Lemma okGraph_ext w w' g G : ext w w' → okGraph w g G → okGraph w' g G.
Proof.
  intros Hx (t & T & r & R & Ht & HT & Hb & Hr & HR & HRt & Hn1 & Hn2).
  destruct (ext_tree _ _ Hx _ _ HT) as (T' & HT' & [= Eb Er]).
  destruct (ext_nest _ _ Hx _ _ HR) as (R' & HR' & [= Et El Ep]).
  exists t, T', r, R'. repeat split; try done; congruence.
Qed.

Lemma okTree_ext w w' t T : ext w w' → okTree w t T → okTree w' t T.
Proof.
  intros Hx (g & G & Hb & HG & Ht).
  destruct (ext_graph _ _ Hx _ _ HG) as (G' & HG' & [= Et Ea]).
  exists g, G'. repeat split; try done; congruence.
Qed.

Lemma okNest_ext w w' k K : ext w w' → okNest w k K → okNest w' k K.
Proof.
  intros Hx (t & T & r & Ht & HT & Hr & Hshape & V1 & V2 & V3).
  destruct (ext_tree _ _ Hx _ _ HT) as (T' & HT' & [= Eb Er]).
  exists t, T', r. repeat split; try done; try congruence;
    eauto using ext_vptr_nodes, ext_vptr_edges.
Qed.

Lemma okNode_ext w w' N : ext w w' → okNode w N → okNode w' N.
Proof.
  intros Hx (V1 & V2 & V3 & V4 & g & G & k & K & Hg & HG & Hk & HK & Ht).
  destruct (ext_graph _ _ Hx _ _ HG) as (G' & HG' & [= Et Ea]).
  destruct (ext_nest _ _ Hx _ _ HK) as (K' & HK' & [= Ekt El Ep]).
  repeat split; eauto using ext_vptr_nodes, ext_vptr_edges.
  exists g, G', k, K'. repeat split; try done; congruence.
Qed.

Lemma okEdge_ext w w' E : ext w w' → okEdge w E → okEdge w' E.
Proof.
  intros Hx ((s & S & d & D & Hs & HS & Hd & HD & Hgs & Hgd) & V1 & V2 & Hn).
  destruct (ext_node _ _ Hx _ _ HS) as (S' & HS' & ES).
  destruct (ext_node _ _ Hx _ _ HD) as (D' & HD' & ED).
  repeat split; eauto using ext_vptr_edges.
  - exists s, S', d, D'. repeat split; try done; congruence.
  - intros k Hk. destruct (Hn k Hk) as (K & g & G & HK & Hg & HG & Ht).
    destruct (ext_graph _ _ Hx _ _ HG) as (G' & HG' & [= Et Ea]).
    destruct (ext_nest _ _ Hx _ _ HK) as (K' & HK' & [= Ekt El Ep]).
    exists K', g, G'. repeat split; try done; congruence.
Qed.

Lemma root_of_ext w w' k r : ext w w' → root_of w k = Some r → root_of w' k = Some r.
Proof.
  intros Hx. unfold root_of. intros H.
  destruct (nests w !! k) as [K|] eqn:HK; [|done]. simpl in H.
  destruct (Nest.nestTree K) as [t|] eqn:Ht; [|done]. simpl in H.
  destruct (nestTrees w !! t) as [T|] eqn:HT; [|done]. simpl in H.
  destruct (ext_tree _ _ Hx _ _ HT) as (T' & HT' & [= Eb Er]).
  destruct (ext_nest _ _ Hx _ _ HK) as (K' & HK' & [= Ekt El Ep]).
  rewrite HK'. simpl. rewrite Ekt, Ht. simpl. rewrite HT'. simpl. congruence.
Qed.

Lemma sibNest_keep w w' k K :
  (∀ c C, nests w !! c = Some C →
          ∃ C', nests w' !! c = Some C' ∧ sibs C' = sibs C ∧
                Nest.parentNest C' = Nest.parentNest C) →
  sibNest w k K → sibNest w' k K.
Proof.
  intros Hk (S1 & S2 & S3 & S4). repeat split; try done.
  - intros c Hc. destruct (S1 c Hc) as (C & HC & Hp & Hpar).
    destruct (Hk _ _ HC) as (C' & HC' & [= _ _ _ Eprev] & Epar).
    exists C'. repeat split; congruence.
  - intros d Hd. destruct (S2 d Hd) as (D & HD & Hp).
    destruct (Hk _ _ HD) as (D' & HD' & [= _ _ _ Eprev] & Epar).
    exists D'. split; congruence.
Qed.

Lemma adjEdge_keep w w' E :
  (∀ i N, nodes w !! i = Some N →
          ∃ N', nodes w' !! i = Some N' ∧
                (Node.firstIncomingEdge N ≠ None → Node.firstIncomingEdge N' ≠ None) ∧
                (Node.firstOutcomingEdge N ≠ None → Node.firstOutcomingEdge N' ≠ None)) →
  adjEdge w E → adjEdge w' E.
Proof.
  intros Hk ((s & S & Hs & HS & Ho) & (d & D & Hd & HD & Hi)). split.
  - destruct (Hk _ _ HS) as (S' & HS' & _ & Ho'). exists s, S'. eauto.
  - destruct (Hk _ _ HD) as (D' & HD' & Hi' & _). exists d, D'. eauto.
Qed.

Lemma attrEdge_keep w w' E :
  ext w w' → attrEdge w E →
  (∀ s ks, Edge.srcNode E = Some s ∨ Edge.dstNode E = Some s →
           node_nest w s = Some ks → node_nest w' s = Some ks) →
  attrEdge w' E.
Proof.
  intros Hx (s & d & ks & kd & r & Hs & Hd & Hks & Hkd & Hr & Hn) Hk.
  exists s, d, ks, kd, r. repeat split; eauto using root_of_ext.
Qed.

Lemma Inv_weaken e w : Inv None w → Inv (Some e) w.
Proof.
  intros [HG HT HK HN HE]. split; try done.
  intros e' E H. destruct (HE _ _ H) as [Hok Hrest]. split; [done|].
  intros _. by apply Hrest.
Qed.

Lemma Inv_settle e E w :
  Inv (Some e) w → edges w !! e = Some E → adjEdge w E → attrEdge w E →
  Inv None w.
Proof.
  intros [HG HT HK HN HE] He Hadj Hattr. split; try done.
  intros e' E' H. destruct (HE _ _ H) as [Hok Hrest]. split; [done|].
  intros _. destruct (decide (e' = e)) as [->|Hne].
  - rewrite He in H. injection H as <-. done.
  - apply Hrest. congruence.
Qed.

(** ** Writes that keep the invariant *)

Lemma Inv_modify_nodes pend w a f :
  Inv pend w →
  (∀ N, nodes w !! a = Some N →
        Node.graph (f N) = Node.graph N ∧ okNode w (f N) ∧
        (Node.firstIncomingEdge N ≠ None → Node.firstIncomingEdge (f N) ≠ None) ∧
        (Node.firstOutcomingEdge N ≠ None → Node.firstOutcomingEdge (f N) ≠ None) ∧
        (Node.nest (f N) = Node.nest N ∨
         (Node.firstIncomingEdge N = None ∧ Node.firstOutcomingEdge N = None))) →
  Inv pend (modify_w Nodes a f w).
Proof.
  intros [HG HT HK HN HE] Hf.
  assert (ext w (modify_w Nodes a f w)) as Hx.
  { apply ext_modify_nodes. intros N H. by destruct (Hf N H). }
  split; simpl.
  - intros g G H. eapply okGraph_ext; eauto.
  - intros t T H. eapply okTree_ext; eauto.
  - intros k K H. destruct (HK _ _ H). split; [eapply okNest_ext; eauto|done].
  - intros i N' H. apply lookup_alter_inv in H as [(-> & N & H & ->)|(Hne & H)].
    + eapply okNode_ext; [done|]. by destruct (Hf N H) as (_ & ? & _).
    + eapply okNode_ext; eauto.
  - intros e E H. destruct (HE _ _ H) as [Hok Hrest].
    split; [eapply okEdge_ext; eauto|]. intros Hp.
    destruct (Hrest Hp) as [Hadj Hattr]. split.
    + eapply adjEdge_keep; [|done]. simpl. intros i N HNi.
      destruct (decide (a = i)) as [->|Hne].
      * rewrite list_lookup_alter_eq, HNi. simpl. eexists; split; [done|].
        destruct (Hf N HNi) as (_ & _ & ? & ? & _). done.
      * rewrite list_lookup_alter_ne by done. eauto.
    + eapply attrEdge_keep; [done..|].
      intros s ks Hs. unfold node_nest. simpl.
      destruct (decide (a = s)) as [->|Hne];
        [|by rewrite list_lookup_alter_ne by done].
      rewrite list_lookup_alter_eq.
      destruct (nodes w !! s) as [N|] eqn:HNs; [|done]. simpl.
      destruct (Hf N eq_refl) as (_ & _ & _ & _ & [->|[Hi Ho]]); [done|].
      exfalso.
      destruct Hadj as ((s' & S & Hs' & HS & HSo) & (d' & D & Hd' & HD & HDi)).
      destruct Hs as [Hs|Hs]; rewrite Hs in *.
      * injection Hs' as <-. rewrite HNs in HS. injection HS as <-. done.
      * injection Hd' as <-. rewrite HNs in HD. injection HD as <-. done.
Qed.

Lemma attrEdge_same_fields w E E' :
  Edge.srcNode E' = Edge.srcNode E → Edge.dstNode E' = Edge.dstNode E →
  Edge.nest E' = Edge.nest E → attrEdge w E → attrEdge w E'.
Proof.
  intros Es Ed En (s & d & ks & kd & r & H). exists s, d, ks, kd, r.
  rewrite Es, Ed, En. done.
Qed.

Lemma adjEdge_same_fields w E E' :
  Edge.srcNode E' = Edge.srcNode E → Edge.dstNode E' = Edge.dstNode E →
  adjEdge w E → adjEdge w E'.
Proof. intros Es Ed. unfold adjEdge. by rewrite Es, Ed. Qed.

Lemma Inv_modify_edges pend w a f :
  Inv pend w →
  (∀ E, edges w !! a = Some E →
        fixEdge (f E) = fixEdge E ∧ okEdge w (f E) ∧
        (Some a ≠ pend → attrEdge w E → attrEdge w (f E))) →
  Inv pend (modify_w Edges a f w).
Proof.
  intros [HG HT HK HN HE] Hf.
  assert (ext w (modify_w Edges a f w)) as Hx.
  { apply ext_modify_edges. intros N H. by destruct (Hf N H). }
  split; simpl.
  - intros g G H. eapply okGraph_ext; eauto.
  - intros t T H. eapply okTree_ext; eauto.
  - intros k K H. destruct (HK _ _ H). split; [eapply okNest_ext; eauto|done].
  - intros i N H. eapply okNode_ext; eauto.
  - intros e E' H. apply lookup_alter_inv in H as [(-> & E & H & ->)|(Hne & H)].
    + destruct (HE _ _ H) as [Hok Hrest]. destruct (Hf E H) as ([= Eg Es Ed] & Hok' & Hat).
      split; [eapply okEdge_ext; eauto|]. intros Hp.
      destruct (Hrest Hp) as [Hadj Hattr]. split.
      * by apply (adjEdge_same_fields _ E).
      * eapply attrEdge_keep; [done|by apply Hat|done].
    + destruct (HE _ _ H) as [Hok Hrest].
      split; [eapply okEdge_ext; eauto|]. intros Hp.
      destruct (Hrest Hp) as [Hadj Hattr]. split; [done|].
      eapply attrEdge_keep; eauto.
Qed.

Lemma Inv_modify_nests pend w a f :
  Inv pend w →
  (∀ K, nests w !! a = Some K →
        fixNest (f K) = fixNest K ∧ sibs (f K) = sibs K ∧
        vptr (nodes w) (Nest.firstNode (f K)) ∧
        vptr (nodes w) (Nest.lastNode (f K)) ∧
        vptr (edges w) (Nest.firstEdge (f K))) →
  Inv pend (modify_w Nests a f w).
Proof.
  intros [HG HT HK HN HE] Hf.
  assert (ext w (modify_w Nests a f w)) as Hx.
  { apply ext_modify_nests. intros N H. by destruct (Hf N H). }
  assert (∀ c C, nests w !! c = Some C →
            ∃ C', nests (modify_w Nests a f w) !! c = Some C' ∧ sibs C' = sibs C ∧
                  Nest.parentNest C' = Nest.parentNest C) as Hsib.
  { intros c C HC. simpl. destruct (decide (a = c)) as [->|Hne].
    - rewrite list_lookup_alter_eq, HC. simpl. eexists; split; [done|].
      destruct (Hf C HC) as ([= _ _ ?] & ? & _). done.
    - rewrite list_lookup_alter_ne by done. eauto. }
  split; simpl.
  - intros g G H. eapply okGraph_ext; eauto.
  - intros t T H. eapply okTree_ext; eauto.
  - intros k K' H. apply lookup_alter_inv in H as [(-> & K & H & ->)|(Hne & H)].
    + destruct (HK _ _ H) as [Hok Hsb].
      destruct (Hf K H) as ([= Et El Ep] & [= E1 E2 E3 E4] & V1 & V2 & V3). split.
      * eapply okNest_ext; [done|].
        destruct Hok as (t & T & r & Ht & HT' & Hr & Hshape & _).
        exists t, T, r. rewrite Et, El, Ep. done.
      * eapply sibNest_keep; [done|].
        destruct Hsb as (S1 & S2 & S3 & S4).
        unfold sibNest. rewrite E1, E2, E3, Ep. done.
    + destruct (HK _ _ H) as [Hok Hsb]. split.
      * eapply okNest_ext; eauto.
      * eapply sibNest_keep; eauto.
  - intros i N H. eapply okNode_ext; eauto.
  - intros e E H. destruct (HE _ _ H) as [Hok Hrest].
    split; [eapply okEdge_ext; eauto|]. intros Hp.
    destruct (Hrest Hp) as [Hadj Hattr]. split; [done|].
    eapply attrEdge_keep; eauto.
Qed.

Lemma Inv_modify_graphs pend w a f :
  Inv pend w →
  (∀ G, graphs w !! a = Some G → fixGraph (f G) = fixGraph G) →
  Inv pend (modify_w Graphs a f w).
Proof.
  intros [HG HT HK HN HE] Hf.
  assert (ext w (modify_w Graphs a f w)) as Hx by by apply ext_modify_graphs.
  split; simpl.
  - intros g G' H. apply lookup_alter_inv in H as [(-> & G & H & ->)|(Hne & H)].
    + eapply okGraph_ext; [done|]. destruct (Hf G H).
      destruct (HG _ _ H) as (t & T & r & R & Hrest).
      exists t, T, r, R. injection (Hf G H) as -> ->. done.
    + eapply okGraph_ext; eauto.
  - intros t T H. eapply okTree_ext; eauto.
  - intros k K H. destruct (HK _ _ H). split; [eapply okNest_ext; eauto|done].
  - intros i N H. eapply okNode_ext; eauto.
  - intros e E H. destruct (HE _ _ H) as [Hok Hrest].
    split; [eapply okEdge_ext; eauto|]. intros Hp.
    destruct (Hrest Hp) as [Hadj Hattr]. split; [done|].
    eapply attrEdge_keep; eauto.
Qed.

Lemma Inv_modify_trees pend w a f :
  Inv pend w →
  (∀ T, nestTrees w !! a = Some T → fixTree (f T) = fixTree T) →
  Inv pend (modify_w NestTrees a f w).
Proof.
  intros [HG HT HK HN HE] Hf.
  assert (ext w (modify_w NestTrees a f w)) as Hx by by apply ext_modify_trees.
  split; simpl.
  - intros g G H. eapply okGraph_ext; eauto.
  - intros t T' H. apply lookup_alter_inv in H as [(-> & T & H & ->)|(Hne & H)].
    + eapply okTree_ext; [done|]. destruct (HT _ _ H) as (g & G & Hrest).
      exists g, G. injection (Hf T H) as -> _. done.
    + eapply okTree_ext; eauto.
  - intros k K H. destruct (HK _ _ H). split; [eapply okNest_ext; eauto|done].
  - intros i N H. eapply okNode_ext; eauto.
  - intros e E H. destruct (HE _ _ H) as [Hok Hrest].
    split; [eapply okEdge_ext; eauto|]. intros Hp.
    destruct (Hrest Hp) as [Hadj Hattr]. split; [done|].
    eapply attrEdge_keep; eauto.
Qed.

Lemma Inv_handles pend w l1 l2 l3 :
  Inv pend w →
  Inv pend (mkWorld (graphs w) (nestTrees w) (nests w) (nodes w) (edges w) l1 l2 l3).
Proof. intros [HG HT HK HN HE]. by split. Qed.

(** *** The single field writes of the package *)

Lemma Inv_set_nextNodeInNest pend w a p :
  Inv pend w → vptr (nodes w) p →
  Inv pend (modify_w Nodes a (Node.with_nextNodeInNest p) w).
Proof.
  intros HI Hp. apply Inv_modify_nodes; [done|]. intros N HN.
  destruct (inv_node _ _ HI _ _ HN) as (V1 & V2 & V3 & V4 & Hrest).
  repeat split; eauto.
Qed.

Lemma Inv_set_prevNodeInNest pend w a p :
  Inv pend w → vptr (nodes w) p →
  Inv pend (modify_w Nodes a (Node.with_prevNodeInNest p) w).
Proof.
  intros HI Hp. apply Inv_modify_nodes; [done|]. intros N HN.
  destruct (inv_node _ _ HI _ _ HN) as (V1 & V2 & V3 & V4 & Hrest).
  repeat split; eauto.
Qed.

Lemma Inv_set_firstOutcomingEdge pend w a e :
  Inv pend w → e < length (edges w) →
  Inv pend (modify_w Nodes a (Node.with_firstOutcomingEdge (Some e)) w).
Proof.
  intros HI Hp. apply Inv_modify_nodes; [done|]. intros N HN.
  destruct (inv_node _ _ HI _ _ HN) as (V1 & V2 & V3 & V4 & Hrest).
  repeat split; eauto.
Qed.

Lemma Inv_set_firstIncomingEdge pend w a e :
  Inv pend w → e < length (edges w) →
  Inv pend (modify_w Nodes a (Node.with_firstIncomingEdge (Some e)) w).
Proof.
  intros HI Hp. apply Inv_modify_nodes; [done|]. intros N HN.
  destruct (inv_node _ _ HI _ _ HN) as (V1 & V2 & V3 & V4 & Hrest).
  repeat split; eauto.
Qed.

Lemma Inv_set_node_strAttrs pend w a h :
  Inv pend w →
  Inv pend (modify_w Nodes a (λ N, Node.with_strAttrs (h N) N) w).
Proof.
  intros HI. apply Inv_modify_nodes; [done|]. intros N HN.
  destruct (inv_node _ _ HI _ _ HN) as (V1 & V2 & V3 & V4 & Hrest).
  repeat split; eauto.
Qed.

Lemma Inv_set_firstNode pend w a p :
  Inv pend w → vptr (nodes w) p →
  Inv pend (modify_w Nests a (Nest.with_firstNode p) w).
Proof.
  intros HI Hp. apply Inv_modify_nests; [done|]. intros K HK.
  destruct (inv_nest _ _ HI _ _ HK) as [(t & T & r & _ & _ & _ & _ & V1 & V2 & V3) _].
  repeat split; eauto.
Qed.

Lemma Inv_set_lastNode pend w a p :
  Inv pend w → vptr (nodes w) p →
  Inv pend (modify_w Nests a (Nest.with_lastNode p) w).
Proof.
  intros HI Hp. apply Inv_modify_nests; [done|]. intros K HK.
  destruct (inv_nest _ _ HI _ _ HK) as [(t & T & r & _ & _ & _ & _ & V1 & V2 & V3) _].
  repeat split; eauto.
Qed.

Lemma Inv_set_firstEdge pend w a p :
  Inv pend w → vptr (edges w) p →
  Inv pend (modify_w Nests a (Nest.with_firstEdge p) w).
Proof.
  intros HI Hp. apply Inv_modify_nests; [done|]. intros K HK.
  destruct (inv_nest _ _ HI _ _ HK) as [(t & T & r & _ & _ & _ & _ & V1 & V2 & V3) _].
  repeat split; eauto.
Qed.

Lemma Inv_set_nest_strAttrs pend w a h :
  Inv pend w →
  Inv pend (modify_w Nests a (λ K, Nest.with_strAttrs (h K) K) w).
Proof.
  intros HI. apply Inv_modify_nests; [done|]. intros K HK.
  destruct (inv_nest _ _ HI _ _ HK) as [(t & T & r & _ & _ & _ & _ & V1 & V2 & V3) _].
  repeat split; eauto.
Qed.

Lemma Inv_set_nextEdgeInNest pend w a p :
  Inv pend w → vptr (edges w) p →
  Inv pend (modify_w Edges a (Edge.with_nextEdgeInNest p) w).
Proof.
  intros HI Hp. apply Inv_modify_edges; [done|]. intros E HE.
  destruct (inv_edge _ _ HI _ _ HE) as [(He & V1 & V2 & Hn) _].
  split; [done|]. split; [|intros _; by apply attrEdge_same_fields].
  repeat split; eauto.
Qed.

Lemma Inv_set_prevEdgeInNest pend w a p :
  Inv pend w → vptr (edges w) p →
  Inv pend (modify_w Edges a (Edge.with_prevEdgeInNest p) w).
Proof.
  intros HI Hp. apply Inv_modify_edges; [done|]. intros E HE.
  destruct (inv_edge _ _ HI _ _ HE) as [(He & V1 & V2 & Hn) _].
  split; [done|]. split; [|intros _; by apply attrEdge_same_fields].
  repeat split; eauto.
Qed.

Lemma Inv_set_prevOutcomingEdge pend w a p :
  Inv pend w →
  Inv pend (modify_w Edges a (Edge.with_prevOutcomingEdge p) w).
Proof.
  intros HI. apply Inv_modify_edges; [done|]. intros E HE.
  destruct (inv_edge _ _ HI _ _ HE) as [(He & V1 & V2 & Hn) _].
  split; [done|]. split; [|intros _; by apply attrEdge_same_fields].
  repeat split; eauto.
Qed.

Lemma Inv_set_prevIncomingEdge pend w a p :
  Inv pend w →
  Inv pend (modify_w Edges a (Edge.with_prevIncomingEdge p) w).
Proof.
  intros HI. apply Inv_modify_edges; [done|]. intros E HE.
  destruct (inv_edge _ _ HI _ _ HE) as [(He & V1 & V2 & Hn) _].
  split; [done|]. split; [|intros _; by apply attrEdge_same_fields].
  repeat split; eauto.
Qed.

(** Goals on addresses after writes: lengths do not change. *)
Ltac solve_len :=
  simpl; rewrite ?length_alter; simpl;
  first [ done | lia | by eapply lookup_lt_Some | eauto ].

Ltac solve_some :=
  apply lookup_lt_is_Some; solve_len.

Lemma ptr_eqb_refl p : ptr_eqb p p = true.
Proof. unfold ptr_eqb. by rewrite bool_decide_eq_true_2. Qed.

Lemma ptr_eqb_eq p q : ptr_eqb p q = true ↔ p = q.
Proof. unfold ptr_eqb. apply bool_decide_eq_true. Qed.

Lemma ptr_eqb_ne p q : p ≠ q → ptr_eqb p q = false.
Proof. unfold ptr_eqb. intros. by rewrite bool_decide_eq_false_2. Qed.

(** *** Linking a node into a nest and out of it *)

Lemma addNode_wp pend w k K t T i N :
  Inv pend w → nests w !! k = Some K → Nest.nestTree K = Some t →
  nestTrees w !! t = Some T → nodes w !! i = Some N →
  NestTree.baseGraph T = Node.graph N →
  wp (Nest_addNode (Some k) (Some i)) w (λ _ w', Inv pend w') (λ _, False).
Proof.
  intros HI HK Ht HT HN Hg. unfold Nest_addNode.
  apply wp_bind, (wp_load Nests _ _ _ _ _ HK). rewrite Ht.
  apply wp_bind, (wp_load NestTrees _ _ _ _ _ HT).
  apply wp_bind, (wp_load Nodes _ _ _ _ _ HN).
  rewrite Hg, ptr_eqb_refl. cbn [negb].
  destruct (inv_nest _ _ HI _ _ HK) as [(_ & _ & _ & _ & _ & _ & _ & V1 & V2 & V3) _].
  destruct (Nest.firstNode K) as [f|] eqn:Ef.
  - apply wp_bind, wp_modify; [solve_some|].
    apply wp_bind, wp_modify; [solve_some|].
    apply wp_modify; [solve_some|].
    apply Inv_set_firstNode; [|solve_len].
    apply Inv_set_nextNodeInNest; [|solve_len].
    apply Inv_set_prevNodeInNest; [done|solve_len].
  - apply wp_bind, wp_modify; [solve_some|].
    apply wp_bind, wp_modify; [solve_some|].
    apply wp_modify; [solve_some|].
    apply Inv_set_firstNode; [|solve_len].
    apply Inv_set_nextNodeInNest; [|solve_len].
    apply Inv_set_lastNode; [done|solve_len].
Qed.

Lemma removeNode_wp pend w k K t T i N :
  Inv pend w → nests w !! k = Some K → Nest.nestTree K = Some t →
  nestTrees w !! t = Some T → nodes w !! i = Some N →
  NestTree.baseGraph T = Node.graph N →
  wp (Nest_removeNode (Some k) (Some i)) w (λ _ w', Inv pend w') (λ _, False).
Proof.
  intros HI HK Ht HT HN Hg. unfold Nest_removeNode.
  apply wp_bind, (wp_load Nests _ _ _ _ _ HK). rewrite Ht.
  apply wp_bind, (wp_load NestTrees _ _ _ _ _ HT).
  apply wp_bind, (wp_load Nodes _ _ _ _ _ HN).
  rewrite Hg, ptr_eqb_refl. cbn [negb].
  destruct (inv_node _ _ HI _ _ HN) as (_ & _ & V3 & V4 & _).
  destruct (Node.nextNodeInNest N) as [nx|] eqn:En;
    destruct (Node.prevNodeInNest N) as [pv|] eqn:Ep;
    (apply wp_bind, wp_modify; [solve_some|]);
    (apply wp_bind, wp_modify; [solve_some|]);
    (apply wp_bind, wp_modify; [solve_some|]);
    (apply wp_modify; [solve_some|]);
    (apply Inv_set_prevNodeInNest; [|solve_len]);
    (apply Inv_set_nextNodeInNest; [|solve_len]).
  - apply Inv_set_nextNodeInNest; [|solve_len].
    apply Inv_set_prevNodeInNest; [done|solve_len].
  - apply Inv_set_firstNode; [|solve_len].
    apply Inv_set_prevNodeInNest; [done|solve_len].
  - apply Inv_set_nextNodeInNest; [|solve_len].
    apply Inv_set_lastNode; [done|solve_len].
  - apply Inv_set_firstNode; [|solve_len].
    apply Inv_set_lastNode; [done|solve_len].
Qed.

(** *** What edge moves leave alone *)

Lemma edge_frame_refl w : edge_frame w w.
Proof. split; [apply ext_refl|done]. Qed.

Lemma edge_frame_modify_edges w0 a f w :
  (∀ E, adjOf (f E) = adjOf E) →
  edge_frame w0 w → edge_frame w0 (modify_w Edges a f w).
Proof.
  intros Hf (Hx & Hn & Ha). split; [|split; [done|]].
  - eapply ext_trans; [done|]. apply ext_modify_edges. intros E _.
    specialize (Hf E). unfold adjOf in Hf. unfold fixEdge. congruence.
  - intros e. rewrite <- Ha. simpl.
    destruct (decide (a = e)) as [->|Hne].
    + rewrite list_lookup_alter_eq. destruct (edges w !! e); simpl; [|done].
      by rewrite Hf.
    + by rewrite list_lookup_alter_ne.
Qed.

Lemma edge_frame_modify_nests w0 a f w :
  (∀ K, fixNest (f K) = fixNest K) →
  edge_frame w0 w → edge_frame w0 (modify_w Nests a f w).
Proof.
  intros Hf (Hx & Hn & Ha). split; [|done].
  eapply ext_trans; [done|]. apply ext_modify_nests. eauto.
Qed.

Lemma edge_nests_but_refl x w : edge_nests_but x w w.
Proof. by intros e. Qed.

Lemma edge_nests_but_modify_edges x w0 a f w :
  (Some a = x ∨ ∀ E, Edge.nest (f E) = Edge.nest E) →
  edge_nests_but x w0 w → edge_nests_but x w0 (modify_w Edges a f w).
Proof.
  intros Hf Hk e He. rewrite <- (Hk e He). unfold edge_nest. simpl.
  destruct (decide (a = e)) as [->|Hne]; [|by rewrite list_lookup_alter_ne].
  destruct Hf as [Hf|Hf]; [done|].
  rewrite list_lookup_alter_eq. destruct (edges w !! e); simpl; [|done].
  by rewrite Hf.
Qed.

Lemma edge_nests_but_modify_nests x w0 a f w :
  edge_nests_but x w0 w → edge_nests_but x w0 (modify_w Nests a f w).
Proof. done. Qed.

Lemma keeps_edge_frame_removeEdge w0 nest edge :
  keeps (edge_frame w0) (Nest_removeEdge nest edge).
Proof.
  unfold Nest_removeEdge.
  keeps_with ltac:(intros;
    first [ by apply edge_frame_modify_edges | by apply edge_frame_modify_nests ]).
Qed.

Lemma keeps_edge_frame_addEdge w0 nest edge :
  keeps (edge_frame w0) (Nest_addEdge nest edge).
Proof.
  unfold Nest_addEdge.
  keeps_with ltac:(intros;
    first [ by apply edge_frame_modify_edges | by apply edge_frame_modify_nests ]).
Qed.

Lemma keeps_edge_nests_removeEdge x w0 nest edge :
  keeps (edge_nests_but x w0) (Nest_removeEdge nest edge).
Proof.
  unfold Nest_removeEdge.
  keeps_with ltac:(intros;
    first [ apply edge_nests_but_modify_edges; [by right|done]
          | by apply edge_nests_but_modify_nests ]).
Qed.

Lemma keeps_edge_nests_addEdge x w0 nest edge :
  keeps (edge_nests_but x w0) (Nest_addEdge nest edge).
Proof.
  unfold Nest_addEdge.
  keeps_with ltac:(intros;
    first [ apply edge_nests_but_modify_edges; [by right|done]
          | by apply edge_nests_but_modify_nests ]).
Qed.

(** The loops of the package that only read. *)
Lemma keeps_calc_lift P fuel a b : keeps P (calc_lift fuel a b).
Proof.
  revert a. induction fuel as [|fuel IH]; intros a; simpl;
    keeps_with idtac; apply IH.
Qed.

Lemma keeps_calc_meet P fuel a b : keeps P (calc_meet fuel a b).
Proof.
  revert a b. induction fuel as [|fuel IH]; intros a b; simpl;
    keeps_with idtac; apply IH.
Qed.

Lemma keeps_edge_frame_calc w0 fuel edge :
  keeps (edge_frame w0) (Edge_calcNestAndMoveToIt fuel edge).
Proof.
  unfold Edge_calcNestAndMoveToIt.
  keeps_with ltac:(intros;
    first [ by apply edge_frame_modify_edges | by apply edge_frame_modify_nests ]);
    first [ apply keeps_calc_lift | apply keeps_calc_meet ].
Qed.

Lemma keeps_edge_nests_calc w0 fuel edge :
  keeps (edge_nests_but edge w0) (Edge_calcNestAndMoveToIt fuel edge).
Proof.
  unfold Edge_calcNestAndMoveToIt.
  keeps_with ltac:(intros;
    first [ apply edge_nests_but_modify_edges; [by right|done]
          | apply edge_nests_but_modify_edges; [by left|done]
          | by apply edge_nests_but_modify_nests ]);
    first [ apply keeps_calc_lift | apply keeps_calc_meet ].
Qed.

(** *** The three loops of the ancestor search *)

Lemma calc_lift_wp fuel w r a A b B :
  shape w r a A → shape w r b B →
  wp (calc_lift fuel (Some a) (Some b)) w
     (λ x w', w' = w ∧ x = Some (if decide (a ≠ r ∧ b = r) then r else a))
     (λ w', w' = w ∧ fuel = 0).
Proof.
  intros [HA SA] [HB SB].
  destruct fuel as [|fuel]; cbn [calc_lift].
  - apply wp_bind, (wp_load Nests _ _ _ _ _ HA).
    apply wp_bind, (wp_load Nests _ _ _ _ _ HB).
    destruct SA as [(-> & LA & PA)|(Na & LA & PA)],
             SB as [(-> & LB & PB)|(Nb & LB & PB)];
      rewrite LA, LB; simpl; try done;
      (split; [done|]); by rewrite decide_False by (by intros [? ?]).
  - apply wp_bind, (wp_load Nests _ _ _ _ _ HA).
    apply wp_bind, (wp_load Nests _ _ _ _ _ HB).
    destruct SA as [(-> & LA & PA)|(Na & LA & PA)],
             SB as [(-> & LB & PB)|(Nb & LB & PB)];
      rewrite LA, LB; simpl.
    + split; [done|]. by rewrite decide_False by (by intros [? ?]).
    + split; [done|]. by rewrite decide_False by (by intros [? ?]).
    + rewrite PA. destruct fuel; cbn [calc_lift];
        (apply wp_bind, (wp_load Nests _ _ _ _ _ HB));
        (apply wp_bind, (wp_load Nests _ _ _ _ _ HB));
        rewrite Z.ltb_irrefl; (split; [done|]); by rewrite decide_True.
    + split; [done|]. by rewrite decide_False by (by intros [? ?]).
Qed.

Lemma calc_meet_wp fuel w r a A b B :
  shape w r a A → shape w r b B → (a = r ↔ b = r) →
  wp (calc_meet fuel (Some a) (Some b)) w
     (λ x w', w' = w ∧ x = Some (if decide (a = b) then b else r))
     (λ w', w' = w ∧ fuel = 0).
Proof.
  intros [HA SA] [HB SB] Hlev.
  destruct (decide (a = b)) as [->|Hne].
  { destruct fuel; cbn [calc_meet]; rewrite ptr_eqb_refl; done. }
  assert (a ≠ r ∧ b ≠ r) as [Na Nb].
  { destruct (decide (a = r)) as [->|Ha].
    - destruct Hlev as [Hl _]. specialize (Hl eq_refl). congruence.
    - split; [done|]. intros Hb. by apply Ha, Hlev. }
  destruct SA as [(-> & LA & PA)|(_ & LA & PA)]; [done|].
  destruct SB as [(-> & LB & PB)|(_ & LB & PB)]; [done|].
  destruct fuel as [|fuel]; cbn [calc_meet];
    rewrite ptr_eqb_ne by congruence; [done|].
  apply wp_bind, (wp_load Nests _ _ _ _ _ HA).
  apply wp_bind, (wp_load Nests _ _ _ _ _ HB).
  rewrite PA, PB. destruct fuel; cbn [calc_meet]; rewrite ptr_eqb_refl; done.
Qed.

(** *** Linking an edge into a nest and out of it *)

Lemma addEdge_wp pend w k K t T e E :
  Inv pend w → nests w !! k = Some K → Nest.nestTree K = Some t →
  nestTrees w !! t = Some T → edges w !! e = Some E →
  NestTree.baseGraph T = Edge.graph E →
  wp (Nest_addEdge (Some k) (Some e)) w (λ _ w', Inv pend w') (λ _, False).
Proof.
  intros HI HK Ht HT HE Hg. unfold Nest_addEdge.
  apply wp_bind, (wp_load Nests _ _ _ _ _ HK). rewrite Ht.
  apply wp_bind, (wp_load NestTrees _ _ _ _ _ HT).
  apply wp_bind, (wp_load Edges _ _ _ _ _ HE).
  rewrite Hg, ptr_eqb_refl. cbn [negb].
  destruct (inv_nest _ _ HI _ _ HK) as [(_ & _ & _ & _ & _ & _ & _ & V1 & V2 & V3) _].
  destruct (Nest.firstEdge K) as [f|] eqn:Ef.
  - apply wp_bind, wp_modify; [solve_some|].
    apply wp_bind, wp_modify; [solve_some|].
    apply wp_modify; [solve_some|].
    apply Inv_set_firstEdge; [|solve_len].
    apply Inv_set_nextEdgeInNest; [|solve_len].
    apply Inv_set_prevEdgeInNest; [done|solve_len].
  - apply wp_bind, wp_ret.
    apply wp_bind, wp_modify; [solve_some|].
    apply wp_modify; [solve_some|].
    apply Inv_set_firstEdge; [|solve_len].
    apply Inv_set_nextEdgeInNest; [done|solve_len].
Qed.

Lemma removeEdge_wp pend w k K t T e E :
  Inv pend w → nests w !! k = Some K → Nest.nestTree K = Some t →
  nestTrees w !! t = Some T → edges w !! e = Some E →
  NestTree.baseGraph T = Edge.graph E →
  wp (Nest_removeEdge (Some k) (Some e)) w (λ _ w', Inv pend w') (λ _, False).
Proof.
  intros HI HK Ht HT HE Hg. unfold Nest_removeEdge.
  apply wp_bind, (wp_load Nests _ _ _ _ _ HK). rewrite Ht.
  apply wp_bind, (wp_load NestTrees _ _ _ _ _ HT).
  apply wp_bind, (wp_load Edges _ _ _ _ _ HE).
  rewrite Hg, ptr_eqb_refl. cbn [negb].
  destruct (inv_edge _ _ HI _ _ HE) as [(_ & V1 & V2 & _) _].
  destruct (Edge.nextEdgeInNest E) as [nx|] eqn:En;
    destruct (Edge.prevEdgeInNest E) as [pv|] eqn:Ep;
    (apply wp_bind; first [apply wp_modify; [solve_some|] | apply wp_ret]);
    (apply wp_bind, wp_modify; [solve_some|]);
    (apply wp_bind, wp_modify; [solve_some|]);
    (apply wp_modify; [solve_some|]);
    (apply Inv_set_prevEdgeInNest; [|solve_len]);
    (apply Inv_set_nextEdgeInNest; [|solve_len]).
  - apply Inv_set_nextEdgeInNest; [|solve_len].
    apply Inv_set_prevEdgeInNest; [done|solve_len].
  - apply Inv_set_firstEdge; [|solve_len].
    apply Inv_set_prevEdgeInNest; [done|solve_len].
  - apply Inv_set_nextEdgeInNest; [done|solve_len].
  - apply Inv_set_firstEdge; [done|solve_len].
Qed.

(** *** Reading the invariant *)

Lemma nest_shape pend w k K t T r :
  Inv pend w → nests w !! k = Some K → Nest.nestTree K = Some t →
  nestTrees w !! t = Some T → NestTree.rootNest T = Some r →
  shape w r k K.
Proof.
  intros HI HK Ht HT Hr.
  destruct (inv_nest _ _ HI _ _ HK) as [(t' & T' & r' & Ht' & HT' & Hr' & Hs & _) _].
  assert (t' = t) as -> by congruence.
  assert (T' = T) as -> by congruence.
  assert (r' = r) as -> by congruence.
  by split.
Qed.

Lemma graph_tree pend w g G :
  Inv pend w → graphs w !! g = Some G →
  ∃ t T r R,
    Graph.nestTree G = Some t ∧ nestTrees w !! t = Some T ∧
    NestTree.baseGraph T = Some g ∧ NestTree.rootNest T = Some r ∧
    Nest.nestTree R = Some t ∧ shape w r r R.
Proof.
  intros HI HG.
  destruct (inv_graph _ _ HI _ _ HG) as (t & T & r & R & Ht & HT & Hb & Hr & HR & HRt & _).
  exists t, T, r, R. split_and!; try done; by eapply nest_shape.
Qed.

Lemma tree_graph pend w t T :
  Inv pend w → nestTrees w !! t = Some T →
  ∃ g G r R,
    NestTree.baseGraph T = Some g ∧ graphs w !! g = Some G ∧
    Graph.nestTree G = Some t ∧ NestTree.rootNest T = Some r ∧
    Nest.nestTree R = Some t ∧ shape w r r R.
Proof.
  intros HI HT.
  destruct (inv_tree _ _ HI _ _ HT) as (g & G & Hb & HG & Ht).
  destruct (graph_tree _ _ _ _ HI HG) as (t' & T' & r & R & Ht' & HT' & Hb' & Hr & HRt & HR).
  assert (t' = t) as -> by congruence.
  assert (T' = T) as -> by congruence.
  exists g, G, r, R. done.
Qed.

Lemma node_place pend w i N :
  Inv pend w → nodes w !! i = Some N →
  ∃ g G t T r k K,
    Node.graph N = Some g ∧ graphs w !! g = Some G ∧
    Graph.nestTree G = Some t ∧ nestTrees w !! t = Some T ∧
    NestTree.baseGraph T = Some g ∧ NestTree.rootNest T = Some r ∧
    Node.nest N = Some k ∧ Nest.nestTree K = Some t ∧ shape w r k K.
Proof.
  intros HI HN.
  destruct (inv_node _ _ HI _ _ HN) as (_ & _ & _ & _ & g & G & k & K & Hg & HG & Hk & HK & HKt).
  destruct (graph_tree _ _ _ _ HI HG) as (t & T & r & R & Ht & HT & Hb & Hr & HRt & HR).
  assert (shape w r k K) as HS by (eapply nest_shape; eauto; congruence).
  exists g, G, t, T, r, k, K. split_and!; try done; congruence.
Qed.

Lemma edge_ends pend w e E :
  Inv pend w → edges w !! e = Some E →
  ∃ s S d D g G t T r ks Ks kd Kd,
    Edge.srcNode E = Some s ∧ nodes w !! s = Some S ∧
    Edge.dstNode E = Some d ∧ nodes w !! d = Some D ∧
    Edge.graph E = Some g ∧ Node.graph S = Some g ∧ Node.graph D = Some g ∧
    graphs w !! g = Some G ∧ Graph.nestTree G = Some t ∧
    nestTrees w !! t = Some T ∧ NestTree.baseGraph T = Some g ∧
    NestTree.rootNest T = Some r ∧
    Node.nest S = Some ks ∧ Node.nest D = Some kd ∧
    Nest.nestTree Ks = Some t ∧ Nest.nestTree Kd = Some t ∧
    shape w r ks Ks ∧ shape w r kd Kd.
Proof.
  intros HI HE.
  destruct (inv_edge _ _ HI _ _ HE) as [((s & S & d & D & Hs & HS & Hd & HD & Hgs & Hgd) & _) _].
  destruct (node_place _ _ _ _ HI HS)
    as (g & G & t & T & r & ks & Ks & Hg & HG & Ht & HT & Hb & Hr & Hks & HKs & Sks).
  destruct (node_place _ _ _ _ HI HD)
    as (g' & G' & t' & T' & r' & kd & Kd & Hg' & HG' & Ht' & HT' & Hb' & Hr' & Hkd & HKd & Skd).
  assert (g' = g) as -> by congruence.
  assert (G' = G) as -> by congruence.
  assert (t' = t) as -> by congruence.
  assert (T' = T) as -> by congruence.
  assert (r' = r) as -> by congruence.
  exists s, S, d, D, g, G, t, T, r, ks, Ks, kd, Kd.
  split_and!; try done; congruence.
Qed.

(** *** The ancestor search *)

Lemma calc_search_wp {A} fuel w r ks Ks kd Kd (k : ptr → M A) Q (T : World → Prop) :
  shape w r ks Ks → shape w r kd Kd → ∀ R, shape w r r R →
  (fuel = 0 → T w) →
  wp (k (Some (if decide (ks = kd) then ks else r))) w Q T →
  wp (src_nest <- calc_lift fuel (Some ks) (Some kd) ;;
      dst_nest <- calc_lift fuel (Some kd) src_nest ;;
      src_nest <- calc_meet fuel dst_nest src_nest ;;
      k src_nest) w Q T.
Proof.
  intros Sks Skd R SR HT Hk.
  apply wp_bind. eapply wp_mono; [by eapply (calc_lift_wp fuel w r ks Ks kd Kd)| |];
    [|intros w' [-> H0]; auto].
  intros x w' [-> ->].
  destruct (decide (ks ≠ r ∧ kd = r)) as [[Hn ->]|Hn1].
  { rewrite decide_False in Hk by done.
    apply wp_bind. eapply wp_mono; [by eapply (calc_lift_wp fuel w r r Kd r Kd)| |];
      [|intros w' [-> H0]; auto].
    intros x w' [-> ->]. rewrite decide_False by (by intros [? ?]).
    apply wp_bind. eapply wp_mono; [by eapply (calc_meet_wp fuel w r r Kd r Kd)| |];
      [|intros w' [-> H0]; auto].
    intros x w' [-> ->]. by rewrite decide_True. }
  apply wp_bind. eapply wp_mono; [by eapply (calc_lift_wp fuel w r kd Kd ks Ks)| |];
    [|intros w' [-> H0]; auto].
  intros x w' [-> ->].
  destruct (decide (kd ≠ r ∧ ks = r)) as [[Hn ->]|Hn2].
  { rewrite decide_False in Hk by done.
    apply wp_bind. eapply wp_mono; [by eapply (calc_meet_wp fuel w r r Ks r Ks)| |];
      [|intros w' [-> H0]; auto].
    intros x w' [-> ->]. by rewrite decide_True. }
  apply wp_bind. eapply wp_mono; [eapply (calc_meet_wp fuel w r kd Kd ks Ks); try done| |];
    [|intros x w' [-> ->]|intros w' [-> H0]; auto].
  { clear -Hn1 Hn2. destruct (decide (ks = r)), (decide (kd = r)); tauto. }
  destruct (decide (kd = ks)) as [->|Hne].
  - by rewrite decide_True in Hk.
  - by rewrite decide_False in Hk.
Qed.

Lemma calc_move_wp w e E m Km t T g G :
  Inv (Some e) w → edges w !! e = Some E →
  nests w !! m = Some Km → Nest.nestTree Km = Some t →
  nestTrees w !! t = Some T → NestTree.baseGraph T = Some g →
  Edge.graph E = Some g → graphs w !! g = Some G → Graph.nestTree G = Some t →
  wp (match Edge.nest E with
      | Some _ => Nest_removeEdge (Edge.nest E) (Some e)
      | None => ret tt
      end ;;;
      modify Edges (Some e) (Edge.with_nest (Some m)) ;;;
      Nest_addEdge (Some m) (Some e)) w
     (λ _ w', Inv (Some e) w' ∧ edge_frame w w' ∧ edge_nests_but (Some e) w w' ∧
              edge_nest w' e = Some (Some m))
     (λ _, False).
Proof.
  intros HI HE HK HKt HT Hb Hg HG HGt.
  (* the world after the edge has left its old nest, if it had one *)
  assert (wp (match Edge.nest E with
              | Some _ => Nest_removeEdge (Edge.nest E) (Some e)
              | None => ret tt
              end) w
            (λ _ w1, Inv (Some e) w1 ∧ edge_frame w w1 ∧ edge_nests_but (Some e) w w1)
            (λ _, False)) as H1.
  { destruct (Edge.nest E) as [k0|] eqn:Ek0.
    - destruct (inv_edge _ _ HI _ _ HE) as [(_ & _ & _ & Hn) _].
      destruct (Hn k0 Ek0) as (K0 & g' & G' & HK0 & Hg' & HG' & HK0t).
      assert (g' = g) as -> by congruence.
      assert (G' = G) as -> by congruence.
      eapply wp_mono.
      + eapply wp_keeps;
          [apply (keeps_edge_nests_removeEdge (Some e) w)|apply edge_nests_but_refl|].
        eapply wp_keeps;
          [apply (keeps_edge_frame_removeEdge w)|apply edge_frame_refl|].
        eapply (removeEdge_wp _ w k0 K0 t T e E); eauto; congruence.
      + intros _ w1 [[? ?] ?]. done.
      + intros w1 [[[] ?] ?].
    - split; [done|]. split; [apply edge_frame_refl|apply edge_nests_but_refl]. }
  apply wp_bind. eapply wp_mono; [exact H1| |done].
  intros _ w1 (HI1 & HF1 & HN1). clear H1.
  destruct HF1 as (Hx1 & Hnodes1 & Hadj1).
  destruct (ext_edge _ _ Hx1 _ _ HE) as (E1 & HE1 & [= Eg1 Es1 Ed1]).
  destruct (ext_nest _ _ Hx1 _ _ HK) as (K1 & HK1 & [= EKt1 _ _]).
  destruct (ext_tree _ _ Hx1 _ _ HT) as (T1 & HT1 & [= ETb1 _]).
  destruct (ext_graph _ _ Hx1 _ _ HG) as (G1 & HG1 & [= EGt1 _]).
  apply wp_bind, wp_modify; [by simpl; eauto|].
  set (w2 := modify_w Edges e (Edge.with_nest (Some m)) w1).
  assert (Inv (Some e) w2) as HI2.
  { apply Inv_modify_edges; [done|]. intros E1' HE1'.
    assert (E1' = E1) as -> by congruence.
    destruct (inv_edge _ _ HI1 _ _ HE1) as [(Hends & V1 & V2 & _) _].
    split; [done|]. split; [|done].
    split; [done|]. split; [done|]. split; [done|].
    intros k [= <-]. exists K1, g, G1. simpl. split_and!; try done; congruence. }
  assert (edges w2 !! e = Some (Edge.with_nest (Some m) E1)) as HE2.
  { simpl. by rewrite list_lookup_alter_eq, HE1. }
  eapply wp_mono.
  - eapply wp_keeps;
      [apply (keeps_edge_nests_addEdge None w2)|apply edge_nests_but_refl|].
    eapply wp_keeps;
      [apply (keeps_edge_frame_addEdge w2)|apply edge_frame_refl|].
    eapply (addEdge_wp _ w2 m K1 t T1 e); eauto; simpl; congruence.
  - intros _ w3 [[HI3 (Hx3 & Hnodes3 & Hadj3)] HN3]. split; [done|].
    split; [|split].
    + split; [|split].
      * eapply ext_trans; [exact Hx1|]. eapply ext_trans; [|exact Hx3].
        by apply ext_modify_edges.
      * by rewrite Hnodes3.
      * intros e'. rewrite Hadj3, <- Hadj1. simpl.
        destruct (decide (e = e')) as [->|Hne].
        -- rewrite list_lookup_alter_eq. by destruct (edges w1 !! e').
        -- by rewrite list_lookup_alter_ne.
    + intros e' He'. rewrite (HN3 e') by done. rewrite <- (HN1 e' He').
      unfold edge_nest. simpl. rewrite list_lookup_alter_ne; [done|congruence].
    + rewrite (HN3 e) by done. unfold edge_nest. by rewrite HE2.
  - intros w3 [[[] _] _].
Qed.

Lemma root_of_shape w r k K t T :
  shape w r k K → Nest.nestTree K = Some t → nestTrees w !! t = Some T →
  NestTree.rootNest T = Some r → root_of w k = Some r.
Proof.
  intros [HK _] Ht HT Hr. unfold root_of. rewrite HK; simpl.
  rewrite Ht; simpl. by rewrite HT.
Qed.

Lemma calc_wp fuel w e E :
  Inv (Some e) w → edges w !! e = Some E →
  wp (Edge_calcNestAndMoveToIt fuel (Some e)) w
     (λ _ w', Inv (Some e) w' ∧ edge_frame w w' ∧ edge_nests_but (Some e) w w' ∧
              ∃ E', edges w' !! e = Some E' ∧ attrEdge w' E')
     (λ w', w' = w ∧ fuel = 0).
Proof.
  intros HI HE.
  destruct (edge_ends _ _ _ _ HI HE)
    as (s & S & d & D & g & G & t & T & r & ks & Ks & kd & Kd &
        Hs & HS & Hd & HD & Hg & HgS & HgD & HG & HGt & HT & Hb & Hr &
        Hks & Hkd & HKs & HKd & Sks & Skd).
  destruct (graph_tree _ _ _ _ HI HG) as (t' & T' & r' & R & Ht' & HT' & _ & Hr' & HRt & SR).
  assert (t' = t) as -> by congruence.
  assert (T' = T) as -> by congruence.
  assert (r' = r) as -> by congruence.
  unfold Edge_calcNestAndMoveToIt.
  apply wp_bind, (wp_load Edges _ _ _ _ _ HE). cbv zeta. rewrite Hs, Hd.
  apply wp_bind, (wp_load Nodes _ _ _ _ _ HS).
  apply wp_bind, (wp_load Nodes _ _ _ _ _ HD).
  rewrite HgS, HgD, Hg, !ptr_eqb_refl. cbn [negb]. rewrite Hks, Hkd.
  apply wp_bind, (wp_load Nests _ _ _ _ _ (proj1 Sks)).
  apply wp_bind, (wp_load Nests _ _ _ _ _ (proj1 Skd)).
  rewrite HKs, HKd, ptr_eqb_refl. cbn [negb].
  apply wp_bind, (wp_load NestTrees _ _ _ _ _ HT).
  rewrite Hb, ptr_eqb_refl. cbn [negb].
  eapply (calc_search_wp fuel w r ks Ks kd Kd); [done..|].
  set (m := if decide (ks = kd) then ks else r).
  assert (∃ Km, nests w !! m = Some Km ∧ Nest.nestTree Km = Some t) as (Km & HKm & HKmt).
  { unfold m. destruct (decide (ks = kd)).
    - exists Ks. split; [apply Sks|done].
    - exists R. split; [apply SR|done]. }
  eapply wp_mono; [by eapply (calc_move_wp w e E m Km t T g G)| |done].
  intros _ w' (HI' & HF & HN & Hm). split; [done|]. split; [done|]. split; [done|].
  unfold edge_nest in Hm.
  destruct (edges w' !! e) as [E'|] eqn:HE'; [|done]. injection Hm as Hm.
  exists E'. split; [done|].
  destruct HF as (Hx & Hnodes & Hadj).
  destruct (ext_edge _ _ Hx _ _ HE) as (E'' & HE'' & [= Eg Es Ed]).
  assert (E'' = E') as -> by congruence.
  exists s, d, ks, kd, r. split_and!; try congruence.
  - unfold node_nest. by rewrite Hnodes, HS.
  - unfold node_nest. by rewrite Hnodes, HD.
  - eapply root_of_ext; [done|]. by eapply root_of_shape.
  - exact Hm.
Qed.

Lemma Inv_pending_attr e w E :
  Inv (Some e) w → edges w !! e = Some E → adjEdge w E → attrEdge w E → Inv None w.
Proof. apply Inv_settle. Qed.

(** On an edge whose two ends are linked the search keeps the invariant
    and the nest of every other edge; the nodes stay as they are. *)
Lemma calc_Inv_wp fuel w e E :
  Inv None w → edges w !! e = Some E →
  wp (Edge_calcNestAndMoveToIt fuel (Some e)) w
     (λ _ w', Inv None w' ∧ edge_frame w w' ∧ ∀ e', edge_nest w' e' = edge_nest w e')
     (λ w', w' = w ∧ fuel = 0).
Proof.
  intros HI HE.
  destruct (inv_edge _ _ HI _ _ HE) as [_ Hrest].
  destruct (Hrest ltac:(done)) as [Hadj Hattr].
  eapply wp_mono; [apply (calc_wp fuel w e E); [by apply Inv_weaken|done]| |done].
  intros _ w' (HI' & HF & HN & E' & HE' & Hattr').
  destruct HF as (Hx & Hnodes & Hadjs).
  destruct (ext_edge _ _ Hx _ _ HE) as (E'' & HE'' & [= Eg Es Ed]).
  assert (E'' = E') as -> by congruence.
  split; [|split; [done|]].
  - eapply Inv_settle; [done..| |done].
    apply (adjEdge_same_fields _ E); [done..|].
    eapply adjEdge_keep; [|done]. intros i N HNi. rewrite Hnodes. eauto.
  - intros e'. destruct (decide (e' = e)) as [->|Hne]; [|apply HN; congruence].
    unfold edge_nest. rewrite HE, HE'. simpl. f_equal.
    destruct Hattr as (s & d & ks & kd & r & Hs & Hd & Hks & Hkd & Hr & Hn).
    destruct Hattr' as (s' & d' & ks' & kd' & r' & Hs' & Hd' & Hks' & Hkd' & Hr' & Hn').
    assert (s' = s) as -> by congruence.
    assert (d' = d) as -> by congruence.
    unfold node_nest in Hks', Hkd'. rewrite Hnodes in Hks', Hkd'.
    assert (ks' = ks) as -> by (unfold node_nest in Hks; congruence).
    assert (kd' = kd) as -> by (unfold node_nest in Hkd; congruence).
    apply (root_of_ext _ _ _ _ Hx) in Hr.
    assert (r' = r) as -> by congruence.
    congruence.
Qed.

(** ** New objects *)

Lemma Inv_alloc_node pend w N :
  Inv pend w → okNode w N → Inv pend (alloc_w Nodes N w).
Proof.
  intros [HG HT HK HN HE] HokN.
  pose proof (ext_alloc_nodes N w) as Hx.
  assert (∀ i N0, nodes w !! i = Some N0 → (nodes w ++ [N]) !! i = Some N0) as Hold.
  { intros i N0 H. rewrite lookup_app_l; [done|]. by eapply lookup_lt_Some. }
  split; simpl.
  - intros g G H. eapply okGraph_ext; eauto.
  - intros t T H. eapply okTree_ext; eauto.
  - intros k K H. destruct (HK _ _ H). split; [eapply okNest_ext; eauto|done].
  - intros i N' H. apply lookup_snoc_inv in H as [[_ H]|[_ ->]];
      eapply okNode_ext; eauto.
  - intros e E H. destruct (HE _ _ H) as [Hok Hrest].
    split; [eapply okEdge_ext; eauto|]. intros Hp.
    destruct (Hrest Hp) as [Hadj Hattr]. split.
    + eapply adjEdge_keep; [|done]. simpl. intros i N0 H0. eauto.
    + eapply attrEdge_keep; [done..|]. intros s ks _. unfold node_nest. simpl.
      destruct (nodes w !! s) as [N0|] eqn:E0; [|done].
      by rewrite (Hold _ _ E0).
Qed.

Lemma Inv_alloc_edge w E :
  Inv None w → okEdge w E → Inv (Some (length (edges w))) (alloc_w Edges E w).
Proof.
  intros [HG HT HK HN HE] HokE.
  pose proof (ext_alloc_edges E w) as Hx.
  split; simpl.
  - intros g G H. eapply okGraph_ext; eauto.
  - intros t T H. eapply okTree_ext; eauto.
  - intros k K H. destruct (HK _ _ H). split; [eapply okNest_ext; eauto|done].
  - intros i N' H. eapply okNode_ext; eauto.
  - intros e E' H. apply lookup_snoc_inv in H as [[Hlt H]|[-> ->]].
    + destruct (HE _ _ H) as [Hok Hrest].
      split; [eapply okEdge_ext; eauto|]. intros _.
      destruct (Hrest ltac:(done)) as [Hadj Hattr]. split; [done|].
      eapply attrEdge_keep; eauto.
    + split; [eapply okEdge_ext; eauto|done].
Qed.

Lemma node_frame_refl w : node_frame w w.
Proof. split; [apply ext_refl|done]. Qed.

Lemma node_frame_modify_nodes w0 a f w :
  (∀ N, nodeCore (f N) = nodeCore N) →
  node_frame w0 w → node_frame w0 (modify_w Nodes a f w).
Proof.
  intros Hf (Hx & Hn & Ha). split; [|split; [done|]].
  - eapply ext_trans; [done|]. apply ext_modify_nodes. intros N _.
    specialize (Hf N). unfold nodeCore in Hf. congruence.
  - intros i. rewrite <- Ha. simpl.
    destruct (decide (a = i)) as [->|Hne].
    + rewrite list_lookup_alter_eq. destruct (nodes w !! i); simpl; [|done].
      by rewrite Hf.
    + by rewrite list_lookup_alter_ne.
Qed.

Lemma node_frame_modify_nests w0 a f w :
  (∀ K, fixNest (f K) = fixNest K) →
  node_frame w0 w → node_frame w0 (modify_w Nests a f w).
Proof.
  intros Hf (Hx & Hn & Ha). split; [|done].
  eapply ext_trans; [done|]. apply ext_modify_nests. eauto.
Qed.

Lemma keeps_node_frame_removeNode w0 nest node :
  keeps (node_frame w0) (Nest_removeNode nest node).
Proof.
  unfold Nest_removeNode.
  keeps_with ltac:(intros;
    first [ by apply node_frame_modify_nodes | by apply node_frame_modify_nests ]).
Qed.

Lemma keeps_node_frame_addNode w0 nest node :
  keeps (node_frame w0) (Nest_addNode nest node).
Proof.
  unfold Nest_addNode.
  keeps_with ltac:(intros;
    first [ by apply node_frame_modify_nodes | by apply node_frame_modify_nests ]).
Qed.

Lemma NewNode_wp w g G :
  Inv None w → graphs w !! g = Some G →
  wp (Graph_NewNode (Some g)) w
     (λ p w', p = Some (length (nodes w)) ∧ Inv None w') (λ _, False).
Proof.
  intros HI HG.
  destruct (graph_tree _ _ _ _ HI HG) as (t & T & r & R & Ht & HT & Hb & Hr & HRt & SR).
  destruct (inv_graph _ _ HI _ _ HG) as (_ & _ & _ & _ & _ & _ & _ & _ & _ & _ & Hn1 & Hn2).
  unfold Graph_NewNode.
  apply wp_bind, (wp_load Graphs _ _ _ _ _ HG). rewrite Ht.
  apply wp_bind, (wp_load NestTrees _ _ _ _ _ HT). rewrite Hr.
  apply wp_bind. unfold wp at 1. rewrite make_nonneg by done.
  apply wp_bind, wp_alloc. simpl sget.
  set (N := Node.mk None None (Graph.nodeCount G) (Some r) None None (Some g) _).
  set (w1 := alloc_w Nodes N w).
  assert (Inv None w1) as HI1.
  { apply Inv_alloc_node; [done|]. repeat split; try done.
    exists g, G, r, R. split_and!; try done; [apply SR|congruence]. }
  assert (nodes w1 !! length (nodes w) = Some N) as HN1
    by (by apply list_lookup_middle).
  apply wp_bind.
  eapply wp_mono;
    [eapply wp_keeps;
       [apply (keeps_node_frame_addNode w1)|apply node_frame_refl|];
     eapply (addNode_wp None w1 r R t T (length (nodes w)) N); try done; apply SR
    | |by intros ? [[] _]].
  intros _ w2 [HI2 (Hx2 & _)].
  destruct (ext_graph _ _ Hx2 g G HG) as (G2 & HG2 & _).
  apply wp_bind, wp_modify; [by simpl; eauto|]. apply wp_ret. split; [done|].
  by apply Inv_modify_graphs.
Qed.

Lemma wp_modify_opt {A} (s : store A) p f w Q T :
  vptr (sget s w) p → Q tt (modify_opt_w s p f w) →
  wp (match p with Some _ => modify s p f | None => ret tt end) w Q T.
Proof.
  destruct p as [a|]; simpl; [|done]. intros Hlt HQ.
  apply wp_modify; [by apply lookup_lt_is_Some|done].
Qed.

Lemma Inv_opt_prevOutcomingEdge pend w p q :
  Inv pend w →
  Inv pend (modify_opt_w Edges p (Edge.with_prevOutcomingEdge q) w).
Proof. destruct p; [apply Inv_set_prevOutcomingEdge|done]. Qed.

Lemma Inv_opt_prevIncomingEdge pend w p q :
  Inv pend w →
  Inv pend (modify_opt_w Edges p (Edge.with_prevIncomingEdge q) w).
Proof. destruct p; [apply Inv_set_prevIncomingEdge|done]. Qed.

Lemma lookup_alter_opt_keep {A B} (h : A → B) (f : A → A) (l : list A) p i x :
  (∀ y, h (f y) = h y) → l !! i = Some x →
  ∃ x', (match p with Some a => alter f a l | None => l end) !! i = Some x' ∧
        h x' = h x.
Proof.
  intros Hf Hx. destruct p as [a|]; [|eauto].
  by apply lookup_alter_keep.
Qed.

Lemma nodes_modify_opt_edges p f w :
  nodes (modify_opt_w Edges p f w) = nodes w.
Proof. by destruct p. Qed.

Lemma graphs_modify_opt_edges p f w :
  graphs (modify_opt_w Edges p f w) = graphs w.
Proof. by destruct p. Qed.

Lemma length_edges_modify_opt p f w :
  length (edges (modify_opt_w Edges p f w)) = length (edges w).
Proof. destruct p; simpl; [apply length_alter|done]. Qed.

Lemma lookup_edges_modify_opt_ne p f w e :
  p ≠ Some e → edges (modify_opt_w Edges p f w) !! e = edges w !! e.
Proof.
  destruct p as [a|]; simpl; [|done]. intros H.
  apply list_lookup_alter_ne. congruence.
Qed.

Lemma lookup_edges_modify_opt_keep {B} (h : Edge.t → B) p f w e E :
  (∀ y, h (f y) = h y) → edges w !! e = Some E →
  ∃ E', edges (modify_opt_w Edges p f w) !! e = Some E' ∧ h E' = h E.
Proof.
  intros Hf HE. destruct p as [a|]; simpl; [|eauto].
  by apply lookup_alter_keep.
Qed.

Lemma NewEdge_wp fuel w g s S d D :
  Inv None w → nodes w !! s = Some S → nodes w !! d = Some D →
  Node.graph S = Some g → Node.graph D = Some g →
  wp (Graph_NewEdge fuel (Some g) (Some s) (Some d)) w
     (λ res w', res = (Some (length (edges w)), None) ∧ Inv None w' ∧
                head_inserted w w' s d (length (edges w)))
     (λ _, fuel = 0).
Proof.
  intros HI HS HD HgS HgD.
  destruct (inv_node _ _ HI _ _ HS) as (_ & VS & _ & _ & g' & G & _ & _ & Hg' & HG & _).
  assert (g' = g) as -> by congruence. clear Hg'.
  destruct (inv_node _ _ HI _ _ HD) as (VD & _).
  unfold Graph_NewEdge.
  apply wp_bind, (wp_load Nodes _ _ _ _ _ HS). rewrite HgS, ptr_eqb_refl. cbn [negb].
  apply wp_bind, (wp_load Nodes _ _ _ _ _ HD). rewrite HgD, ptr_eqb_refl. cbn [negb].
  cbv zeta.
  apply wp_bind, (wp_load Graphs _ _ _ _ _ HG).
  apply wp_bind, wp_alloc. simpl sget.
  set (e := length (edges w)).
  set (fo := Node.firstOutcomingEdge S) in *.
  set (fi := Node.firstIncomingEdge D) in *.
  set (E0 := Edge.mk (Graph.edgeCount G) (Some g) (Some s) (Some d)
                     fo None fi None None None None).
  set (w1 := alloc_w Edges E0 w).
  assert (Inv (Some e) w1) as HI1.
  { apply Inv_alloc_edge; [done|]. split; [|done].
    exists s, S, d, D. done. }
  assert (length (edges w1) = Datatypes.S e) as Hlen1.
  { simpl. rewrite length_app. simpl. unfold e. lia. }
  assert (fo ≠ Some e) as Hfo.
  { intros Heq. rewrite Heq in VS. simpl in VS. unfold e in VS. lia. }
  assert (fi ≠ Some e) as Hfi.
  { intros Heq. rewrite Heq in VD. simpl in VD. unfold e in VD. lia. }
  set (w2 := modify_opt_w Edges fo (Edge.with_prevOutcomingEdge (Some e)) w1).
  set (w3 := modify_w Nodes s (Node.with_firstOutcomingEdge (Some e)) w2).
  set (w4 := modify_opt_w Edges fi (Edge.with_prevIncomingEdge (Some e)) w3).
  set (w5 := modify_w Nodes d (Node.with_firstIncomingEdge (Some e)) w4).
  assert (nodes w2 = nodes w) as Hn2
    by (unfold w2; by rewrite nodes_modify_opt_edges).
  assert (length (edges w2) = Datatypes.S e) as Hl2
    by (unfold w2; by rewrite length_edges_modify_opt).
  assert (length (edges w3) = Datatypes.S e) as Hl3 by done.
  assert (nodes w4 = nodes w3) as Hn4
    by (unfold w4; by rewrite nodes_modify_opt_edges).
  assert (length (edges w4) = Datatypes.S e) as Hl4
    by (unfold w4; by rewrite length_edges_modify_opt).
  assert (Inv (Some e) w5) as HI5.
  { apply Inv_set_firstIncomingEdge; [|lia].
    apply Inv_opt_prevIncomingEdge. apply Inv_set_firstOutcomingEdge; [|lia].
    by apply Inv_opt_prevOutcomingEdge. }
  assert (nodes w5 = alter (Node.with_firstIncomingEdge (Some e)) d
                       (alter (Node.with_firstOutcomingEdge (Some e)) s (nodes w)))
    as Hnodes5.
  { unfold w5; simpl. rewrite Hn4. unfold w3; simpl. by rewrite Hn2. }
  assert (∃ S5, nodes w5 !! s = Some S5 ∧ Node.firstOutcomingEdge S5 = Some e)
    as (S5 & HS5 & HS5o).
  { rewrite Hnodes5.
    destruct (lookup_alter_keep Node.firstOutcomingEdge
                (Node.with_firstIncomingEdge (Some e))
                (alter (Node.with_firstOutcomingEdge (Some e)) s (nodes w)) d s
                (Node.with_firstOutcomingEdge (Some e) S))
      as (S5 & H5 & H5o); [done|by rewrite list_lookup_alter_eq, HS|].
    exists S5. split; [done|]. by rewrite H5o. }
  assert (∃ D5, nodes w5 !! d = Some D5 ∧ Node.firstIncomingEdge D5 = Some e)
    as (D5 & HD5 & HD5i).
  { rewrite Hnodes5. rewrite list_lookup_alter_eq.
    destruct (lookup_alter_keep Node.graph (Node.with_firstOutcomingEdge (Some e))
                (nodes w) s d D ltac:(done) HD) as (D' & -> & _).
    simpl. eauto. }
  assert (edges w5 !! e = Some E0) as HE5.
  { unfold w5; simpl. unfold w4. rewrite lookup_edges_modify_opt_ne by done. simpl.
    unfold w2. rewrite lookup_edges_modify_opt_ne by done. simpl.
    by apply list_lookup_middle. }
  apply wp_bind, wp_modify_opt.
  { simpl. fold fo. destruct fo; simpl in *; [|done]. rewrite length_app. simpl. lia. }
  fold w2.
  apply wp_bind, wp_modify.
  { simpl sget. rewrite Hn2. eauto. }
  fold w3.
  apply wp_bind, wp_modify_opt.
  { simpl sget. fold fi. destruct fi; simpl in *; [|done]. lia. }
  fold w4.
  apply wp_bind, wp_modify.
  { simpl sget. rewrite Hn4. unfold w3; simpl. apply lookup_lt_is_Some.
    rewrite length_alter, Hn2. by eapply lookup_lt_Some. }
  fold w5.
  apply wp_bind.
  eapply wp_mono; [by apply (calc_wp fuel w5 e E0)| |by intros ? [_ ?]].
  intros _ w6 (HI6 & (Hx6 & Hnodes6 & Hadj6) & HN6 & E6 & HE6 & Hattr6).
  assert (adjOf E6 = adjOf E0) as [= _ _ Es6 Ed6 Eno6 Epo6 Eni6 Epi6].
  { specialize (Hadj6 e). rewrite HE6, HE5 in Hadj6.
    simpl in Hadj6. congruence. }
  assert (Inv None w6) as HI6'.
  { eapply Inv_settle; [done..| |done]. split.
    - exists s, S5. rewrite Hnodes6. split_and!; try done. by rewrite HS5o.
    - exists d, D5. rewrite Hnodes6. split_and!; try done. by rewrite HD5i. }
  assert (∃ G6, graphs w6 !! g = Some G6) as (G6 & HG6).
  { assert (graphs w5 !! g = Some G) as HG5.
    { unfold w5; simpl. unfold w4. rewrite graphs_modify_opt_edges. simpl.
      unfold w2. by rewrite graphs_modify_opt_edges. }
    destruct (ext_graph _ _ Hx6 _ _ HG5) as (G6 & ? & _). eauto. }
  apply wp_bind, wp_modify; [simpl; eauto|]. apply wp_ret.
  split; [done|]. split; [by apply Inv_modify_graphs|].
  exists S, D, S5, D5, E6. simpl. rewrite Hnodes6.
  split_and!; try done.
  - apply lookup_ge_None. unfold e. lia.
  - destruct Hattr6 as (? & ? & ? & ? & ? & _ & _ & _ & _ & _ & Hn). by rewrite Hn.
  - intros f Hf.
    assert (edges w1 !! f = Some (default E0 (edges w !! f))) as Hf1.
    { fold fo in Hf. rewrite Hf in VS. simpl in VS.
      destruct (lookup_lt_is_Some_2 _ _ VS) as [F HF]. rewrite HF. simpl.
      by apply lookup_app_l_Some. }
    assert (∃ F2, edges w2 !! f = Some F2 ∧ Edge.prevOutcomingEdge F2 = Some e)
      as (F2 & HF2 & HF2p).
    { unfold w2. fold fo in Hf. rewrite Hf. simpl.
      rewrite list_lookup_alter_eq. simpl in Hf1. rewrite Hf1. simpl. eauto. }
    assert (∃ F5, edges w5 !! f = Some F5 ∧ Edge.prevOutcomingEdge F5 = Some e)
      as (F5 & HF5 & HF5p).
    { unfold w5; simpl. unfold w4.
      destruct (lookup_edges_modify_opt_keep Edge.prevOutcomingEdge fi
                  (Edge.with_prevIncomingEdge (Some e)) w3 f F2 ltac:(done) HF2)
        as (F4 & HF4 & HF4p).
      exists F4. split; [done|congruence]. }
    specialize (Hadj6 f). rewrite HF5 in Hadj6.
    destruct (edges w6 !! f) as [F6|]; [|done]. exists F6. split; [done|].
    injection Hadj6 as [= _ _ _ _ _ ? _ _]. congruence.
  - intros f Hf.
    assert (f < e) as Hlt.
    { fold fi in Hf. rewrite Hf in VD. simpl in VD. done. }
    assert (∃ F3, edges w3 !! f = Some F3) as (F3 & HF3).
    { apply lookup_lt_is_Some. simpl. unfold w2. rewrite length_edges_modify_opt. lia. }
    assert (∃ F5, edges w5 !! f = Some F5 ∧ Edge.prevIncomingEdge F5 = Some e)
      as (F5 & HF5 & HF5p).
    { unfold w5; simpl. unfold w4. fold fi in Hf. rewrite Hf. simpl.
      rewrite list_lookup_alter_eq. simpl in HF3. rewrite HF3. simpl. eauto. }
    specialize (Hadj6 f). rewrite HF5 in Hadj6.
    destruct (edges w6 !! f) as [F6|]; [|done]. exists F6. split; [done|].
    injection Hadj6 as [= _ _ _ _ _ _ _ ?]. congruence.
Qed.

(** ** Moving a node *)

Lemma relink_wp w i N k K t T k0 :
  Inv None w → nodes w !! i = Some N → nests w !! k = Some K →
  Nest.nestTree K = Some t → nestTrees w !! t = Some T →
  NestTree.baseGraph T = Node.graph N → Node.nest N = Some k0 →
  (k = k0 ∨ (Node.firstIncomingEdge N = None ∧ Node.firstOutcomingEdge N = None)) →
  wp (MoveToNest_relink (Some i) (Some k0) (Some k)) w
     (λ _ w', Inv None w' ∧ ext w w' ∧ edges w' = edges w ∧
              ∃ N', nodes w' !! i = Some N' ∧
                    nodeCore N' = nodeCore (Node.with_nest (Some k) N))
     (λ _, False).
Proof.
  intros HI HN HK HKt HT Hb Hk0 Hcase.
  destruct (node_place _ _ _ _ HI HN)
    as (g & G & t0 & T0 & r0 & k0' & K0 & Hg & HG & HGt & HT0 & Hb0 & Hr0 & Hk0' & HK0t & SK0).
  assert (k0' = k0) as -> by congruence.
  destruct (tree_graph _ _ _ _ HI HT) as (g' & G' & r & R & Hb' & HG' & HGt' & Hr & HRt & SR).
  assert (g' = g) as -> by congruence.
  assert (G' = G) as -> by congruence.
  assert (t0 = t) as -> by congruence.
  assert (T0 = T) as -> by congruence.
  unfold MoveToNest_relink.
  apply wp_bind.
  eapply wp_mono;
    [eapply wp_keeps;
       [apply (keeps_node_frame_removeNode w)|apply node_frame_refl|];
     eapply (removeNode_wp None w k0 K0 t T i N);
       first [done|apply SK0|congruence]
    | |by intros ? [[] _]].
  intros _ w1 [HI1 (Hx1 & He1 & Hc1)].
  assert (∃ N1, nodes w1 !! i = Some N1 ∧ nodeCore N1 = nodeCore N) as (N1 & HN1 & HcN1).
  { specialize (Hc1 i). rewrite HN in Hc1.
    destruct (nodes w1 !! i) as [N1|]; [|done]. exists N1. split; [done|].
    simpl in Hc1. congruence. }
  injection HcN1 as Hi1 Ho1 Hid1 Hn1 Hg1 Hs1.
  destruct (ext_nest _ _ Hx1 _ _ HK) as (K1 & HK1 & [= HK1t _ _]).
  destruct (ext_tree _ _ Hx1 _ _ HT) as (T1 & HT1 & [= HT1b _]).
  destruct (ext_graph _ _ Hx1 _ _ HG) as (G1 & HG1 & [= HG1t _]).
  apply wp_bind, wp_modify; [simpl; eauto|].
  set (w2 := modify_w Nodes i (Node.with_nest (Some k)) w1).
  assert (Inv None w2) as HI2.
  { apply Inv_modify_nodes; [done|]. intros N1' HN1'.
    assert (N1' = N1) as -> by congruence.
    destruct (inv_node _ _ HI1 _ _ HN1) as (V1 & V2 & V3 & V4 & _).
    split; [done|]. split.
    - split_and!; try done. exists g, G1, k, K1. simpl.
      split_and!; try done; congruence.
    - split; [done|]. split; [done|]. simpl.
      destruct Hcase as [->|[? ?]]; [left; congruence|right; split; congruence]. }
  assert (nodes w2 !! i = Some (Node.with_nest (Some k) N1)) as HN2.
  { simpl. by rewrite list_lookup_alter_eq, HN1. }
  assert (ext w1 w2) as Hx2 by (by apply ext_modify_nodes).
  eapply wp_mono;
    [eapply wp_keeps;
       [apply (keeps_node_frame_addNode w2)|apply node_frame_refl|];
     eapply (addNode_wp None w2 k K1 t T1 i); try done; simpl; congruence
    | |by intros ? [[] _]].
  intros _ w3 [HI3 (Hx3 & He3 & Hc3)].
  split; [done|]. split; [eauto using ext_trans|]. split; [by rewrite He3|].
  specialize (Hc3 i). rewrite HN2 in Hc3.
  destruct (nodes w3 !! i) as [N3|]; [|done]. exists N3. split; [done|].
  assert (nodeCore N3 = nodeCore (Node.with_nest (Some k) N1)) as ->
    by (simpl in Hc3; congruence).
  unfold nodeCore. simpl. congruence.
Qed.

(** A successful [MoveToNest] keeps the invariant: it returns only on a
    node without edges. *)
Lemma MoveToNest_Inv fuel w node nest r w' :
  Inv None w → Node_MoveToNest fuel node nest w = Done r w' → Inv None w'.
Proof.
  intros HI H. pose proof H as H0. unfold Node_MoveToNest in H.
  apply bind_Done_inv in H as (K & w1 & HK & H).
  apply load_Done_inv in HK as [-> (k & -> & HK)]. simpl in HK.
  apply bind_Done_inv in H as (T & w1 & HT & H).
  apply load_Done_inv in HT as [-> (t & HKt & HT)]. simpl in HT.
  apply bind_Done_inv in H as (N & w1 & HN & H).
  apply load_Done_inv in HN as [-> (i & -> & HN)]. simpl in HN.
  destruct (ptr_eqb (NestTree.baseGraph T) (Node.graph N)) eqn:Hb; simpl in H;
    [|by injection H as _ <-].
  apply ptr_eqb_eq in Hb.
  destruct (Node.nest N) as [k0|] eqn:Hk0; [|done].
  clear H.
  destruct r as [err|].
  { (* an error is returned before anything is written *)
    rewrite (MoveToNest_split fuel i k w K t T N k0) in H0 by done.
    apply bind_Done_inv in H0 as (? & w1 & _ & H).
    unfold MoveToNest_fix in H.
    apply bind_Done_inv in H as (? & ? & _ & H).
    apply bind_Done_inv in H as (? & ? & _ & H).
    apply bind_Done_inv in H as (? & ? & _ & H).
    apply bind_Done_inv in H as (? & ? & _ & H).
    done. }
  destruct (MoveToNest_Done_no_edges _ _ _ _ _ _ HN H0) as [Hi Ho].
  rewrite (MoveToNest_split fuel i k w K t T N k0) in H0 by done.
  apply bind_Done_inv in H0 as ([] & w1 & H1 & H).
  pose proof (relink_wp w i N k K t T k0 HI HN HK HKt HT Hb Hk0 (or_intror (conj Hi Ho)))
    as Hwp.
  apply (wp_Done _ _ _ _ _ _ Hwp) in H1 as (HI1 & _ & _ & N1 & HN1 & [= Hi1 Ho1 _ _ _ _]).
  unfold MoveToNest_fix in H.
  apply bind_Done_inv in H as (fi & w2 & H2 & H).
  unfold Node_GetFirstIncomingEdge in H2.
  apply bind_Done_inv in H2 as (N2 & ? & H2' & [= <- <-]).
  apply load_Done_inv in H2' as [-> (? & [= <-] & H2)]. simpl in H2.
  assert (N2 = N1) as -> by congruence.
  rewrite Hi1, Hi, fix_incoming_nil in H.
  apply bind_Done_inv in H as (? & w3 & [= _ <-] & H).
  apply bind_Done_inv in H as (fo & w4 & H4 & H).
  unfold Node_GetFirstOutcomingEdge in H4.
  apply bind_Done_inv in H4 as (N4 & ? & H4' & [= <- <-]).
  apply load_Done_inv in H4' as [-> (? & [= <-] & H4)]. simpl in H4.
  assert (N4 = N1) as -> by congruence.
  rewrite Ho1, Ho, fix_outcoming_nil in H.
  apply bind_Done_inv in H as (? & w5 & [= _ <-] & H).
  by injection H as <-.
Qed.

Lemma same_edge_nests_refl w : same_edge_nests w w.
Proof. by intros e. Qed.

Lemma same_edge_nests_trans w1 w2 w3 :
  same_edge_nests w1 w2 → same_edge_nests w2 w3 → same_edge_nests w1 w3.
Proof. intros H1 H2 e. by rewrite H2, H1. Qed.

Lemma edge_has_nest w e E : Inv None w → edges w !! e = Some E → Edge.nest E ≠ None.
Proof.
  intros HI HE. destruct (inv_edge _ _ HI _ _ HE) as [_ Hrest].
  destruct (Hrest ltac:(done)) as [_ (? & ? & ? & ? & ? & _ & _ & _ & _ & _ & Hn)].
  by rewrite Hn.
Qed.

(** Each round of the two loops recomputes the nest the edge already
    has; whether a loop ends or is cut off, no edge has changed nest. *)
Lemma fix_incoming_wp fuel n w p :
  Inv None w → vptr (edges w) p →
  wp (MoveToNest_fix_incoming fuel n p) w
     (λ _ w', Inv None w' ∧ ext w w' ∧ nodes w' = nodes w ∧ same_edge_nests w w')
     (same_edge_nests w).
Proof.
  revert w. induction n as [|n IH]; intros w HI Hp.
  { destruct p; simpl; [apply same_edge_nests_refl|].
    split_and!; first [done|apply ext_refl|apply same_edge_nests_refl]. }
  destruct p as [e|]; cbn [MoveToNest_fix_incoming];
    [|split_and!; first [done|apply ext_refl|apply same_edge_nests_refl]].
  destruct (lookup_lt_is_Some_2 _ _ Hp) as [E HE].
  apply wp_bind, (wp_load Edges _ _ _ _ _ HE).
  destruct (Edge.nest E) as [k|] eqn:Ek; [|by destruct (edge_has_nest _ _ _ HI HE)].
  apply wp_bind.
  eapply wp_mono; [by apply (calc_Inv_wp fuel w e E)| |];
    [|intros w1 [-> _]; apply same_edge_nests_refl].
  intros _ w1 (HI1 & (Hx1 & Hn1 & _) & HN1).
  destruct (ext_edge _ _ Hx1 _ _ HE) as (E1 & HE1 & _).
  apply wp_bind. unfold Edge_GetNextIncomingEdge.
  apply wp_bind, (wp_load Edges _ _ _ _ _ HE1). apply wp_ret.
  eapply wp_mono; [apply IH; [done|]| |].
  - simpl. by eapply lookup_lt_Some.
  - intros _ w2 (HI2 & Hx2 & Hn2 & HN2).
    split_and!;
      first [done|by eapply ext_trans|congruence|by eapply same_edge_nests_trans].
  - intros w2 HN2. by eapply same_edge_nests_trans.
Qed.

Lemma fix_outcoming_wp fuel n w p :
  Inv None w → vptr (edges w) p →
  wp (MoveToNest_fix_outcoming fuel n p) w
     (λ _ w', Inv None w' ∧ ext w w' ∧ nodes w' = nodes w ∧ same_edge_nests w w')
     (same_edge_nests w).
Proof.
  revert w. induction n as [|n IH]; intros w HI Hp.
  { destruct p; simpl; [apply same_edge_nests_refl|].
    split_and!; first [done|apply ext_refl|apply same_edge_nests_refl]. }
  destruct p as [e|]; cbn [MoveToNest_fix_outcoming];
    [|split_and!; first [done|apply ext_refl|apply same_edge_nests_refl]].
  destruct (lookup_lt_is_Some_2 _ _ Hp) as [E HE].
  apply wp_bind, (wp_load Edges _ _ _ _ _ HE).
  destruct (Edge.nest E) as [k|] eqn:Ek; [|by destruct (edge_has_nest _ _ _ HI HE)].
  apply wp_bind.
  eapply wp_mono; [by apply (calc_Inv_wp fuel w e E)| |];
    [|intros w1 [-> _]; apply same_edge_nests_refl].
  intros _ w1 (HI1 & (Hx1 & Hn1 & _) & HN1).
  destruct (ext_edge _ _ Hx1 _ _ HE) as (E1 & HE1 & _).
  apply wp_bind. unfold Edge_GetNextOutcomingEdge.
  apply wp_bind, (wp_load Edges _ _ _ _ _ HE1). apply wp_ret.
  eapply wp_mono; [apply IH; [done|]| |].
  - simpl. by eapply lookup_lt_Some.
  - intros _ w2 (HI2 & Hx2 & Hn2 & HN2).
    split_and!;
      first [done|by eapply ext_trans|congruence|by eapply same_edge_nests_trans].
  - intros w2 HN2. by eapply same_edge_nests_trans.
Qed.

Lemma MoveToNest_same_nest_wp fuel w n N k :
  Inv None w → nodes w !! n = Some N → Node.nest N = Some k →
  wp (Node_MoveToNest fuel (Some n) (Some k)) w
     (λ r w', r = None ∧ same_edge_nests w w')
     (same_edge_nests w).
Proof.
  intros HI HN Hk.
  destruct (node_place _ _ _ _ HI HN)
    as (g & G & t & T & r & k' & K & Hg & HG & HGt & HT & Hb & Hr & Hk' & HKt & SK).
  assert (k' = k) as -> by congruence.
  assert (NestTree.baseGraph T = Node.graph N) as Hb' by congruence.
  eapply wp_eq; [by apply (MoveToNest_split fuel n k w K t T N k); try apply SK|].
  apply wp_bind.
  eapply wp_mono;
    [eapply (relink_wp w n N k K t T k); try done; [apply SK|by left]| |done].
  intros _ w1 (HI1 & Hx1 & He1 & N1 & HN1 & [= Hi1 Ho1 _ _ _ _]).
  assert (same_edge_nests w w1) as HS1.
  { intros e. unfold edge_nest. by rewrite He1. }
  destruct (inv_node _ _ HI1 _ _ HN1) as (V1 & V2 & _).
  unfold MoveToNest_fix.
  apply wp_bind. unfold Node_GetFirstIncomingEdge.
  apply wp_bind, (wp_load Nodes _ _ _ _ _ HN1). apply wp_ret.
  apply wp_bind.
  eapply wp_mono; [by apply fix_incoming_wp| |];
    [|intros w2 HS2; by eapply same_edge_nests_trans].
  intros _ w2 (HI2 & Hx2 & Hn2 & HS2).
  apply wp_bind. unfold Node_GetFirstOutcomingEdge.
  assert (nodes w2 !! n = Some N1) as HN2 by congruence.
  apply wp_bind, (wp_load Nodes _ _ _ _ _ HN2). apply wp_ret.
  apply wp_bind.
  eapply wp_mono; [apply fix_outcoming_wp; [done|]| |].
  - by eapply ext_vptr_edges.
  - intros _ w3 (HI3 & Hx3 & Hn3 & HS3). split; [done|].
    eauto using same_edge_nests_trans.
  - intros w3 HS3. eauto using same_edge_nests_trans.
Qed.

(** ** New graphs *)

Lemma alter_snoc {A} (f : A → A) (l : list A) x :
  alter f (length l) (l ++ [x]) = l ++ [f x].
Proof. rewrite alter_app_r_alt by lia. by rewrite Nat.sub_diag. Qed.

Lemma lookup_snoc_old {A} (l : list A) x i y :
  l !! i = Some y → (l ++ [x]) !! i = Some y.
Proof. intros H. rewrite lookup_app_l; [done|]. by eapply lookup_lt_Some. Qed.

Lemma Inv_new_graph w G T R l1 l2 l3 :
  Inv None w →
  Graph.nestTree G = Some (length (nestTrees w)) →
  (0 ≤ NodeStrAttrNum (Graph.attrSpec G))%Z →
  (0 ≤ NestStrAttrNum (Graph.attrSpec G))%Z →
  NestTree.baseGraph T = Some (length (graphs w)) →
  NestTree.rootNest T = Some (length (nests w)) →
  R = Nest.mk (Nest.id R) (Some (length (nestTrees w))) 0 None None None None None
              None None None (Nest.strAttrs R) →
  Inv None (mkWorld (graphs w ++ [G]) (nestTrees w ++ [T]) (nests w ++ [R])
                    (nodes w) (edges w) l1 l2 l3).
Proof.
  intros HI HGt Hn1 Hn2 HTb HTr HR.
  set (w' := mkWorld _ _ _ _ _ _ _ _).
  assert (ext w w') as Hx.
  { split; simpl; eauto using lookup_snoc_old. }
  assert (graphs w' !! length (graphs w) = Some G) as HG'
    by (by apply list_lookup_middle).
  assert (nestTrees w' !! length (nestTrees w) = Some T) as HT'
    by (by apply list_lookup_middle).
  assert (nests w' !! length (nests w) = Some R) as HR'
    by (by apply list_lookup_middle).
  destruct HI as [HG HT HK HN HE].
  split.
  - intros g G0 H. simpl in H. apply lookup_snoc_inv in H as [[_ H]|[-> ->]].
    + eapply okGraph_ext; eauto.
    + eexists _, T, _, R. split_and!; try done. by rewrite HR.
  - intros t T0 H. simpl in H. apply lookup_snoc_inv in H as [[_ H]|[-> ->]].
    + eapply okTree_ext; eauto.
    + eexists _, G. done.
  - intros k K H. simpl in H. apply lookup_snoc_inv in H as [[_ H]|[-> ->]].
    + destruct (HK _ _ H) as [Hok Hsib]. split; [eapply okNest_ext; eauto|].
      eapply sibNest_keep; [|done]. simpl. intros c C HC.
      exists C. split; [by apply lookup_snoc_old|done].
    + split.
      * eexists _, T, _. rewrite HR. simpl. split_and!; first [done|by left].
      * rewrite HR. by split_and!.
  - intros i N H. eapply okNode_ext; eauto.
  - intros e E H. destruct (HE _ _ H) as [Hok Hrest].
    split; [eapply okEdge_ext; eauto|]. intros Hp.
    destruct (Hrest Hp) as [Hadj Hattr]. split; [done|].
    eapply attrEdge_keep; eauto.
Qed.

Lemma NewGraph_wp spec w :
  Inv None w →
  (0 ≤ GraphStrAttrNum spec)%Z → (0 ≤ NodeStrAttrNum spec)%Z →
  (0 ≤ NestStrAttrNum spec)%Z →
  wp (NewGraph spec) w
     (λ p w', p = Some (length (graphs w)) ∧ Inv None w' ∧
              ∃ G T R,
                graphs w' !! length (graphs w) = Some G ∧
                Graph.attrSpec G = spec ∧
                Graph.nestTree G = Some (length (nestTrees w)) ∧
                nestTrees w' !! length (nestTrees w) = Some T ∧
                NestTree.rootNest T = Some (length (nests w)) ∧
                nests w' !! length (nests w) = Some R ∧
                Nest.strAttrs R = [])
     (λ _, False).
Proof.
  intros HI H1 H2 H3. unfold NewGraph.
  apply wp_bind. unfold wp at 1. rewrite make_nonneg by done.
  apply wp_bind. unfold wp at 1. rewrite make_nonneg by done.
  apply wp_bind. unfold wp at 1. rewrite make_nonneg by done.
  apply wp_bind, wp_alloc. simpl sget.
  set (G0 := Graph.mk None 0 0 spec _ _ _).
  apply wp_bind. unfold newNestTree.
  apply wp_bind, (wp_load Graphs _ _ G0); [by apply list_lookup_middle|].
  apply wp_bind. unfold wp at 1. rewrite make_nonneg by done.
  apply wp_bind, wp_alloc. simpl sget.
  apply wp_bind, wp_alloc. simpl sget.
  apply wp_bind, wp_modify; [simpl; rewrite list_lookup_middle; eauto|].
  apply wp_bind, wp_modify;
    [simpl; apply lookup_lt_is_Some; rewrite length_alter, length_app; simpl; lia|].
  apply wp_ret.
  apply wp_bind, wp_modify; [simpl; rewrite list_lookup_middle; eauto|].
  apply wp_ret. unfold modify_w, alloc_w. simpl.
  rewrite !alter_snoc. split; [done|]. split.
  - apply Inv_new_graph; done.
  - eexists _, _, _. split_and!; try by apply list_lookup_middle. all: done.
Qed.

Lemma NewGraph_Inv spec w p w' :
  Inv None w → NewGraph spec w = Done p w' → Inv None w'.
Proof.
  intros HI H. pose proof H as H0. unfold NewGraph in H.
  apply bind_Done_inv in H as (? & ? & H1 & H). apply make_Done_inv in H1 as (-> & H1 & _).
  apply bind_Done_inv in H as (? & ? & H2 & H). apply make_Done_inv in H2 as (-> & H2 & _).
  apply bind_Done_inv in H as (? & ? & Hsa & H). apply make_Done_inv in Hsa as (-> & _ & _).
  apply bind_Done_inv in H as (gp & w1 & Ha & H). injection Ha as <- <-.
  apply bind_Done_inv in H as (? & ? & H3 & _).
  unfold newNestTree in H3.
  apply bind_Done_inv in H3 as (G & ? & HG & H3).
  apply load_Done_inv in HG as [-> (? & [= <-] & HG)]. simpl in HG.
  rewrite list_lookup_middle in HG by done. injection HG as <-.
  apply bind_Done_inv in H3 as (? & ? & H3 & _).
  apply make_Done_inv in H3 as (_ & H3 & _). simpl in H3.
  pose proof (NewGraph_wp spec w HI H1 H2 H3) as Hwp.
  by apply (wp_Done _ _ _ _ _ _ Hwp) in H0 as (_ & ? & _).
Qed.

(** ** New nests *)

Lemma grown_lookup r c fc (base : list Nest.t) :
  fc ≠ Some r →
  ∀ k,
    match base !! k,
          alter (Nest.with_firstChildNest (Some c)) r
            (match fc with
             | Some f => alter (Nest.with_prevSiblingNest (Some c)) f base
             | None => alter (Nest.with_lastChildNest (Some c)) r base
             end) !! k with
    | Some K0, Some K3 => grown r c fc k K0 K3
    | None, None => True
    | _, _ => False
    end.
Proof.
  intros Hfc k. rewrite list_lookup_alter.
  destruct fc as [f|]; rewrite !list_lookup_alter;
    repeat case_decide; simplify_eq;
    destruct (base !! k) as [K0|]; simpl; try done;
    unfold grown; simpl; repeat case_decide; simplify_eq;
    split_and!; try done.
Qed.

Lemma Inv_new_nest w t T r R C0 nests3 :
  Inv None w → nestTrees w !! t = Some T → NestTree.rootNest T = Some r →
  nests w !! r = Some R →
  Nest.nestTree C0 = Some t → Nest.level C0 = 1%Z → Nest.parentNest C0 = Some r →
  Nest.firstChildNest C0 = None → Nest.lastChildNest C0 = None →
  Nest.nextSiblingNest C0 = Nest.firstChildNest R →
  Nest.prevSiblingNest C0 = None →
  Nest.firstNode C0 = None → Nest.lastNode C0 = None → Nest.firstEdge C0 = None →
  (∀ k, match (nests w ++ [C0]) !! k, nests3 !! k with
        | Some K0, Some K3 => grown r (length (nests w)) (Nest.firstChildNest R) k K0 K3
        | None, None => True
        | _, _ => False
        end) →
  Inv None (sput Nests nests3 w).
Proof.
  intros HI HT Hr HR Ct Cl Cp Cfc Clc Cn Cpv Cfn Cln Cfe Hrel.
  set (c := length (nests w)) in *.
  set (fc := Nest.firstChildNest R) in *.
  assert (r < c) as Hrc by (by eapply lookup_lt_Some).
  destruct (inv_nest _ _ HI _ _ HR) as [HokR (RS1 & RS2 & RS3 & RS4)].
  assert (Nest.level R = 0%Z ∧ Nest.parentNest R = None) as [RL RP].
  { destruct (tree_graph _ _ _ _ HI HT)
      as (? & ? & r0 & R0 & _ & _ & _ & Hr0 & HR0t & [HR0 HS0]).
    assert (r0 = r) as -> by congruence. assert (R0 = R) as -> by congruence.
    destruct HS0 as [(_ & ? & ?)|(Hne & _)]; [done|by destruct Hne]. }
  clear HokR.
  assert (fc ≠ Some c) as Hfcc.
  { intros Hfc. destruct (RS1 c Hfc) as (C & HC & _).
    apply lookup_lt_Some in HC. unfold c in HC. lia. }
  assert (∀ k K, nests w !! k = Some K →
            ∃ K3, nests3 !! k = Some K3 ∧ grown r c fc k K K3) as Hold.
  { intros k K HK. specialize (Hrel k).
    rewrite (lookup_snoc_old _ _ _ _ HK) in Hrel.
    destruct (nests3 !! k) as [K3|]; [|done]. eauto. }
  assert (∀ k K3, nests3 !! k = Some K3 →
            (∃ K, nests w !! k = Some K ∧ grown r c fc k K K3) ∨
            (k = c ∧ grown r c fc c C0 K3)) as Hnew.
  { intros k K3 HK3. specialize (Hrel k). rewrite HK3 in Hrel.
    destruct ((nests w ++ [C0]) !! k) as [K0|] eqn:E0; [|done].
    apply lookup_snoc_inv in E0 as [[_ E0]|[-> ->]]; eauto. }
  assert (∃ C3, nests3 !! c = Some C3 ∧ grown r c fc c C0 C3) as HC3.
  { specialize (Hrel c). rewrite list_lookup_middle in Hrel by done.
    destruct (nests3 !! c) as [C3|]; [|done]. eauto. }
  assert (ext w (sput Nests nests3 w)) as Hx.
  { split; simpl; eauto. intros k K HK.
    destruct (Hold k K HK) as (K3 & HK3 & HfK & _). eauto. }
  destruct HI as [HG HTs HK HN HE].
  split; simpl.
  - intros g G H. eapply okGraph_ext; eauto.
  - intros t0 T0 H. eapply okTree_ext; eauto.
  - intros k K3 HK3.
    destruct (Hnew k K3 HK3) as [(K & HKk & Hg)|(-> & Hg)];
      destruct Hg as ([= Gt Gl Gp] & Gn & Gfc & Gpv & Glc & Glc' & Gfn & Gln & Gfe).
    + destruct (HK _ _ HKk) as [Hok (S1 & S2 & S3 & S4)]. split.
      * eapply okNest_ext; [done|].
        destruct Hok as (t' & T' & r' & Ht' & HT' & Hr' & Hs & V1 & V2 & V3).
        exists t', T', r'. rewrite Gt, Gl, Gp, Gfn, Gln, Gfe. done.
      * split_and!.
        -- intros x Hx'. rewrite Gfc in Hx'. case_decide as Hkr.
           ++ injection Hx' as <-. subst k.
              destruct HC3 as (C3 & HC3 & [= _ _ Cp3] & _ & _ & Cpv3 & _).
              exists C3. split; [done|].
              rewrite decide_False in Cpv3 by done. split; congruence.
           ++ destruct (S1 x Hx') as (X & HX & HXp & HXpar).
              destruct (Hold x X HX) as (X3 & HX3 & [= _ _ Xp3] & _ & _ & Xpv3 & _).
              exists X3. split; [done|]. split; [|congruence].
              rewrite Xpv3. case_decide as Hfx; [|done].
              destruct (RS1 x Hfx) as (X' & HX' & _ & HXpar').
              congruence.
        -- intros y Hy. rewrite Gn in Hy.
           destruct (S2 y Hy) as (Y & HY & HYp).
           destruct (Hold y Y HY) as (Y3 & HY3 & _ & _ & _ & Ypv3 & _).
           exists Y3. split; [done|]. rewrite Ypv3.
           case_decide as Hfy; [|done].
           destruct (RS1 y Hfy) as (Y' & HY' & HYp' & _). congruence.
        -- intros Hfc3. rewrite Gfc in Hfc3. case_decide as Hkr; [done|].
           rewrite Glc by done. by apply S3.
        -- intros Hp3. rewrite Gn. apply S4. congruence.
    + split.
      * exists t, T, r. rewrite Gt, Gl, Gp, Gfn, Gln, Gfe, Ct, Cl, Cp, Cfn, Cln, Cfe.
        simpl. split_and!; try done. right. split_and!; try done. lia.
      * split_and!.
        -- intros x Hx'. rewrite Gfc in Hx'. case_decide as Hkr; [lia|congruence].
        -- intros y Hy. rewrite Gn, Cn in Hy.
           destruct (RS1 y Hy) as (Y & HY & HYp & _).
           destruct (Hold y Y HY) as (Y3 & HY3 & _ & _ & _ & Ypv3 & _).
           exists Y3. split; [done|]. rewrite Ypv3. by rewrite decide_True.
        -- intros _. rewrite Glc by lia. done.
        -- intros Hp3. congruence.
  - intros i N H. eapply okNode_ext; eauto.
  - intros e E H. destruct (HE _ _ H) as [Hok Hrest].
    split; [eapply okEdge_ext; eauto|]. intros Hp.
    destruct (Hrest Hp) as [Hadj Hattr]. split; [done|].
    eapply attrEdge_keep; eauto.
Qed.

Lemma NewNest_wp w t T :
  Inv None w → nestTrees w !! t = Some T →
  wp (NestTree_NewNest (Some t)) w
     (λ p w', p = Some (length (nests w)) ∧ Inv None w' ∧
              new_child w w' t (length (nests w)))
     (λ _, False).
Proof.
  intros HI HT.
  destruct (tree_graph _ _ _ _ HI HT)
    as (g & G & r & R & Hb & HG & HGt & Hr & HRt & [HR HS]).
  assert (Nest.level R = 0%Z) as RL.
  { destruct HS as [(_ & ? & ?)|(Hne & _)]; [done|by destruct Hne]. }
  destruct (inv_graph _ _ HI _ _ HG) as (_ & _ & _ & _ & _ & _ & _ & _ & _ & _ & _ & Hn).
  destruct (inv_nest _ _ HI _ _ HR) as [_ (RS1 & _)].
  set (c := length (nests w)).
  set (fc := Nest.firstChildNest R) in *.
  assert (r < c) as Hrc by (by eapply lookup_lt_Some).
  assert (fc ≠ Some r) as Hfr.
  { intros Hfc. destruct (RS1 r Hfc) as (R' & HR' & _ & HRp).
    assert (R' = R) as -> by congruence.
    destruct HS as [(_ & _ & ?)|(Hne & _)]; [congruence|by destruct Hne]. }
  set (C0 := Nest.mk (NestTree.nestCount T) (Some t) 1 (Some r) None None fc None
                     None None None
                     (replicate (Z.to_nat (NestStrAttrNum (Graph.attrSpec G))) zeroVal)).
  set (nests3 := alter (Nest.with_firstChildNest (Some c)) r
                   (match fc with
                    | Some f => alter (Nest.with_prevSiblingNest (Some c)) f
                                      (nests w ++ [C0])
                    | None => alter (Nest.with_lastChildNest (Some c)) r
                                    (nests w ++ [C0])
                    end)).
  pose proof (grown_lookup r c fc (nests w ++ [C0]) Hfr) as Hrel. fold nests3 in Hrel.
  assert (Inv None (sput Nests nests3 w)) as HI3.
  { eapply (Inv_new_nest w t T r R C0); done. }
  assert (∀ k K, (nests w ++ [C0]) !! k = Some K →
            ∃ K3, nests3 !! k = Some K3 ∧ grown r c fc k K K3) as Hold.
  { intros k K HK. specialize (Hrel k). rewrite HK in Hrel.
    destruct (nests3 !! k) as [K3|]; [|done]. eauto. }
  unfold NestTree_NewNest.
  apply wp_bind, (wp_load NestTrees _ _ _ _ _ HT). rewrite Hr, Hb.
  apply wp_bind, (wp_load Nests _ _ _ _ _ HR).
  apply wp_bind, (wp_load Graphs _ _ _ _ _ HG).
  apply wp_bind. unfold wp at 1. rewrite make_nonneg by done.
  apply wp_bind, wp_alloc. simpl sget. fold c fc.
  replace (int_wrap (Nest.level R + 1)) with 1%Z by (by rewrite RL).
  fold C0.
  assert (wp (match fc with
              | Some _ => modify Nests fc (Nest.with_prevSiblingNest (Some c))
              | None => modify Nests (Some r) (Nest.with_lastChildNest (Some c))
              end ;;;
              modify Nests (Some r) (Nest.with_firstChildNest (Some c)))
            (alloc_w Nests C0 w)
            (λ _ w', w' = sput Nests nests3 w) (λ _, False)) as Hmid.
  { unfold nests3. destruct fc as [f|] eqn:Efc.
    - destruct (RS1 f eq_refl) as (F & HF & _).
      apply wp_bind, wp_modify.
      { simpl. rewrite (lookup_snoc_old _ _ _ _ HF). eauto. }
      apply wp_modify; [|done].
      simpl. apply lookup_lt_is_Some. rewrite length_alter, length_app. lia.
    - apply wp_bind, wp_modify.
      { simpl. rewrite (lookup_snoc_old _ _ _ _ HR). eauto. }
      apply wp_modify; [|done].
      simpl. apply lookup_lt_is_Some. rewrite length_alter, length_app. lia. }
  unfold wp in Hmid |- *. unfold bind in Hmid |- *.
  destruct (match fc with
            | Some _ => modify Nests fc (Nest.with_prevSiblingNest (Some c))
            | None => modify Nests (Some r) (Nest.with_lastChildNest (Some c))
            end (alloc_w Nests C0 w)) as [? w2| |]; [|done..].
  destruct (modify Nests (Some r) (Nest.with_firstChildNest (Some c)) w2)
    as [? w3| |]; [|done..].
  subst w3.
  rewrite (modify_Some NestTrees t _ (sput Nests nests3 w)) by (simpl; eauto).
  simpl. split; [done|]. split.
  { by apply (Inv_modify_trees None (sput Nests nests3 w)). }
  destruct (Hold c C0 ltac:(by apply list_lookup_middle))
    as (C3 & HC3 & [= Ct Cl Cp] & Cn & Cfc & Cpv & Clc & _).
  destruct (Hold r R ltac:(by apply lookup_snoc_old))
    as (R3 & HR3 & _ & _ & Rfc & _ & _ & Rlc & _).
  rewrite decide_True in Rfc by done.
  rewrite decide_False in Cfc by lia.
  exists T, r, R, R3, C3. simpl.
  split_and!; try done.
  - apply lookup_ge_None. unfold c. lia.
  - rewrite Cpv. rewrite decide_False; [done|].
    intros Hfc. destruct (RS1 c Hfc) as (? & HC & _).
    apply lookup_lt_Some in HC. unfold c in HC. lia.
  - rewrite Clc by lia. done.
  - intros f Hf. destruct (RS1 f Hf) as (F & HF & _).
    destruct (Hold f F ltac:(by apply lookup_snoc_old))
      as (F3 & HF3 & _ & _ & _ & Fpv & _).
    exists F3. split; [done|]. rewrite Fpv. by rewrite decide_True.
  - intros Hfc. by apply Rlc.
Qed.

(** ** Traversals only read *)

Lemma keeps_GetNextNest_up P fuel nest : keeps P (GetNextNest_up fuel nest).
Proof.
  revert nest. induction fuel as [|fuel IH]; intros nest; simpl;
    keeps_with idtac; apply IH.
Qed.

Lemma keeps_GetNextNest P fuel nest : keeps P (Nest_GetNextNest fuel nest).
Proof. unfold Nest_GetNextNest. keeps_with idtac. apply keeps_GetNextNest_up. Qed.

Lemma keeps_GetPrevNest_down P fuel nest : keeps P (GetPrevNest_down fuel nest).
Proof.
  revert nest. induction fuel as [|fuel IH]; intros nest; simpl;
    keeps_with idtac; apply IH.
Qed.

Lemma keeps_GetPrevNest P fuel nest : keeps P (Nest_GetPrevNest fuel nest).
Proof. unfold Nest_GetPrevNest. keeps_with idtac. apply keeps_GetPrevNest_down. Qed.

Lemma keeps_skip_empty_fwd P fuel nest : keeps P (skip_empty_fwd fuel nest).
Proof.
  revert nest. induction fuel as [|fuel IH]; intros nest;
    cbn [skip_empty_fwd]; (destruct nest; [|apply keeps_ret]);
    (apply keeps_bind; [apply keeps_load|intros N]);
    (destruct (Nest.firstNode N); [apply keeps_ret|]).
  - apply keeps_cutoff.
  - apply keeps_bind; [apply keeps_GetNextNest|intros next]. apply IH.
Qed.

Lemma keeps_GetFirstNode P fuel graph : keeps P (Graph_GetFirstNode fuel graph).
Proof.
  unfold Graph_GetFirstNode.
  apply keeps_bind; [apply keeps_load|intros G].
  destruct (Graph.nestTree G); [|apply keeps_panic].
  apply keeps_bind; [apply keeps_load|intros T].
  destruct (NestTree.rootNest T); [|apply keeps_panic].
  apply keeps_bind; [apply keeps_skip_empty_fwd|intros nest].
  keeps_with idtac.
Qed.

Lemma keeps_GetNextNode P fuel node : keeps P (Node_GetNextNode fuel node).
Proof.
  unfold Node_GetNextNode.
  apply keeps_bind; [apply keeps_load|intros Nd].
  destruct (Node.nextNodeInNest Nd); [apply keeps_ret|].
  destruct (Node.nest Nd); [|apply keeps_panic].
  apply keeps_bind; [apply keeps_GetNextNest|intros first].
  apply keeps_bind; [apply keeps_skip_empty_fwd|intros nest].
  keeps_with idtac.
Qed.

(** ** Attribute calls keep the invariant *)

Ltac keeps_Inv_write :=
  intros; unfold modify_w, alloc_w; simpl;
  first [ by apply Inv_handles
        | by apply Inv_set_node_strAttrs
        | by apply Inv_set_nest_strAttrs
        | by apply (Inv_modify_graphs None)
        | by apply (Inv_modify_trees None) ].

Lemma keeps_Inv_Node_RemoveStrAttr node attr :
  keeps (Inv None) (Node_RemoveStrAttr node attr).
Proof. unfold Node_RemoveStrAttr, set_slot. keeps_with keeps_Inv_write. Qed.

Lemma keeps_Inv_Node_SetStrAttrVal node attr val :
  keeps (Inv None) (Node_SetStrAttrVal node attr val).
Proof. unfold Node_SetStrAttrVal, set_slot. keeps_with keeps_Inv_write. Qed.

Lemma keeps_Inv_Nest_RemoveStrAttr nest attr :
  keeps (Inv None) (Nest_RemoveStrAttr nest attr).
Proof. unfold Nest_RemoveStrAttr, set_slot. keeps_with keeps_Inv_write. Qed.

Lemma keeps_Inv_Nest_SetStrAttrVal nest attr val :
  keeps (Inv None) (Nest_SetStrAttrVal nest attr val).
Proof. unfold Nest_SetStrAttrVal, set_slot. keeps_with keeps_Inv_write. Qed.

Lemma keeps_Inv_Graph_RemoveStrAttr graph attr :
  keeps (Inv None) (Graph_RemoveStrAttr graph attr).
Proof. unfold Graph_RemoveStrAttr, set_slot. keeps_with keeps_Inv_write. Qed.

Lemma keeps_Inv_Graph_SetStrAttrVal graph attr val :
  keeps (Inv None) (Graph_SetStrAttrVal graph attr val).
Proof. unfold Graph_SetStrAttrVal, set_slot. keeps_with keeps_Inv_write. Qed.

Lemma keeps_Inv_NewGraphStrAttr graph :
  keeps (Inv None) (Graph_NewGraphStrAttr graph).
Proof. unfold Graph_NewGraphStrAttr. keeps_with keeps_Inv_write. Qed.

Lemma keeps_Inv_NewNodeStrAttr graph :
  keeps (Inv None) (Graph_NewNodeStrAttr graph).
Proof. unfold Graph_NewNodeStrAttr. keeps_with keeps_Inv_write. Qed.

Lemma keeps_Inv_NewNestStrAttr nt :
  keeps (Inv None) (NestTree_NewNestStrAttr nt).
Proof. unfold NestTree_NewNestStrAttr. keeps_with keeps_Inv_write. Qed.

Lemma keeps_Inv_ReleaseGraphStrAttr graph attr :
  keeps (Inv None) (Graph_ReleaseGraphStrAttr graph attr).
Proof.
  unfold Graph_ReleaseGraphStrAttr, Graph_RemoveStrAttr, set_slot.
  keeps_with keeps_Inv_write.
Qed.

Lemma keeps_Inv_ReleaseNodeStrAttr_sweep fuel node attr :
  keeps (Inv None) (ReleaseNodeStrAttr_sweep fuel node attr).
Proof.
  revert node. induction fuel as [|fuel IH]; intros node;
    cbn [ReleaseNodeStrAttr_sweep]; destruct node; try apply keeps_ret;
    try apply keeps_cutoff.
  apply keeps_bind; [apply keeps_Inv_Node_RemoveStrAttr|intros _].
  apply keeps_bind; [apply keeps_GetNextNode|intros next]. apply IH.
Qed.

Lemma keeps_Inv_ReleaseNodeStrAttr fuel graph attr :
  keeps (Inv None) (Graph_ReleaseNodeStrAttr fuel graph attr).
Proof.
  unfold Graph_ReleaseNodeStrAttr.
  apply keeps_bind; [apply keeps_load|intros A].
  destruct (negb (StrAttr.isValid A)); [apply keeps_ret|].
  destruct (negb (ptr_eqb (StrAttr.graph A) graph)); [apply keeps_ret|].
  cbv zeta.
  apply keeps_bind; [apply keeps_GetFirstNode|intros first].
  apply keeps_bind; [apply keeps_Inv_ReleaseNodeStrAttr_sweep|intros _].
  keeps_with keeps_Inv_write.
Qed.

Lemma keeps_Inv_ReleaseNestStrAttr_sweep fuel nest attr :
  keeps (Inv None) (ReleaseNestStrAttr_sweep fuel nest attr).
Proof.
  revert nest. induction fuel as [|fuel IH]; intros nest;
    cbn [ReleaseNestStrAttr_sweep]; destruct nest; try apply keeps_ret;
    try apply keeps_cutoff.
  apply keeps_bind; [apply keeps_Inv_Nest_RemoveStrAttr|intros _].
  apply keeps_bind; [apply keeps_GetNextNest|intros next]. apply IH.
Qed.

Lemma keeps_Inv_ReleaseNestStrAttr fuel nt attr :
  keeps (Inv None) (NestTree_ReleaseNestStrAttr fuel nt attr).
Proof.
  unfold NestTree_ReleaseNestStrAttr.
  apply keeps_bind; [apply keeps_load|intros A].
  destruct (negb (NestStrAttr.is_valid A)); [apply keeps_ret|].
  destruct (negb (ptr_eqb (NestStrAttr.nestTree A) nt)); [apply keeps_ret|].
  cbv zeta.
  apply keeps_bind; [unfold NestTree_GetRootNest; keeps_with idtac|intros root].
  apply keeps_bind; [apply keeps_Inv_ReleaseNestStrAttr_sweep|intros _].
  keeps_with keeps_Inv_write.
Qed.

(** ** Every reachable world is well formed *)

Lemma Inv_init : Inv None init_world.
Proof.
  split; unfold init_world; simpl; intros ? ? H;
    by rewrite lookup_nil in H.
Qed.

Lemma NewNode_Inv w graph p w' :
  Inv None w → Graph_NewNode graph w = Done p w' → Inv None w'.
Proof.
  intros HI E. assert (∃ g G, graph = Some g ∧ graphs w !! g = Some G)
    as (g & G & -> & HG).
  { unfold Graph_NewNode in E. apply bind_Done_inv in E as (G & w1 & E & _).
    apply load_Done_inv in E as (_ & g & -> & HG). eauto. }
  pose proof (NewNode_wp w g G HI HG) as Hwp.
  by destruct (wp_Done _ _ _ _ _ _ Hwp E).
Qed.

Lemma NewNest_Inv w nt p w' :
  Inv None w → NestTree_NewNest nt w = Done p w' → Inv None w'.
Proof.
  intros HI E. assert (∃ t T, nt = Some t ∧ nestTrees w !! t = Some T)
    as (t & T & -> & HT).
  { unfold NestTree_NewNest in E. apply bind_Done_inv in E as (T & w1 & E & _).
    apply load_Done_inv in E as (_ & t & -> & HT). eauto. }
  pose proof (NewNest_wp w t T HI HT) as Hwp.
  by destruct (wp_Done _ _ _ _ _ _ Hwp E) as (_ & ? & _).
Qed.

(** [NewEdge] either refuses, leaving the world alone, or both nodes
    exist and belong to the receiver. *)
Lemma NewEdge_cases fuel w graph src dst r w' :
  Inv None w → Graph_NewEdge fuel graph src dst w = Done r w' →
  w' = w ∨
  (∃ g s S d D, graph = Some g ∧ src = Some s ∧ dst = Some d ∧
                nodes w !! s = Some S ∧ nodes w !! d = Some D ∧
                Node.graph S = Some g ∧ Node.graph D = Some g).
Proof.
  intros HI E. unfold Graph_NewEdge in E.
  destruct src as [s|]; [|injection E as <- <-; by left].
  destruct dst as [d|]; [|injection E as <- <-; by left].
  apply bind_Done_inv in E as (S & w1 & E1 & E).
  apply load_Done_inv in E1 as (-> & s' & [= <-] & HS). simpl in HS.
  destruct (ptr_eqb (Node.graph S) graph) eqn:Es; simpl in E;
    [|injection E as <- <-; by left].
  apply ptr_eqb_eq in Es.
  apply bind_Done_inv in E as (D & w1 & E1 & E).
  apply load_Done_inv in E1 as (-> & d' & [= <-] & HD). simpl in HD.
  destruct (ptr_eqb (Node.graph D) graph) eqn:Ed; simpl in E;
    [|injection E as <- <-; by left].
  apply ptr_eqb_eq in Ed. right.
  destruct (inv_node _ _ HI _ _ HS) as (_ & _ & _ & _ & g & G & _ & _ & HgS & _).
  exists g, s, S, d, D. split_and!; try done; congruence.
Qed.

Lemma NewEdge_Inv fuel w graph src dst r w' :
  Inv None w → Graph_NewEdge fuel graph src dst w = Done r w' → Inv None w'.
Proof.
  intros HI E.
  destruct (NewEdge_cases _ _ _ _ _ _ _ HI E)
    as [->|(g & s & S & d & D & -> & -> & -> & HS & HD & HgS & HgD)]; [done|].
  pose proof (NewEdge_wp fuel w g s S d D HI HS HD HgS HgD) as Hwp.
  by destruct (wp_Done _ _ _ _ _ _ Hwp E) as (_ & ? & _).
Qed.

Lemma exec_Inv fuel c w w' :
  Inv None w → exec fuel c w = Done tt w' → Inv None w'.
Proof.
  intros HI E. destruct c; simpl in E;
    apply bind_Done_inv in E as (x & w1 & E & [= <-]).
  - by eapply NewGraph_Inv.
  - by eapply keeps_Done; [apply keeps_Inv_NewGraphStrAttr|..].
  - by eapply keeps_Done; [apply keeps_Inv_Graph_RemoveStrAttr|..].
  - by eapply keeps_Done; [apply keeps_Inv_Graph_SetStrAttrVal|..].
  - by eapply keeps_Done; [apply keeps_Inv_ReleaseGraphStrAttr|..].
  - by eapply keeps_Done; [apply keeps_Inv_NewNodeStrAttr|..].
  - by eapply keeps_Done; [apply keeps_Inv_ReleaseNodeStrAttr|..].
  - by eapply NewNode_Inv.
  - by eapply NewEdge_Inv.
  - by eapply keeps_Done; [apply keeps_Inv_Node_SetStrAttrVal|..].
  - by eapply keeps_Done; [apply keeps_Inv_Node_RemoveStrAttr|..].
  - by eapply MoveToNest_Inv.
  - by eapply NewNest_Inv.
  - by eapply keeps_Done; [apply keeps_Inv_NewNestStrAttr|..].
  - by eapply keeps_Done; [apply keeps_Inv_ReleaseNestStrAttr|..].
  - by eapply keeps_Done; [apply keeps_Inv_Nest_SetStrAttrVal|..].
  - by eapply keeps_Done; [apply keeps_Inv_Nest_RemoveStrAttr|..].
Qed.

Lemma reachable_Inv w : reachable w → Inv None w.
Proof.
  induction 1 as [|w fuel c w' _ IH E]; [apply Inv_init|].
  by eapply exec_Inv.
Qed.

(** ** No call changes a fixed field of an object *)

Lemma nest_frame_refl w : nest_frame w w.
Proof. intros k K H. eauto. Qed.

Lemma nest_frame_modify_nests w0 a f w :
  (∀ K, fixNest (f K) = fixNest K) →
  nest_frame w0 w → nest_frame w0 (modify_w Nests a f w).
Proof.
  intros Hf H k K HK. destruct (H k K HK) as (K1 & HK1 & E1).
  destruct (lookup_alter_keep fixNest f (nests w) a k K1) as (K2 & HK2 & E2);
    [by intros|done|].
  exists K2. split; [done|congruence].
Qed.

Lemma nest_frame_alloc_nests w0 x w :
  nest_frame w0 w → nest_frame w0 (alloc_w Nests x w).
Proof.
  intros H k K HK. destruct (H k K HK) as (K1 & HK1 & E1).
  exists K1. split; [by apply lookup_snoc_old|done].
Qed.

Ltac frame_write :=
  intros;
  first [ apply nest_frame_modify_nests; [by intros|done]
        | apply nest_frame_alloc_nests; done
        | match goal with H : nest_frame _ _ |- _ => exact H end ].

Lemma keeps_frame_calc w0 fuel edge :
  keeps (nest_frame w0) (Edge_calcNestAndMoveToIt fuel edge).
Proof.
  unfold Edge_calcNestAndMoveToIt, Nest_removeEdge, Nest_addEdge.
  keeps_with frame_write; first [ apply keeps_calc_lift | apply keeps_calc_meet ].
Qed.

Lemma keeps_frame_fix_incoming w0 fuel n edge :
  keeps (nest_frame w0) (MoveToNest_fix_incoming fuel n edge).
Proof.
  induction n as [|n IH]; simpl; (destruct edge; [|apply keeps_ret]);
    [apply keeps_cutoff|].
  apply keeps_bind; [apply keeps_load|intros E].
  destruct (Edge.nest E); [|apply keeps_panic].
  apply keeps_bind; [apply keeps_frame_calc|intros _].
  apply keeps_bind; [unfold Edge_GetNextIncomingEdge; keeps_with idtac|intros _].
  apply IH.
Qed.

Lemma keeps_frame_fix_outcoming w0 fuel n edge :
  keeps (nest_frame w0) (MoveToNest_fix_outcoming fuel n edge).
Proof.
  induction n as [|n IH]; simpl; (destruct edge; [|apply keeps_ret]);
    [apply keeps_cutoff|].
  apply keeps_bind; [apply keeps_load|intros E].
  destruct (Edge.nest E); [|apply keeps_panic].
  apply keeps_bind; [apply keeps_frame_calc|intros _].
  apply keeps_bind; [unfold Edge_GetNextOutcomingEdge; keeps_with idtac|intros _].
  apply IH.
Qed.

Lemma keeps_frame_MoveToNest w0 fuel node nest :
  keeps (nest_frame w0) (Node_MoveToNest fuel node nest).
Proof.
  unfold Node_MoveToNest.
  apply keeps_bind; [apply keeps_load|intros N].
  apply keeps_bind; [apply keeps_load|intros T].
  apply keeps_bind; [apply keeps_load|intros Nd].
  destruct (negb _); [apply keeps_ret|].
  destruct (Node.nest Nd); [|apply keeps_panic].
  apply keeps_bind; [unfold Nest_removeNode; keeps_with frame_write|intros _].
  apply keeps_bind; [keeps_with frame_write|intros _].
  apply keeps_bind; [unfold Nest_addNode; keeps_with frame_write|intros _].
  apply keeps_bind; [unfold Node_GetFirstIncomingEdge; keeps_with idtac|intros fi].
  apply keeps_bind; [apply keeps_frame_fix_incoming|intros _].
  apply keeps_bind; [unfold Node_GetFirstOutcomingEdge; keeps_with idtac|intros fo].
  apply keeps_bind; [apply keeps_frame_fix_outcoming|intros _].
  apply keeps_ret.
Qed.

Lemma keeps_frame_NewEdge w0 fuel graph src dst :
  keeps (nest_frame w0) (Graph_NewEdge fuel graph src dst).
Proof.
  unfold Graph_NewEdge.
  destruct src; [|apply keeps_ret]. destruct dst; [|apply keeps_ret].
  apply keeps_bind; [apply keeps_load|intros Sn].
  destruct (negb _); [apply keeps_ret|].
  apply keeps_bind; [apply keeps_load|intros Dn].
  destruct (negb _); [apply keeps_ret|]. cbv zeta.
  apply keeps_bind; [apply keeps_load|intros G].
  apply keeps_bind; [keeps_with frame_write|intros e].
  apply keeps_bind; [keeps_with frame_write|intros _].
  apply keeps_bind; [keeps_with frame_write|intros _].
  apply keeps_bind; [keeps_with frame_write|intros _].
  apply keeps_bind; [keeps_with frame_write|intros _].
  apply keeps_bind; [apply keeps_frame_calc|intros _].
  keeps_with frame_write.
Qed.

Lemma keeps_frame_ReleaseNodeStrAttr_sweep w0 fuel node attr :
  keeps (nest_frame w0) (ReleaseNodeStrAttr_sweep fuel node attr).
Proof.
  revert node. induction fuel as [|fuel IH]; intros node;
    cbn [ReleaseNodeStrAttr_sweep]; destruct node; try apply keeps_ret;
    try apply keeps_cutoff.
  apply keeps_bind;
    [unfold Node_RemoveStrAttr, set_slot; keeps_with frame_write|intros _].
  apply keeps_bind; [apply keeps_GetNextNode|intros next]. apply IH.
Qed.

Lemma keeps_frame_ReleaseNestStrAttr_sweep w0 fuel nest attr :
  keeps (nest_frame w0) (ReleaseNestStrAttr_sweep fuel nest attr).
Proof.
  revert nest. induction fuel as [|fuel IH]; intros nest;
    cbn [ReleaseNestStrAttr_sweep]; destruct nest; try apply keeps_ret;
    try apply keeps_cutoff.
  apply keeps_bind;
    [unfold Nest_RemoveStrAttr, set_slot; keeps_with frame_write|intros _].
  apply keeps_bind; [apply keeps_GetNextNest|intros next]. apply IH.
Qed.

Lemma keeps_frame_exec w0 fuel c : keeps (nest_frame w0) (exec fuel c).
Proof.
  destruct c; simpl; (apply keeps_bind; [|intros _; apply keeps_ret]).
  - unfold NewGraph, newNestTree. keeps_with frame_write.
  - unfold Graph_NewGraphStrAttr. keeps_with frame_write.
  - unfold Graph_RemoveStrAttr, set_slot. keeps_with frame_write.
  - unfold Graph_SetStrAttrVal, set_slot. keeps_with frame_write.
  - unfold Graph_ReleaseGraphStrAttr, Graph_RemoveStrAttr, set_slot.
    keeps_with frame_write.
  - unfold Graph_NewNodeStrAttr. keeps_with frame_write.
  - unfold Graph_ReleaseNodeStrAttr.
    apply keeps_bind; [apply keeps_load|intros A].
    destruct (negb (StrAttr.isValid A)); [apply keeps_ret|].
    destruct (negb (ptr_eqb (StrAttr.graph A) graph)); [apply keeps_ret|].
    cbv zeta.
    apply keeps_bind; [apply keeps_GetFirstNode|intros first].
    apply keeps_bind; [apply keeps_frame_ReleaseNodeStrAttr_sweep|intros _].
    keeps_with frame_write.
  - unfold Graph_NewNode, Nest_addNode. keeps_with frame_write.
  - apply keeps_frame_NewEdge.
  - unfold Node_SetStrAttrVal, set_slot. keeps_with frame_write.
  - unfold Node_RemoveStrAttr, set_slot. keeps_with frame_write.
  - apply keeps_frame_MoveToNest.
  - unfold NestTree_NewNest. keeps_with frame_write.
  - unfold NestTree_NewNestStrAttr. keeps_with frame_write.
  - unfold NestTree_ReleaseNestStrAttr.
    apply keeps_bind; [apply keeps_load|intros A].
    destruct (negb (NestStrAttr.is_valid A)); [apply keeps_ret|].
    destruct (negb (ptr_eqb (NestStrAttr.nestTree A) nt)); [apply keeps_ret|].
    cbv zeta.
    apply keeps_bind; [unfold NestTree_GetRootNest; keeps_with idtac|intros root].
    apply keeps_bind; [apply keeps_frame_ReleaseNestStrAttr_sweep|intros _].
    keeps_with frame_write.
  - unfold Nest_SetStrAttrVal, set_slot. keeps_with frame_write.
  - unfold Nest_RemoveStrAttr, set_slot. keeps_with frame_write.
Qed.

Lemma exec_nest_frame fuel c w w' : exec fuel c w = Done tt w' → nest_frame w w'.
Proof.
  intros E.
  eapply keeps_Done; [apply keeps_frame_exec|apply nest_frame_refl|exact E].
Qed.

(** ** Ancestors in a tree of depth at most one *)

Lemma anc_shape w r R k K a :
  shape w r r R → shape w r k K → anc w k a → a = k ∨ (a = r ∧ k ≠ r).
Proof.
  intros [HR HRs] [HK HKs] H.
  inversion H as [|k' K' p a' HK' Hp Hanc]; subst; [by left|].
  assert (K' = K) as -> by congruence.
  destruct HKs as [(-> & _ & Hp')|(Hne & _ & Hp')]; [congruence|].
  assert (p = r) as -> by congruence.
  inversion Hanc as [|k' K' p a' HK'' Hp'' _]; subst; [by right|].
  assert (K' = R) as -> by congruence.
  destruct HRs as [(_ & _ & Hn)|(Hn & _)]; congruence.
Qed.

Lemma shape_anc_root w r k K : shape w r k K → anc w k r.
Proof.
  intros [HK [(-> & _)|(_ & _ & Hp)]]; [apply anc_refl|].
  eapply anc_step; [done..|apply anc_refl].
Qed.

Lemma shape_nca w r R ks Ks kd Kd :
  shape w r r R → shape w r ks Ks → shape w r kd Kd →
  is_nca w ks kd (if decide (ks = kd) then ks else r).
Proof.
  intros HR Hs Hd. destruct (decide (ks = kd)) as [<-|Hne].
  - split_and!; [apply anc_refl..|]. by intros x Hx _.
  - split_and!; [by eapply shape_anc_root..|]. intros x H1 H2.
    destruct (anc_shape _ _ _ _ _ _ HR Hs H1) as [->|[-> _]];
      [|apply anc_refl].
    destruct (anc_shape _ _ _ _ _ _ HR Hd H2) as [->|[-> _]];
      [done|apply anc_refl].
Qed.

(** C1. In every world brought about by calls that returned, the nest of
    every edge is the nearest common ancestor, in the nest tree, of the
    nest of its source node and the nest of its destination node. *)
Theorem edge_nest_is_nearest_common_ancestor w e E :
  reachable w → edges w !! e = Some E →
  ∃ s S d D ks kd c,
    Edge.srcNode E = Some s ∧ nodes w !! s = Some S ∧ Node.nest S = Some ks ∧
    Edge.dstNode E = Some d ∧ nodes w !! d = Some D ∧ Node.nest D = Some kd ∧
    Edge.nest E = Some c ∧ is_nca w ks kd c.
Proof.
  intros Hreach HE. pose proof (reachable_Inv _ Hreach) as HI.
  destruct (edge_ends _ _ _ _ HI HE)
    as (s & S & d & D & g & G & t & T & r & ks & Ks & kd & Kd &
        Hs & HS & Hd & HD & Hg & HgS & HgD & HG & HGt & HT & Hb & Hr &
        Hks & Hkd & HKs & HKd & Sks & Skd).
  destruct (graph_tree _ _ _ _ HI HG)
    as (t' & T' & r' & R & Ht' & HT' & _ & Hr' & HRt & SR).
  assert (t' = t) as -> by congruence.
  assert (T' = T) as -> by congruence.
  assert (r' = r) as -> by congruence.
  destruct (inv_edge _ _ HI _ _ HE) as [_ Hrest].
  destruct Hrest as [_ (s' & d' & ks' & kd' & r' & Hs' & Hd' & Hns & Hnd & Hroot & Hnest)];
    [done|].
  assert (s' = s) as -> by congruence.
  assert (d' = d) as -> by congruence.
  unfold node_nest in Hns, Hnd. rewrite HS in Hns. rewrite HD in Hnd.
  simpl in Hns, Hnd.
  assert (ks' = ks) as -> by congruence.
  assert (kd' = kd) as -> by congruence.
  rewrite (root_of_shape _ _ _ _ _ _ Sks HKs HT Hr) in Hroot.
  injection Hroot as <-.
  exists s, S, d, D, ks, kd, (if decide (ks = kd) then ks else r).
  split_and!; try done. by eapply shape_nca.
Qed.

Lemma edge_nest_is_nearest_common_ancestor_witness :
  reachable world_nested_edges ∧
  ∃ E, edges world_nested_edges !! 0 = Some E ∧
    ∃ s S d D ks kd c,
      Edge.srcNode E = Some s ∧ nodes world_nested_edges !! s = Some S ∧
      Node.nest S = Some ks ∧
      Edge.dstNode E = Some d ∧ nodes world_nested_edges !! d = Some D ∧
      Node.nest D = Some kd ∧
      Edge.nest E = Some c ∧ is_nca world_nested_edges ks kd c.
Proof.
  split; [apply reachable_nested_edges|].
  eexists. split; [by vm_compute|].
  apply (edge_nest_is_nearest_common_ancestor world_nested_edges 0 _
           reachable_nested_edges).
  by vm_compute.
Defined.

(** ** The nest tree has depth at most one *)

Lemma Inv_nest_shape w k K :
  Inv None w → nests w !! k = Some K →
  ∃ t T r, Nest.nestTree K = Some t ∧ nestTrees w !! t = Some T ∧
           NestTree.rootNest T = Some r ∧ shape w r k K.
Proof.
  intros HI HK.
  destruct (inv_nest _ _ HI _ _ HK) as [(t & T & r & Ht & HT & Hr & Hs & _) _].
  exists t, T, r. by split_and!.
Qed.

(** C10. [NewNest] returns a new nest that is a child of the root at
    level 1 and stands at the head of the root's child list; no call of
    the package changes the tree, the level or the parent of a nest; and
    so every nest of a world brought about by calls that returned is the
    root of its tree or a child of that root. *)
Theorem nests_are_the_root_or_its_children w :
  reachable w →
  (∀ t T, nestTrees w !! t = Some T →
          ∃ c w', NestTree_NewNest (Some t) w = Done (Some c) w' ∧
                  new_child w w' t c) ∧
  (∀ fuel c w', exec fuel c w = Done tt w' → nest_frame w w') ∧
  (∀ k K, nests w !! k = Some K →
          ∃ t T r, Nest.nestTree K = Some t ∧ nestTrees w !! t = Some T ∧
                   NestTree.rootNest T = Some r ∧ shape w r k K).
Proof.
  intros Hr. pose proof (reachable_Inv _ Hr) as HI. split_and!.
  - intros t T HT.
    destruct (wp_returns _ _ _ (NewNest_wp w t T HI HT))
      as (p & w' & E & -> & _ & Hc).
    eauto.
  - intros fuel c w'. apply exec_nest_frame.
  - intros k K. by apply Inv_nest_shape.
Qed.

Lemma nests_are_the_root_or_its_children_witness :
  reachable world_two_nests ∧
  (∃ w', NestTree_NewNest (Some 0) world_two_nests = Done (Some 3) w' ∧
         new_child world_two_nests w' 0 3) ∧
  (∃ K, nests world_two_nests !! 2 = Some K ∧ shape world_two_nests 0 2 K).
Proof.
  split; [apply reachable_two_nests|].
  destruct (nests_are_the_root_or_its_children world_two_nests
              reachable_two_nests) as (Hnew & _ & Hshape).
  split.
  - destruct (Hnew 0 _ eq_refl) as (c & w' & E & Hc).
    exists w'. revert E Hc. vm_compute (NestTree_NewNest _ _).
    intros [= <- <-]. done.
  - eexists. split; [reflexivity|].
    destruct (Hshape 2 _ eq_refl) as (t & T & r & Ht & HT & Hr & Hs).
    revert HT Hr Hs. injection Ht as <-.
    intros [= <-] [= <-]. done.
Defined.

(** ** Moving a node to the nest it is in *)

Lemma MoveToNest_same_nest_returns fuel w n N k :
  Inv None w → nodes w !! n = Some N → Node.nest N = Some k →
  Node.firstIncomingEdge N = None → Node.firstOutcomingEdge N = None →
  ∃ w', Node_MoveToNest fuel (Some n) (Some k) w = Done None w'.
Proof.
  intros HI HN Hk Hin Hout.
  destruct (node_place _ _ _ _ HI HN)
    as (g & G & t & T & r & k' & K & Hg & HG & HGt & HT & Hb & Hr & Hk' & HKt & SK).
  assert (k' = k) as -> by congruence.
  assert (NestTree.baseGraph T = Node.graph N) as Hb' by congruence.
  rewrite (MoveToNest_split fuel n k w K t T N k); try done; [|apply SK].
  destruct (wp_returns _ _ _ (relink_wp w n N k K t T k HI HN (proj1 SK) HKt HT
                                Hb' Hk (or_introl eq_refl)))
    as (u & w1 & E & _ & _ & _ & N1 & HN1 & [= Hi1 Ho1 _ _ _ _]).
  exists w1. rewrite (bind_Done _ _ _ _ _ E).
  unfold MoveToNest_fix, Node_GetFirstIncomingEdge, Node_GetFirstOutcomingEdge.
  unfold bind at 1. unfold bind at 1.
  rewrite (load_Some Nodes _ _ _ HN1). cbn [ret].
  rewrite Hi1, Hin, fix_incoming_nil. unfold bind at 1. cbn [ret].
  unfold bind at 1. unfold bind at 1.
  rewrite (load_Some Nodes _ _ _ HN1). cbn [ret].
  rewrite Ho1, Hout, fix_outcoming_nil. done.
Qed.

(** C3. [MoveToNest] of a node to the nest it is in never panics and,
    wherever it stops (on return, with no error, or at any point it is
    cut off at), every edge has the nest it had before the call; on a
    node without edges it returns. *)
Theorem MoveToNest_to_own_nest_keeps_edge_nests fuel w n N k :
  reachable w → nodes w !! n = Some N → Node.nest N = Some k →
  match Node_MoveToNest fuel (Some n) (Some k) w with
  | Done r w' => r = None ∧ same_edge_nests w w'
  | Panic => False
  | Cutoff w' => same_edge_nests w w'
  end ∧
  (Node.firstIncomingEdge N = None → Node.firstOutcomingEdge N = None →
   ∃ w', Node_MoveToNest fuel (Some n) (Some k) w = Done None w').
Proof.
  intros Hr HN Hk. pose proof (reachable_Inv _ Hr) as HI. split.
  - by apply (MoveToNest_same_nest_wp fuel w n N k).
  - by apply MoveToNest_same_nest_returns.
Qed.

Lemma MoveToNest_to_own_nest_keeps_edge_nests_witness :
  reachable world_edge ∧
  ∃ N, nodes world_edge !! 1 = Some N ∧ Node.nest N = Some 0 ∧
       match Node_MoveToNest 2 (Some 1) (Some 0) world_edge with
       | Done r w' => r = None ∧ same_edge_nests world_edge w'
       | Panic => False
       | Cutoff w' => same_edge_nests world_edge w'
       end.
Proof.
  split; [apply reachable_edge|].
  eexists. split; [by vm_compute|]. split; [reflexivity|].
  eapply proj1.
  eapply (MoveToNest_to_own_nest_keeps_edge_nests 2 world_edge 1 _ 0
            reachable_edge); by vm_compute.
Defined.

(** ** New edges *)

Lemma NewEdge_foreign_src fuel w graph s S dst :
  nodes w !! s = Some S → Node.graph S ≠ graph → dst ≠ None →
  ∃ e, Graph_NewEdge fuel graph (Some s) dst w = Done (None, Some e) w.
Proof.
  intros HS Hne Hd. unfold Graph_NewEdge. destruct dst as [d|]; [|done].
  rewrite (bind_Done _ _ _ _ _ (load_Some Nodes _ _ _ HS)).
  rewrite (ptr_eqb_ne _ _ Hne). simpl. eauto.
Qed.

Lemma NewEdge_foreign_dst fuel w graph s S d D :
  nodes w !! s = Some S → Node.graph S = graph →
  nodes w !! d = Some D → Node.graph D ≠ graph →
  ∃ e, Graph_NewEdge fuel graph (Some s) (Some d) w = Done (None, Some e) w.
Proof.
  intros HS Hs HD Hne. unfold Graph_NewEdge.
  rewrite (bind_Done _ _ _ _ _ (load_Some Nodes _ _ _ HS)).
  rewrite Hs, ptr_eqb_refl. cbn [negb].
  rewrite (bind_Done _ _ _ _ _ (load_Some Nodes _ _ _ HD)).
  rewrite (ptr_eqb_ne _ _ Hne). simpl. eauto.
Qed.

(** C4. [NewEdge] returns, and returns an error exactly when an end is
    nil or is a node of another graph than the receiver; with an error it
    returns no edge and leaves the world as it was; without, the new edge
    stands at the head of the outgoing list of its source and of the
    incoming list of its destination and has a nest, whatever edges the
    two nodes already share. *)
Theorem NewEdge_refuses_bad_ends_and_inserts_at_head fuel w graph src dst :
  reachable w → 0 < fuel →
  vptr (nodes w) src → vptr (nodes w) dst →
  ∃ p err w',
    Graph_NewEdge fuel graph src dst w = Done (p, err) w' ∧
    (err ≠ None ↔ bad_ends w graph src dst) ∧
    (err ≠ None → p = None ∧ w' = w) ∧
    (err = None →
       ∃ s d, src = Some s ∧ dst = Some d ∧ p = Some (length (edges w)) ∧
              head_inserted w w' s d (length (edges w))).
Proof.
  intros Hr Hfuel Hsrc Hdst. pose proof (reachable_Inv _ Hr) as HI.
  destruct src as [s|].
  2:{ eexists None, (Some _), w. split; [reflexivity|].
      split_and!; [|done..]. split; [by left|done]. }
  destruct dst as [d|].
  2:{ eexists None, (Some _), w. split; [reflexivity|].
      split_and!; [|done..]. split; [by right; left|done]. }
  simpl in Hsrc, Hdst.
  destruct (lookup_lt_is_Some_2 _ _ Hsrc) as [S HS].
  destruct (lookup_lt_is_Some_2 _ _ Hdst) as [D HD].
  destruct (decide (Node.graph S = graph)) as [Hs|Hs].
  2:{ destruct (NewEdge_foreign_src fuel w graph s S (Some d) HS Hs) as [e He];
        [done|].
      exists None, (Some e), w. split; [done|]. split_and!; [|done..].
      split; [|done]. intros _. right; right; left. by exists s, S. }
  destruct (decide (Node.graph D = graph)) as [Hd|Hd].
  2:{ destruct (NewEdge_foreign_dst fuel w graph s S d D HS Hs HD Hd) as [e He].
      exists None, (Some e), w. split; [done|]. split_and!; [|done..].
      split; [|done]. intros _. right; right; right. by exists d, D. }
  destruct (inv_node _ _ HI _ _ HS) as (_ & _ & _ & _ & g & G & _ & _ & HgS & _).
  assert (graph = Some g) as -> by congruence.
  pose proof (NewEdge_wp fuel w g s S d D HI HS HD Hs Hd) as Hwp.
  unfold wp in Hwp.
  destruct (Graph_NewEdge fuel (Some g) (Some s) (Some d) w)
    as [r w'| |w']; [|done|lia].
  destruct Hwp as (-> & _ & Hins).
  exists (Some (length (edges w))), None, w'. split; [done|]. split_and!.
  - split; [done|].
    intros [?|[?|[(i & N & [= <-] & HN & Hne)|(i & N & [= <-] & HN & Hne)]]];
      congruence.
  - done.
  - intros _. by exists s, d.
Qed.

Lemma NewEdge_refuses_bad_ends_and_inserts_at_head_witness :
  reachable world_edge ∧
  ∃ w', Graph_NewEdge 1 (Some 0) (Some 0) (Some 1) world_edge
        = Done (Some 1, None) w' ∧
        head_inserted world_edge w' 0 1 1.
Proof.
  split; [apply reachable_edge|].
  destruct (NewEdge_refuses_bad_ends_and_inserts_at_head
              1 world_edge (Some 0) (Some 0) (Some 1) reachable_edge)
    as (p & err & w' & E & _ & _ & Hok); [lia|vm_compute; lia..|].
  exists w'. revert E Hok. vm_compute (Graph_NewEdge _ _ _ _ _).
  intros [= <- <- <-] Hok.
  destruct (Hok eq_refl) as (s & d & [= <-] & [= <-] & _ & Hins).
  split; [reflexivity|exact Hins].
Defined.

(** ** The successor of a nest and its predecessor *)

Lemma GetNextNest_up_root fuel w r R :
  shape w r r R → sibNest w r R →
  GetNextNest_up (S fuel) (Some r) w = Done None w.
Proof.
  intros [HR Hs] (_ & _ & _ & S4).
  assert (Nest.parentNest R = None) as Hp
    by (destruct Hs as [(_ & _ & ?)|(? & _)]; done).
  cbn [GetNextNest_up].
  rewrite (bind_Done _ _ _ _ _ (load_Some Nests _ _ _ HR)).
  rewrite (S4 Hp), Hp. by destruct fuel.
Qed.

Lemma GetNextNest_returns fuel w g G :
  Inv None w → nests w !! g = Some G →
  Nest_GetNextNest (S fuel) (Some g) w
  = Done (match Nest.firstChildNest G with
          | Some c => Some c
          | None => Nest.nextSiblingNest G
          end) w.
Proof.
  intros HI HG. unfold Nest_GetNextNest.
  rewrite (bind_Done _ _ _ _ _ (load_Some Nests _ _ _ HG)).
  destruct (Nest.firstChildNest G) as [c|]; [done|].
  destruct (Nest.nextSiblingNest G) as [d|] eqn:Hd; [done|].
  destruct (Inv_nest_shape _ _ _ HI HG) as (t & T & r & Ht & HT & Hr & Hs).
  destruct (tree_graph _ _ _ _ HI HT) as (g0 & G0 & r' & R & _ & _ & _ & Hr' & _ & HR).
  assert (r' = r) as -> by congruence.
  destruct Hs as [_ [(-> & _ & Hp)|(_ & _ & Hp)]]; rewrite Hp.
  - by destruct fuel.
  - destruct (inv_nest _ _ HI _ _ (proj1 HR)) as [_ Hsib].
    by rewrite (bind_Done _ _ _ _ _ (GetNextNest_up_root fuel w r R HR Hsib)).
Qed.

(** C9, amended. [GetNextNest] returns; when the nest it returns is not
    [nil], [GetPrevNest] of that nest returns the nest one started
    from. *)
Theorem prev_of_next_when_next_exists fuel w g G :
  reachable w → nests w !! g = Some G → 0 < fuel →
  ∃ next, Nest_GetNextNest fuel (Some g) w = Done next w ∧
          ∀ n, next = Some n →
               Nest_GetPrevNest fuel (Some n) w = Done (Some g) w.
Proof.
  intros Hr HG Hfuel. pose proof (reachable_Inv _ Hr) as HI.
  destruct fuel as [|fuel]; [lia|].
  eexists. split; [by apply GetNextNest_returns|].
  destruct (inv_nest _ _ HI _ _ HG) as [_ (S1 & S2 & S3 & S4)].
  intros n Hn. unfold Nest_GetPrevNest.
  destruct (Nest.firstChildNest G) as [c|] eqn:Hc.
  - injection Hn as ->. destruct (S1 n eq_refl) as (C & HC & Hprev & Hp).
    rewrite (bind_Done _ _ _ _ _ (load_Some Nests _ _ _ HC)).
    by rewrite Hprev, Hp.
  - destruct (S2 n Hn) as (D & HD & Hprev).
    rewrite (bind_Done _ _ _ _ _ (load_Some Nests _ _ _ HD)).
    rewrite Hprev. cbn [GetPrevNest_down].
    rewrite (bind_Done _ _ _ _ _ (load_Some Nests _ _ _ HG)).
    by rewrite (S3 eq_refl).
Qed.

Lemma prev_of_next_when_next_exists_witness :
  reachable world_two_nests ∧
  Nest_GetNextNest 1 (Some 2) world_two_nests = Done (Some 1) world_two_nests ∧
  Nest_GetPrevNest 1 (Some 1) world_two_nests = Done (Some 2) world_two_nests.
Proof.
  split; [apply reachable_two_nests|].
  destruct (prev_of_next_when_next_exists 1 world_two_nests 2 _
              reachable_two_nests eq_refl) as (next & E & Hprev); [lia|].
  revert E Hprev. vm_compute (Nest_GetNextNest _ _ _).
  intros [= <-] Hprev. split; [reflexivity|]. by apply Hprev.
Defined.

(** ** Attribute handles that are refused *)

Ltac run_load s H :=
  rewrite (bind_Done _ _ _ _ _ (load_Some s _ _ _ H)).

Lemma negb_ptr_eqb_ne p q : p ≠ q → negb (ptr_eqb p q) = true.
Proof. intros H. by rewrite (ptr_eqb_ne _ _ H). Qed.

(** X1. On a node, [SetStrAttrVal], [GetStrAttrVal] and [IsStrAttrSet]
    return an error, and leave the world as it is, when the handle is
    invalid or belongs to another graph than the node. *)
Theorem Node_attr_methods_refuse_bad_handle w n N a A v :
  nodes w !! n = Some N → nodeStrAttrs w !! a = Some A →
  bad_handle A (Node.graph N) →
  (∃ e, Node_SetStrAttrVal (Some n) (Some a) v w = Done (Some e) w) ∧
  (∃ e, Node_GetStrAttrVal (Some n) (Some a) w = Done ("", Some e) w) ∧
  (∃ e, Node_IsStrAttrSet (Some n) (Some a) w = Done (false, Some e) w).
Proof.
  intros HN HA Hbad.
  unfold Node_SetStrAttrVal, Node_GetStrAttrVal, Node_IsStrAttrSet.
  split_and!; run_load NodeStrAttrs HA;
    (destruct (StrAttr.isValid A) eqn:Hv; cbn [negb]; [|unfold ret; by eauto]);
    (destruct Hbad as [?|Hne]; [congruence|]); run_load Nodes HN;
    rewrite (negb_ptr_eqb_ne _ _ Hne); unfold ret; eauto.
Qed.

Lemma Node_attr_methods_refuse_bad_handle_witness :
  (∃ e, Node_SetStrAttrVal (Some 0) (Some 2) "x" world_foreign
        = Done (Some e) world_foreign) ∧
  (∃ e, Node_GetStrAttrVal (Some 0) (Some 2) world_foreign
        = Done ("", Some e) world_foreign) ∧
  (∃ e, Node_IsStrAttrSet (Some 0) (Some 2) world_foreign
        = Done (false, Some e) world_foreign).
Proof.
  eapply (Node_attr_methods_refuse_bad_handle world_foreign 0 _ 2 _ "x");
    [by vm_compute..|].
  right. by vm_compute.
Defined.

(** The same for a handle that was just released. *)
Lemma released_graph_handle_refused w graph a A v :
  graphStrAttrs w !! a = Some A → bad_handle A graph →
  (∃ e, Graph_SetStrAttrVal graph (Some a) v w = Done (Some e) w) ∧
  (∃ e, Graph_GetStrAttrVal graph (Some a) w = Done ("", Some e) w) ∧
  (∃ e, Graph_IsStrAttrSet graph (Some a) w = Done (false, Some e) w).
Proof.
  intros HA Hbad.
  unfold Graph_SetStrAttrVal, Graph_GetStrAttrVal, Graph_IsStrAttrSet.
  split_and!; run_load GraphStrAttrs HA;
    (destruct (StrAttr.isValid A) eqn:Hv; cbn [negb]; [|unfold ret; by eauto]);
    (destruct Hbad as [?|Hne]; [congruence|]);
    rewrite (negb_ptr_eqb_ne _ _ Hne); unfold ret; eauto.
Qed.

(** X2. On a graph, [SetStrAttrVal], [GetStrAttrVal] and [IsStrAttrSet]
    return an error, and leave the world as it is, when the handle is
    invalid or belongs to another graph. *)
Theorem Graph_attr_methods_refuse_bad_handle w graph a A v :
  graphStrAttrs w !! a = Some A → bad_handle A graph →
  (∃ e, Graph_SetStrAttrVal graph (Some a) v w = Done (Some e) w) ∧
  (∃ e, Graph_GetStrAttrVal graph (Some a) w = Done ("", Some e) w) ∧
  (∃ e, Graph_IsStrAttrSet graph (Some a) w = Done (false, Some e) w).
Proof.
  intros HA Hbad.
  unfold Graph_SetStrAttrVal, Graph_GetStrAttrVal, Graph_IsStrAttrSet.
  split_and!; run_load GraphStrAttrs HA;
    (destruct (StrAttr.isValid A) eqn:Hv; cbn [negb]; [|unfold ret; by eauto]);
    (destruct Hbad as [?|Hne]; [congruence|]);
    rewrite (negb_ptr_eqb_ne _ _ Hne); unfold ret; eauto.
Qed.

Lemma Graph_attr_methods_refuse_bad_handle_witness :
  (∃ e, Graph_SetStrAttrVal (Some 0) (Some 0) "x" world_one_graph
        = Done (Some e) world_one_graph) ∧
  (∃ e, Graph_GetStrAttrVal (Some 0) (Some 0) world_one_graph
        = Done ("", Some e) world_one_graph) ∧
  (∃ e, Graph_IsStrAttrSet (Some 0) (Some 0) world_one_graph
        = Done (false, Some e) world_one_graph).
Proof.
  eapply (Graph_attr_methods_refuse_bad_handle world_one_graph (Some 0) 0 _ "x");
    [by vm_compute|].
  left. by vm_compute.
Defined.

(** X3. On a nest, [SetStrAttrVal], [GetStrAttrVal] and [IsStrAttrSet]
    return an error, and leave the world as it is, when the handle is
    invalid or belongs to another nest tree than the nest. *)
Theorem Nest_attr_methods_refuse_bad_handle w k K a A v :
  nests w !! k = Some K → nestStrAttrs w !! a = Some A →
  bad_nest_handle A (Nest.nestTree K) →
  (∃ e, Nest_SetStrAttrVal (Some k) (Some a) v w = Done (Some e) w) ∧
  (∃ e, Nest_GetStrAttrVal (Some k) (Some a) w = Done ("", Some e) w) ∧
  (∃ e, Nest_IsStrAttrSet (Some k) (Some a) w = Done (false, Some e) w).
Proof.
  intros HK HA Hbad.
  unfold Nest_SetStrAttrVal, Nest_GetStrAttrVal, Nest_IsStrAttrSet.
  split_and!; run_load NestStrAttrs HA;
    (destruct (NestStrAttr.is_valid A) eqn:Hv; cbn [negb]; [|unfold ret; by eauto]);
    (destruct Hbad as [?|Hne]; [congruence|]); run_load Nests HK;
    rewrite (negb_ptr_eqb_ne _ _ Hne); unfold ret; eauto.
Qed.

Lemma Nest_attr_methods_refuse_bad_handle_witness :
  (∃ e, Nest_SetStrAttrVal (Some 1) (Some 0) "x" world_nest_attr
        = Done (Some e) world_nest_attr) ∧
  (∃ e, Nest_GetStrAttrVal (Some 1) (Some 0) world_nest_attr
        = Done ("", Some e) world_nest_attr) ∧
  (∃ e, Nest_IsStrAttrSet (Some 1) (Some 0) world_nest_attr
        = Done (false, Some e) world_nest_attr).
Proof.
  eapply (Nest_attr_methods_refuse_bad_handle world_nest_attr 1 _ 0 _ "x");
    [by vm_compute..|].
  left. by vm_compute.
Defined.

(** ** Sizes of attribute arrays *)

Lemma length_upd {A} (l : list A) i f : length (upd l i f) = length l.
Proof. unfold upd. destruct (idx l i); [by rewrite length_insert|done]. Qed.

Lemma fmap_lookup_alter {A B} (h : A → B) (f : A → A) (l : list A) a i :
  (∀ x, l !! a = Some x → h (f x) = h x) →
  h <$> alter f a l !! i = h <$> l !! i.
Proof.
  intros Hf. destruct (decide (a = i)) as [->|Hne].
  - rewrite list_lookup_alter_eq. destruct (l !! i) as [x|] eqn:E; [|done].
    simpl. f_equal. by apply Hf.
  - by rewrite list_lookup_alter_ne.
Qed.

Lemma fmap_lookup_snoc {A B} (h : A → B) (l : list A) x i y :
  h <$> l !! i = Some y → h <$> (l ++ [x]) !! i = Some y.
Proof.
  destruct (l !! i) as [z|] eqn:E; [|done]. intros H.
  by rewrite (lookup_snoc_old _ _ _ _ E).
Qed.

Lemma gspec_modify_graphs a f w g :
  (∀ G, graphs w !! a = Some G → Graph.attrSpec (f G) = Graph.attrSpec G) →
  gspec (modify_w Graphs a f w) g = gspec w g.
Proof. intros Hf. unfold gspec. simpl. by apply fmap_lookup_alter. Qed.

Lemma tspec_modify_graphs a f w t :
  (∀ G, graphs w !! a = Some G → Graph.attrSpec (f G) = Graph.attrSpec G) →
  tspec (modify_w Graphs a f w) t = tspec w t.
Proof.
  intros Hf. unfold tspec. simpl.
  destruct (nestTrees w !! t) as [T|]; [|done]. simpl.
  destruct (NestTree.baseGraph T) as [g|]; [|done]. simpl.
  by apply gspec_modify_graphs.
Qed.

Lemma tspec_modify_trees a f w t :
  (∀ T, nestTrees w !! a = Some T →
        NestTree.baseGraph (f T) = NestTree.baseGraph T) →
  tspec (modify_w NestTrees a f w) t = tspec w t.
Proof.
  intros Hf. unfold tspec. simpl.
  destruct (decide (a = t)) as [->|Hne].
  - rewrite list_lookup_alter_eq. destruct (nestTrees w !! t) as [T|] eqn:E; [|done].
    simpl. by rewrite Hf.
  - by rewrite list_lookup_alter_ne.
Qed.

Lemma gspec_alloc_graphs x w g s :
  gspec w g = Some s → gspec (alloc_w Graphs x w) g = Some s.
Proof. apply fmap_lookup_snoc. Qed.

Lemma tspec_alloc_graphs x w t s :
  tspec w t = Some s → tspec (alloc_w Graphs x w) t = Some s.
Proof.
  unfold tspec. simpl.
  destruct (nestTrees w !! t) as [T|]; [|done]. simpl.
  destruct (NestTree.baseGraph T) as [g|]; [|done]. simpl.
  apply gspec_alloc_graphs.
Qed.

Lemma tspec_alloc_trees x w t s :
  tspec w t = Some s → tspec (alloc_w NestTrees x w) t = Some s.
Proof.
  unfold tspec. simpl.
  destruct (nestTrees w !! t) as [T|] eqn:E; [|done].
  by rewrite (lookup_snoc_old _ _ _ _ E).
Qed.

(** Writes that keep the sizes. *)
Lemma AttrInv_modify_graphs a f w :
  (∀ G, graphs w !! a = Some G →
        Graph.attrSpec (f G) = Graph.attrSpec G ∧
        length (Graph.strAttrs (f G)) = length (Graph.strAttrs G) ∧
        length (Graph.graphStrAttrAllocMap (f G))
          = length (Graph.graphStrAttrAllocMap G) ∧
        length (Graph.nodeStrAttrAllocMap (f G))
          = length (Graph.nodeStrAttrAllocMap G)) →
  AttrInv w → AttrInv (modify_w Graphs a f w).
Proof.
  intros Hf [HG HT HN HK H1 H2 H3].
  assert (∀ g, gspec (modify_w Graphs a f w) g = gspec w g) as Eg.
  { intros g. apply gspec_modify_graphs. intros G ?. by apply Hf. }
  assert (∀ t, tspec (modify_w Graphs a f w) t = tspec w t) as Et.
  { intros t. apply tspec_modify_graphs. intros G ?. by apply Hf. }
  split; try (intros; setoid_rewrite Eg || setoid_rewrite Et; eauto; fail).
  intros g G' H. simpl in H.
  apply lookup_alter_inv in H as [(-> & G & HG0 & ->)|[_ H]]; [|by eapply HG].
  destruct (Hf G HG0) as (-> & -> & -> & ->). by eapply HG.
Qed.

Lemma AttrInv_modify_trees a f w :
  (∀ T, nestTrees w !! a = Some T →
        NestTree.baseGraph (f T) = NestTree.baseGraph T ∧
        length (NestTree.nestStrAttrAllocMap (f T))
          = length (NestTree.nestStrAttrAllocMap T)) →
  AttrInv w → AttrInv (modify_w NestTrees a f w).
Proof.
  intros Hf [HG HT HN HK H1 H2 H3].
  assert (∀ t, tspec (modify_w NestTrees a f w) t = tspec w t) as Et.
  { intros t. apply tspec_modify_trees. intros T ?. by apply Hf. }
  split; try done; try (intros; setoid_rewrite Et; eauto; fail).
  intros t T' H. setoid_rewrite Et. simpl in H.
  apply lookup_alter_inv in H as [(-> & T & HT0 & ->)|[_ H]]; [|by eapply HT].
  destruct (Hf T HT0) as (_ & ->). by eapply HT.
Qed.

Lemma AttrInv_modify_nodes a f w :
  (∀ N, nodes w !! a = Some N →
        Node.graph (f N) = Node.graph N ∧
        length (Node.strAttrs (f N)) = length (Node.strAttrs N)) →
  AttrInv w → AttrInv (modify_w Nodes a f w).
Proof.
  intros Hf [HG HT HN HK H1 H2 H3]. split; try done.
  intros i N' H. simpl in H.
  apply lookup_alter_inv in H as [(-> & N & HN0 & ->)|[_ H]]; [|by eapply HN].
  destruct (Hf N HN0) as (-> & ->). by eapply HN.
Qed.

Lemma AttrInv_modify_nests a f w :
  (∀ K, nests w !! a = Some K →
        Nest.nestTree (f K) = Nest.nestTree K ∧
        Nest.parentNest (f K) = Nest.parentNest K ∧
        length (Nest.strAttrs (f K)) = length (Nest.strAttrs K)) →
  AttrInv w → AttrInv (modify_w Nests a f w).
Proof.
  intros Hf [HG HT HN HK H1 H2 H3]. split; try done.
  intros k K' H. simpl in H.
  apply lookup_alter_inv in H as [(-> & K & HK0 & ->)|[_ H]]; [|by eapply HK].
  destruct (Hf K HK0) as (-> & -> & ->). by eapply HK.
Qed.

Lemma AttrInv_modify_edges a f w : AttrInv w → AttrInv (modify_w Edges a f w).
Proof. intros [HG HT HN HK H1 H2 H3]. by split. Qed.

Lemma AttrInv_alloc_edges x w : AttrInv w → AttrInv (alloc_w Edges x w).
Proof. intros [HG HT HN HK H1 H2 H3]. by split. Qed.

(** A released handle stands for nothing. *)
Lemma AttrInv_release_graph_handle a w :
  AttrInv w → AttrInv (modify_w GraphStrAttrs a (λ _, graph_str_attr_invalid) w).
Proof.
  intros [HG HT HN HK H1 H2 H3]. split; try done.
  intros b B H Hv. simpl in H.
  apply lookup_alter_inv in H as [(-> & B0 & _ & ->)|[_ H]]; [done|by eapply H1].
Qed.

Lemma AttrInv_release_node_handle a w :
  AttrInv w → AttrInv (modify_w NodeStrAttrs a (λ _, node_str_attr_invalid) w).
Proof.
  intros [HG HT HN HK H1 H2 H3]. split; try done.
  intros b B H Hv. simpl in H.
  apply lookup_alter_inv in H as [(-> & B0 & _ & ->)|[_ H]]; [done|by eapply H2].
Qed.

Lemma AttrInv_release_nest_handle a w :
  AttrInv w → AttrInv (modify_w NestStrAttrs a (λ _, nest_str_attr_invalid) w).
Proof.
  intros [HG HT HN HK H1 H2 H3]. split; try done.
  intros b B H Hv. simpl in H.
  apply lookup_alter_inv in H as [(-> & B0 & _ & ->)|[_ H]]; [done|by eapply H3].
Qed.

(** ** Rules for [pw] *)

Section Partial.
Context {A B : Type}.
Implicit Types (Q : A → World → Prop) (T : World → Prop).

Lemma pw_ret (x : A) w Q T : Q x w → pw (ret x) w Q T.
Proof. done. Qed.

Lemma pw_panic w Q T : pw (@panic A) w Q T.
Proof. done. Qed.

Lemma pw_bind (m : M A) (k : A → M B) w (Q : B → World → Prop) T :
  pw m w (λ x w1, pw (k x) w1 Q T) T → pw (bind m k) w Q T.
Proof. unfold pw, bind. by destruct (m w). Qed.

Lemma pw_mono (m : M A) w Q Q' T T' :
  pw m w Q T → (∀ x w', Q x w' → Q' x w') → (∀ w', T w' → T' w') →
  pw m w Q' T'.
Proof. unfold pw. destruct (m w); eauto. Qed.

Lemma pw_load (s : store A) p w Q T :
  (∀ a x, p = Some a → sget s w !! a = Some x → Q x w) → pw (load s p) w Q T.
Proof.
  intros H. unfold pw, load. destruct p as [a|]; [|done].
  destruct (sget s w !! a) as [x|] eqn:E; [|done]. by eapply H.
Qed.

Lemma pw_modify (s : store A) p f w (Q : unit → World → Prop) T :
  (∀ a, p = Some a → is_Some (sget s w !! a) → Q tt (modify_w s a f w)) →
  pw (modify s p f) w Q T.
Proof.
  intros H. unfold pw, modify. destruct p as [a|]; [|done].
  destruct (sget s w !! a) as [x|] eqn:E; [|done]. apply H; eauto.
Qed.

Lemma pw_alloc (s : store A) x w (Q : ptr → World → Prop) T :
  Q (Some (length (sget s w))) (alloc_w s x w) → pw (alloc s x) w Q T.
Proof. done. Qed.

Lemma pw_make (z : A) n w (Q : list A → World → Prop) T :
  ((0 ≤ n)%Z → Q (replicate (Z.to_nat n) z) w) → pw (make z n) w Q T.
Proof.
  intros H. unfold pw, make. destruct (Z.ltb_spec n 0); [done|]. by apply H.
Qed.

Lemma pw_keeps P (m : M A) w : keeps P m → P w → pw m w (λ _, P) P.
Proof. intros Hm H. exact (Hm w H). Qed.

Lemma pw_after P (m : M A) w Q T :
  keeps P m → P w → (∀ x w', P w' → Q x w') → (∀ w', P w' → T w') →
  pw m w Q T.
Proof. intros Hm H HQ HT. eapply pw_mono; [by apply (pw_keeps P)|done..]. Qed.

Lemma pw_Done (m : M A) w Q T x w' : pw m w Q T → m w = Done x w' → Q x w'.
Proof. unfold pw. intros H E. by rewrite E in H. Qed.

Lemma keeps_pw P (m : M A) : (∀ w, P w → pw m w (λ _, P) P) → keeps P m.
Proof. intros H w HP. exact (H w HP). Qed.

End Partial.

(** ** New objects and the sizes *)

Lemma AttrInv_alloc_graphs G w :
  length (Graph.strAttrs G) = Z.to_nat (GraphStrAttrNum (Graph.attrSpec G)) →
  length (Graph.graphStrAttrAllocMap G)
    = Z.to_nat (GraphStrAttrNum (Graph.attrSpec G)) →
  length (Graph.nodeStrAttrAllocMap G)
    = Z.to_nat (NodeStrAttrNum (Graph.attrSpec G)) →
  AttrInv w → AttrInv (alloc_w Graphs G w).
Proof.
  intros L1 L2 L3 [HG HT HN HK H1 H2 H3].
  pose proof (gspec_alloc_graphs G w) as Eg.
  pose proof (tspec_alloc_graphs G w) as Et.
  split.
  - intros g G' H. simpl in H.
    apply lookup_snoc_inv in H as [[_ H]|[-> ->]]; [by eapply HG|done].
  - intros t T H. destruct (HT t T H) as (s & ? & ?). eauto.
  - intros i N H. destruct (HN i N H) as (g & s & ? & ? & ?). eauto 6.
  - intros k K H. destruct (HK k K H) as (t & s & ? & ? & ?). eauto 6.
  - intros a A H Hv. destruct (H1 a A H Hv) as (g & s & ? & ? & ?). eauto 6.
  - intros a A H Hv. destruct (H2 a A H Hv) as (g & s & ? & ? & ?). eauto 6.
  - intros a A H Hv. destruct (H3 a A H Hv) as (g & s & ? & ? & ?). eauto 6.
Qed.

Lemma AttrInv_alloc_trees T w g spec :
  NestTree.baseGraph T = Some g → gspec w g = Some spec →
  length (NestTree.nestStrAttrAllocMap T) = Z.to_nat (NestStrAttrNum spec) →
  AttrInv w → AttrInv (alloc_w NestTrees T w).
Proof.
  intros Hb Hs L [HG HT HN HK H1 H2 H3].
  pose proof (tspec_alloc_trees T w) as Et.
  split; try done.
  - intros t T' H. simpl in H.
    apply lookup_snoc_inv in H as [[_ H]|[-> ->]].
    + destruct (HT t T' H) as (s & ? & ?). eauto.
    + exists spec. split; [|done]. unfold tspec. simpl.
      rewrite list_lookup_middle by done. simpl. by rewrite Hb.
  - intros k K H. destruct (HK k K H) as (t & s & ? & ? & ?). eauto 6.
  - intros a A H Hv. destruct (H3 a A H Hv) as (t & s & ? & ? & ?). eauto 6.
Qed.

Lemma AttrInv_alloc_nests K w t spec :
  Nest.nestTree K = Some t → tspec w t = Some spec →
  length (Nest.strAttrs K)
    = match Nest.parentNest K with
      | Some _ => Z.to_nat (NestStrAttrNum spec)
      | None => 0
      end →
  AttrInv w → AttrInv (alloc_w Nests K w).
Proof.
  intros Ht Hs L [HG HT HN HK H1 H2 H3]. split; try done.
  intros k K' H. simpl in H.
  apply lookup_snoc_inv in H as [[_ H]|[-> ->]]; [by eapply HK|eauto].
Qed.

Lemma AttrInv_alloc_nodes N w g spec :
  Node.graph N = Some g → gspec w g = Some spec →
  length (Node.strAttrs N) = Z.to_nat (NodeStrAttrNum spec) →
  AttrInv w → AttrInv (alloc_w Nodes N w).
Proof.
  intros Hg Hs L [HG HT HN HK H1 H2 H3]. split; try done.
  intros i N' H. simpl in H.
  apply lookup_snoc_inv in H as [[_ H]|[-> ->]]; [by eapply HN|eauto].
Qed.

Lemma AttrInv_alloc_graph_handle i g w spec :
  gspec w g = Some spec → in_pool i (GraphStrAttrNum spec) →
  AttrInv w → AttrInv (alloc_w GraphStrAttrs (StrAttr.mk i true (Some g)) w).
Proof.
  intros Hs Hi [HG HT HN HK H1 H2 H3]. split; try done.
  intros a A H Hv. simpl in H.
  apply lookup_snoc_inv in H as [[_ H]|[-> ->]]; [by eapply H1|eauto].
Qed.

Lemma AttrInv_alloc_node_handle i g w spec :
  gspec w g = Some spec → in_pool i (NodeStrAttrNum spec) →
  AttrInv w → AttrInv (alloc_w NodeStrAttrs (StrAttr.mk i true (Some g)) w).
Proof.
  intros Hs Hi [HG HT HN HK H1 H2 H3]. split; try done.
  intros a A H Hv. simpl in H.
  apply lookup_snoc_inv in H as [[_ H]|[-> ->]]; [by eapply H2|eauto].
Qed.

Lemma AttrInv_alloc_nest_handle i t w spec :
  tspec w t = Some spec → in_pool i (NestStrAttrNum spec) →
  AttrInv w → AttrInv (alloc_w NestStrAttrs (NestStrAttr.mk i true (Some t)) w).
Proof.
  intros Hs Hi [HG HT HN HK H1 H2 H3]. split; try done.
  intros a A H Hv. simpl in H.
  apply lookup_snoc_inv in H as [[_ H]|[-> ->]]; [by eapply H3|eauto].
Qed.

Lemma AttrInv_init : AttrInv init_world.
Proof.
  split; unfold init_world; simpl; intros a A H;
    try (by rewrite lookup_nil in H);
    destruct a as [|a]; simpl in H; [|by rewrite ?lookup_nil in H| |by rewrite ?lookup_nil in H| |by rewrite ?lookup_nil in H];
    by injection H as <-.
Qed.

(** ** Every call keeps the sizes *)

Ltac attr_side :=
  intros; simpl; rewrite ?length_upd, ?length_insert; by split_and?.

Ltac attr_write :=
  intros;
  first [ apply AttrInv_modify_graphs; [attr_side|done]
        | apply AttrInv_modify_trees; [attr_side|done]
        | apply AttrInv_modify_nodes; [attr_side|done]
        | apply AttrInv_modify_nests; [attr_side|done]
        | by apply AttrInv_modify_edges
        | by apply AttrInv_alloc_edges
        | by apply AttrInv_release_graph_handle
        | by apply AttrInv_release_node_handle
        | by apply AttrInv_release_nest_handle ].

Lemma keeps_AttrInv_calc fuel edge :
  keeps AttrInv (Edge_calcNestAndMoveToIt fuel edge).
Proof.
  unfold Edge_calcNestAndMoveToIt, Nest_removeEdge, Nest_addEdge.
  keeps_with attr_write; first [ apply keeps_calc_lift | apply keeps_calc_meet ].
Qed.

Lemma keeps_AttrInv_fix_incoming fuel n edge :
  keeps AttrInv (MoveToNest_fix_incoming fuel n edge).
Proof.
  induction n as [|n IH]; simpl; (destruct edge; [|apply keeps_ret]);
    [apply keeps_cutoff|].
  apply keeps_bind; [apply keeps_load|intros E].
  destruct (Edge.nest E); [|apply keeps_panic].
  apply keeps_bind; [apply keeps_AttrInv_calc|intros _].
  apply keeps_bind; [unfold Edge_GetNextIncomingEdge; keeps_with idtac|intros _].
  apply IH.
Qed.

Lemma keeps_AttrInv_fix_outcoming fuel n edge :
  keeps AttrInv (MoveToNest_fix_outcoming fuel n edge).
Proof.
  induction n as [|n IH]; simpl; (destruct edge; [|apply keeps_ret]);
    [apply keeps_cutoff|].
  apply keeps_bind; [apply keeps_load|intros E].
  destruct (Edge.nest E); [|apply keeps_panic].
  apply keeps_bind; [apply keeps_AttrInv_calc|intros _].
  apply keeps_bind; [unfold Edge_GetNextOutcomingEdge; keeps_with idtac|intros _].
  apply IH.
Qed.

Lemma keeps_AttrInv_MoveToNest fuel node nest :
  keeps AttrInv (Node_MoveToNest fuel node nest).
Proof.
  unfold Node_MoveToNest.
  apply keeps_bind; [apply keeps_load|intros N].
  apply keeps_bind; [apply keeps_load|intros T].
  apply keeps_bind; [apply keeps_load|intros Nd].
  destruct (negb _); [apply keeps_ret|].
  destruct (Node.nest Nd); [|apply keeps_panic].
  apply keeps_bind; [unfold Nest_removeNode; keeps_with attr_write|intros _].
  apply keeps_bind; [keeps_with attr_write|intros _].
  apply keeps_bind; [unfold Nest_addNode; keeps_with attr_write|intros _].
  apply keeps_bind; [unfold Node_GetFirstIncomingEdge; keeps_with idtac|intros fi].
  apply keeps_bind; [apply keeps_AttrInv_fix_incoming|intros _].
  apply keeps_bind; [unfold Node_GetFirstOutcomingEdge; keeps_with idtac|intros fo].
  apply keeps_bind; [apply keeps_AttrInv_fix_outcoming|intros _].
  apply keeps_ret.
Qed.

Lemma keeps_AttrInv_NewEdge fuel graph src dst :
  keeps AttrInv (Graph_NewEdge fuel graph src dst).
Proof.
  unfold Graph_NewEdge.
  destruct src; [|apply keeps_ret]. destruct dst; [|apply keeps_ret].
  apply keeps_bind; [apply keeps_load|intros Sn].
  destruct (negb _); [apply keeps_ret|].
  apply keeps_bind; [apply keeps_load|intros Dn].
  destruct (negb _); [apply keeps_ret|]. cbv zeta.
  apply keeps_bind; [apply keeps_load|intros G].
  apply keeps_bind; [keeps_with attr_write|intros e].
  apply keeps_bind; [keeps_with attr_write|intros _].
  apply keeps_bind; [keeps_with attr_write|intros _].
  apply keeps_bind; [keeps_with attr_write|intros _].
  apply keeps_bind; [keeps_with attr_write|intros _].
  apply keeps_bind; [apply keeps_AttrInv_calc|intros _].
  keeps_with attr_write.
Qed.

Lemma keeps_AttrInv_Node_RemoveStrAttr node attr :
  keeps AttrInv (Node_RemoveStrAttr node attr).
Proof. unfold Node_RemoveStrAttr, set_slot. keeps_with attr_write. Qed.

Lemma keeps_AttrInv_Nest_RemoveStrAttr nest attr :
  keeps AttrInv (Nest_RemoveStrAttr nest attr).
Proof. unfold Nest_RemoveStrAttr, set_slot. keeps_with attr_write. Qed.

Lemma keeps_AttrInv_ReleaseNodeStrAttr_sweep fuel node attr :
  keeps AttrInv (ReleaseNodeStrAttr_sweep fuel node attr).
Proof.
  revert node. induction fuel as [|fuel IH]; intros node;
    cbn [ReleaseNodeStrAttr_sweep]; destruct node; try apply keeps_ret;
    try apply keeps_cutoff.
  apply keeps_bind; [apply keeps_AttrInv_Node_RemoveStrAttr|intros _].
  apply keeps_bind; [apply keeps_GetNextNode|intros next]. apply IH.
Qed.

Lemma keeps_AttrInv_ReleaseNestStrAttr_sweep fuel nest attr :
  keeps AttrInv (ReleaseNestStrAttr_sweep fuel nest attr).
Proof.
  revert nest. induction fuel as [|fuel IH]; intros nest;
    cbn [ReleaseNestStrAttr_sweep]; destruct nest; try apply keeps_ret;
    try apply keeps_cutoff.
  apply keeps_bind; [apply keeps_AttrInv_Nest_RemoveStrAttr|intros _].
  apply keeps_bind; [apply keeps_GetNextNest|intros next]. apply IH.
Qed.

Lemma gspec_lookup w g G :
  graphs w !! g = Some G → gspec w g = Some (Graph.attrSpec G).
Proof. intros H. unfold gspec. by rewrite H. Qed.

Lemma tspec_lookup w t T g G :
  nestTrees w !! t = Some T → NestTree.baseGraph T = Some g →
  graphs w !! g = Some G → tspec w t = Some (Graph.attrSpec G).
Proof.
  intros HT Hb HG. unfold tspec. rewrite HT. simpl. rewrite Hb. simpl.
  by apply gspec_lookup.
Qed.

Lemma lowest_free_in_pool m i n :
  lowest_free m i → length m = Z.to_nat n → in_pool (Z.of_nat i) n.
Proof.
  intros [Hi _] L. apply lookup_lt_Some in Hi. unfold in_pool. lia.
Qed.

Lemma keeps_AttrInv_NewGraph spec : keeps AttrInv (NewGraph spec).
Proof.
  apply keeps_pw. intros w HI. unfold NewGraph.
  apply pw_bind, pw_make. intros H1.
  apply pw_bind, pw_make. intros H2.
  apply pw_bind, pw_make. intros _.
  apply pw_bind, pw_alloc. simpl sget.
  set (G0 := Graph.mk None 0 0 spec _ _ _).
  assert (AttrInv (alloc_w Graphs G0 w)) as HI1.
  { apply AttrInv_alloc_graphs; [..|done]; unfold G0; simpl;
      by rewrite length_replicate. }
  assert (graphs (alloc_w Graphs G0 w) !! length (graphs w) = Some G0) as HG0
    by (by apply list_lookup_middle).
  apply pw_bind. unfold newNestTree.
  apply pw_bind, pw_load. intros g G [= <-] HG.
  assert (G = G0) as ->.
  { simpl in HG. rewrite list_lookup_middle in HG by done. by injection HG. }
  apply pw_bind, pw_make. intros H3.
  apply pw_bind, pw_alloc. simpl sget.
  set (T0 := NestTree.mk _ _ _ _).
  assert (AttrInv (alloc_w NestTrees T0 (alloc_w Graphs G0 w))) as HI2.
  { eapply AttrInv_alloc_trees; [done|by apply gspec_lookup| |done].
    unfold T0. simpl. by rewrite length_replicate. }
  apply pw_bind, pw_alloc. simpl sget.
  set (R0 := Nest.mk _ _ _ _ _ _ _ _ _ _ _ _).
  assert (AttrInv (alloc_w Nests R0 (alloc_w NestTrees T0 (alloc_w Graphs G0 w))))
    as HI3.
  { eapply AttrInv_alloc_nests; [done| |done|done].
    eapply tspec_lookup; [by apply list_lookup_middle|done|done]. }
  apply pw_bind.
  apply (pw_after AttrInv); [keeps_with attr_write|exact HI3| |done].
  intros _ w1 HI4.
  apply (pw_after AttrInv); [keeps_with attr_write|exact HI4| |done].
  intros nt w2 HI5.
  apply (pw_after AttrInv); [keeps_with attr_write|exact HI5|done..].
Qed.

Lemma keeps_AttrInv_NewNode graph : keeps AttrInv (Graph_NewNode graph).
Proof.
  apply keeps_pw. intros w HI. unfold Graph_NewNode.
  apply pw_bind, pw_load. intros g G -> HG.
  destruct (Graph.nestTree G); [|done].
  apply pw_bind, pw_load. intros t T _ HT.
  destruct (NestTree.rootNest T); [|done].
  apply pw_bind, pw_make. intros Hn.
  apply pw_bind, pw_alloc. simpl sget.
  apply (pw_after AttrInv); [| |done..].
  - unfold Nest_addNode. keeps_with attr_write.
  - eapply AttrInv_alloc_nodes; [done|by apply gspec_lookup| |done].
    simpl. by rewrite length_replicate.
Qed.

Lemma keeps_AttrInv_NewNest nt : keeps AttrInv (NestTree_NewNest nt).
Proof.
  apply keeps_pw. intros w HI. unfold NestTree_NewNest.
  apply pw_bind, pw_load. intros t T -> HT.
  destruct (NestTree.rootNest T) as [r|] eqn:Hr; [|done].
  destruct (NestTree.baseGraph T) as [g|] eqn:Hb; [|done].
  apply pw_bind, pw_load. intros r' R _ HR.
  apply pw_bind, pw_load. intros g' G [= <-] HG.
  apply pw_bind, pw_make. intros Hn.
  apply pw_bind, pw_alloc. simpl sget.
  apply (pw_after AttrInv); [| |done..].
  - keeps_with attr_write.
  - eapply AttrInv_alloc_nests; [done|by eapply tspec_lookup| |done].
    simpl. by rewrite length_replicate.
Qed.

Lemma keeps_AttrInv_NewGraphStrAttr graph :
  keeps AttrInv (Graph_NewGraphStrAttr graph).
Proof.
  apply keeps_pw. intros w HI. unfold Graph_NewGraphStrAttr.
  apply pw_bind, pw_load. intros g G -> HG.
  destruct (first_free _) as [i|] eqn:Hi; [|by apply pw_ret].
  apply first_free_Some in Hi.
  apply pw_bind, pw_modify. intros a [= <-] _.
  apply pw_bind, pw_alloc, pw_ret.
  eapply AttrInv_alloc_graph_handle.
  - rewrite gspec_modify_graphs by done. by apply gspec_lookup.
  - eapply lowest_free_in_pool; [done|]. by apply (ai_graph _ HI g).
  - by attr_write.
Qed.

Lemma keeps_AttrInv_NewNodeStrAttr graph :
  keeps AttrInv (Graph_NewNodeStrAttr graph).
Proof.
  apply keeps_pw. intros w HI. unfold Graph_NewNodeStrAttr.
  apply pw_bind, pw_load. intros g G -> HG.
  destruct (first_free _) as [i|] eqn:Hi; [|by apply pw_ret].
  apply first_free_Some in Hi.
  apply pw_bind, pw_modify. intros a [= <-] _.
  apply pw_bind, pw_alloc, pw_ret.
  eapply AttrInv_alloc_node_handle.
  - rewrite gspec_modify_graphs by done. by apply gspec_lookup.
  - eapply lowest_free_in_pool; [done|]. by apply (ai_graph _ HI g).
  - by attr_write.
Qed.

Lemma keeps_AttrInv_NewNestStrAttr nt :
  keeps AttrInv (NestTree_NewNestStrAttr nt).
Proof.
  apply keeps_pw. intros w HI. unfold NestTree_NewNestStrAttr.
  apply pw_bind, pw_load. intros t T -> HT.
  destruct (first_free _) as [i|] eqn:Hi; [|by apply pw_ret].
  apply first_free_Some in Hi.
  destruct (ai_tree _ HI t T HT) as (spec & Hs & L).
  apply pw_bind, pw_modify. intros a [= <-] _.
  apply pw_bind, pw_alloc, pw_ret.
  eapply AttrInv_alloc_nest_handle.
  - rewrite tspec_modify_trees by done. done.
  - by eapply lowest_free_in_pool.
  - by attr_write.
Qed.

Lemma keeps_AttrInv_exec fuel c : keeps AttrInv (exec fuel c).
Proof.
  destruct c; simpl; (apply keeps_bind; [|intros _; apply keeps_ret]).
  - apply keeps_AttrInv_NewGraph.
  - apply keeps_AttrInv_NewGraphStrAttr.
  - unfold Graph_RemoveStrAttr, set_slot. keeps_with attr_write.
  - unfold Graph_SetStrAttrVal, set_slot. keeps_with attr_write.
  - unfold Graph_ReleaseGraphStrAttr, Graph_RemoveStrAttr, set_slot.
    keeps_with attr_write.
  - apply keeps_AttrInv_NewNodeStrAttr.
  - unfold Graph_ReleaseNodeStrAttr.
    apply keeps_bind; [apply keeps_load|intros A].
    destruct (negb (StrAttr.isValid A)); [apply keeps_ret|].
    destruct (negb (ptr_eqb (StrAttr.graph A) graph)); [apply keeps_ret|].
    cbv zeta.
    apply keeps_bind; [apply keeps_GetFirstNode|intros first].
    apply keeps_bind; [apply keeps_AttrInv_ReleaseNodeStrAttr_sweep|intros _].
    keeps_with attr_write.
  - apply keeps_AttrInv_NewNode.
  - apply keeps_AttrInv_NewEdge.
  - unfold Node_SetStrAttrVal, set_slot. keeps_with attr_write.
  - apply keeps_AttrInv_Node_RemoveStrAttr.
  - apply keeps_AttrInv_MoveToNest.
  - apply keeps_AttrInv_NewNest.
  - apply keeps_AttrInv_NewNestStrAttr.
  - unfold NestTree_ReleaseNestStrAttr.
    apply keeps_bind; [apply keeps_load|intros A].
    destruct (negb (NestStrAttr.is_valid A)); [apply keeps_ret|].
    destruct (negb (ptr_eqb (NestStrAttr.nestTree A) nt)); [apply keeps_ret|].
    cbv zeta.
    apply keeps_bind; [unfold NestTree_GetRootNest; keeps_with idtac|intros root].
    apply keeps_bind; [apply keeps_AttrInv_ReleaseNestStrAttr_sweep|intros _].
    keeps_with attr_write.
  - unfold Nest_SetStrAttrVal, set_slot. keeps_with attr_write.
  - apply keeps_AttrInv_Nest_RemoveStrAttr.
Qed.

Lemma reachable_AttrInv w : reachable w → AttrInv w.
Proof.
  induction 1 as [|w fuel c w' _ IH E]; [apply AttrInv_init|].
  by eapply keeps_Done; [apply keeps_AttrInv_exec|..].
Qed.

(** ** Reading and writing one slot *)

Lemma alter_at {A} (f : A → A) (l : list A) n x :
  l !! n = Some x → alter f n l = <[n := f x]> l.
Proof.
  intros H. apply list_eq. intros j. destruct (decide (j = n)) as [->|Hne].
  - rewrite list_lookup_alter_eq, H. simpl.
    symmetry. apply list_lookup_insert_eq. by eapply lookup_lt_Some.
  - by rewrite list_lookup_alter_ne, list_lookup_insert_ne.
Qed.

Lemma idx_in_pool {A} (l : list A) i n :
  in_pool i n → length l = Z.to_nat n → ∃ x, idx l i = Some x.
Proof.
  intros [H0 H1] L. unfold idx. destruct (Z.ltb_spec i 0); [lia|].
  apply lookup_lt_is_Some. lia.
Qed.


Lemma upd_Some {A} (l : list A) i f x :
  idx l i = Some x → upd l i f = <[Z.to_nat i := f x]> l.
Proof. intros H. unfold upd. by rewrite H. Qed.

Lemma idx_insert {A} (l : list A) i x y :
  idx l i = Some x → idx (<[Z.to_nat i := y]> l) i = Some y.
Proof.
  unfold idx. destruct (i <? 0)%Z; [done|]. intros H.
  apply list_lookup_insert_eq. by eapply lookup_lt_Some.
Qed.

Lemma set_slot_Done {A} (s : store A) attrs with_attrs a i f w x v0 :
  sget s w !! a = Some x → idx (attrs x) i = Some v0 →
  set_slot s attrs with_attrs (Some a) i f w
  = Done tt (modify_w s a (λ y, with_attrs (upd (attrs y) i f) y) w).
Proof.
  intros Hx Hi. unfold set_slot.
  rewrite (bind_Done _ _ _ _ _ (load_Some s _ _ _ Hx)), Hi.
  unfold modify, modify_w. by rewrite Hx.
Qed.

Lemma get_slot_Done {A} (s : store A) attrs a i w x v0 :
  sget s w !! a = Some x → idx (attrs x) i = Some v0 →
  get_slot s attrs (Some a) i w = Done v0 w.
Proof.
  intros Hx Hi. unfold get_slot.
  by rewrite (bind_Done _ _ _ _ _ (load_Some s _ _ _ Hx)), Hi.
Qed.

(** A valid handle of the graph of a node stands for a slot of the node. *)
Lemma node_slot w n N a A :
  AttrInv w → nodes w !! n = Some N → nodeStrAttrs w !! a = Some A →
  StrAttr.isValid A = true → StrAttr.graph A = Node.graph N →
  ∃ v0, idx (Node.strAttrs N) (StrAttr.attrNum A) = Some v0.
Proof.
  intros HI HN HA Hv Hg.
  destruct (ai_node _ HI _ _ HN) as (g & spec & Hg1 & Hs1 & L).
  destruct (ai_node_handle _ HI _ _ HA Hv) as (g' & spec' & Hg2 & Hs2 & Hin).
  assert (g' = g) as -> by congruence.
  assert (spec' = spec) as -> by congruence.
  by eapply idx_in_pool.
Qed.

Lemma put_node_lookup n N w :
  n < length (nodes w) → nodes (put_node n N w) !! n = Some N.
Proof. intros H. simpl. by apply list_lookup_insert_eq. Qed.

Lemma Node_Set_run w n N a A v v0 :
  nodes w !! n = Some N → nodeStrAttrs w !! a = Some A →
  StrAttr.isValid A = true → StrAttr.graph A = Node.graph N →
  idx (Node.strAttrs N) (StrAttr.attrNum A) = Some v0 →
  Node_SetStrAttrVal (Some n) (Some a) v w
  = Done None
      (put_node n (Node.with_strAttrs
                     (with_slot (Node.strAttrs N) (StrAttr.attrNum A) (mkVal true v))
                     N) w).
Proof.
  intros HN HA Hv Hg Hi. unfold Node_SetStrAttrVal.
  run_load NodeStrAttrs HA. rewrite Hv. cbn [negb].
  run_load Nodes HN. rewrite Hg, ptr_eqb_refl. cbn [negb].
  erewrite bind_Done; [|by eapply (set_slot_Done Nodes)].
  erewrite bind_Done.
  2:{ eapply (set_slot_Done Nodes); [simpl; by rewrite list_lookup_alter_eq, HN|].
      simpl. rewrite (upd_Some _ _ _ _ Hi). by eapply idx_insert. }
  unfold ret, put_node, modify_w. simpl. do 2 f_equal.
  rewrite (alter_at _ _ _ _ HN).
  erewrite alter_at; [|apply list_lookup_insert_eq; by eapply lookup_lt_Some].
  rewrite list_insert_insert_eq. f_equal. simpl.
  rewrite (upd_Some _ _ _ _ Hi).
  erewrite upd_Some; [|by eapply idx_insert].
  unfold with_slot. by rewrite list_insert_insert_eq.
Qed.

Lemma Node_Get_run w n N a A v0 :
  nodes w !! n = Some N → nodeStrAttrs w !! a = Some A →
  StrAttr.isValid A = true → StrAttr.graph A = Node.graph N →
  idx (Node.strAttrs N) (StrAttr.attrNum A) = Some v0 →
  Node_GetStrAttrVal (Some n) (Some a) w
  = Done (if isSet v0 then (data v0, None)
          else ("", errors_New "The attribute is not set for the node")) w ∧
  Node_IsStrAttrSet (Some n) (Some a) w = Done (isSet v0, None) w.
Proof.
  intros HN HA Hv Hg Hi. unfold Node_GetStrAttrVal, Node_IsStrAttrSet.
  split; run_load NodeStrAttrs HA; rewrite Hv; cbn [negb];
    run_load Nodes HN; rewrite Hg, ptr_eqb_refl; cbn [negb];
    (erewrite bind_Done; [|by eapply (get_slot_Done Nodes)]); [|done].
  by destruct (isSet v0).
Qed.

Lemma Node_Remove_run w n N a A v0 :
  nodes w !! n = Some N → nodeStrAttrs w !! a = Some A →
  idx (Node.strAttrs N) (StrAttr.attrNum A) = Some v0 →
  Node_RemoveStrAttr (Some n) (Some a) w
  = Done None
      (put_node n (Node.with_strAttrs
                     (with_slot (Node.strAttrs N) (StrAttr.attrNum A)
                                (mkVal false (data v0)))
                     N) w).
Proof.
  intros HN HA Hi. unfold Node_RemoveStrAttr. cbv zeta.
  run_load NodeStrAttrs HA. run_load Nodes HN.
  erewrite bind_Done; [|by eapply (set_slot_Done Nodes)].
  unfold ret, put_node, modify_w. simpl. do 2 f_equal.
  rewrite (alter_at _ _ _ _ HN). f_equal. simpl.
  by rewrite (upd_Some _ _ _ _ Hi).
Qed.

(** X4. In a world brought about by calls that returned, setting a
    value on a node through a valid handle of the node's graph returns
    no error and changes nothing but that slot of that node, and reading
    the slot back, through [GetStrAttrVal] and [IsStrAttrSet], gives the
    value and [true]. *)
Theorem Node_attr_set_then_get w n N a A v :
  reachable w → nodes w !! n = Some N → nodeStrAttrs w !! a = Some A →
  StrAttr.isValid A = true → StrAttr.graph A = Node.graph N →
  ∃ w',
    w' = put_node n (Node.with_strAttrs
                       (with_slot (Node.strAttrs N) (StrAttr.attrNum A)
                                  (mkVal true v)) N) w ∧
    Node_SetStrAttrVal (Some n) (Some a) v w = Done None w' ∧
    Node_GetStrAttrVal (Some n) (Some a) w' = Done (v, None) w' ∧
    Node_IsStrAttrSet (Some n) (Some a) w' = Done (true, None) w'.
Proof.
  intros Hr HN HA Hv Hg. pose proof (reachable_AttrInv _ Hr) as HI.
  destruct (node_slot _ _ _ _ _ HI HN HA Hv Hg) as [v0 Hi].
  eexists. split; [reflexivity|]. split; [by eapply Node_Set_run|].
  eapply (Node_Get_run _ n (Node.with_strAttrs _ N) a A (mkVal true v));
    try done.
  - apply put_node_lookup. by eapply lookup_lt_Some.
  - simpl. by eapply idx_insert.
Qed.

Lemma Node_attr_set_then_get_witness :
  ∃ w',
    Node_SetStrAttrVal (Some 0) (Some 1) "y" world_foreign = Done None w' ∧
    Node_GetStrAttrVal (Some 0) (Some 1) w' = Done ("y", None) w' ∧
    Node_IsStrAttrSet (Some 0) (Some 1) w' = Done (true, None) w'.
Proof.
  pose proof (λ N A, Node_attr_set_then_get world_foreign 0 N 1 A "y"
                       reachable_foreign) as H.
  edestruct H as (w' & _ & H'); [by vm_compute..|].
  exists w'. exact H'.
Defined.

(** X5. In a world brought about by calls that returned, removing the
    value of a node through a valid handle of the node's graph returns no
    error and clears the flag of that slot of that node and nothing else;
    afterwards [IsStrAttrSet] gives [false] and [GetStrAttrVal] the error
    of a slot that is not set. *)
Theorem Node_attr_remove_then_get w n N a A :
  reachable w → nodes w !! n = Some N → nodeStrAttrs w !! a = Some A →
  StrAttr.isValid A = true → StrAttr.graph A = Node.graph N →
  ∃ v0 w' e,
    idx (Node.strAttrs N) (StrAttr.attrNum A) = Some v0 ∧
    w' = put_node n (Node.with_strAttrs
                       (with_slot (Node.strAttrs N) (StrAttr.attrNum A)
                                  (mkVal false (data v0))) N) w ∧
    Node_RemoveStrAttr (Some n) (Some a) w = Done None w' ∧
    Node_IsStrAttrSet (Some n) (Some a) w' = Done (false, None) w' ∧
    Node_GetStrAttrVal (Some n) (Some a) w' = Done ("", Some e) w'.
Proof.
  intros Hr HN HA Hv Hg. pose proof (reachable_AttrInv _ Hr) as HI.
  destruct (node_slot _ _ _ _ _ HI HN HA Hv Hg) as [v0 Hi].
  set (N' := Node.with_strAttrs
                (with_slot (Node.strAttrs N) (StrAttr.attrNum A)
                           (mkVal false (data v0))) N).
  destruct (Node_Get_run (put_node n N' w) n N' a A (mkVal false (data v0)))
    as [HG HS]; try done.
  { apply put_node_lookup. by eapply lookup_lt_Some. }
  { simpl. by eapply idx_insert. }
  eexists v0, _, _. split; [done|]. split; [reflexivity|].
  split; [by eapply Node_Remove_run|]. split; [exact HS|exact HG].
Qed.

Lemma Node_attr_remove_then_get_witness :
  ∃ w' e,
    Node_IsStrAttrSet (Some 0) (Some 1) world_foreign
    = Done (true, None) world_foreign ∧
    Node_RemoveStrAttr (Some 0) (Some 1) world_foreign = Done None w' ∧
    Node_IsStrAttrSet (Some 0) (Some 1) w' = Done (false, None) w' ∧
    Node_GetStrAttrVal (Some 0) (Some 1) w' = Done ("", Some e) w'.
Proof.
  pose proof (λ N A, Node_attr_remove_then_get world_foreign 0 N 1 A
                       reachable_foreign) as H.
  edestruct H as (v0 & w' & e & _ & _ & H'); [by vm_compute..|].
  exists w', e. split; [by vm_compute|exact H'].
Defined.

(** ** Attributes of a graph *)

Lemma graph_slot w g G a A :
  AttrInv w → graphs w !! g = Some G → graphStrAttrs w !! a = Some A →
  StrAttr.isValid A = true → StrAttr.graph A = Some g →
  ∃ v0, idx (Graph.strAttrs G) (StrAttr.attrNum A) = Some v0.
Proof.
  intros HI HG HA Hv Hg.
  destruct (ai_graph _ HI _ _ HG) as (L & _ & _).
  destruct (ai_graph_handle _ HI _ _ HA Hv) as (g' & spec' & Hg2 & Hs2 & Hin).
  assert (g' = g) as -> by congruence.
  rewrite (gspec_lookup _ _ _ HG) in Hs2. injection Hs2 as <-.
  by eapply idx_in_pool.
Qed.

Lemma put_graph_lookup g G w :
  g < length (graphs w) → graphs (put_graph g G w) !! g = Some G.
Proof. intros H. simpl. by apply list_lookup_insert_eq. Qed.

Lemma Graph_Set_run w g G a A v v0 :
  graphs w !! g = Some G → graphStrAttrs w !! a = Some A →
  StrAttr.isValid A = true → StrAttr.graph A = Some g →
  idx (Graph.strAttrs G) (StrAttr.attrNum A) = Some v0 →
  Graph_SetStrAttrVal (Some g) (Some a) v w
  = Done None
      (put_graph g (Graph.with_strAttrs
                      (with_slot (Graph.strAttrs G) (StrAttr.attrNum A)
                                 (mkVal true v)) G) w).
Proof.
  intros HG HA Hv Hg Hi. unfold Graph_SetStrAttrVal.
  run_load GraphStrAttrs HA. rewrite Hv, Hg, ptr_eqb_refl. cbn [negb].
  erewrite bind_Done; [|by eapply (set_slot_Done Graphs)].
  erewrite bind_Done.
  2:{ eapply (set_slot_Done Graphs); [simpl; by rewrite list_lookup_alter_eq, HG|].
      simpl. rewrite (upd_Some _ _ _ _ Hi). by eapply idx_insert. }
  unfold ret, put_graph, modify_w. simpl. do 2 f_equal.
  rewrite (alter_at _ _ _ _ HG).
  erewrite alter_at; [|apply list_lookup_insert_eq; by eapply lookup_lt_Some].
  rewrite list_insert_insert_eq. f_equal. simpl.
  rewrite (upd_Some _ _ _ _ Hi).
  erewrite upd_Some; [|by eapply idx_insert].
  unfold with_slot. by rewrite list_insert_insert_eq.
Qed.

Lemma Graph_Get_run w g G a A v0 :
  graphs w !! g = Some G → graphStrAttrs w !! a = Some A →
  StrAttr.isValid A = true → StrAttr.graph A = Some g →
  idx (Graph.strAttrs G) (StrAttr.attrNum A) = Some v0 →
  Graph_GetStrAttrVal (Some g) (Some a) w
  = Done (if isSet v0 then (data v0, None)
          else ("", errors_New "The attribute is not set for the graph")) w ∧
  Graph_IsStrAttrSet (Some g) (Some a) w = Done (isSet v0, None) w.
Proof.
  intros HG HA Hv Hg Hi. unfold Graph_GetStrAttrVal, Graph_IsStrAttrSet.
  split; run_load GraphStrAttrs HA; rewrite Hv, Hg, ptr_eqb_refl; cbn [negb];
    (erewrite bind_Done; [|by eapply (get_slot_Done Graphs)]); [|done].
  by destruct (isSet v0).
Qed.

Lemma Graph_Remove_run w g G a A v0 :
  graphs w !! g = Some G → graphStrAttrs w !! a = Some A →
  idx (Graph.strAttrs G) (StrAttr.attrNum A) = Some v0 →
  Graph_RemoveStrAttr (Some g) (Some a) w
  = Done None
      (put_graph g (Graph.with_strAttrs
                      (with_slot (Graph.strAttrs G) (StrAttr.attrNum A)
                                 (mkVal false (data v0))) G) w).
Proof.
  intros HG HA Hi. unfold Graph_RemoveStrAttr. cbv zeta.
  run_load GraphStrAttrs HA.
  erewrite bind_Done; [|by eapply (set_slot_Done Graphs)].
  unfold ret, put_graph, modify_w. simpl. do 2 f_equal.
  rewrite (alter_at _ _ _ _ HG). f_equal. simpl.
  by rewrite (upd_Some _ _ _ _ Hi).
Qed.

(** X6. In a world brought about by calls that returned, setting a
    value on a graph through a valid handle of that graph returns no
    error and changes nothing but that slot of the graph, and reading the
    slot back gives the value and [true]; removing it returns no error,
    clears the flag of the slot, and then [IsStrAttrSet] gives [false]
    and [GetStrAttrVal] the error of a slot that is not set. *)
Theorem Graph_attr_set_get_remove w g G a A v :
  reachable w → graphs w !! g = Some G → graphStrAttrs w !! a = Some A →
  StrAttr.isValid A = true → StrAttr.graph A = Some g →
  ∃ w1 w2 e,
    w1 = put_graph g (Graph.with_strAttrs
                        (with_slot (Graph.strAttrs G) (StrAttr.attrNum A)
                                   (mkVal true v)) G) w ∧
    Graph_SetStrAttrVal (Some g) (Some a) v w = Done None w1 ∧
    Graph_GetStrAttrVal (Some g) (Some a) w1 = Done (v, None) w1 ∧
    Graph_IsStrAttrSet (Some g) (Some a) w1 = Done (true, None) w1 ∧
    Graph_RemoveStrAttr (Some g) (Some a) w1 = Done None w2 ∧
    Graph_IsStrAttrSet (Some g) (Some a) w2 = Done (false, None) w2 ∧
    Graph_GetStrAttrVal (Some g) (Some a) w2 = Done ("", Some e) w2.
Proof.
  intros Hr HG HA Hv Hg. pose proof (reachable_AttrInv _ Hr) as HI.
  destruct (graph_slot _ _ _ _ _ HI HG HA Hv Hg) as [v0 Hi].
  pose proof (lookup_lt_Some _ _ _ HG) as Hlt.
  set (G1 := Graph.with_strAttrs
               (with_slot (Graph.strAttrs G) (StrAttr.attrNum A) (mkVal true v)) G).
  set (w1 := put_graph g G1 w).
  assert (graphs w1 !! g = Some G1) as HG1 by (by apply put_graph_lookup).
  assert (idx (Graph.strAttrs G1) (StrAttr.attrNum A) = Some (mkVal true v))
    as Hi1 by (simpl; by eapply idx_insert).
  destruct (Graph_Get_run w1 g G1 a A _ HG1 HA Hv Hg Hi1) as [Hget1 Hset1].
  set (G2 := Graph.with_strAttrs
               (with_slot (Graph.strAttrs G1) (StrAttr.attrNum A)
                          (mkVal false v)) G1).
  set (w2 := put_graph g G2 w1).
  assert (graphs w2 !! g = Some G2) as HG2.
  { apply put_graph_lookup. simpl. by rewrite length_insert. }
  assert (idx (Graph.strAttrs G2) (StrAttr.attrNum A) = Some (mkVal false v))
    as Hi2 by (simpl; by eapply idx_insert).
  destruct (Graph_Get_run w2 g G2 a A _ HG2 HA Hv Hg Hi2) as [Hget2 Hset2].
  exists w1, w2. eexists. split; [done|].
  split; [by eapply Graph_Set_run|]. split; [exact Hget1|]. split; [exact Hset1|].
  split; [by apply (Graph_Remove_run w1 g G1 a A _ HG1 HA Hi1)|].
  split; [exact Hset2|exact Hget2].
Qed.

Lemma reachable_attrs : reachable world_attrs.
Proof.
  pose proof reach_init as H.
  apply (reachable_exec _ 0 (Call_NewGraph (mkAttrSpec 2 2 2))) in H; vm_compute in H.
  apply (reachable_exec _ 0 (Call_NewGraphStrAttr (Some 0))) in H; vm_compute in H.
  apply (reachable_exec _ 0 (Call_NewNodeStrAttr (Some 0))) in H; vm_compute in H.
  apply (reachable_exec _ 0 (Call_NewNestStrAttr (Some 0))) in H; vm_compute in H.
  apply (reachable_exec _ 0 (Call_NewNode (Some 0))) in H; vm_compute in H.
  apply (reachable_exec _ 0 (Call_NewNest (Some 0))) in H; vm_compute in H.
  vm_compute. exact H.
Qed.

Lemma Graph_attr_set_get_remove_witness :
  ∃ w1 w2 e,
    Graph_SetStrAttrVal (Some 0) (Some 1) "title" world_attrs = Done None w1 ∧
    Graph_GetStrAttrVal (Some 0) (Some 1) w1 = Done ("title", None) w1 ∧
    Graph_IsStrAttrSet (Some 0) (Some 1) w1 = Done (true, None) w1 ∧
    Graph_RemoveStrAttr (Some 0) (Some 1) w1 = Done None w2 ∧
    Graph_IsStrAttrSet (Some 0) (Some 1) w2 = Done (false, None) w2 ∧
    Graph_GetStrAttrVal (Some 0) (Some 1) w2 = Done ("", Some e) w2.
Proof.
  pose proof (λ G A, Graph_attr_set_get_remove world_attrs 0 G 1 A "title"
                       reachable_attrs) as H.
  edestruct H as (w1 & w2 & e & _ & H'); [by vm_compute..|].
  exists w1, w2, e. exact H'.
Defined.

(** ** Attributes of a nest made by [NewNest] *)

Lemma nest_slot w k K a A :
  AttrInv w → nests w !! k = Some K → nestStrAttrs w !! a = Some A →
  NestStrAttr.is_valid A = true → NestStrAttr.nestTree A = Nest.nestTree K →
  Nest.parentNest K ≠ None →
  ∃ v0, idx (Nest.strAttrs K) (NestStrAttr.attr_num A) = Some v0.
Proof.
  intros HI HK HA Hv Ht Hp.
  destruct (ai_nest _ HI _ _ HK) as (t & spec & Ht1 & Hs1 & L).
  destruct (ai_nest_handle _ HI _ _ HA Hv) as (t' & spec' & Ht2 & Hs2 & Hin).
  assert (t' = t) as -> by congruence.
  assert (spec' = spec) as -> by congruence.
  destruct (Nest.parentNest K); [|done]. by eapply idx_in_pool.
Qed.

Lemma put_nest_lookup k K w :
  k < length (nests w) → nests (put_nest k K w) !! k = Some K.
Proof. intros H. simpl. by apply list_lookup_insert_eq. Qed.

Lemma Nest_Set_run w k K a A v v0 :
  nests w !! k = Some K → nestStrAttrs w !! a = Some A →
  NestStrAttr.is_valid A = true → NestStrAttr.nestTree A = Nest.nestTree K →
  idx (Nest.strAttrs K) (NestStrAttr.attr_num A) = Some v0 →
  Nest_SetStrAttrVal (Some k) (Some a) v w
  = Done None
      (put_nest k (Nest.with_strAttrs
                     (with_slot (Nest.strAttrs K) (NestStrAttr.attr_num A)
                                (mkVal true v)) K) w).
Proof.
  intros HK HA Hv Ht Hi. unfold Nest_SetStrAttrVal.
  run_load NestStrAttrs HA. rewrite Hv. cbn [negb].
  run_load Nests HK. rewrite Ht, ptr_eqb_refl. cbn [negb].
  erewrite bind_Done; [|by eapply (set_slot_Done Nests)].
  erewrite bind_Done.
  2:{ eapply (set_slot_Done Nests); [simpl; by rewrite list_lookup_alter_eq, HK|].
      simpl. rewrite (upd_Some _ _ _ _ Hi). by eapply idx_insert. }
  unfold ret, put_nest, modify_w. simpl. do 2 f_equal.
  rewrite (alter_at _ _ _ _ HK).
  erewrite alter_at; [|apply list_lookup_insert_eq; by eapply lookup_lt_Some].
  rewrite list_insert_insert_eq. f_equal. simpl.
  rewrite (upd_Some _ _ _ _ Hi).
  erewrite upd_Some; [|by eapply idx_insert].
  unfold with_slot. by rewrite list_insert_insert_eq.
Qed.

Lemma Nest_Get_run w k K a A v0 :
  nests w !! k = Some K → nestStrAttrs w !! a = Some A →
  NestStrAttr.is_valid A = true → NestStrAttr.nestTree A = Nest.nestTree K →
  idx (Nest.strAttrs K) (NestStrAttr.attr_num A) = Some v0 →
  Nest_GetStrAttrVal (Some k) (Some a) w
  = Done (if isSet v0 then (data v0, None)
          else ("", errors_New "The attribute is not set for the nest")) w ∧
  Nest_IsStrAttrSet (Some k) (Some a) w = Done (isSet v0, None) w.
Proof.
  intros HK HA Hv Ht Hi. unfold Nest_GetStrAttrVal, Nest_IsStrAttrSet.
  split; run_load NestStrAttrs HA; rewrite Hv; cbn [negb];
    run_load Nests HK; rewrite Ht, ptr_eqb_refl; cbn [negb];
    (erewrite bind_Done; [|by eapply (get_slot_Done Nests)]); [|done].
  by destruct (isSet v0).
Qed.

Lemma Nest_Remove_run w k K a A v0 :
  nests w !! k = Some K → nestStrAttrs w !! a = Some A →
  idx (Nest.strAttrs K) (NestStrAttr.attr_num A) = Some v0 →
  Nest_RemoveStrAttr (Some k) (Some a) w
  = Done None
      (put_nest k (Nest.with_strAttrs
                     (with_slot (Nest.strAttrs K) (NestStrAttr.attr_num A)
                                (mkVal false (data v0))) K) w).
Proof.
  intros HK HA Hi. unfold Nest_RemoveStrAttr. cbv zeta.
  run_load NestStrAttrs HA. run_load Nests HK.
  erewrite bind_Done; [|by eapply (set_slot_Done Nests)].
  unfold ret, put_nest, modify_w. simpl. do 2 f_equal.
  rewrite (alter_at _ _ _ _ HK). f_equal. simpl.
  by rewrite (upd_Some _ _ _ _ Hi).
Qed.

(** X7. In a world brought about by calls that returned, on a nest that
    has a parent (one made by [NewNest]), setting a value through a valid
    handle of the nest's tree returns no error and changes nothing but
    that slot of the nest, and reading the slot back gives the value and
    [true]; removing it returns no error, clears the flag of the slot,
    and then [IsStrAttrSet] gives [false] and [GetStrAttrVal] the error
    of a slot that is not set. *)
Theorem Nest_attr_set_get_remove w k K a A v :
  reachable w → nests w !! k = Some K → nestStrAttrs w !! a = Some A →
  NestStrAttr.is_valid A = true → NestStrAttr.nestTree A = Nest.nestTree K →
  Nest.parentNest K ≠ None →
  ∃ w1 w2 e,
    w1 = put_nest k (Nest.with_strAttrs
                       (with_slot (Nest.strAttrs K) (NestStrAttr.attr_num A)
                                  (mkVal true v)) K) w ∧
    Nest_SetStrAttrVal (Some k) (Some a) v w = Done None w1 ∧
    Nest_GetStrAttrVal (Some k) (Some a) w1 = Done (v, None) w1 ∧
    Nest_IsStrAttrSet (Some k) (Some a) w1 = Done (true, None) w1 ∧
    Nest_RemoveStrAttr (Some k) (Some a) w1 = Done None w2 ∧
    Nest_IsStrAttrSet (Some k) (Some a) w2 = Done (false, None) w2 ∧
    Nest_GetStrAttrVal (Some k) (Some a) w2 = Done ("", Some e) w2.
Proof.
  intros Hr HK HA Hv Ht Hp. pose proof (reachable_AttrInv _ Hr) as HI.
  destruct (nest_slot _ _ _ _ _ HI HK HA Hv Ht Hp) as [v0 Hi].
  pose proof (lookup_lt_Some _ _ _ HK) as Hlt.
  set (K1 := Nest.with_strAttrs
               (with_slot (Nest.strAttrs K) (NestStrAttr.attr_num A)
                          (mkVal true v)) K).
  set (w1 := put_nest k K1 w).
  assert (nests w1 !! k = Some K1) as HK1 by (by apply put_nest_lookup).
  assert (idx (Nest.strAttrs K1) (NestStrAttr.attr_num A) = Some (mkVal true v))
    as Hi1 by (simpl; by eapply idx_insert).
  destruct (Nest_Get_run w1 k K1 a A _ HK1 HA Hv Ht Hi1) as [Hget1 Hset1].
  set (K2 := Nest.with_strAttrs
               (with_slot (Nest.strAttrs K1) (NestStrAttr.attr_num A)
                          (mkVal false v)) K1).
  set (w2 := put_nest k K2 w1).
  assert (nests w2 !! k = Some K2) as HK2.
  { apply put_nest_lookup. simpl. by rewrite length_insert. }
  assert (idx (Nest.strAttrs K2) (NestStrAttr.attr_num A) = Some (mkVal false v))
    as Hi2 by (simpl; by eapply idx_insert).
  destruct (Nest_Get_run w2 k K2 a A _ HK2 HA Hv Ht Hi2) as [Hget2 Hset2].
  exists w1, w2. eexists. split; [done|].
  split; [by eapply Nest_Set_run|]. split; [exact Hget1|]. split; [exact Hset1|].
  split; [by apply (Nest_Remove_run w1 k K1 a A _ HK1 HA Hi1)|].
  split; [exact Hset2|exact Hget2].
Qed.

Lemma Nest_attr_set_get_remove_witness :
  ∃ w1 w2 e,
    Nest_SetStrAttrVal (Some 1) (Some 1) "box" world_attrs = Done None w1 ∧
    Nest_GetStrAttrVal (Some 1) (Some 1) w1 = Done ("box", None) w1 ∧
    Nest_IsStrAttrSet (Some 1) (Some 1) w1 = Done (true, None) w1 ∧
    Nest_RemoveStrAttr (Some 1) (Some 1) w1 = Done None w2 ∧
    Nest_IsStrAttrSet (Some 1) (Some 1) w2 = Done (false, None) w2 ∧
    Nest_GetStrAttrVal (Some 1) (Some 1) w2 = Done ("", Some e) w2.
Proof.
  pose proof (λ K A, Nest_attr_set_get_remove world_attrs 1 K 1 A "box"
                       reachable_attrs) as H.
  edestruct H as (w1 & w2 & e & _ & H'); [by vm_compute..|].
  exists w1, w2, e. exact H'.
Defined.

(** ** Releasing a slot *)

(** X8. The three release methods return an error and leave the world
    as it is when the handle is invalid or belongs to another owner. *)
Theorem Release_methods_refuse_bad_handle w fuel graph nt a A b B c C :
  graphStrAttrs w !! a = Some A → bad_handle A graph →
  nodeStrAttrs w !! b = Some B → bad_handle B graph →
  nestStrAttrs w !! c = Some C → bad_nest_handle C nt →
  (∃ e, Graph_ReleaseGraphStrAttr graph (Some a) w = Done (Some e) w) ∧
  (∃ e, Graph_ReleaseNodeStrAttr fuel graph (Some b) w = Done (Some e) w) ∧
  (∃ e, NestTree_ReleaseNestStrAttr fuel nt (Some c) w = Done (Some e) w).
Proof.
  intros HA HbadA HB HbadB HC HbadC.
  unfold Graph_ReleaseGraphStrAttr, Graph_ReleaseNodeStrAttr,
    NestTree_ReleaseNestStrAttr.
  split_and!.
  - run_load GraphStrAttrs HA.
    destruct (StrAttr.isValid A) eqn:Hv; cbn [negb]; [|unfold ret; by eauto].
    destruct HbadA as [?|Hne]; [congruence|].
    rewrite (negb_ptr_eqb_ne _ _ Hne). unfold ret. eauto.
  - run_load NodeStrAttrs HB.
    destruct (StrAttr.isValid B) eqn:Hv; cbn [negb]; [|unfold ret; by eauto].
    destruct HbadB as [?|Hne]; [congruence|].
    rewrite (negb_ptr_eqb_ne _ _ Hne). unfold ret. eauto.
  - run_load NestStrAttrs HC.
    destruct (NestStrAttr.is_valid C) eqn:Hv; cbn [negb]; [|unfold ret; by eauto].
    destruct HbadC as [?|Hne]; [congruence|].
    rewrite (negb_ptr_eqb_ne _ _ Hne). unfold ret. eauto.
Qed.

Lemma Release_methods_refuse_bad_handle_witness :
  (∃ e, Graph_ReleaseGraphStrAttr (Some 0) (Some 0) world_attrs
        = Done (Some e) world_attrs) ∧
  (∃ e, Graph_ReleaseNodeStrAttr 5 (Some 0) (Some 0) world_attrs
        = Done (Some e) world_attrs) ∧
  (∃ e, NestTree_ReleaseNestStrAttr 5 (Some 0) (Some 0) world_attrs
        = Done (Some e) world_attrs).
Proof.
  eapply (Release_methods_refuse_bad_handle world_attrs 5 (Some 0) (Some 0)
            0 _ 0 _ 0 _); first [by vm_compute | left; by vm_compute].
Defined.

Lemma Release_run w g G a A v0 :
  graphs w !! g = Some G → graphStrAttrs w !! a = Some A →
  StrAttr.isValid A = true → StrAttr.graph A = Some g →
  idx (Graph.strAttrs G) (StrAttr.attrNum A) = Some v0 →
  length (Graph.graphStrAttrAllocMap G) = length (Graph.strAttrs G) →
  Graph_ReleaseGraphStrAttr (Some g) (Some a) w
  = Done None
      (sput GraphStrAttrs (<[a := graph_str_attr_invalid]> (graphStrAttrs w))
         (put_graph g
            (Graph.with_graphStrAttrAllocMap
               (<[Z.to_nat (StrAttr.attrNum A) := false]>
                  (Graph.graphStrAttrAllocMap G))
               (Graph.with_strAttrs
                  (with_slot (Graph.strAttrs G) (StrAttr.attrNum A)
                             (mkVal false (data v0))) G)) w)).
Proof.
  intros HG HA Hv Hg Hi L. unfold Graph_ReleaseGraphStrAttr.
  run_load GraphStrAttrs HA. rewrite Hv, Hg, ptr_eqb_refl. cbn [negb]. cbv zeta.
  rewrite (bind_Done _ _ _ _ _ (Graph_Remove_run w g G a A v0 HG HA Hi)).
  pose proof (lookup_lt_Some _ _ _ HG) as Hlt.
  erewrite bind_Done; [|apply (load_Some Graphs); by apply put_graph_lookup].
  assert (∃ b, idx (Graph.graphStrAttrAllocMap G) (StrAttr.attrNum A) = Some b)
    as [b Hb].
  { unfold idx in *. destruct (StrAttr.attrNum A <? 0)%Z; [done|].
    apply lookup_lt_is_Some. rewrite L. by eapply lookup_lt_Some. }
  cbn [Graph.graphStrAttrAllocMap Graph.with_strAttrs]. rewrite Hb.
  erewrite bind_Done;
    [|apply (modify_Some Graphs); simpl; rewrite list_lookup_insert_eq; eauto].
  erewrite bind_Done; [|apply (modify_Some GraphStrAttrs); simpl; eauto].
  unfold ret, modify_w, put_graph. cbn. do 2 f_equal.
  - erewrite alter_at; [|by apply list_lookup_insert_eq].
    rewrite list_insert_insert_eq. f_equal.
    unfold Graph.with_graphStrAttrAllocMap. cbn. f_equal.
    by rewrite (upd_Some _ _ _ _ Hb).
  - by rewrite (alter_at _ _ _ _ HA).
Qed.

(** X9. In a world brought about by calls that returned,
    [ReleaseGraphStrAttr] through a valid handle of the graph returns no
    error, clears the slot on the graph, marks it free in the allocation
    map and overwrites the handle with the invalid one; every later use
    of the handle, a second release included, is an error. *)
Theorem ReleaseGraphStrAttr_frees_slot_and_kills_handle w g G a A v :
  reachable w → graphs w !! g = Some G → graphStrAttrs w !! a = Some A →
  StrAttr.isValid A = true → StrAttr.graph A = Some g →
  ∃ w' G',
    Graph_ReleaseGraphStrAttr (Some g) (Some a) w = Done None w' ∧
    graphStrAttrs w' !! a = Some graph_str_attr_invalid ∧
    graphs w' !! g = Some G' ∧
    idx (Graph.graphStrAttrAllocMap G') (StrAttr.attrNum A) = Some false ∧
    isSet <$> idx (Graph.strAttrs G') (StrAttr.attrNum A) = Some false ∧
    (∃ e, Graph_SetStrAttrVal (Some g) (Some a) v w' = Done (Some e) w') ∧
    (∃ e, Graph_GetStrAttrVal (Some g) (Some a) w' = Done ("", Some e) w') ∧
    (∃ e, Graph_IsStrAttrSet (Some g) (Some a) w' = Done (false, Some e) w') ∧
    (∃ e, Graph_ReleaseGraphStrAttr (Some g) (Some a) w' = Done (Some e) w').
Proof.
  intros Hr HG HA Hv Hg. pose proof (reachable_AttrInv _ Hr) as HI.
  destruct (graph_slot _ _ _ _ _ HI HG HA Hv Hg) as [v0 Hi].
  destruct (ai_graph _ HI _ _ HG) as (L1 & L2 & _).
  pose proof (lookup_lt_Some _ _ _ HG) as Hlt.
  pose proof (lookup_lt_Some _ _ _ HA) as Hla.
  eexists _, _. split; [apply (Release_run w g G a A v0); congruence|].
  assert (∃ b, idx (Graph.graphStrAttrAllocMap G) (StrAttr.attrNum A) = Some b)
    as [b Hb].
  { unfold idx in *. destruct (StrAttr.attrNum A <? 0)%Z; [done|].
    apply lookup_lt_is_Some. rewrite L2, <- L1. by eapply lookup_lt_Some. }
  set (w' := sput GraphStrAttrs _ _).
  assert (graphStrAttrs w' !! a = Some graph_str_attr_invalid) as HA'
    by (by apply list_lookup_insert_eq).
  split; [done|]. split; [by apply list_lookup_insert_eq|].
  split; [simpl; by eapply idx_insert|].
  split; [simpl; unfold with_slot; by erewrite idx_insert|].
  destruct (released_graph_handle_refused w' (Some g) a _ v HA')
    as (H1 & H2 & H3); [by left|].
  split_and!; try done.
  unfold Graph_ReleaseGraphStrAttr. run_load GraphStrAttrs HA'.
  unfold ret. simpl. eauto.
Qed.

Lemma ReleaseGraphStrAttr_frees_slot_and_kills_handle_witness :
  ∃ w',
    Graph_ReleaseGraphStrAttr (Some 0) (Some 1) world_attrs = Done None w' ∧
    graphStrAttrs w' !! 1 = Some graph_str_attr_invalid ∧
    (∃ e, Graph_SetStrAttrVal (Some 0) (Some 1) "x" w' = Done (Some e) w') ∧
    (∃ e, Graph_ReleaseGraphStrAttr (Some 0) (Some 1) w' = Done (Some e) w').
Proof.
  pose proof (λ G A, ReleaseGraphStrAttr_frees_slot_and_kills_handle
                       world_attrs 0 G 1 A "x" reachable_attrs) as H.
  edestruct H as (w' & G' & H1 & H2 & _ & _ & _ & H3 & _ & _ & H4);
    [by vm_compute..|].
  exists w'. exact (conj H1 (conj H2 (conj H3 H4))).
Defined.

(** ** New graphs, as the code makes them *)

Lemma make_neg {A} (z : A) n w : (n < 0)%Z → make z n w = Panic.
Proof. intros H. unfold make. by destruct (Z.ltb_spec n 0); [|lia]. Qed.

Lemma NewGraph_run spec w :
  nonneg_spec spec →
  NewGraph spec w = Done (Some (length (graphs w))) (world_with_graph spec w).
Proof.
  intros (H1 & H2 & H3). unfold NewGraph.
  rewrite (bind_Done _ _ _ _ _ (make_nonneg false _ w H1)).
  rewrite (bind_Done _ _ _ _ _ (make_nonneg false _ w H2)).
  rewrite (bind_Done _ _ _ _ _ (make_nonneg zeroVal _ w H1)).
  unfold bind at 1. unfold alloc at 1. simpl sget.
  set (G0 := Graph.mk None 0 0 spec _ _ _).
  unfold newNestTree.
  erewrite bind_Done.
  2:{ erewrite bind_Done; [|apply (load_Some Graphs); by apply list_lookup_middle].
      erewrite bind_Done; [|by apply make_nonneg].
      unfold bind at 1. unfold alloc at 1. simpl sget.
      unfold bind at 1. unfold alloc at 1. simpl sget.
      erewrite bind_Done;
        [|apply (modify_Some NestTrees); simpl; rewrite list_lookup_middle; eauto].
      erewrite bind_Done;
        [|apply (modify_Some NestTrees); simpl; apply lookup_lt_is_Some;
          rewrite length_alter, length_app; simpl; lia].
      reflexivity. }
  erewrite bind_Done;
    [|apply (modify_Some Graphs); simpl; rewrite list_lookup_middle; eauto].
  unfold ret, modify_w, world_with_graph. simpl. by rewrite !alter_snoc.
Qed.

Lemma NewGraph_neg spec w : ¬ nonneg_spec spec → NewGraph spec w = Panic.
Proof.
  intros Hn. unfold NewGraph, nonneg_spec in *.
  destruct (Z.ltb_spec (GraphStrAttrNum spec) 0) as [H1|H1].
  { unfold bind. by rewrite make_neg. }
  rewrite (bind_Done _ _ _ _ _ (make_nonneg false _ w H1)).
  destruct (Z.ltb_spec (NodeStrAttrNum spec) 0) as [H2|H2].
  { unfold bind. by rewrite make_neg. }
  rewrite (bind_Done _ _ _ _ _ (make_nonneg false _ w H2)).
  rewrite (bind_Done _ _ _ _ _ (make_nonneg zeroVal _ w H1)).
  destruct (Z.ltb_spec (NestStrAttrNum spec) 0) as [H3|H3]; [|tauto].
  unfold bind at 1. unfold alloc at 1. simpl sget.
  unfold bind at 1. unfold newNestTree.
  erewrite bind_Done; [|apply (load_Some Graphs); by apply list_lookup_middle].
  unfold bind at 1. by rewrite make_neg.
Qed.

Lemma NewGraph_Done_inv spec w p w' :
  NewGraph spec w = Done p w' →
  nonneg_spec spec ∧ p = Some (length (graphs w)) ∧ w' = world_with_graph spec w.
Proof.
  intros E. assert (nonneg_spec spec) as Hs.
  { unfold nonneg_spec.
    destruct (Z.ltb_spec (GraphStrAttrNum spec) 0);
      destruct (Z.ltb_spec (NodeStrAttrNum spec) 0);
      destruct (Z.ltb_spec (NestStrAttrNum spec) 0); try done;
      rewrite NewGraph_neg in E by (unfold nonneg_spec; lia); done. }
  rewrite (NewGraph_run _ _ Hs) in E. by injection E as <- <-.
Qed.


(** ** New nodes, as the code makes them *)

Lemma keeps_and {A} P Q (m : M A) :
  keeps P m → keeps Q m → keeps (λ w, P w ∧ Q w) m.
Proof.
  intros HP HQ w [H1 H2]. specialize (HP w H1). specialize (HQ w H2).
  by destruct (m w).
Qed.

Lemma keeps_graphs_addNode gs nest node :
  keeps (λ w, graphs w = gs) (Nest_addNode nest node).
Proof. unfold Nest_addNode. keeps_with ltac:(by intros). Qed.

(** X11. In a world brought about by calls that returned, [NewNode] on a
    graph returns a new node: it belongs to the graph, lies in the root
    nest, has no edges, has every attribute slot of the node pool unset
    and carries the node count of the graph as its id; the count goes up
    by one, no edge changes, and every other node keeps its edges, id,
    nest, graph and attribute values. *)
Theorem NewNode_makes_a_node_of_the_root_nest w g G :
  reachable w → graphs w !! g = Some G →
  ∃ w' t T r N' G',
    Graph_NewNode (Some g) w = Done (Some (length (nodes w))) w' ∧
    Graph.nestTree G = Some t ∧ nestTrees w !! t = Some T ∧
    NestTree.rootNest T = Some r ∧
    nodes w' !! length (nodes w) = Some N' ∧
    nodeCore N'
    = (None, None, Graph.nodeCount G, Some r, Some g,
       replicate (Z.to_nat (NodeStrAttrNum (Graph.attrSpec G))) zeroVal) ∧
    graphs w' !! g = Some G' ∧
    Graph.nodeCount G' = int_succ (Graph.nodeCount G) ∧
    edges w' = edges w ∧
    ∀ i N, nodes w !! i = Some N → nodeCore <$> nodes w' !! i = Some (nodeCore N).
Proof.
  intros Hreach HG. pose proof (reachable_Inv _ Hreach) as HI.
  destruct (graph_tree _ _ _ _ HI HG)
    as (t & T & r & R & Ht & HT & Hb & Hr & HRt & SR).
  destruct (wp_returns _ _ _ (NewNode_wp w g G HI HG)) as (p & w' & E & -> & _).
  set (N0 := Node.mk None None (Graph.nodeCount G) (Some r) None None (Some g)
               (replicate (Z.to_nat (NodeStrAttrNum (Graph.attrSpec G))) zeroVal)).
  assert (pw (Graph_NewNode (Some g)) w
            (λ _ w', ∃ w2,
               node_frame (alloc_w Nodes N0 w) w2 ∧
               graphs w2 = graphs w ∧
               w' = modify_w Graphs g
                      (λ G, Graph.with_nodeCount (int_succ (Graph.nodeCount G)) G) w2)
            (λ _, True)) as Hpw.
  { unfold Graph_NewNode.
    apply pw_bind, pw_load. intros g' G0 [= <-] HG0.
    assert (G0 = G) as -> by (simpl in HG0; congruence).
    rewrite Ht. apply pw_bind, pw_load. intros t' T0 [= <-] HT0.
    assert (T0 = T) as -> by (simpl in HT0; congruence).
    rewrite Hr. apply pw_bind, pw_make. intros _.
    apply pw_bind, pw_alloc. simpl sget. fold N0.
    apply pw_bind.
    apply (pw_after (λ w2, node_frame (alloc_w Nodes N0 w) w2 ∧
                           graphs w2 = graphs w));
      [apply keeps_and; [apply keeps_node_frame_addNode|apply keeps_graphs_addNode]
      |split; [apply node_frame_refl|done]| |done].
    intros _ w2 [Hf Hg].
    apply pw_bind, pw_modify. intros a [= <-] _. apply pw_ret. eauto. }
  destruct (pw_Done _ _ _ _ _ _ Hpw E) as (w2 & (Hx & He & Hc) & Hgs & ->).
  assert (nodes (alloc_w Nodes N0 w) !! length (nodes w) = Some N0) as HN0
    by (by apply list_lookup_middle).
  pose proof (Hc (length (nodes w))) as Hnew. rewrite HN0 in Hnew. simpl in Hnew.
  destruct (nodes w2 !! length (nodes w)) as [N'|] eqn:HN'; [|done].
  apply (inj Some) in Hnew.
  exists (modify_w Graphs g
            (λ G, Graph.with_nodeCount (int_succ (Graph.nodeCount G)) G) w2),
    t, T, r, N', (Graph.with_nodeCount (int_succ (Graph.nodeCount G)) G).
  split_and!; try done.
  - simpl. rewrite list_lookup_alter_eq, Hgs, HG. done.
  - intros i N HN. simpl. rewrite (Hc i). simpl.
    by rewrite (lookup_snoc_old _ _ _ _ HN).
Qed.

Lemma NewNode_makes_a_node_of_the_root_nest_witness :
  ∃ w' N',
    Graph_NewNode (Some 0) world_edge = Done (Some 2) w' ∧
    nodes w' !! 2 = Some N' ∧
    nodeCore N' = (None, None, 2%Z, Some 0, Some 0, []).
Proof.
  pose proof (λ G, NewNode_makes_a_node_of_the_root_nest world_edge 0 G
                     reachable_edge) as H.
  edestruct H as (w' & t & T & r & N' & G' & H1 & H2 & H3 & H4 & H5 & H6 & _);
    [by vm_compute|].
  exists w', N'. split; [exact H1|]. split; [exact H5|].
  injection H2 as <-. vm_compute in H3. injection H3 as <-.
  vm_compute in H4. injection H4 as <-. exact H6.
Defined.

(** ** Moving a node without edges *)

Lemma other_nodes_same_modify_nodes n w0 a f w :
  (a = n ∨ ∀ N, nodeCore (f N) = nodeCore N) →
  other_nodes_same n w0 w → other_nodes_same n w0 (modify_w Nodes a f w).
Proof.
  intros Hf H i Hi. rewrite <- (H i Hi). simpl.
  destruct Hf as [->|Hf].
  - by rewrite list_lookup_alter_ne.
  - by apply fmap_lookup_alter.
Qed.

Lemma keeps_other_nodes_relink n w0 old nest :
  keeps (other_nodes_same n w0) (MoveToNest_relink (Some n) old nest).
Proof.
  unfold MoveToNest_relink, Nest_removeNode, Nest_addNode.
  keeps_with ltac:(intros;
    first [ apply other_nodes_same_modify_nodes; [by right|done]
          | apply other_nodes_same_modify_nodes; [left; congruence|done]
          | done ]).
Qed.

(** X12. [MoveToNest] returns an error and leaves the world as it is
    when the nest belongs to the tree of another graph than the node.  In
    a world brought about by calls that returned, on a node without edges
    and a nest of the node's graph it returns no error, under any loop
    budget: the node is then in that nest, nothing else of it changes, and
    no other node and no edge changes nest, edges, id, graph or attribute
    values. *)
Theorem MoveToNest_refuses_foreign_nest_and_moves_edgeless_node
    fuel w n N k K t T :
  reachable w → nodes w !! n = Some N → nests w !! k = Some K →
  Nest.nestTree K = Some t → nestTrees w !! t = Some T →
  (NestTree.baseGraph T ≠ Node.graph N →
   ∃ e, Node_MoveToNest fuel (Some n) (Some k) w = Done (Some e) w) ∧
  (NestTree.baseGraph T = Node.graph N →
   Node.firstIncomingEdge N = None → Node.firstOutcomingEdge N = None →
   ∃ w' N',
     Node_MoveToNest fuel (Some n) (Some k) w = Done None w' ∧
     nodes w' !! n = Some N' ∧
     nodeCore N' = nodeCore (Node.with_nest (Some k) N) ∧
     edges w' = edges w ∧ other_nodes_same n w w').
Proof.
  intros Hr HN HK Ht HT. pose proof (reachable_Inv _ Hr) as HI. split.
  - intros Hne. unfold Node_MoveToNest.
    run_load Nests HK. rewrite Ht. run_load NestTrees HT. run_load Nodes HN.
    rewrite (negb_ptr_eqb_ne _ _ Hne). unfold ret. eauto.
  - intros Hb Hin Hout.
    destruct (node_place _ _ _ _ HI HN)
      as (g & G & t0 & T0 & r & k0 & K0 & Hg & HG & HGt & HT0 & Hb0 & Hr0 & Hk0 & _).
    rewrite (MoveToNest_split fuel n k w K t T N k0) by done.
    destruct (wp_returns _ _ _ (relink_wp w n N k K t T k0 HI HN HK Ht HT Hb Hk0
                                  (or_intror (conj Hin Hout))))
      as (u & w1 & E & _ & _ & He & N1 & HN1 & Hcore).
    pose proof (keeps_Done _ _ _ _ _ (keeps_other_nodes_relink n w (Some k0) (Some k))
                  (λ i _, eq_refl) E) as Hothers.
    exists w1, N1. rewrite (bind_Done _ _ _ _ _ E).
    pose proof Hcore as Hcore'.
    injection Hcore' as Hi1 Ho1 _ _ _ _. simpl in Hi1, Ho1.
    split_and!; try done.
    unfold MoveToNest_fix, Node_GetFirstIncomingEdge, Node_GetFirstOutcomingEdge.
    unfold bind at 1. unfold bind at 1.
    rewrite (load_Some Nodes _ _ _ HN1). cbn [ret].
    rewrite Hi1, Hin, fix_incoming_nil. unfold bind at 1. cbn [ret].
    unfold bind at 1. unfold bind at 1.
    rewrite (load_Some Nodes _ _ _ HN1). cbn [ret].
    by rewrite Ho1, Hout, fix_outcoming_nil.
Qed.

Lemma MoveToNest_refuses_foreign_nest_and_moves_edgeless_node_witness :
  ∃ w' N',
    Node_MoveToNest 0 (Some 0) (Some 1) world_attrs = Done None w' ∧
    nodes w' !! 0 = Some N' ∧ Node.nest N' = Some 1.
Proof.
  pose proof (λ N K T, MoveToNest_refuses_foreign_nest_and_moves_edgeless_node
                         0 world_attrs 0 N 1 K 0 T reachable_attrs) as H.
  edestruct H as [_ H']; [by vm_compute..|].
  destruct H' as (w' & N' & H1 & H2 & H3 & _); [by vm_compute..|].
  exists w', N'. split; [exact H1|]. split; [exact H2|].
  by injection H3.
Defined.

(** ** Proof scripts shared by the frames

    Each takes the tactic that settles one write (and the lemmas of the
    loops below it) and proves that a predicate on worlds is kept. *)

Lemma fmap_alter_keep {A B} (h : A → B) (f : A → A) (l : list A) a :
  (∀ x, h (f x) = h x) → h <$> alter f a l = h <$> l.
Proof.
  intros Hf. apply list_eq. intros i. rewrite !list_lookup_fmap.
  apply fmap_lookup_alter. intros x _. apply Hf.
Qed.

Ltac keeps_calc_script tac :=
  unfold Edge_calcNestAndMoveToIt, Nest_removeEdge, Nest_addEdge;
  keeps_with tac; first [ apply keeps_calc_lift | apply keeps_calc_meet ].

Ltac keeps_fix_script calc :=
  match goal with
  | |- keeps _ (_ _ ?n ?edge) =>
      let IH := fresh "IH" in
      induction n as [|n IH]; simpl; (destruct edge; [|apply keeps_ret]);
      [apply keeps_cutoff|];
      apply keeps_bind; [apply keeps_load|intros ?E];
      match goal with
      | |- keeps _ (match Edge.nest ?E with _ => _ end) =>
          destruct (Edge.nest E); [|apply keeps_panic]
      end;
      (apply keeps_bind; [apply calc|intros _]);
      (apply keeps_bind;
         [unfold Edge_GetNextIncomingEdge, Edge_GetNextOutcomingEdge;
          keeps_with idtac|intros _]);
      apply IH
  end.

Ltac keeps_MoveToNest_script tac fixin fixout :=
  unfold Node_MoveToNest;
  (apply keeps_bind; [apply keeps_load|intros ?N]);
  (apply keeps_bind; [apply keeps_load|intros ?T]);
  (apply keeps_bind; [apply keeps_load|intros ?Nd]);
  (destruct (negb _); [apply keeps_ret|]);
  match goal with
  | |- keeps _ (match Node.nest ?Nd with _ => _ end) =>
      destruct (Node.nest Nd); [|apply keeps_panic]
  end;
  (apply keeps_bind; [unfold Nest_removeNode; keeps_with tac|intros _]);
  (apply keeps_bind; [keeps_with tac|intros _]);
  (apply keeps_bind; [unfold Nest_addNode; keeps_with tac|intros _]);
  (apply keeps_bind; [unfold Node_GetFirstIncomingEdge; keeps_with idtac|intros ?fi]);
  (apply keeps_bind; [apply fixin|intros _]);
  (apply keeps_bind; [unfold Node_GetFirstOutcomingEdge; keeps_with idtac|intros ?fo]);
  (apply keeps_bind; [apply fixout|intros _]);
  apply keeps_ret.

Ltac keeps_NewEdge_script tac calc :=
  unfold Graph_NewEdge;
  match goal with
  | |- keeps _ (match ?src with _ => _ end) => destruct src; [|apply keeps_ret]
  end;
  match goal with
  | |- keeps _ (match ?dst with _ => _ end) => destruct dst; [|apply keeps_ret]
  end;
  (apply keeps_bind; [apply keeps_load|intros ?Sn]);
  (destruct (negb _); [apply keeps_ret|]);
  (apply keeps_bind; [apply keeps_load|intros ?Dn]);
  (destruct (negb _); [apply keeps_ret|]); cbv zeta;
  (apply keeps_bind; [apply keeps_load|intros ?G]);
  (apply keeps_bind; [keeps_with tac|intros ?e]);
  (apply keeps_bind; [keeps_with tac|intros _]);
  (apply keeps_bind; [keeps_with tac|intros _]);
  (apply keeps_bind; [keeps_with tac|intros _]);
  (apply keeps_bind; [keeps_with tac|intros _]);
  (apply keeps_bind; [apply calc|intros _]);
  keeps_with tac.

Ltac keeps_node_sweep_script tac :=
  match goal with
  | |- keeps _ (ReleaseNodeStrAttr_sweep ?fuel ?node _) =>
      let IH := fresh "IH" in
      revert node; induction fuel as [|fuel IH]; intros node;
      cbn [ReleaseNodeStrAttr_sweep]; destruct node; try apply keeps_ret;
      try apply keeps_cutoff;
      (apply keeps_bind;
         [unfold Node_RemoveStrAttr, set_slot; keeps_with tac|intros _]);
      (apply keeps_bind; [apply keeps_GetNextNode|intros ?next]); apply IH
  end.

Ltac keeps_nest_sweep_script tac :=
  match goal with
  | |- keeps _ (ReleaseNestStrAttr_sweep ?fuel ?nest _) =>
      let IH := fresh "IH" in
      revert nest; induction fuel as [|fuel IH]; intros nest;
      cbn [ReleaseNestStrAttr_sweep]; destruct nest; try apply keeps_ret;
      try apply keeps_cutoff;
      (apply keeps_bind;
         [unfold Nest_RemoveStrAttr, set_slot; keeps_with tac|intros _]);
      (apply keeps_bind; [apply keeps_GetNextNest|intros ?next]); apply IH
  end.

Ltac keeps_ReleaseNode_script tac sweep :=
  unfold Graph_ReleaseNodeStrAttr;
  (apply keeps_bind; [apply keeps_load|intros ?A]);
  (destruct (negb (StrAttr.isValid _)); [apply keeps_ret|]);
  (destruct (negb (ptr_eqb _ _)); [apply keeps_ret|]);
  cbv zeta;
  (apply keeps_bind; [apply keeps_GetFirstNode|intros ?first]);
  (apply keeps_bind; [apply sweep|intros _]);
  keeps_with tac.

Ltac keeps_ReleaseNest_script tac sweep :=
  unfold NestTree_ReleaseNestStrAttr;
  (apply keeps_bind; [apply keeps_load|intros ?A]);
  (destruct (negb (NestStrAttr.is_valid _)); [apply keeps_ret|]);
  (destruct (negb (ptr_eqb _ _)); [apply keeps_ret|]);
  cbv zeta;
  (apply keeps_bind; [unfold NestTree_GetRootNest; keeps_with idtac|intros ?root]);
  (apply keeps_bind; [apply sweep|intros _]);
  keeps_with tac.

(** The calls that write attribute values and handles only. *)
Ltac keeps_attr_call_script tac :=
  unfold Graph_RemoveStrAttr, Graph_SetStrAttrVal, Graph_ReleaseGraphStrAttr,
    Graph_NewGraphStrAttr, Graph_NewNodeStrAttr, NestTree_NewNestStrAttr,
    Node_SetStrAttrVal, Node_RemoveStrAttr, Nest_SetStrAttrVal,
    Nest_RemoveStrAttr, Graph_RemoveStrAttr, set_slot;
  keeps_with tac.

(** ** The links of nests are written by [NewGraph] and [NewNest] only *)

Ltac links_write :=
  intros;
  first [ match goal with H : links _ = _ |- _ => exact H end
        | unfold links; simpl;
          rewrite fmap_alter_keep by (by intros []);
          match goal with H : links _ = _ |- _ => exact H end ].

Lemma keeps_links_calc v fuel edge :
  keeps (λ w, links w = v) (Edge_calcNestAndMoveToIt fuel edge).
Proof. keeps_calc_script links_write. Qed.

Lemma keeps_links_fix_incoming v fuel n edge :
  keeps (λ w, links w = v) (MoveToNest_fix_incoming fuel n edge).
Proof. keeps_fix_script (keeps_links_calc v fuel). Qed.

Lemma keeps_links_fix_outcoming v fuel n edge :
  keeps (λ w, links w = v) (MoveToNest_fix_outcoming fuel n edge).
Proof. keeps_fix_script (keeps_links_calc v fuel). Qed.

Lemma keeps_links_MoveToNest v fuel node nest :
  keeps (λ w, links w = v) (Node_MoveToNest fuel node nest).
Proof.
  keeps_MoveToNest_script links_write
    (keeps_links_fix_incoming v fuel) (keeps_links_fix_outcoming v fuel).
Qed.

Lemma keeps_links_NewEdge v fuel graph src dst :
  keeps (λ w, links w = v) (Graph_NewEdge fuel graph src dst).
Proof. keeps_NewEdge_script links_write (keeps_links_calc v fuel). Qed.

Lemma keeps_links_node_sweep v fuel node attr :
  keeps (λ w, links w = v) (ReleaseNodeStrAttr_sweep fuel node attr).
Proof. keeps_node_sweep_script links_write. Qed.

Lemma keeps_links_nest_sweep v fuel nest attr :
  keeps (λ w, links w = v) (ReleaseNestStrAttr_sweep fuel nest attr).
Proof. keeps_nest_sweep_script links_write. Qed.

Lemma keeps_links_NewNode v graph :
  keeps (λ w, links w = v) (Graph_NewNode graph).
Proof. unfold Graph_NewNode, Nest_addNode. keeps_with links_write. Qed.

(** ** The sibling lists in reachable worlds *)

Lemma view_lookup {A B} (h : A → B) (l l' : list A) k x' :
  h <$> l' = h <$> l → l' !! k = Some x' → ∃ x, l !! k = Some x ∧ h x = h x'.
Proof.
  intros E H. apply (f_equal (.!! k)) in E. rewrite !list_lookup_fmap, H in E.
  destruct (l !! k) as [x|]; [|done]. injection E as E. eauto.
Qed.

Lemma nest_links_eq K K' :
  nest_links K = nest_links K' →
  Nest.parentNest K = Nest.parentNest K' ∧
  Nest.firstChildNest K = Nest.firstChildNest K' ∧
  Nest.nextSiblingNest K = Nest.nextSiblingNest K' ∧
  Nest.prevSiblingNest K = Nest.prevSiblingNest K'.
Proof. unfold nest_links, sibs. by intros [= -> -> _ -> ->]. Qed.

Lemma links_ok_view l l' :
  nest_links <$> l' = nest_links <$> l → links_ok l → links_ok l'.
Proof.
  intros E [H1 H2 H3 H4 H5].
  assert (∀ k K', l' !! k = Some K' →
            ∃ K, l !! k = Some K ∧ nest_links K = nest_links K') as Hto
    by (intros; by eapply view_lookup).
  assert (∀ k K, l !! k = Some K →
            ∃ K', l' !! k = Some K' ∧ nest_links K' = nest_links K) as Hfrom
    by (intros; by eapply view_lookup).
  split.
  - intros k K' HK' Hp. destruct (Hto k K' HK') as (K & HK & E1).
    apply nest_links_eq in E1 as (Ep & _ & _ & Epv). rewrite <- Epv.
    eapply H1; [done|congruence].
  - intros k K' p HK' Hpv. destruct (Hto k K' HK') as (K & HK & E1).
    apply nest_links_eq in E1 as (_ & _ & _ & Epv).
    destruct (H2 k K p HK) as (P & HP & HPn); [congruence|].
    destruct (Hfrom p P HP) as (P' & HP' & E2).
    apply nest_links_eq in E2 as (_ & _ & En & _).
    exists P'. split; [done|congruence].
  - intros k K' r HK' Hp Hpv. destruct (Hto k K' HK') as (K & HK & E1).
    apply nest_links_eq in E1 as (Ep & _ & _ & Epv).
    destruct (H3 k K r HK) as (R & HR & HRf); [congruence..|].
    destruct (Hfrom r R HR) as (R' & HR' & E2).
    apply nest_links_eq in E2 as (_ & Ef & _ & _).
    exists R'. split; [done|congruence].
  - intros k K' d HK' Hn. destruct (Hto k K' HK') as (K & HK & E1).
    apply nest_links_eq in E1 as (_ & _ & En & _).
    eapply H4; [done|congruence].
  - intros k K' d D' HK' Hn HD'. destruct (Hto k K' HK') as (K & HK & E1).
    destruct (Hto d D' HD') as (D & HD & E2).
    apply nest_links_eq in E1 as (Ep & _ & En & _).
    apply nest_links_eq in E2 as (Ep2 & _).
    rewrite <- Ep, <- Ep2. eapply H5; [done| |done]. congruence.
Qed.

Lemma links_ok_nil : links_ok [].
Proof. split; intros k K; by rewrite lookup_nil. Qed.

Lemma links_ok_new_root l t : links_ok l → links_ok (l ++ [fresh_root t]).
Proof.
  intros [H1 H2 H3 H4 H5]. split.
  - intros k K H. apply lookup_snoc_inv in H as [[_ H]|[-> ->]]; [by eapply H1|done].
  - intros k K p H Hp. apply lookup_snoc_inv in H as [[_ H]|[-> ->]]; [|done].
    destruct (H2 k K p H Hp) as (P & HP & ?). exists P.
    split; [by apply lookup_snoc_old|done].
  - intros k K r H Hp Hpv. apply lookup_snoc_inv in H as [[_ H]|[-> ->]]; [|done].
    destruct (H3 k K r H Hp Hpv) as (R & HR & ?). exists R.
    split; [by apply lookup_snoc_old|done].
  - intros k K d H Hn. apply lookup_snoc_inv in H as [[_ H]|[-> ->]]; [|done].
    by eapply H4.
  - intros k K d D H Hn HD. apply lookup_snoc_inv in H as [[_ H]|[-> ->]]; [|done].
    pose proof (H4 k K d H Hn) as Hlt. pose proof (lookup_lt_Some _ _ _ H) as Hk.
    apply lookup_snoc_inv in HD as [[_ HD]|[-> ->]]; [by eapply H5|lia].
Qed.

Lemma links_ok_new_nest l r R C0 l3 :
  links_ok l → l !! r = Some R →
  (∀ f, Nest.firstChildNest R = Some f →
        ∃ F, l !! f = Some F ∧ Nest.parentNest F = Some r) →
  Nest.parentNest C0 = Some r →
  Nest.nextSiblingNest C0 = Nest.firstChildNest R →
  Nest.prevSiblingNest C0 = None →
  (∀ k, match (l ++ [C0]) !! k, l3 !! k with
        | Some K0, Some K3 => grown r (length l) (Nest.firstChildNest R) k K0 K3
        | None, None => True
        | _, _ => False
        end) →
  links_ok l3.
Proof.
  intros [H1 H2 H3 H4 H5] HR RS1 Cp Cn Cpv Hrel.
  set (c := length l) in *. set (fc := Nest.firstChildNest R) in *.
  assert (∀ k K, l !! k = Some K →
            ∃ K3, l3 !! k = Some K3 ∧ grown r c fc k K K3) as Hold.
  { intros k K HK. specialize (Hrel k).
    rewrite (lookup_snoc_old _ _ _ _ HK) in Hrel.
    destruct (l3 !! k) as [K3|]; [|done]. eauto. }
  assert (∀ k K3, l3 !! k = Some K3 →
            (∃ K, l !! k = Some K ∧ k < c ∧ grown r c fc k K K3) ∨
            (k = c ∧ grown r c fc c C0 K3)) as Hnew.
  { intros k K3 HK3. specialize (Hrel k). rewrite HK3 in Hrel.
    destruct ((l ++ [C0]) !! k) as [K0|] eqn:E0; [|done].
    apply lookup_snoc_inv in E0 as [[? E0]|[-> ->]]; eauto 6. }
  assert (∃ C3, l3 !! c = Some C3 ∧ grown r c fc c C0 C3) as (C3 & HC3 & GC).
  { specialize (Hrel c). rewrite list_lookup_middle in Hrel by done.
    destruct (l3 !! c) as [C3|]; [|done]. eauto. }
  assert (r < c) as Hrc by (by eapply lookup_lt_Some).
  assert (fc ≠ Some c) as Hfcc.
  { intros Hfc. destruct (RS1 c Hfc) as (C & HC & _).
    apply lookup_lt_Some in HC. unfold c in HC. lia. }
  split.
  - intros k K3 HK3 Hp.
    destruct (Hnew k K3 HK3) as [(K & HK & Hlt & Hg)|(-> & Hg)];
      destruct Hg as ([= Gt Gl Gp] & Gn & Gfc & Gpv & _); [|congruence].
    rewrite Gpv. case_decide as Hfk.
    + destruct (RS1 k Hfk) as (F & HF & HFp). congruence.
    + eapply H1; [done|congruence].
  - intros k K3 p HK3 Hpv.
    destruct (Hnew k K3 HK3) as [(K & HK & Hlt & Hg)|(-> & Hg)];
      destruct Hg as ([= Gt Gl Gp] & Gn & Gfc & Gpv & _).
    + rewrite Gpv in Hpv. case_decide as Hfk.
      * injection Hpv as <-. exists C3. split; [done|].
        destruct GC as (_ & GCn & _). congruence.
      * destruct (H2 k K p HK Hpv) as (P & HP & HPn).
        destruct (Hold p P HP) as (P3 & HP3 & _ & GPn & _).
        exists P3. split; [done|congruence].
    + rewrite Gpv in Hpv. rewrite decide_False in Hpv by done. congruence.
  - intros k K3 r' HK3 Hp Hpv.
    destruct (Hnew k K3 HK3) as [(K & HK & Hlt & Hg)|(-> & Hg)];
      destruct Hg as ([= Gt Gl Gp] & Gn & Gfc & Gpv & _).
    + rewrite Gpv in Hpv. case_decide as Hfk; [done|].
      destruct (H3 k K r' HK) as (R' & HR' & HR'f); [congruence|done|].
      destruct (Hold r' R' HR') as (R3 & HR3 & _ & _ & GRf & _).
      exists R3. split; [done|]. rewrite GRf. case_decide as Hrr; [|done].
      subst r'. assert (R' = R) as -> by congruence. by destruct Hfk.
    + assert (r' = r) as -> by congruence.
      destruct (Hold r R HR) as (R3 & HR3 & _ & _ & GRf & _).
      exists R3. split; [done|]. rewrite GRf. by rewrite decide_True.
  - intros k K3 d HK3 Hn.
    destruct (Hnew k K3 HK3) as [(K & HK & Hlt & Hg)|(-> & Hg)];
      destruct Hg as ([= Gt Gl Gp] & Gn & _).
    + eapply H4; [done|congruence].
    + rewrite Gn, Cn in Hn. destruct (RS1 d Hn) as (F & HF & _).
      by eapply lookup_lt_Some.
  - intros k K3 d D3 HK3 Hn HD3.
    destruct (Hnew d D3 HD3) as [(D & HD & Hltd & HgD)|(-> & HgD)];
      destruct HgD as ([= Dt Dl Dp] & _).
    + destruct (Hnew k K3 HK3) as [(K & HK & Hlt & Hg)|(-> & Hg)];
        destruct Hg as ([= Gt Gl Gp] & Gn & _).
      * rewrite Dp, Gp. eapply H5; [done| |done]. congruence.
      * rewrite Gn, Cn in Hn. destruct (RS1 d Hn) as (F & HF & HFp).
        rewrite Dp, Gp, Cp. congruence.
    + destruct (Hnew k K3 HK3) as [(K & HK & Hlt & Hg)|(-> & Hg)];
        destruct Hg as ([= Gt Gl Gp] & Gn & _).
      * rewrite Gn in Hn. pose proof (H4 k K c HK Hn). lia.
      * rewrite Gn, Cn in Hn. by destruct Hfcc.
Qed.

(** The nests after [NewNest]. *)
Lemma NewNest_nests w t T :
  Inv None w → nestTrees w !! t = Some T →
  ∃ r R C0 w',
    NestTree.rootNest T = Some r ∧ nests w !! r = Some R ∧
    NestTree_NewNest (Some t) w = Done (Some (length (nests w))) w' ∧
    Nest.parentNest C0 = Some r ∧
    Nest.nextSiblingNest C0 = Nest.firstChildNest R ∧
    Nest.prevSiblingNest C0 = None ∧
    (∀ k, match (nests w ++ [C0]) !! k, nests w' !! k with
          | Some K0, Some K3 =>
              grown r (length (nests w)) (Nest.firstChildNest R) k K0 K3
          | None, None => True
          | _, _ => False
          end).
Proof.
  intros HI HT.
  destruct (tree_graph _ _ _ _ HI HT)
    as (g & G & r & R & Hb & HG & HGt & Hr & HRt & [HR HS]).
  assert (Nest.level R = 0%Z) as RL.
  { destruct HS as [(_ & ? & ?)|(Hne & _)]; [done|by destruct Hne]. }
  destruct (inv_graph _ _ HI _ _ HG) as (_ & _ & _ & _ & _ & _ & _ & _ & _ & _ & _ & Hn).
  destruct (inv_nest _ _ HI _ _ HR) as [_ (RS1 & _)].
  set (c := length (nests w)).
  set (fc := Nest.firstChildNest R) in *.
  assert (r < c) as Hrc by (by eapply lookup_lt_Some).
  assert (fc ≠ Some r) as Hfr.
  { intros Hfc. destruct (RS1 r Hfc) as (R' & HR' & _ & HRp).
    assert (R' = R) as -> by congruence.
    destruct HS as [(_ & _ & ?)|(Hne & _)]; [congruence|by destruct Hne]. }
  set (C0 := Nest.mk (NestTree.nestCount T) (Some t) 1 (Some r) None None fc None
                     None None None
                     (replicate (Z.to_nat (NestStrAttrNum (Graph.attrSpec G))) zeroVal)).
  set (nests3 := alter (Nest.with_firstChildNest (Some c)) r
                   (match fc with
                    | Some f => alter (Nest.with_prevSiblingNest (Some c)) f
                                      (nests w ++ [C0])
                    | None => alter (Nest.with_lastChildNest (Some c)) r
                                    (nests w ++ [C0])
                    end)).
  pose proof (grown_lookup r c fc (nests w ++ [C0]) Hfr) as Hrel. fold nests3 in Hrel.
  exists r, R, C0.
  assert (wp (NestTree_NewNest (Some t)) w
            (λ p w', p = Some c ∧ nests w' = nests3) (λ _, False)) as Hwp.
  { unfold NestTree_NewNest.
    apply wp_bind, (wp_load NestTrees _ _ _ _ _ HT). rewrite Hr, Hb.
    apply wp_bind, (wp_load Nests _ _ _ _ _ HR).
    apply wp_bind, (wp_load Graphs _ _ _ _ _ HG).
    apply wp_bind. unfold wp at 1. rewrite make_nonneg by done.
    apply wp_bind, wp_alloc. simpl sget. fold c fc.
    replace (int_wrap (Nest.level R + 1)) with 1%Z by (by rewrite RL).
    fold C0. unfold nests3. destruct fc as [f|] eqn:Efc.
    - destruct (RS1 f eq_refl) as (F & HF & _).
      apply wp_bind, wp_modify.
      { simpl. rewrite (lookup_snoc_old _ _ _ _ HF). eauto. }
      apply wp_bind, wp_modify.
      { simpl. apply lookup_lt_is_Some. rewrite length_alter, length_app. lia. }
      apply wp_bind, wp_modify; [simpl; eauto|]. by apply wp_ret.
    - apply wp_bind, wp_modify.
      { simpl. rewrite (lookup_snoc_old _ _ _ _ HR). eauto. }
      apply wp_bind, wp_modify.
      { simpl. apply lookup_lt_is_Some. rewrite length_alter, length_app. lia. }
      apply wp_bind, wp_modify; [simpl; eauto|]. by apply wp_ret. }
  destruct (wp_returns _ _ _ Hwp) as (p & w' & E & -> & Hn3).
  exists w'. rewrite Hn3. by split_and!.
Qed.

Lemma NewNest_links_ok w nt p w' :
  Inv None w → links_ok (nests w) → NestTree_NewNest nt w = Done p w' →
  links_ok (nests w').
Proof.
  intros HI HL E. assert (∃ t T, nt = Some t ∧ nestTrees w !! t = Some T)
    as (t & T & -> & HT).
  { unfold NestTree_NewNest in E. apply bind_Done_inv in E as (T & w1 & E & _).
    apply load_Done_inv in E as (_ & t & -> & HT). eauto. }
  destruct (NewNest_nests w t T HI HT)
    as (r & R & C0 & w0 & Hr & HR & E0 & Cp & Cn & Cpv & Hrel).
  assert (w0 = w') as -> by congruence.
  eapply (links_ok_new_nest (nests w) r R C0); try done.
  intros f Hf. destruct (inv_nest _ _ HI _ _ HR) as [_ (RS1 & _)].
  destruct (RS1 f Hf) as (F & HF & _ & HFp). eauto.
Qed.

Lemma links_kept w w' : links w' = links w → links_ok (nests w) → links_ok (nests w').
Proof. apply links_ok_view. Qed.

Lemma exec_links_ok fuel c w w' :
  Inv None w → links_ok (nests w) → exec fuel c w = Done tt w' →
  links_ok (nests w').
Proof.
  intros HI HL E.
  assert (∀ {A} (m : M A) x,
            keeps (λ w0, links w0 = links w) m → m w = Done x w' →
            links_ok (nests w')) as Hview.
  { intros A m x Hm Em. eapply links_kept; [|done].
    by eapply (keeps_Done _ m w x w' Hm). }
  destruct c; simpl in E; apply bind_Done_inv in E as (x & w1 & E & [= <-]).
  - apply NewGraph_Done_inv in E as (_ & _ & ->). simpl.
    by apply links_ok_new_root.
  - eapply Hview; [|done]. keeps_attr_call_script links_write.
  - eapply Hview; [|done]. keeps_attr_call_script links_write.
  - eapply Hview; [|done]. keeps_attr_call_script links_write.
  - eapply Hview; [|done]. keeps_attr_call_script links_write.
  - eapply Hview; [|done]. keeps_attr_call_script links_write.
  - eapply Hview; [|done].
    keeps_ReleaseNode_script links_write (keeps_links_node_sweep (links w) fuel).
  - eapply Hview; [|done]. apply keeps_links_NewNode.
  - eapply Hview; [|done]. apply keeps_links_NewEdge.
  - eapply Hview; [|done]. keeps_attr_call_script links_write.
  - eapply Hview; [|done]. keeps_attr_call_script links_write.
  - eapply Hview; [|done]. apply keeps_links_MoveToNest.
  - by eapply NewNest_links_ok.
  - eapply Hview; [|done]. keeps_attr_call_script links_write.
  - eapply Hview; [|done].
    keeps_ReleaseNest_script links_write (keeps_links_nest_sweep (links w) fuel).
  - eapply Hview; [|done]. keeps_attr_call_script links_write.
  - eapply Hview; [|done]. keeps_attr_call_script links_write.
Qed.

Lemma reachable_links_ok w : reachable w → links_ok (nests w).
Proof.
  induction 1 as [|w fuel c w' Hr IH E]; [apply links_ok_nil|].
  eapply exec_links_ok; [by apply reachable_Inv|done..].
Qed.

(** ** The predecessor of a nest and its successor *)

Lemma root_has_no_parent w t T r :
  Inv None w → nestTrees w !! t = Some T → NestTree.rootNest T = Some r →
  ∃ R, nests w !! r = Some R ∧ Nest.parentNest R = None.
Proof.
  intros HI HT Hr.
  destruct (tree_graph _ _ _ _ HI HT) as (? & ? & r1 & R1 & _ & _ & _ & Hr1 & _ & [HR1 Hs1]).
  assert (r1 = r) as -> by congruence. exists R1. split; [done|].
  destruct Hs1 as [(_ & _ & ?)|(? & _)]; done.
Qed.

(** A nest under a root has no nests under it. *)
Lemma childless_below_root w k K :
  Inv None w → nests w !! k = Some K → Nest.parentNest K ≠ None →
  Nest.firstChildNest K = None ∧ Nest.lastChildNest K = None.
Proof.
  intros HI HK Hp.
  destruct (inv_nest _ _ HI _ _ HK) as [_ (S1 & _ & S3 & _)].
  assert (Nest.firstChildNest K = None) as Hf; [|by split; [|apply S3]].
  destruct (Nest.firstChildNest K) as [c|] eqn:Hc; [|done].
  destruct (S1 c eq_refl) as (C & HC & _ & HCp).
  destruct (Inv_nest_shape _ _ _ HI HC) as (t & T & r & Ht & HT & Hr & [_ Hsc]).
  destruct Hsc as [(_ & _ & ?)|(_ & _ & Hpc)]; [congruence|].
  assert (k = r) as -> by congruence.
  destruct (root_has_no_parent _ _ _ _ HI HT Hr) as (R & HR & HRp).
  congruence.
Qed.

(** [GetPrevNest] under any loop budget: what it returns. *)
Lemma GetPrevNest_run w g G :
  Inv None w → links_ok (nests w) → nests w !! g = Some G →
  ∃ prev,
    (∀ fuel, Nest_GetPrevNest fuel (Some g) w = Done prev w) ∧
    (prev = None ↔ Nest.parentNest G = None) ∧
    ∀ p, prev = Some p →
         ∀ fuel, Nest_GetNextNest fuel (Some p) w = Done (Some g) w.
Proof.
  intros HI [L1 L2 L3 L4 L5] HG.
  unfold Nest_GetPrevNest.
  destruct (Nest.prevSiblingNest G) as [p|] eqn:Hpv.
  - destruct (L2 g G p HG Hpv) as (P & HP & HPn).
    destruct (inv_nest _ _ HI _ _ HP) as [_ (_ & _ & _ & S4)].
    assert (Nest.parentNest P ≠ None) as HPp.
    { intros Hn. rewrite (S4 Hn) in HPn. done. }
    destruct (childless_below_root _ _ _ HI HP HPp) as [Hfc Hlc].
    exists (Some p). split_and!.
    + intros fuel. run_load Nests HG. rewrite Hpv.
      destruct fuel; cbn [GetPrevNest_down]; run_load Nests HP; by rewrite Hlc.
    + split; [done|]. intros Hn. by rewrite (L1 g G HG Hn) in Hpv.
    + intros p' [= <-] fuel. unfold Nest_GetNextNest. run_load Nests HP.
      by rewrite Hfc, HPn.
  - exists (Nest.parentNest G). split_and!.
    + intros fuel. run_load Nests HG. by rewrite Hpv.
    + done.
    + intros r Hp fuel. destruct (L3 g G r HG Hp Hpv) as (R & HR & HRf).
      unfold Nest_GetNextNest. run_load Nests HR. by rewrite HRf.
Qed.

(** X13. In a world brought about by calls that returned, [GetPrevNest]
    of a nest returns under any loop budget; it returns [nil] exactly for
    a root nest, and otherwise a nest of which [GetNextNest] is the nest
    one started from. *)
Theorem next_of_prev_is_the_nest fuel w g G :
  reachable w → nests w !! g = Some G →
  ∃ prev,
    Nest_GetPrevNest fuel (Some g) w = Done prev w ∧
    (prev = None ↔ Nest.parentNest G = None) ∧
    ∀ p, prev = Some p → Nest_GetNextNest fuel (Some p) w = Done (Some g) w.
Proof.
  intros Hr HG.
  destruct (GetPrevNest_run w g G (reachable_Inv _ Hr) (reachable_links_ok _ Hr) HG)
    as (prev & H1 & H2 & H3).
  exists prev. split_and!; [apply H1|done|]. intros p Hp. by apply H3.
Qed.

Lemma next_of_prev_is_the_nest_witness :
  Nest_GetPrevNest 0 (Some 1) world_two_nests = Done (Some 2) world_two_nests ∧
  Nest_GetNextNest 0 (Some 2) world_two_nests = Done (Some 1) world_two_nests.
Proof.
  pose proof (λ G, next_of_prev_is_the_nest 0 world_two_nests 1 G
                     reachable_two_nests) as H.
  edestruct H as (prev & H1 & _ & H3); [by vm_compute|].
  revert H1 H3. vm_compute (Nest_GetPrevNest _ _ _). intros [= <-] H3.
  split; [reflexivity|]. by apply H3.
Defined.

(** ** Walking the nests of a tree *)

Lemma sib_reach_snoc w k p P j :
  sib_reach w k p → nests w !! p = Some P → Nest.nextSiblingNest P = Some j →
  sib_reach w k j.
Proof.
  induction 1 as [k|k K d p HK Hn _ IH]; intros HP HPn.
  - eapply sr_step; [done..|apply sr_refl].
  - eapply sr_step; [done..|]. by apply IH.
Qed.

Lemma sib_reach_inv w k K j :
  nests w !! k = Some K → sib_reach w k j →
  j = k ∨ ∃ d, Nest.nextSiblingNest K = Some d ∧ sib_reach w d j.
Proof.
  intros HK H. inversion H as [|k' K' d j' HK' Hn Hd]; subst; [by left|].
  right. exists d. split; [congruence|done].
Qed.

Lemma sib_reach_facts w k K j :
  Inv None w → links_ok (nests w) → nests w !! k = Some K → sib_reach w k j →
  j ≤ k ∧ ∃ J, nests w !! j = Some J ∧ Nest.parentNest J = Nest.parentNest K.
Proof.
  intros HI [L1 L2 L3 L4 L5] HK H. revert K HK.
  induction H as [k|k K0 d j HK0 Hn _ IH]; intros K HK; [eauto|].
  assert (K0 = K) as -> by congruence.
  destruct (inv_nest _ _ HI _ _ HK) as [_ (_ & S2 & _)].
  destruct (S2 d Hn) as (D & HD & _).
  destruct (IH D HD) as (Hle & J & HJ & HJp).
  pose proof (L4 k K d HK Hn). split; [lia|].
  exists J. split; [done|]. rewrite HJp. by eapply L5.
Qed.

Lemma walk_chain fuel w r :
  Inv None w → links_ok (nests w) →
  ∀ n k K, nests w !! k = Some K → Nest.parentNest K = Some r → k < n →
    ∃ l, nest_walk n (S fuel) w k = Some l ∧ NoDup l ∧
         ∀ j, j ∈ l ↔ sib_reach w k j.
Proof.
  intros HI HL. pose proof HL as [L1 L2 L3 L4 L5].
  induction n as [|n IH]; intros k K HK Hp Hlt; [lia|].
  cbn [nest_walk]. rewrite (GetNextNest_returns fuel w k K HI HK).
  destruct (childless_below_root _ _ _ HI HK) as [Hfc _]; [congruence|].
  rewrite Hfc. destruct (Nest.nextSiblingNest K) as [d|] eqn:Hn.
  - destruct (inv_nest _ _ HI _ _ HK) as [_ (_ & S2 & _)].
    destruct (S2 d Hn) as (D & HD & _).
    pose proof (L4 k K d HK Hn) as Hdk.
    destruct (IH d D HD) as (l & -> & Hnd & Hin); [|lia|].
    { rewrite (L5 k K d D HK Hn HD). done. }
    exists (k :: l). split; [done|]. split.
    + apply NoDup_cons_2; [|done]. intros Hk. apply Hin in Hk.
      destruct (sib_reach_facts _ _ _ _ HI HL HD Hk) as [? _]. lia.
    + intros j. rewrite elem_of_cons, Hin. split.
      * intros [->|Hd]; [apply sr_refl|by eapply sr_step].
      * intros Hj. destruct (sib_reach_inv _ _ _ _ HK Hj) as [->|(d' & Hd' & Hr)];
          [by left|right]. congruence.
  - exists [k]. split; [done|]. split; [apply NoDup_singleton|].
    intros j. rewrite list_elem_of_singleton. split; [intros ->; apply sr_refl|].
    intros Hj. destruct (sib_reach_inv _ _ _ _ HK Hj) as [->|(d' & Hd' & _)];
      [done|congruence].
Qed.

Lemma child_reached w r :
  Inv None w → links_ok (nests w) →
  ∀ m k K, nests w !! k = Some K → Nest.parentNest K = Some r →
    length (nests w) - k ≤ m →
    ∃ R c, nests w !! r = Some R ∧ Nest.firstChildNest R = Some c ∧
           sib_reach w c k.
Proof.
  intros HI [L1 L2 L3 L4 L5].
  induction m as [|m IH]; intros k K HK Hp Hm.
  { apply lookup_lt_Some in HK. lia. }
  destruct (Nest.prevSiblingNest K) as [p|] eqn:Hpv.
  - destruct (L2 k K p HK Hpv) as (P & HP & HPn).
    pose proof (L4 p P k HP HPn) as Hkp.
    pose proof (lookup_lt_Some _ _ _ HP) as Hpl.
    destruct (IH p P HP) as (R & c & HR & HRf & Hreach); [|lia|].
    { rewrite <- (L5 p P k K HP HPn HK). done. }
    exists R, c. split_and!; [done..|]. by eapply sib_reach_snoc.
  - destruct (L3 k K r HK Hp Hpv) as (R & HR & HRf).
    exists R, k. split_and!; [done..|]. apply sr_refl.
Qed.

Lemma child_tree w t T r k K :
  Inv None w → nestTrees w !! t = Some T → NestTree.rootNest T = Some r →
  nests w !! k = Some K → Nest.parentNest K = Some r → Nest.nestTree K = Some t.
Proof.
  intros HI HT Hr HK Hp.
  destruct (Inv_nest_shape _ _ _ HI HK) as (t' & T' & r' & Ht' & HT' & Hr' & [_ Hs]).
  assert (r' = r) as ->.
  { destruct Hs as [(_ & _ & ?)|(_ & _ & ?)]; congruence. }
  destruct (tree_graph _ _ _ _ HI HT) as (? & ? & r1 & R1 & _ & _ & _ & Hr1 & HRt1 & [HR1 _]).
  destruct (tree_graph _ _ _ _ HI HT') as (? & ? & r2 & R2 & _ & _ & _ & Hr2 & HRt2 & [HR2 _]).
  congruence.
Qed.

(** The walk over a tree, from the invariants. *)
Lemma nest_walk_complete n fuel w t T r :
  Inv None w → links_ok (nests w) →
  nestTrees w !! t = Some T → NestTree.rootNest T = Some r →
  0 < fuel → length (nests w) < n →
  ∃ l, nest_walk n fuel w r = Some l ∧ NoDup l ∧
       ∀ k, k ∈ l ↔ ∃ K, nests w !! k = Some K ∧ Nest.nestTree K = Some t.
Proof.
  intros HI HL HT Hr Hfuel Hn.
  destruct fuel as [|fuel]; [lia|]. destruct n as [|n]; [lia|].
  destruct (tree_graph _ _ _ _ HI HT)
    as (? & ? & r1 & R & _ & _ & _ & Hr1 & HRt & [HR HRs]).
  assert (r1 = r) as -> by congruence.
  assert (Nest.parentNest R = None) as HRp
    by (destruct HRs as [(_ & _ & ?)|(? & _)]; done).
  destruct (inv_nest _ _ HI _ _ HR) as [_ (S1 & _ & _ & S4)].
  assert (∀ k K, nests w !! k = Some K → Nest.nestTree K = Some t →
            k = r ∨ Nest.parentNest K = Some r) as Hshape.
  { intros k K HK Ht.
    destruct (Inv_nest_shape _ _ _ HI HK) as (t' & T' & r' & Ht' & HT' & Hr' & [_ Hs]).
    assert (t' = t) as -> by congruence. assert (r' = r) as -> by congruence.
    destruct Hs as [(? & _)|(_ & _ & ?)]; eauto. }
  cbn [nest_walk]. rewrite (GetNextNest_returns fuel w r R HI HR).
  destruct (Nest.firstChildNest R) as [c|] eqn:Hfc.
  - destruct (S1 c eq_refl) as (C & HC & _ & HCp).
    pose proof (lookup_lt_Some _ _ _ HC) as Hcl.
    destruct (walk_chain fuel w r HI HL n c C HC HCp) as (l & -> & Hnd & Hin); [lia|].
    exists (r :: l). split; [done|]. split.
    + apply NoDup_cons_2; [|done]. intros Hk. apply Hin in Hk.
      destruct (sib_reach_facts _ _ _ _ HI HL HC Hk) as (_ & J & HJ & HJp).
      congruence.
    + intros k. rewrite elem_of_cons, Hin. split.
      * intros [->|Hk]; [eauto|].
        destruct (sib_reach_facts _ _ _ _ HI HL HC Hk) as (_ & K & HK & HKp).
        exists K. split; [done|]. eapply child_tree; [done..|congruence].
      * intros (K & HK & Ht). destruct (Hshape k K HK Ht) as [->|Hp]; [by left|].
        right.
        destruct (child_reached w r HI HL (length (nests w)) k K HK Hp)
          as (R' & c' & HR' & HRf' & Hreach'); [lia|].
        congruence.
  - rewrite (S4 HRp). exists [r]. split; [done|].
    split; [apply NoDup_singleton|].
    intros k. rewrite list_elem_of_singleton. split; [intros ->; eauto|].
    intros (K & HK & Ht). destruct (Hshape k K HK Ht) as [->|Hp]; [done|].
    destruct (child_reached w r HI HL (length (nests w)) k K HK Hp)
      as (R' & c' & HR' & HRf' & _); [lia|].
    congruence.
Qed.

(** X14. In a world brought about by calls that returned, the loop
    [for nest := root; nest != nil; nest = nest.GetNextNest()] over a
    nest tree ends (a loop budget of one for [GetNextNest] and more rounds
    than there are nests suffice) and goes through every nest of the tree
    exactly once. *)
Theorem nest_walk_visits_every_nest_once n fuel w t T r :
  reachable w → nestTrees w !! t = Some T → NestTree.rootNest T = Some r →
  0 < fuel → length (nests w) < n →
  ∃ l, nest_walk n fuel w r = Some l ∧ NoDup l ∧
       ∀ k, k ∈ l ↔ ∃ K, nests w !! k = Some K ∧ Nest.nestTree K = Some t.
Proof.
  intros Hreach HT Hr Hfuel Hn.
  pose proof (reachable_Inv _ Hreach) as HI.
  pose proof (reachable_links_ok _ Hreach) as HL.
  by apply (nest_walk_complete n fuel w t T r HI HL).
Qed.

Lemma nest_walk_visits_every_nest_once_witness :
  nest_walk 4 1 world_two_nests 0 = Some [0; 2; 1] ∧
  ∃ l, nest_walk 4 1 world_two_nests 0 = Some l ∧ NoDup l ∧
       ∀ k, k ∈ l ↔ ∃ K, nests world_two_nests !! k = Some K ∧
                          Nest.nestTree K = Some 0.
Proof.
  split; [by vm_compute|].
  eapply (nest_walk_visits_every_nest_once 4 1 world_two_nests 0 _ 0
            reachable_two_nests); [by vm_compute..|lia|vm_compute; lia].
Defined.

(** ** Lists that grow at the head *)

Lemma dll_ok_nil : dll_ok [] [].
Proof. split; intros *; by rewrite ?lookup_nil. Qed.

(** A new owner starts with an empty list. *)
Lemma dll_ok_new_owner heads items :
  dll_ok heads items → dll_ok (heads ++ [None]) items.
Proof.
  intros [H1 H2 H3 H4]. split; try done.
  - intros o e Ho. apply H1.
    apply lookup_app_Some in Ho as [Ho|[_ Ho]]; [done|].
    match type of Ho with _ !! ?i = _ => destruct i end; simpl in Ho; [done|].
    by rewrite lookup_nil in Ho.
  - intros e x o Hx Ho Hp. rewrite lookup_app_l; [by eapply H4|].
    eapply lookup_lt_Some. by eapply H4.
Qed.

Lemma push_item_length o e h items :
  length (push_item o e h items) = S (length items).
Proof.
  unfold push_item. destruct h; rewrite ?length_alter, length_app; simpl; lia.
Qed.

Lemma push_item_new o h items :
  (∀ f, h = Some f → f < length items) →
  push_item o (length items) h items !! length items = Some (Item (Some o) h None).
Proof.
  intros Hh. unfold push_item. destruct h as [f|].
  - rewrite list_lookup_alter_ne by (specialize (Hh f eq_refl); lia).
    by rewrite list_lookup_middle.
  - by rewrite list_lookup_middle.
Qed.

Lemma push_item_head o f items x :
  items !! f = Some x →
  push_item o (length items) (Some f) items !! f = Some (set_prv (length items) x).
Proof.
  intros Hx. unfold push_item. rewrite list_lookup_alter_eq.
  by rewrite (lookup_app_l_Some _ _ _ _ Hx).
Qed.

Lemma push_item_old o h items k :
  k < length items → h ≠ Some k →
  push_item o (length items) h items !! k = items !! k.
Proof.
  intros Hk Hh. unfold push_item. destruct h as [f|].
  - rewrite list_lookup_alter_ne by congruence. by rewrite lookup_app_l.
  - by rewrite lookup_app_l.
Qed.

(** An item of the list after a push is the new one, the former head with
    its new predecessor, or an item as before. *)
Lemma push_item_cases o h items k y :
  (∀ f, h = Some f → f < length items) →
  push_item o (length items) h items !! k = Some y →
  (k = length items ∧ y = Item (Some o) h None) ∨
  (h = Some k ∧ ∃ x, items !! k = Some x ∧ y = set_prv (length items) x) ∨
  (k < length items ∧ h ≠ Some k ∧ items !! k = Some y).
Proof.
  intros Hh Hy.
  assert (k < S (length items)) as Hk.
  { rewrite <-(push_item_length o (length items) h). by eapply lookup_lt_Some. }
  destruct (decide (k = length items)) as [->|Hne].
  - left. rewrite push_item_new in Hy by done. by injection Hy as <-.
  - right. destruct (decide (h = Some k)) as [->|Hhk].
    + left. split; [done|]. destruct (lookup_lt_is_Some_2 items k) as [x Hx]; [lia|].
      rewrite (push_item_head _ _ _ _ Hx) in Hy. injection Hy as <-. eauto.
    + right. rewrite push_item_old in Hy by (done || lia). split_and!; [lia|done..].
Qed.

(** Pushing an item on the list of [o] keeps the lists well formed. *)
Lemma dll_ok_push heads items o h :
  dll_ok heads items → heads !! o = Some h →
  dll_ok (alter (λ _, Some (length items)) o heads)
         (push_item o (length items) h items).
Proof.
  intros [H1 H2 H3 H4] Ho.
  assert (∀ f, h = Some f → f < length items) as Hh.
  { intros f ->. destruct (H1 _ _ Ho) as (x & Hx & _). by eapply lookup_lt_Some. }
  assert (∀ k x, items !! k = Some x → owner x = Some o → prv x = None →
                 h = Some k) as Hfirst.
  { intros k x Hx Hox Hpx. pose proof (H4 _ _ _ Hx Hox Hpx). congruence. }
  assert (∀ k x, items !! k = Some x →
            ∃ y, push_item o (length items) h items !! k = Some y ∧ owner y = owner x ∧
                 nxt y = nxt x ∧
                 (prv y = prv x ∨ (h = Some k ∧ prv y = Some (length items)))) as Hold.
  { intros k x Hx. destruct (decide (h = Some k)) as [->|Hne].
    - exists (set_prv (length items) x). split; [by apply push_item_head|]. simpl. eauto.
    - exists x. rewrite push_item_old; [eauto|by eapply lookup_lt_Some|done]. }
  split.
  - intros o' k Hk. destruct (decide (o' = o)) as [->|Hne].
    + rewrite list_lookup_alter_eq, Ho in Hk. injection Hk as <-.
      exists (Item (Some o) h None). by rewrite push_item_new.
    + rewrite list_lookup_alter_ne in Hk by done.
      destruct (H1 _ _ Hk) as (x & Hx & Hox & Hpx).
      destruct (Hold _ _ Hx) as (y & Hy & Hoy & _ & [Hp|[-> _]]).
      * exists y. split_and!; congruence.
      * destruct (H1 _ _ Ho) as (x' & Hx' & Hox' & _). congruence.
  - intros k y f Hy Hf.
    destruct (push_item_cases _ _ _ _ _ Hh Hy)
      as [[-> ->]|[(-> & x & Hx & ->)|(Hk & Hne & Hy')]]; cbn [owner nxt prv set_prv] in *.
    + subst h. split; [by apply Hh|].
      destruct (H1 _ _ Ho) as (x & Hx & Hox & Hpx).
      exists (set_prv (length items) x). by rewrite (push_item_head _ _ _ _ Hx).
    + destruct (H2 _ _ _ Hx Hf) as (Hlt & z & Hz & Hoz & Hpz). split; [done|].
      destruct (Hold _ _ Hz) as (z' & Hz' & Hoz' & _ & [Hp|[[= ->] _]]); [|lia].
      exists z'. split_and!; congruence.
    + destruct (H2 _ _ _ Hy' Hf) as (Hlt & z & Hz & Hoz & Hpz). split; [done|].
      destruct (Hold _ _ Hz) as (z' & Hz' & Hoz' & _ & [Hp|[-> _]]).
      * exists z'. split_and!; congruence.
      * destruct (H1 _ _ Ho) as (x' & Hx' & _ & Hpx'). congruence.
  - intros k y p Hy Hp.
    destruct (push_item_cases _ _ _ _ _ Hh Hy)
      as [[-> ->]|[(-> & x & Hx & ->)|(Hk & Hne & Hy')]]; cbn [owner nxt prv set_prv] in *.
    + done.
    + injection Hp as <-. exists (Item (Some o) (Some k) None).
      rewrite push_item_new by done. split_and!; try done. simpl.
      destruct (H1 _ _ Ho) as (x' & Hx' & Hox' & _). congruence.
    + destruct (H3 _ _ _ Hy' Hp) as (z & Hz & Hoz & Hnz).
      destruct (Hold _ _ Hz) as (z' & Hz' & Hoz' & Hnz' & _).
      exists z'. split_and!; congruence.
  - intros k y o' Hy Hoy Hpy.
    destruct (push_item_cases _ _ _ _ _ Hh Hy)
      as [[-> ->]|[(-> & x & Hx & ->)|(Hk & Hne & Hy')]]; cbn [owner nxt prv set_prv] in *.
    + injection Hoy as <-. by rewrite list_lookup_alter_eq, Ho.
    + done.
    + destruct (decide (o' = o)) as [->|Hoo].
      * by destruct Hne; eapply Hfirst.
      * rewrite list_lookup_alter_ne by done. by eapply H4.
Qed.

(** The walk from an item ends, goes through items of the same owner in
    falling order, and is closed under [nxt]. *)
Lemma dll_walk_from heads items n e x :
  dll_ok heads items → items !! e = Some x → e < n →
  ∃ l, dll_walk (S n) items (Some e) = Some l ∧ e ∈ l ∧
       (∀ i j a b, l !! i = Some a → l !! j = Some b → i < j → b < a) ∧
       (∀ k, k ∈ l → k ≤ e ∧ ∃ y, items !! k = Some y ∧ owner y = owner x) ∧
       (∀ p y k, p ∈ l → items !! p = Some y → nxt y = Some k → k ∈ l).
Proof.
  intros [H1 H2 H3 H4]. revert e x.
  induction n as [|n IH]; intros e x Hx Hn; [lia|].
  cbn [dll_walk]. rewrite Hx. destruct (nxt x) as [f|] eqn:Hf.
  - destruct (H2 _ _ _ Hx Hf) as (Hlt & y & Hy & Hoy & Hpy).
    destruct (IH f y Hy) as (l & El & Hin & Hord & Hsnd & Hcl); [lia|].
    cbn [dll_walk] in El. rewrite Hy in El. rewrite Hy, El. simpl.
    exists (e :: l). split_and!; [done| | | |].
    + by left.
    + intros [|i] [|j] a b Ha Hb Hij; simpl in *; [lia| |lia|].
      * injection Ha as <-.
        apply list_elem_of_lookup_2, Hsnd in Hb as [? _]. lia.
      * apply (Hord i j); [done..|lia].
    + intros k [->|Hk]%elem_of_cons; [eauto|].
      destruct (Hsnd k Hk) as (? & z & Hz & Hoz). split; [lia|].
      exists z. split; congruence.
    + intros p z k [->|Hp]%elem_of_cons Hz Hnz.
      * right. assert (k = f) as -> by congruence. done.
      * right. by eapply Hcl.
  - simpl. exists [e]. split_and!; [done|..].
    + by left.
    + intros [|i] [|j] a b Ha Hb Hij; simpl in *; try lia;
        by rewrite lookup_nil in Hb.
    + intros k ->%list_elem_of_singleton. eauto.
    + intros p y k ->%list_elem_of_singleton Hy Hny. congruence.
Qed.

(** Every item is met from the head of its owner. *)
Lemma dll_walk_meets heads items n o k y :
  dll_ok heads items → length items ≤ n →
  items !! k = Some y → owner y = Some o →
  ∃ h l, heads !! o = Some (Some h) ∧
         dll_walk (S n) items (Some h) = Some l ∧ k ∈ l.
Proof.
  intros Hok Hn. pose proof Hok as [H1 H2 H3 H4].
  remember (length items - k) as m eqn:Hm. revert k y Hm.
  induction (lt_wf m) as [m _ IH]. intros k y Hm Hy Hoy.
  destruct (prv y) as [p|] eqn:Hp.
  - destruct (H3 _ _ _ Hy Hp) as (z & Hz & Hoz & Hnz).
    destruct (H2 _ _ _ Hz Hnz) as (Hlt & _).
    pose proof (lookup_lt_Some _ _ _ Hz) as Hpl.
    destruct (IH (length items - p)) with (k := p) (y := z)
      as (h & l & Hh & El & Hin); [lia|done|done|congruence|].
    exists h, l. split_and!; [done..|].
    destruct (H1 _ _ Hh) as (x & Hx & _).
    destruct (dll_walk_from heads items n h x Hok Hx) as (l' & El' & _ & _ & _ & Hcl).
    { apply lookup_lt_Some in Hx. lia. }
    assert (l' = l) as -> by congruence. by eapply Hcl.
  - pose proof (H4 _ _ _ Hy Hoy Hp) as Hh.
    destruct (dll_walk_from heads items n k y Hok Hy) as (l & El & Hin & _).
    { apply lookup_lt_Some in Hy. lia. }
    by exists k, l.
Qed.

(** The walk from the head of [o] goes through the items of [o] and no
    others, the later made first. *)
Lemma dll_walk_complete heads items n o h :
  dll_ok heads items → length items ≤ n → heads !! o = Some h →
  ∃ l, dll_walk (S n) items h = Some l ∧
       (∀ i j a b, l !! i = Some a → l !! j = Some b → i < j → b < a) ∧
       ∀ k, k ∈ l ↔ ∃ y, items !! k = Some y ∧ owner y = Some o.
Proof.
  intros Hok Hn Ho. destruct h as [e|].
  - destruct (dl_head _ _ Hok _ _ Ho) as (x & Hx & Hox & _).
    destruct (dll_walk_from heads items n e x Hok Hx) as (l & El & _ & Hord & Hsnd & _).
    { apply lookup_lt_Some in Hx. lia. }
    exists l. split_and!; [done..|]. intros k. split.
    + intros Hk. destruct (Hsnd k Hk) as (_ & y & Hy & Hoy). exists y.
      split; congruence.
    + intros (y & Hy & Hoy).
      destruct (dll_walk_meets heads items n o k y Hok Hn Hy Hoy)
        as (h & l' & Hh & El' & Hin). congruence.
  - exists []. split_and!; [done| |].
    + intros i j a b Ha. by rewrite lookup_nil in Ha.
    + intros k. split.
      * by intros ?%elem_of_nil.
      * intros (y & Hy & Hoy).
        destruct (dll_walk_meets heads items n o k y Hok Hn Hy Hoy)
          as (h & l' & Hh & _). congruence.
Qed.

(** A list in falling order has no duplicates. *)
Lemma falling_NoDup (l : list nat) :
  (∀ i j a b, l !! i = Some a → l !! j = Some b → i < j → b < a) → NoDup l.
Proof.
  intros Hord. apply NoDup_alt. intros i j a Hi Hj.
  destruct (Nat.lt_trichotomy i j) as [Hlt|[->|Hgt]]; [|done|].
  - pose proof (Hord i j a a Hi Hj Hlt). lia.
  - pose proof (Hord j i a a Hj Hi Hgt). lia.
Qed.

(** ** The adjacency lists are written by [NewNode] and [NewEdge] only *)

Lemma fmap_alter_comm {A B} (h : A → B) (f : A → A) (g : B → B) (l : list A) a :
  (∀ x, h (f x) = g (h x)) → h <$> alter f a l = alter g a (h <$> l).
Proof.
  intros Hf. apply list_eq. intros i. rewrite list_lookup_fmap.
  destruct (decide (i = a)) as [->|Hne].
  - rewrite !list_lookup_alter_eq, list_lookup_fmap.
    destruct (l !! a); simpl; by rewrite ?Hf.
  - by rewrite !list_lookup_alter_ne, list_lookup_fmap by done.
Qed.

Ltac adj_write :=
  intros;
  first [ match goal with H : adj _ = _ |- _ => exact H end
        | unfold adj, out_heads, in_heads, out_items, in_items in *; simpl;
          rewrite ?fmap_alter_keep by (by intros []);
          match goal with H : _ = _ |- _ => exact H end ].

Lemma keeps_adj_calc v fuel edge :
  keeps (λ w, adj w = v) (Edge_calcNestAndMoveToIt fuel edge).
Proof. keeps_calc_script adj_write. Qed.

Lemma keeps_adj_fix_incoming v fuel n edge :
  keeps (λ w, adj w = v) (MoveToNest_fix_incoming fuel n edge).
Proof. keeps_fix_script (keeps_adj_calc v fuel). Qed.

Lemma keeps_adj_fix_outcoming v fuel n edge :
  keeps (λ w, adj w = v) (MoveToNest_fix_outcoming fuel n edge).
Proof. keeps_fix_script (keeps_adj_calc v fuel). Qed.

Lemma keeps_adj_MoveToNest v fuel node nest :
  keeps (λ w, adj w = v) (Node_MoveToNest fuel node nest).
Proof.
  keeps_MoveToNest_script adj_write
    (keeps_adj_fix_incoming v fuel) (keeps_adj_fix_outcoming v fuel).
Qed.

Lemma keeps_adj_node_sweep v fuel node attr :
  keeps (λ w, adj w = v) (ReleaseNodeStrAttr_sweep fuel node attr).
Proof. keeps_node_sweep_script adj_write. Qed.

Lemma keeps_adj_nest_sweep v fuel nest attr :
  keeps (λ w, adj w = v) (ReleaseNestStrAttr_sweep fuel nest attr).
Proof. keeps_nest_sweep_script adj_write. Qed.

Lemma keeps_adj_NewNest v nt :
  keeps (λ w, adj w = v) (NestTree_NewNest nt).
Proof. unfold NestTree_NewNest. keeps_with adj_write. Qed.

(** [NewNode] gives the new node two empty lists. *)
Lemma NewNode_adj graph w :
  pw (Graph_NewNode graph) w
     (λ _ w', adj w' = (out_heads w ++ [None], out_items w,
                        (in_heads w ++ [None], in_items w)))
     (λ _, True).
Proof.
  unfold Graph_NewNode.
  apply pw_bind, pw_load. intros g G _ _.
  destruct (Graph.nestTree G); [|apply pw_panic].
  apply pw_bind, pw_load. intros t T _ _.
  destruct (NestTree.rootNest T); [|apply pw_panic].
  apply pw_bind, pw_make. intros _.
  apply pw_bind, pw_alloc.
  match goal with |- pw _ ?w1 _ _ => apply (pw_after (λ w', adj w' = adj w1)) end;
    [unfold Nest_addNode; keeps_with adj_write|done| |done].
  intros _ w' ->. unfold adj, out_heads, in_heads, out_items, in_items. simpl.
  by rewrite !fmap_app.
Qed.

(** [NewEdge] leaves the lists alone or pushes the new edge on the
    outcoming list of the source and on the incoming list of the
    destination. *)
Lemma NewEdge_adj fuel graph src dst w :
  pw (Graph_NewEdge fuel graph src dst) w
     (λ _ w',
        adj w' = adj w ∨
        ∃ s d ho hi,
          out_heads w !! s = Some ho ∧ in_heads w !! d = Some hi ∧
          adj w' = (alter (λ _, Some (length (out_items w))) s (out_heads w),
                    push_item s (length (out_items w)) ho (out_items w),
                    (alter (λ _, Some (length (in_items w))) d (in_heads w),
                     push_item d (length (in_items w)) hi (in_items w))))
     (λ _, True).
Proof.
  unfold Graph_NewEdge.
  destruct src as [s|]; [|by left]. destruct dst as [d|]; [|by left].
  apply pw_bind, pw_load. intros ? Sn [= <-] HS.
  destruct (negb _); [by left|].
  apply pw_bind, pw_load. intros ? Dn [= <-] HD.
  destruct (negb _); [by left|]. cbv zeta.
  apply pw_bind, pw_load. intros g G _ _.
  apply pw_bind, pw_alloc.
  set (e := length (edges w)).
  assert (length (out_items w) = e) as Lo by apply length_fmap.
  assert (length (in_items w) = e) as Li by apply length_fmap.
  set (ho := Node.firstOutcomingEdge Sn). set (hi := Node.firstIncomingEdge Dn).
  assert (out_heads w !! s = Some ho) as Hho.
  { unfold out_heads. rewrite list_lookup_fmap. simpl in HS. by rewrite HS. }
  assert (in_heads w !! d = Some hi) as Hhi.
  { unfold in_heads. rewrite list_lookup_fmap. simpl in HD. by rewrite HD. }
  set (v := (alter (λ _, Some e) s (out_heads w), push_item s e ho (out_items w),
             (alter (λ _, Some e) d (in_heads w), push_item d e hi (in_items w)))).
  assert (∀ w5, adj w5 = v →
            pw (Edge_calcNestAndMoveToIt fuel (Some e) ;;;
                modify Graphs graph
                  (λ G, Graph.with_edgeCount (int_succ (Graph.edgeCount G)) G) ;;;
                ret (Some e, @None string)) w5
               (λ _ w', adj w' = adj w ∨
                  ∃ s d ho hi,
                    out_heads w !! s = Some ho ∧ in_heads w !! d = Some hi ∧
                    adj w' = (alter (λ _, Some (length (out_items w))) s (out_heads w),
                              push_item s (length (out_items w)) ho (out_items w),
                              (alter (λ _, Some (length (in_items w))) d (in_heads w),
                               push_item d (length (in_items w)) hi (in_items w))))
               (λ _, True)) as Hrest.
  { intros w5 H5. apply (pw_after (λ w', adj w' = v)); [|done| |done].
    - apply keeps_bind; [apply keeps_adj_calc|intros _]. keeps_with adj_write.
    - intros _ w' ->. right. exists s, d, ho, hi. rewrite Lo, Li. done. }
  apply pw_bind.
  eapply pw_mono with (T := λ _, True)
    (Q := λ _ w1, nodes w1 = nodes w ∧
                  out_item <$> edges w1 = push_item s e ho (out_items w) ∧
                  in_item <$> edges w1 = in_items w ++ [Item (Some d) hi None]);
    [| |done].
  { fold ho. destruct ho as [f|] eqn:Eho.
    - apply pw_modify. intros ? [= <-] _. simpl. split; [done|]. split.
      + rewrite (fmap_alter_comm out_item _ (set_prv e)) by (by intros []).
        by rewrite fmap_app.
      + rewrite fmap_alter_keep by (by intros []). by rewrite fmap_app.
    - apply pw_ret. simpl. by rewrite !fmap_app. }
  intros _ w1 (Hn1 & Ho1 & Hi1). simpl.
  apply pw_bind, pw_modify. intros ? [= <-] _.
  apply pw_bind.
  eapply pw_mono with (T := λ _, True)
    (Q := λ _ w3, nodes w3 = alter (Node.with_firstOutcomingEdge (Some e)) s (nodes w) ∧
                  out_item <$> edges w3 = push_item s e ho (out_items w) ∧
                  in_item <$> edges w3 = push_item d e hi (in_items w));
    [| |done].
  { fold hi. destruct hi as [f|] eqn:Ehi.
    - apply pw_modify. intros ? [= <-] _. simpl. rewrite Hn1. split; [done|].
      split.
      + rewrite fmap_alter_keep by (by intros []). by rewrite Ho1.
      + rewrite (fmap_alter_comm in_item _ (set_prv e)) by (by intros []).
        by rewrite Hi1.
    - apply pw_ret. simpl. by rewrite Hn1, Ho1, Hi1. }
  intros _ w3 (Hn3 & Ho3 & Hi3). simpl.
  apply pw_bind, pw_modify. intros ? [= <-] _. apply Hrest.
  unfold adj, out_heads, in_heads, out_items, in_items, v. simpl.
  rewrite Hn3, Ho3, Hi3.
  rewrite fmap_alter_keep by (by intros []).
  rewrite (fmap_alter_comm Node.firstOutcomingEdge _ (λ _, Some e)) by (by intros []).
  rewrite (fmap_alter_comm Node.firstIncomingEdge _ (λ _, Some e)) by (by intros []).
  by rewrite fmap_alter_keep by (by intros []).
Qed.

Lemma exec_adj_ok fuel c w w' :
  adj_ok_of (adj w) → exec fuel c w = Done tt w' → adj_ok_of (adj w').
Proof.
  intros HL E.
  assert (∀ {A} (m : M A) x,
            keeps (λ w0, adj w0 = adj w) m → m w = Done x w' →
            adj_ok_of (adj w')) as Hview.
  { intros A m x Hm Em.
    by rewrite (keeps_Done _ m w x w' Hm eq_refl Em). }
  destruct c; simpl in E; apply bind_Done_inv in E as (x & w1 & E & [= <-]).
  - apply NewGraph_Done_inv in E as (_ & _ & ->). exact HL.
  - eapply Hview; [|done]. keeps_attr_call_script adj_write.
  - eapply Hview; [|done]. keeps_attr_call_script adj_write.
  - eapply Hview; [|done]. keeps_attr_call_script adj_write.
  - eapply Hview; [|done]. keeps_attr_call_script adj_write.
  - eapply Hview; [|done]. keeps_attr_call_script adj_write.
  - eapply Hview; [|done].
    keeps_ReleaseNode_script adj_write (keeps_adj_node_sweep (adj w) fuel).
  - rewrite (pw_Done _ _ _ _ _ _ (NewNode_adj _ w) E).
    destruct HL as [Ho Hi]. split; by apply dll_ok_new_owner.
  - destruct (pw_Done _ _ _ _ _ _ (NewEdge_adj _ _ _ _ w) E)
      as [->|(s & d & ho & hi & Hho & Hhi & ->)]; [done|].
    destruct HL as [Ho Hi]. split; by apply dll_ok_push.
  - eapply Hview; [|done]. keeps_attr_call_script adj_write.
  - eapply Hview; [|done]. keeps_attr_call_script adj_write.
  - eapply Hview; [|done]. apply keeps_adj_MoveToNest.
  - eapply Hview; [|done]. apply keeps_adj_NewNest.
  - eapply Hview; [|done]. keeps_attr_call_script adj_write.
  - eapply Hview; [|done].
    keeps_ReleaseNest_script adj_write (keeps_adj_nest_sweep (adj w) fuel).
  - eapply Hview; [|done]. keeps_attr_call_script adj_write.
  - eapply Hview; [|done]. keeps_attr_call_script adj_write.
Qed.

Lemma reachable_adj_ok w :
  reachable w →
  dll_ok (out_heads w) (out_items w) ∧ dll_ok (in_heads w) (in_items w).
Proof.
  intros Hr. change (adj_ok_of (adj w)).
  induction Hr as [|w fuel c w' Hr IH E].
  - split; apply dll_ok_nil.
  - by eapply exec_adj_ok.
Qed.

(** ** Going through the edges of a node *)

Lemma reachable_fan : reachable world_fan.
Proof.
  pose proof reach_init as H.
  apply (reachable_exec _ 0 (Call_NewGraph DefaultAttrSpec)) in H; vm_compute in H.
  apply (reachable_exec _ 0 (Call_NewNode (Some 0))) in H; vm_compute in H.
  apply (reachable_exec _ 0 (Call_NewNode (Some 0))) in H; vm_compute in H.
  apply (reachable_exec _ 1 (Call_NewEdge (Some 0) (Some 0) (Some 1))) in H; vm_compute in H.
  apply (reachable_exec _ 1 (Call_NewEdge (Some 0) (Some 0) (Some 0))) in H; vm_compute in H.
  apply (reachable_exec _ 1 (Call_NewEdge (Some 0) (Some 1) (Some 0))) in H; vm_compute in H.
  vm_compute. exact H.
Qed.

Lemma out_walk_dll n w e : out_walk n w e = dll_walk n (out_items w) e.
Proof.
  revert e. induction n as [|n IH]; intros [a|]; simpl; try done.
  unfold Edge_GetNextOutcomingEdge, bind, load, out_items. simpl.
  rewrite list_lookup_fmap. destruct (edges w !! a); simpl; [|done].
  by rewrite IH.
Qed.

Lemma in_walk_dll n w e : in_walk n w e = dll_walk n (in_items w) e.
Proof.
  revert e. induction n as [|n IH]; intros [a|]; simpl; try done.
  unfold Edge_GetNextIncomingEdge, bind, load, in_items. simpl.
  rewrite list_lookup_fmap. destruct (edges w !! a); simpl; [|done].
  by rewrite IH.
Qed.

Lemma GetSrcNode_item w e s :
  Edge_GetSrcNode (Some e) w = Done (Some s) w ↔
  ∃ y, out_items w !! e = Some y ∧ owner y = Some s.
Proof.
  unfold Edge_GetSrcNode, bind, load, out_items, ret. simpl.
  rewrite list_lookup_fmap. destruct (edges w !! e) as [E|]; simpl.
  - split.
    + intros [= H]. eauto.
    + intros (y & [= <-] & H). simpl in H. by rewrite H.
  - split; [done|]. by intros (y & ? & _).
Qed.

Lemma GetDstNode_item w e d :
  Edge_GetDstNode (Some e) w = Done (Some d) w ↔
  ∃ y, in_items w !! e = Some y ∧ owner y = Some d.
Proof.
  unfold Edge_GetDstNode, bind, load, in_items, ret. simpl.
  rewrite list_lookup_fmap. destruct (edges w !! e) as [E|]; simpl.
  - split.
    + intros [= H]. eauto.
    + intros (y & [= <-] & H). simpl in H. by rewrite H.
  - split; [done|]. by intros (y & ? & _).
Qed.

(** X15. In a world brought about by calls that returned, the loop over
    the outcoming edges of a node, from [GetFirstOutcomingEdge] along
    [GetNextOutcomingEdge] until nil, ends within one round more than
    there are edges; it goes through the edges whose [GetSrcNode] is the
    node and through no others, each once, the later made first. *)
Theorem out_edges_are_the_edges_from_the_node n w s S :
  reachable w → nodes w !! s = Some S → length (edges w) < n →
  ∃ l, out_edges n w s = Some l ∧ NoDup l ∧
       (∀ i j a b, l !! i = Some a → l !! j = Some b → i < j → b < a) ∧
       ∀ e, e ∈ l ↔ Edge_GetSrcNode (Some e) w = Done (Some s) w.
Proof.
  intros Hr HS Hn. destruct (reachable_adj_ok w Hr) as [Hok _].
  destruct n as [|n]; [lia|].
  assert (out_heads w !! s = Some (Node.firstOutcomingEdge S)) as Hh.
  { unfold out_heads. by rewrite list_lookup_fmap, HS. }
  destruct (dll_walk_complete _ _ n s (Node.firstOutcomingEdge S) Hok)
    as (l & El & Hord & Hl); [unfold out_items; rewrite length_fmap; lia|done|].
  exists l. split_and!; [|by apply falling_NoDup|done|].
  - unfold out_edges.
    assert (Node_GetFirstOutcomingEdge (Some s) w
            = Done (Node.firstOutcomingEdge S) w) as ->.
    { unfold Node_GetFirstOutcomingEdge, bind, load. simpl. by rewrite HS. }
    by rewrite out_walk_dll.
  - intros e. by rewrite Hl, GetSrcNode_item.
Qed.

Lemma out_edges_are_the_edges_from_the_node_witness :
  out_edges 4 world_fan 0 = Some [1; 0] ∧
  ∀ e, e ∈ [1; 0] ↔ Edge_GetSrcNode (Some e) world_fan = Done (Some 0) world_fan.
Proof.
  pose proof (λ S, out_edges_are_the_edges_from_the_node 4 world_fan 0 S
                     reachable_fan) as H.
  edestruct H as (l & El & _ & _ & Hl); [by vm_compute..|].
  vm_compute in El. injection El as <-.
  split; [by vm_compute|exact Hl].
Defined.

(** X16. In a world brought about by calls that returned, the loop over
    the incoming edges of a node, from [GetFirstIncomingEdge] along
    [GetNextIncomingEdge] until nil, ends within one round more than
    there are edges; it goes through the edges whose [GetDstNode] is the
    node and through no others, each once, the later made first. *)
Theorem in_edges_are_the_edges_to_the_node n w d D :
  reachable w → nodes w !! d = Some D → length (edges w) < n →
  ∃ l, in_edges n w d = Some l ∧ NoDup l ∧
       (∀ i j a b, l !! i = Some a → l !! j = Some b → i < j → b < a) ∧
       ∀ e, e ∈ l ↔ Edge_GetDstNode (Some e) w = Done (Some d) w.
Proof.
  intros Hr HD Hn. destruct (reachable_adj_ok w Hr) as [_ Hok].
  destruct n as [|n]; [lia|].
  assert (in_heads w !! d = Some (Node.firstIncomingEdge D)) as Hh.
  { unfold in_heads. by rewrite list_lookup_fmap, HD. }
  destruct (dll_walk_complete _ _ n d (Node.firstIncomingEdge D) Hok)
    as (l & El & Hord & Hl); [unfold in_items; rewrite length_fmap; lia|done|].
  exists l. split_and!; [|by apply falling_NoDup|done|].
  - unfold in_edges.
    assert (Node_GetFirstIncomingEdge (Some d) w
            = Done (Node.firstIncomingEdge D) w) as ->.
    { unfold Node_GetFirstIncomingEdge, bind, load. simpl. by rewrite HD. }
    by rewrite in_walk_dll.
  - intros e. by rewrite Hl, GetDstNode_item.
Qed.

Lemma in_edges_are_the_edges_to_the_node_witness :
  in_edges 4 world_fan 0 = Some [2; 1] ∧
  ∀ e, e ∈ [2; 1] ↔ Edge_GetDstNode (Some e) world_fan = Done (Some 0) world_fan.
Proof.
  pose proof (λ D, in_edges_are_the_edges_to_the_node 4 world_fan 0 D
                     reachable_fan) as H.
  edestruct H as (l & El & _ & _ & Hl); [by vm_compute..|].
  vm_compute in El. injection El as <-.
  split; [by vm_compute|exact Hl].
Defined.

(** ** The neighbours of an edge *)

Lemma dll_neighbours heads items e x o :
  dll_ok heads items → items !! e = Some x → owner x = Some o →
  (∀ f, nxt x = Some f →
        ∃ y, items !! f = Some y ∧ prv y = Some e ∧ owner y = Some o) ∧
  (∀ p, prv x = Some p → ∃ y, items !! p = Some y ∧ nxt y = Some e) ∧
  (prv x = None ↔ heads !! o = Some (Some e)).
Proof.
  intros [H1 H2 H3 H4] Hx Ho. split_and!.
  - intros f Hf. destruct (H2 _ _ _ Hx Hf) as (_ & y & Hy & Hoy & Hpy).
    exists y. split_and!; congruence.
  - intros p Hp. destruct (H3 _ _ _ Hx Hp) as (y & Hy & _ & Hny). eauto.
  - split; [by eapply H4|]. intros Hh.
    destruct (H1 _ _ Hh) as (x' & Hx' & _ & Hp). congruence.
Qed.

Lemma edge_getters_run w e E :
  edges w !! e = Some E →
  Edge_GetSrcNode (Some e) w = Done (Edge.srcNode E) w ∧
  Edge_GetDstNode (Some e) w = Done (Edge.dstNode E) w ∧
  Edge_GetNextOutcomingEdge (Some e) w = Done (Edge.nextOutcomingEdge E) w ∧
  Edge_GetPrevOutcomingEdge (Some e) w = Done (Edge.prevOutcomingEdge E) w ∧
  Edge_GetNextIncomingEdge (Some e) w = Done (Edge.nextIncomingEdge E) w ∧
  Edge_GetPrevIncomingEdge (Some e) w = Done (Edge.prevIncomingEdge E) w.
Proof.
  intros HE.
  unfold Edge_GetSrcNode, Edge_GetDstNode, Edge_GetNextOutcomingEdge,
    Edge_GetPrevOutcomingEdge, Edge_GetNextIncomingEdge,
    Edge_GetPrevIncomingEdge, bind, load, ret. simpl. by rewrite HE.
Qed.

Lemma item_edge {h : Edge.t → item} w e y :
  (h <$> edges w) !! e = Some y → ∃ E, edges w !! e = Some E ∧ y = h E.
Proof.
  rewrite list_lookup_fmap. destruct (edges w !! e) as [E|]; [|done].
  intros [= <-]. eauto.
Qed.

(** X17. In a world brought about by calls that returned, an edge has a
    source and a destination, and its neighbours in the two adjacency
    lists point back at it: the previous edge of its next outcoming edge
    is the edge, and that edge leaves the same source; the next edge of
    its previous outcoming edge is the edge; it has no previous outcoming
    edge exactly when it is the first outcoming edge of its source; and
    the same holds of the incoming list of its destination. *)
Theorem edge_neighbours_point_back w e E :
  reachable w → edges w !! e = Some E →
  ∃ s d,
    Edge_GetSrcNode (Some e) w = Done (Some s) w ∧
    Edge_GetDstNode (Some e) w = Done (Some d) w ∧
    (∀ f, Edge_GetNextOutcomingEdge (Some e) w = Done (Some f) w →
          Edge_GetPrevOutcomingEdge (Some f) w = Done (Some e) w ∧
          Edge_GetSrcNode (Some f) w = Done (Some s) w) ∧
    (∀ p, Edge_GetPrevOutcomingEdge (Some e) w = Done (Some p) w →
          Edge_GetNextOutcomingEdge (Some p) w = Done (Some e) w) ∧
    (Edge_GetPrevOutcomingEdge (Some e) w = Done None w ↔
     Node_GetFirstOutcomingEdge (Some s) w = Done (Some e) w) ∧
    (∀ f, Edge_GetNextIncomingEdge (Some e) w = Done (Some f) w →
          Edge_GetPrevIncomingEdge (Some f) w = Done (Some e) w ∧
          Edge_GetDstNode (Some f) w = Done (Some d) w) ∧
    (∀ p, Edge_GetPrevIncomingEdge (Some e) w = Done (Some p) w →
          Edge_GetNextIncomingEdge (Some p) w = Done (Some e) w) ∧
    (Edge_GetPrevIncomingEdge (Some e) w = Done None w ↔
     Node_GetFirstIncomingEdge (Some d) w = Done (Some e) w).
Proof.
  intros Hr HE. pose proof (reachable_Inv _ Hr) as HI.
  destruct (reachable_adj_ok w Hr) as [Hout Hin].
  destruct (inv_edge _ _ HI _ _ HE) as [((s & S & d & D & Hs & HS & Hd & HD & _) & _) _].
  destruct (edge_getters_run w e E HE) as (Gs & Gd & Gno & Gpo & Gni & Gpi).
  assert (out_items w !! e = Some (out_item E)) as Ho.
  { unfold out_items. by rewrite list_lookup_fmap, HE. }
  assert (in_items w !! e = Some (in_item E)) as Hi.
  { unfold in_items. by rewrite list_lookup_fmap, HE. }
  destruct (dll_neighbours _ _ e _ s Hout Ho Hs) as (On & Op & Of).
  destruct (dll_neighbours _ _ e _ d Hin Hi Hd) as (In & Ip & If).
  assert (Node_GetFirstOutcomingEdge (Some s) w
          = Done (Node.firstOutcomingEdge S) w) as GfS.
  { unfold Node_GetFirstOutcomingEdge, bind, load. simpl. by rewrite HS. }
  assert (Node_GetFirstIncomingEdge (Some d) w
          = Done (Node.firstIncomingEdge D) w) as GfD.
  { unfold Node_GetFirstIncomingEdge, bind, load. simpl. by rewrite HD. }
  assert (out_heads w !! s = Some (Node.firstOutcomingEdge S)) as HhS.
  { unfold out_heads. by rewrite list_lookup_fmap, HS. }
  assert (in_heads w !! d = Some (Node.firstIncomingEdge D)) as HhD.
  { unfold in_heads. by rewrite list_lookup_fmap, HD. }
  exists s, d. rewrite Gs, Gd, Gno, Gpo, Gni, Gpi, GfS, GfD, Hs, Hd.
  split_and!; try done.
  - intros f [= Hf]. destruct (On f Hf) as (y & Hy & Hpy & Hoy).
    apply item_edge in Hy as (F & HF & ->).
    destruct (edge_getters_run w f F HF) as (-> & _ & _ & -> & _).
    simpl in Hpy, Hoy. by rewrite Hpy, Hoy.
  - intros p [= Hp]. destruct (Op p Hp) as (y & Hy & Hny).
    apply item_edge in Hy as (P & HP & ->).
    destruct (edge_getters_run w p P HP) as (_ & _ & -> & _).
    simpl in Hny. by rewrite Hny.
  - split.
    + intros [= Hp]. apply Of in Hp.
      pose proof (eq_trans (eq_sym HhS) Hp) as Hq. by injection Hq as ->.
    + intros [= Hf]. f_equal. apply Of. exact (eq_trans HhS (f_equal Some Hf)).
  - intros f [= Hf]. destruct (In f Hf) as (y & Hy & Hpy & Hoy).
    apply item_edge in Hy as (F & HF & ->).
    destruct (edge_getters_run w f F HF) as (_ & -> & _ & _ & _ & ->).
    simpl in Hpy, Hoy. by rewrite Hpy, Hoy.
  - intros p [= Hp]. destruct (Ip p Hp) as (y & Hy & Hny).
    apply item_edge in Hy as (P & HP & ->).
    destruct (edge_getters_run w p P HP) as (_ & _ & _ & _ & -> & _).
    simpl in Hny. by rewrite Hny.
  - split.
    + intros [= Hp]. apply If in Hp.
      pose proof (eq_trans (eq_sym HhD) Hp) as Hq. by injection Hq as ->.
    + intros [= Hf]. f_equal. apply If. exact (eq_trans HhD (f_equal Some Hf)).
Qed.

Lemma edge_neighbours_point_back_witness :
  Edge_GetNextOutcomingEdge (Some 1) world_fan = Done (Some 0) world_fan ∧
  Edge_GetPrevOutcomingEdge (Some 0) world_fan = Done (Some 1) world_fan ∧
  Edge_GetSrcNode (Some 0) world_fan = Done (Some 0) world_fan ∧
  Edge_GetPrevIncomingEdge (Some 1) world_fan = Done (Some 2) world_fan ∧
  Edge_GetNextIncomingEdge (Some 2) world_fan = Done (Some 1) world_fan.
Proof.
  pose proof (λ E, edge_neighbours_point_back world_fan 1 E reachable_fan) as H.
  edestruct H as (s & d & Hs & Hd & Hno & _ & _ & _ & Hpi & _); [by vm_compute|].
  vm_compute in Hs. injection Hs as <-.
  assert (Edge_GetNextOutcomingEdge (Some 1) world_fan = Done (Some 0) world_fan)
    as H1 by (by vm_compute).
  assert (Edge_GetPrevIncomingEdge (Some 1) world_fan = Done (Some 2) world_fan)
    as H2 by (by vm_compute).
  destruct (Hno 0 H1) as [H3 H4].
  exact (conj H1 (conj H3 (conj H4 (conj H2 (Hpi 2 H2))))).
Defined.

(** ** Lists that lose items *)

Lemma hd_or_app q l1 l2 : hd_or q (l1 ++ l2) = hd_or (hd_or q l2) l1.
Proof. by destruct l1. Qed.

Lemma hd_or_None l : hd_or None l = head l.
Proof. by destruct l. Qed.

Lemma last_or_snoc p l a : last_or p (l ++ [a]) = Some a.
Proof. revert p. induction l as [|b l IH]; intros p; simpl; [done|apply IH]. Qed.

Lemma linked_ext items items' p ls q :
  (∀ j, j ∈ ls → items' !! j = items !! j) →
  linked items p ls q → linked items' p ls q.
Proof.
  revert p. induction ls as [|i l IH]; intros p Hagree; simpl; [done|].
  intros [(x & Hx & Hp & Hn) Hl]. split.
  - exists x. rewrite Hagree; [done|by left].
  - apply IH; [|done]. intros j Hj. apply Hagree. by right.
Qed.

Lemma linked_app items p l1 l2 q :
  linked items p (l1 ++ l2) q ↔
  linked items p l1 (hd_or q l2) ∧ linked items (last_or p l1) l2 q.
Proof.
  revert p. induction l1 as [|a l1 IH]; intros p; simpl.
  - tauto.
  - rewrite IH, hd_or_app. tauto.
Qed.

Lemma linked_set_first items p p' a l q :
  a ∉ l → linked items p (a :: l) q →
  linked (alter (set_prv_to p') a items) p' (a :: l) q.
Proof.
  simpl. intros Ha [(x & Hx & Hp & Hn) Hl]. split.
  - exists (set_prv_to p' x). by rewrite list_lookup_alter_eq, Hx.
  - apply (linked_ext items); [|done]. intros j Hj.
    rewrite list_lookup_alter_ne; [done|]. by intros ->.
Qed.

Lemma linked_set_last items p l a q q' :
  a ∉ l → linked items p (l ++ [a]) q →
  linked (alter (set_nxt q') a items) p (l ++ [a]) q'.
Proof.
  rewrite !linked_app. simpl. intros Ha [H1 [(x & Hx & Hp & Hn) _]].
  split; [|split; [|done]].
  - apply (linked_ext items); [|done]. intros j Hj.
    rewrite list_lookup_alter_ne; [done|]. by intros ->.
  - exists (set_nxt q' x). by rewrite list_lookup_alter_eq, Hx.
Qed.

(** The members of a linked list are items. *)
Lemma linked_lookup items p ls q j :
  linked items p ls q → j ∈ ls → is_Some (items !! j).
Proof.
  revert p. induction ls as [|i l IH]; intros p; simpl.
  - by intros _ ?%elem_of_nil.
  - intros [(x & Hx & _) Hl] [->|Hj]%elem_of_cons; [eauto|by eapply IH].
Qed.

Lemma lists_ok_nil : lists_ok None [] [].
Proof.
  split.
  - simpl. intros o Ho. lia.
  - intros i x. by rewrite lookup_nil.
Qed.

(** An owner without items has the empty list. *)
Lemma lists_ok_new_owner skip heads items :
  lists_ok skip heads items → lists_ok skip (heads ++ [None]) items.
Proof.
  intros [HL HO]. split.
  - intros o Ho. rewrite length_app in Ho. simpl in Ho.
    destruct (decide (o < length heads)) as [Hlt|Hge].
    + destruct (HL o Hlt) as (ls & Hh & Hrest). exists ls.
      split; [|done]. by rewrite lookup_app_l.
    + assert (o = length heads) as -> by lia. exists [].
      split_and!; [by rewrite list_lookup_middle|apply NoDup_nil_2|done|].
      intros i. split; [by intros ?%elem_of_nil|].
      intros (Hs & x & Hx & Hox). destruct (HO i x Hx Hs) as (o & Ho' & Hlt).
      rewrite Hox in Ho'. injection Ho' as <-. lia.
  - intros i x Hx Hs. destruct (HO i x Hx Hs) as (o & Ho & Hlt).
    exists o. rewrite length_app. split; [done|lia].
Qed.

(** A new item is not in a list yet. *)
Lemma lists_ok_alloc heads items x :
  lists_ok None heads items →
  lists_ok (Some (length items)) heads (items ++ [x]).
Proof.
  intros [HL HO]. split.
  - intros o Ho. destruct (HL o Ho) as (ls & Hh & Hnd & Hlk & Hmem).
    exists ls. split_and!; [done..| |].
    + apply (linked_ext items); [|done]. intros j Hj.
      apply (linked_lookup _ _ _ _ _ Hlk) in Hj as [y Hy].
      by rewrite (lookup_app_l_Some _ _ _ _ Hy).
    + intros i. rewrite Hmem. split.
      * intros (_ & y & Hy & Hoy). split.
        -- intros [= ->]. apply lookup_lt_Some in Hy. lia.
        -- exists y. by rewrite (lookup_app_l_Some _ _ _ _ Hy).
      * intros (Hs & y & Hy & Hoy). split; [done|]. exists y. split; [|done].
        apply lookup_app_Some in Hy as [Hy|[Hle Hy]]; [done|].
        assert (i ≠ length items) as Hne by congruence.
        apply lookup_lt_Some in Hy. simpl in Hy. lia.
  - intros i y Hy Hs. apply HO with i; [|done].
    apply lookup_app_Some in Hy as [Hy|[Hle Hy]]; [done|].
    assert (i ≠ length items) as Hne by congruence.
    apply lookup_lt_Some in Hy. simpl in Hy. lia.
Qed.

(** The item out of the lists may change its owner. *)
Lemma lists_ok_retarget heads items i o' :
  lists_ok (Some i) heads items → o' < length heads →
  lists_ok (Some i) heads (alter (set_owner (Some o')) i items).
Proof.
  intros [HL HO] Ho'.
  assert (∀ j, Some j ≠ Some i →
            alter (set_owner (Some o')) i items !! j = items !! j) as Hsame.
  { intros j Hj. rewrite list_lookup_alter_ne; [done|congruence]. }
  split.
  - intros o Ho. destruct (HL o Ho) as (ls & Hh & Hnd & Hlk & Hmem).
    exists ls. split_and!; [done..| |].
    + apply (linked_ext items); [|done]. intros j Hj.
      apply Hsame. by apply Hmem in Hj as [? _].
    + intros j. rewrite Hmem. split.
      * intros (Hs & Hy). by rewrite Hsame.
      * intros (Hs & Hy). by rewrite Hsame in Hy.
  - intros j y Hy Hs. rewrite Hsame in Hy by done. by eapply HO.
Qed.

Lemma snoc_cases (l : list nat) : l = [] ∨ ∃ l' a, l = l' ++ [a].
Proof.
  induction l as [|b l IH]; [by left|right].
  destruct IH as [->|(l' & a & ->)]; [by exists [], b|by exists (b :: l'), a].
Qed.

Lemma owner_alter (f : item → item) a (items : list item) j :
  (∀ x, owner (f x) = owner x) →
  owner <$> alter f a items !! j = owner <$> items !! j.
Proof. intros Hf. apply fmap_lookup_alter. intros x _. apply Hf. Qed.

(** Taking an item out of its list keeps the lists, the item apart. *)
Lemma lists_ok_unlink heads items k i x :
  lists_ok None heads items → items !! i = Some x → owner x = Some k →
  lists_ok (Some i) (unlink k i x (heads, items)).1
           (unlink k i x (heads, items)).2.
Proof.
  intros [HL HO] Hx Hk.
  destruct (HO i x Hx) as (k' & Hk' & Hlt); [done|].
  assert (k' = k) as -> by congruence.
  destruct (HL k Hlt) as (ls & Hh & Hnd & Hlk & Hmem).
  assert (i ∈ ls) as Hi by (apply Hmem; eauto).
  apply list_elem_of_split in Hi as (l1 & l2 & ->).
  apply list.NoDup_app in Hnd as (Hnd1 & Hdis & Hnd2').
  pose proof (NoDup_cons_1_1 _ _ Hnd2') as Hi2.
  pose proof (NoDup_cons_1_2 _ _ Hnd2') as Hnd2.
  assert (i ∉ l1) as Hi1.
  { intros Hin. apply (Hdis i Hin). by left. }
  apply linked_app in Hlk as [Hlk1 [(x' & Hx' & Hp & Hn) Hlk2]].
  assert (x' = x) as -> by congruence. simpl in Hlk1.
  unfold unlink. cbn [fst snd].
  set (items1 := match nxt x with
                 | Some n => alter (set_prv_to (prv x)) n items
                 | None => items
                 end).
  set (items2 := match prv x with
                 | Some p => alter (set_nxt (nxt x)) p items1
                 | None => items1
                 end).
  set (heads2 := match prv x with
                 | Some _ => heads
                 | None => alter (λ _, nxt x) k heads
                 end).
  set (items' := alter (set_prv_to None) i (alter (set_nxt None) i items2)).
  assert (linked items1 None l1 (Some i)) as A1.
  { apply (linked_ext items); [|done]. intros j Hj. unfold items1.
    destruct l2 as [|n l2']; simpl in Hn; rewrite Hn; [done|].
    rewrite list_lookup_alter_ne; [done|]. intros Ejn. subst j.
    apply (Hdis n Hj). right. by left. }
  assert (linked items1 (prv x) l2 None) as A2.
  { unfold items1. destruct l2 as [|n l2']; simpl in Hn; rewrite Hn; [done|].
    apply (linked_set_first _ (Some i)); [|done]. by apply NoDup_cons_1_1. }
  assert (linked items2 None (l1 ++ l2) None) as K1.
  { apply linked_app. unfold items2.
    destruct (snoc_cases l1) as [->|(l1' & p & ->)].
    - simpl in Hp. rewrite Hp. split; [done|]. by rewrite Hp in A2.
    - rewrite last_or_snoc in Hp. rewrite Hp, last_or_snoc. split.
      + rewrite <- Hn. apply (linked_set_last _ _ _ _ (Some i)); [|done].
        apply list.NoDup_app in Hnd1 as (_ & Hd & _). intros Hin.
        apply (Hd p Hin). by left.
      + apply (linked_ext items1); [|by rewrite <- Hp].
        intros j Hj. rewrite list_lookup_alter_ne; [done|]. intros Ejp. subst j.
        apply (Hdis p); [apply elem_of_app; right; by left|by right]. }
  assert (linked items' None (l1 ++ l2) None) as K1'.
  { apply (linked_ext items2); [|done]. intros j Hj. unfold items'.
    assert (i ≠ j) as Hij.
    { intros ->. apply elem_of_app in Hj as [?|?]; done. }
    by rewrite !list_lookup_alter_ne by done. }
  assert (heads2 !! k = Some (head (l1 ++ l2))) as K2.
  { unfold heads2. destruct l1 as [|a l1'].
    - simpl in Hp. rewrite Hp, list_lookup_alter_eq, Hh. simpl.
      by rewrite Hn, hd_or_None.
    - destruct (snoc_cases (a :: l1')) as [?|(l1'' & p & E)]; [done|].
      rewrite E, last_or_snoc in Hp. by rewrite Hp, Hh. }
  assert (∀ o, o ≠ k → heads2 !! o = heads !! o) as K5.
  { intros o Ho. unfold heads2. destruct (prv x); [done|].
    by rewrite list_lookup_alter_ne. }
  assert (length heads2 = length heads) as K6.
  { unfold heads2. destruct (prv x); [done|]. by rewrite length_alter. }
  assert (∀ j, owner <$> items' !! j = owner <$> items !! j) as K4.
  { intros j. unfold items', items2, items1.
    rewrite !owner_alter by done.
    destruct (prv x), (nxt x); by rewrite ?owner_alter. }
  assert (∀ j, j ∉ l1 ++ i :: l2 → items' !! j = items !! j) as K3.
  { intros j Hj. unfold items', items2, items1.
    assert (j ≠ i) as Hji.
    { intros ->. apply Hj, elem_of_app. right. by left. }
    rewrite !list_lookup_alter_ne by done.
    assert (prv x ≠ Some j) as Hpj.
    { intros Hpx. rewrite Hpx in Hp.
      destruct (snoc_cases l1) as [->|(l1' & p & ->)]; [done|].
      rewrite last_or_snoc in Hp. injection Hp as ->.
      apply Hj. apply elem_of_app. left. apply elem_of_app. right. by left. }
    assert (nxt x ≠ Some j) as Hnj.
    { intros Hnx. rewrite Hnx in Hn. destruct l2 as [|n l2']; [done|].
      injection Hn as ->. apply Hj. apply elem_of_app. right. right. by left. }
    destruct (prv x) as [p|], (nxt x) as [n|];
      rewrite ?list_lookup_alter_ne by congruence; done. }
  assert (∀ j o, (∃ y, items' !! j = Some y ∧ owner y = Some o) ↔
                 (∃ y, items !! j = Some y ∧ owner y = Some o)) as K7.
  { intros j o. specialize (K4 j).
    destruct (items' !! j) as [y'|], (items !! j) as [y|]; simpl in K4;
      try done.
    injection K4 as K4.
    split; intros (? & [= <-] & ?); eexists; (split; [done|congruence]). }
  split.
  - intros o Ho. rewrite K6 in Ho. destruct (decide (o = k)) as [->|Hne].
    + exists (l1 ++ l2). split_and!; [done| |done|].
      * apply list.NoDup_app. split_and!; [done| |done].
        intros a Ha Ha2. apply (Hdis a Ha). by right.
      * intros j. rewrite K7, elem_of_app. split.
        -- intros Hj. split.
           ++ intros [= ->]. by destruct Hj.
           ++ apply Hmem. apply elem_of_app. destruct Hj; [by left|right; by right].
        -- intros (Hji & Hy). assert (j ∈ l1 ++ i :: l2) as Hj by (by apply Hmem).
           apply elem_of_app in Hj as [?|[->|?]%elem_of_cons]; [by left|done|by right].
    + destruct (HL o Ho) as (ls & Hh' & Hnd' & Hlk' & Hmem').
      assert (∀ j, j ∈ ls → j ∉ l1 ++ i :: l2) as Hother.
      { intros j Hj Hj'. apply Hmem' in Hj as (_ & y & Hy & Hoy).
        apply Hmem in Hj' as (_ & y' & Hy' & Hoy'). congruence. }
      exists ls. split_and!; [by rewrite K5|done| |].
      * apply (linked_ext items); [|done]. intros j Hj. by apply K3, Hother.
      * intros j. rewrite K7, Hmem'. split.
        -- intros (_ & Hy). split; [|done]. intros [= ->].
           destruct Hy as (y & Hy & Hoy). congruence.
        -- intros (_ & Hy). by split.
  - intros j y Hy Hs. rewrite K6.
    specialize (K4 j). rewrite Hy in K4. simpl in K4.
    destruct (items !! j) as [y0|] eqn:Hy0; [|done]. injection K4 as K4.
    destruct (HO j y0 Hy0) as (o & Ho & Hlt'); [done|].
    exists o. split; [congruence|done].
Qed.

(** Putting the item that is out of the lists in front of the list of its
    owner makes the lists whole. *)
Lemma lists_ok_push heads items k i x h :
  lists_ok (Some i) heads items → items !! i = Some x → owner x = Some k →
  prv x = None → heads !! k = Some h →
  lists_ok None (push k i h (heads, items)).1 (push k i h (heads, items)).2.
Proof.
  intros [HL HO] Hx Hk Hp Hh.
  pose proof (lookup_lt_Some _ _ _ Hh) as Hlt.
  destruct (HL k Hlt) as (ls & Hh' & Hnd & Hlk & Hmem).
  assert (h = head ls) as -> by congruence.
  assert (i ∉ ls) as Hi.
  { intros Hin. by apply Hmem in Hin as [? _]. }
  unfold push. cbn [fst snd].
  set (items1 := match head ls with
                 | Some f => alter (set_prv_to (Some i)) f items
                 | None => items
                 end).
  set (items' := alter (set_nxt (head ls)) i items1).
  assert (items1 !! i = Some x) as Hx1.
  { unfold items1. destruct ls as [|f l]; simpl; [done|].
    rewrite list_lookup_alter_ne; [done|]. intros ->. apply Hi. by left. }
  assert (linked items1 (Some i) ls None) as A1.
  { unfold items1. destruct ls as [|f l]; simpl head; [done|].
    apply (linked_set_first _ None); [|done]. by apply NoDup_cons_1_1. }
  assert (linked items' None (i :: ls) None) as K1.
  { simpl. split.
    - exists (set_nxt (head ls) x). unfold items'.
      rewrite list_lookup_alter_eq, Hx1. simpl. by rewrite hd_or_None.
    - apply (linked_ext items1); [|done]. intros j Hj. unfold items'.
      rewrite list_lookup_alter_ne; [done|]. by intros ->. }
  assert (∀ j, owner <$> items' !! j = owner <$> items !! j) as K4.
  { intros j. unfold items', items1. rewrite owner_alter by done.
    destruct (head ls); by rewrite ?owner_alter. }
  assert (∀ j, j ≠ i → head ls ≠ Some j → items' !! j = items !! j) as K3.
  { intros j Hji Hhj. unfold items', items1.
    rewrite list_lookup_alter_ne by done.
    destruct (head ls) as [f|]; [|done].
    rewrite list_lookup_alter_ne; [done|congruence]. }
  assert (∀ j o, (∃ y, items' !! j = Some y ∧ owner y = Some o) ↔
                 (∃ y, items !! j = Some y ∧ owner y = Some o)) as K7.
  { intros j o. specialize (K4 j).
    destruct (items' !! j) as [y'|], (items !! j) as [y|]; simpl in K4;
      try done.
    injection K4 as K4.
    split; intros (? & [= <-] & ?); eexists; (split; [done|congruence]). }
  split.
  - intros o Ho. rewrite length_alter in Ho.
    destruct (decide (o = k)) as [->|Hne].
    + exists (i :: ls). split_and!; [|by apply NoDup_cons_2|done|].
      * by rewrite list_lookup_alter_eq, Hh.
      * intros j. rewrite K7, elem_of_cons. split.
        -- intros [->|Hj]; (split; [done|]); [eauto|]. by apply Hmem in Hj as [_ ?].
        -- intros (_ & Hy). destruct (decide (j = i)) as [->|Hji]; [by left|].
           right. apply Hmem. split; [congruence|done].
    + destruct (HL o Ho) as (ls' & Hh'' & Hnd' & Hlk' & Hmem').
      exists ls'. split_and!; [by rewrite list_lookup_alter_ne|done| |].
      * apply (linked_ext items); [|done]. intros j Hj.
        apply Hmem' in Hj as (Hji & y & Hy & Hoy).
        apply K3; [congruence|]. intros Hhj.
        assert (j ∈ ls) as Hjl by (destruct ls; [done|injection Hhj as ->; by left]).
        apply Hmem in Hjl as (_ & y' & Hy' & Hoy'). congruence.
      * intros j. rewrite K7, Hmem'. split.
        -- intros (_ & Hy). by split.
        -- intros (_ & Hy). split; [|done]. intros [= ->].
           destruct Hy as (y & Hy & Hoy). congruence.
  - intros j y Hy _. rewrite length_alter.
    specialize (K4 j). rewrite Hy in K4. simpl in K4.
    destruct (items !! j) as [y0|] eqn:Hy0; [|done]. injection K4 as K4.
    destruct (decide (j = i)) as [->|Hji].
    + exists k. split; [congruence|done].
    + destruct (HO j y0 Hy0) as (o & Ho & Hlt'); [congruence|].
      exists o. split; [congruence|done].
Qed.

(** ** The node lists are written by [NewNode] and [MoveToNest] only *)

Ltac nview_write :=
  intros;
  first [ match goal with H : nview _ = _ |- _ => exact H end
        | unfold nview, node_heads, node_items in *; simpl;
          rewrite ?fmap_alter_keep by (by intros []);
          match goal with H : _ = _ |- _ => exact H end ].

Lemma keeps_nview_calc v fuel edge :
  keeps (λ w, nview w = v) (Edge_calcNestAndMoveToIt fuel edge).
Proof. keeps_calc_script nview_write. Qed.

Lemma keeps_nview_fix_incoming v fuel n edge :
  keeps (λ w, nview w = v) (MoveToNest_fix_incoming fuel n edge).
Proof. keeps_fix_script (keeps_nview_calc v fuel). Qed.

Lemma keeps_nview_fix_outcoming v fuel n edge :
  keeps (λ w, nview w = v) (MoveToNest_fix_outcoming fuel n edge).
Proof. keeps_fix_script (keeps_nview_calc v fuel). Qed.

Lemma keeps_nview_NewEdge v fuel graph src dst :
  keeps (λ w, nview w = v) (Graph_NewEdge fuel graph src dst).
Proof. keeps_NewEdge_script nview_write (keeps_nview_calc v fuel). Qed.

Lemma keeps_nview_node_sweep v fuel node attr :
  keeps (λ w, nview w = v) (ReleaseNodeStrAttr_sweep fuel node attr).
Proof. keeps_node_sweep_script nview_write. Qed.

Lemma keeps_nview_nest_sweep v fuel nest attr :
  keeps (λ w, nview w = v) (ReleaseNestStrAttr_sweep fuel nest attr).
Proof. keeps_nest_sweep_script nview_write. Qed.

(** [removeNode] takes the node out of the list of the nest. *)
Lemma removeNode_nview k i w :
  pw (Nest_removeNode (Some k) (Some i)) w
     (λ _ w', ∃ x, node_items w !! i = Some x ∧
                   nview w' = unlink k i x (nview w))
     (λ _, True).
Proof.
  unfold Nest_removeNode.
  apply pw_bind, pw_load. intros ? N [= <-] HN.
  destruct (Nest.nestTree N); [|apply pw_panic].
  apply pw_bind, pw_load. intros t T _ _.
  apply pw_bind, pw_load. intros ? Nd [= <-] HNd. simpl in HNd.
  destruct (negb _); [apply pw_panic|]. cbv zeta.
  set (x := node_item Nd).
  assert (node_items w !! i = Some x) as Hx.
  { unfold node_items. by rewrite list_lookup_fmap, HNd. }
  set (items1 := match nxt x with
                 | Some n => alter (set_prv_to (prv x)) n (node_items w)
                 | None => node_items w
                 end).
  set (items2 := match prv x with
                 | Some p => alter (set_nxt (nxt x)) p items1
                 | None => items1
                 end).
  set (heads2 := match prv x with
                 | Some _ => node_heads w
                 | None => alter (λ _, nxt x) k (node_heads w)
                 end).
  apply pw_bind.
  eapply pw_mono with (T := λ _, True)
    (Q := λ _ w1, node_heads w1 = node_heads w ∧ node_items w1 = items1);
    [| |done].
  { unfold items1. change (nxt x) with (Node.nextNodeInNest Nd).
    destruct (Node.nextNodeInNest Nd) as [nn|].
    - apply pw_modify. intros ? [= <-] _.
      unfold node_heads, node_items. simpl. split; [done|].
      by rewrite (fmap_alter_comm node_item _ (set_prv_to (prv x))) by (by intros []).
    - apply pw_modify. intros ? [= <-] _.
      unfold node_heads, node_items. simpl. split; [|done].
      by rewrite fmap_alter_keep by (by intros []). }
  intros _ w1 [Hh1 Hi1]. simpl.
  apply pw_bind.
  eapply pw_mono with (T := λ _, True)
    (Q := λ _ w2, node_heads w2 = heads2 ∧ node_items w2 = items2);
    [| |done].
  { unfold items2, heads2. change (prv x) with (Node.prevNodeInNest Nd).
    destruct (Node.prevNodeInNest Nd) as [pp|].
    - apply pw_modify. intros ? [= <-] _.
      unfold node_heads, node_items in *. simpl. split; [done|].
      rewrite (fmap_alter_comm node_item _ (set_nxt (nxt x))) by (by intros []).
      by rewrite Hi1.
    - apply pw_modify. intros ? [= <-] _.
      unfold node_heads, node_items in *. simpl. split; [|done].
      rewrite (fmap_alter_comm Nest.firstNode _ (λ _, nxt x)) by (by intros []).
      by rewrite Hh1. }
  intros _ w2 [Hh2 Hi2]. simpl.
  apply pw_bind, pw_modify. intros ? [= <-] _.
  apply pw_modify. intros ? [= <-] _.
  exists x. split; [done|].
  unfold unlink, nview. cbn [fst snd]. fold items1 items2 heads2.
  unfold node_heads, node_items in *. simpl. f_equal; [done|].
  rewrite (fmap_alter_comm node_item _ (set_prv_to None)) by (by intros []).
  rewrite (fmap_alter_comm node_item _ (set_nxt None)) by (by intros []).
  by rewrite Hi2.
Qed.

(** [addNode] puts the node in front of the list of the nest. *)
Lemma addNode_nview k i w :
  pw (Nest_addNode (Some k) (Some i)) w
     (λ _ w', ∃ h, node_heads w !! k = Some h ∧
                   nview w' = push k i h (nview w))
     (λ _, True).
Proof.
  unfold Nest_addNode.
  apply pw_bind, pw_load. intros ? N [= <-] HN. simpl in HN.
  destruct (Nest.nestTree N); [|apply pw_panic].
  apply pw_bind, pw_load. intros t T _ _.
  apply pw_bind, pw_load. intros ? Nd [= <-] HNd.
  destruct (negb _); [apply pw_panic|]. cbv zeta.
  set (h := Nest.firstNode N).
  assert (node_heads w !! k = Some h) as Hh.
  { unfold node_heads. by rewrite list_lookup_fmap, HN. }
  set (items1 := match h with
                 | Some f => alter (set_prv_to (Some i)) f (node_items w)
                 | None => node_items w
                 end).
  apply pw_bind.
  eapply pw_mono with (T := λ _, True)
    (Q := λ _ w1, node_heads w1 = node_heads w ∧ node_items w1 = items1);
    [| |done].
  { unfold items1. destruct h as [f|].
    - apply pw_modify. intros ? [= <-] _.
      unfold node_heads, node_items. simpl. split; [done|].
      by rewrite (fmap_alter_comm node_item _ (set_prv_to (Some i))) by (by intros []).
    - apply pw_modify. intros ? [= <-] _.
      unfold node_heads, node_items. simpl. split; [|done].
      by rewrite fmap_alter_keep by (by intros []). }
  intros _ w1 [Hh1 Hi1]. simpl.
  apply pw_bind, pw_modify. intros ? [= <-] _.
  apply pw_modify. intros ? [= <-] _.
  exists h. split; [done|].
  unfold push, nview. cbn [fst snd]. fold items1.
  unfold node_heads, node_items in *. simpl. f_equal.
  - rewrite (fmap_alter_comm Nest.firstNode _ (λ _, Some i)) by (by intros []).
    by rewrite Hh1.
  - rewrite (fmap_alter_comm node_item _ (set_nxt h)) by (by intros []).
    by rewrite Hi1.
Qed.

Lemma NewNode_nview graph w :
  pw (Graph_NewNode graph) w
     (λ _ w', ∃ r h,
        node_heads w !! r = Some h ∧
        nview w' = push r (length (node_items w)) h
                     (node_heads w, node_items w ++ [Item (Some r) None None]))
     (λ _, True).
Proof.
  unfold Graph_NewNode.
  apply pw_bind, pw_load. intros g G _ _.
  destruct (Graph.nestTree G); [|apply pw_panic].
  apply pw_bind, pw_load. intros t T _ _.
  destruct (NestTree.rootNest T) as [r|]; [|apply pw_panic].
  apply pw_bind, pw_make. intros _.
  apply pw_bind, pw_alloc. simpl sget.
  apply pw_bind.
  eapply pw_mono; [apply addNode_nview| |done].
  intros _ w2 (h & Hh & Hv). simpl.
  apply pw_bind, pw_modify. intros ? _ _. apply pw_ret.
  exists r, h. split; [exact Hh|].
  unfold node_items at 1. rewrite length_fmap.
  etransitivity; [|etransitivity; [exact Hv|]].
  - unfold nview, node_heads, node_items. done.
  - unfold nview, node_heads, node_items. simpl. by rewrite fmap_app.
Qed.

Lemma NewNest_nview nt w :
  pw (NestTree_NewNest nt) w
     (λ _ w', nview w' = (node_heads w ++ [None], node_items w))
     (λ _, True).
Proof.
  unfold NestTree_NewNest.
  apply pw_bind, pw_load. intros t T _ _.
  destruct (NestTree.rootNest T); [|apply pw_panic].
  destruct (NestTree.baseGraph T); [|apply pw_panic].
  apply pw_bind, pw_load. intros r R _ _.
  apply pw_bind, pw_load. intros g G _ _.
  apply pw_bind, pw_make. intros _.
  apply pw_bind, pw_alloc. cbv zeta.
  match goal with |- pw _ ?w1 _ _ => apply (pw_after (λ w', nview w' = nview w1)) end;
    [keeps_with nview_write|done| |done].
  intros _ w' ->. unfold nview, node_heads, node_items. simpl.
  by rewrite fmap_app.
Qed.

(** [MoveToNest] leaves the node lists alone or takes the node out of the
    list of its nest and puts it in front of the list of the target. *)
Lemma MoveToNest_nview fuel node nest w :
  pw (Node_MoveToNest fuel node nest) w
     (λ _ w',
        nview w' = nview w ∨
        ∃ i k k' x h,
          node_items w !! i = Some x ∧ owner x = Some k ∧
          k' < length (node_heads w) ∧
          (unlink k i x (nview w)).1 !! k' = Some h ∧
          nview w' = push k' i h
                       ((unlink k i x (nview w)).1,
                        alter (set_owner (Some k')) i (unlink k i x (nview w)).2))
     (λ _, True).
Proof.
  unfold Node_MoveToNest.
  apply pw_bind, pw_load. intros k' N -> HN. simpl in HN.
  apply pw_bind, pw_load. intros t T _ _.
  apply pw_bind, pw_load. intros i Nd -> HNd. simpl in HNd.
  destruct (negb _); [by left|].
  destruct (Node.nest Nd) as [k|] eqn:Hk; [|apply pw_panic].
  apply pw_bind.
  eapply pw_mono; [apply removeNode_nview| |done].
  intros _ w1 (x & Hx & Hv1). simpl.
  assert (x = node_item Nd) as Ex.
  { unfold node_items in Hx. rewrite list_lookup_fmap, HNd in Hx.
    by injection Hx as <-. }
  apply pw_bind, pw_modify. intros ? [= <-] _.
  apply pw_bind.
  eapply pw_mono; [apply addNode_nview| |done].
  intros _ w3 (h & Hh & Hv3). simpl.
  set (v := push k' i h
              ((unlink k i x (nview w)).1,
               alter (set_owner (Some k')) i (unlink k i x (nview w)).2)).
  assert (nview w3 = v) as Hv.
  { rewrite Hv3. unfold v. f_equal. rewrite <- Hv1.
    unfold nview, node_heads, node_items. simpl. f_equal.
    by rewrite (fmap_alter_comm node_item _ (set_owner (Some k'))) by (by intros []). }
  apply (pw_after (λ w', nview w' = v)); [|done| |done].
  - apply keeps_bind; [unfold Node_GetFirstIncomingEdge; keeps_with idtac|intros fi].
    apply keeps_bind; [apply keeps_nview_fix_incoming|intros _].
    apply keeps_bind; [unfold Node_GetFirstOutcomingEdge; keeps_with idtac|intros fo].
    apply keeps_bind; [apply keeps_nview_fix_outcoming|intros _].
    apply keeps_ret.
  - intros _ w' Hw'. right. exists i, k, k', x, h. split_and!; try done.
    + by rewrite Ex; simpl.
    + unfold node_heads. rewrite length_fmap. by eapply lookup_lt_Some.
    + change ((unlink k i x (nview w)).1 !! k' = Some h). rewrite <- Hv1.
      exact Hh.
Qed.

Lemma unlink_length k i x heads items :
  length (unlink k i x (heads, items)).1 = length heads ∧
  length (unlink k i x (heads, items)).2 = length items.
Proof.
  unfold unlink. cbn [fst snd]. rewrite !length_alter.
  destruct (prv x), (nxt x); by rewrite ?length_alter.
Qed.

(** The node lists of the nests are whole. *)
Lemma exec_node_lists fuel c w w' :
  lists_ok None (nview w).1 (nview w).2 → exec fuel c w = Done tt w' →
  lists_ok None (nview w').1 (nview w').2.
Proof.
  intros HL E.
  assert (∀ {A} (m : M A) x,
            keeps (λ w0, nview w0 = nview w) m → m w = Done x w' →
            lists_ok None (nview w').1 (nview w').2) as Hview.
  { intros A m x Hm Em.
    by rewrite (keeps_Done _ m w x w' Hm eq_refl Em). }
  destruct c; simpl in E; apply bind_Done_inv in E as (x & w1 & E & [= <-]).
  - apply NewGraph_Done_inv in E as (_ & _ & ->).
    unfold nview, node_heads, node_items. simpl. rewrite fmap_app.
    by apply lists_ok_new_owner.
  - eapply Hview; [|done]. keeps_attr_call_script nview_write.
  - eapply Hview; [|done]. keeps_attr_call_script nview_write.
  - eapply Hview; [|done]. keeps_attr_call_script nview_write.
  - eapply Hview; [|done]. keeps_attr_call_script nview_write.
  - eapply Hview; [|done]. keeps_attr_call_script nview_write.
  - eapply Hview; [|done].
    keeps_ReleaseNode_script nview_write (keeps_nview_node_sweep (nview w) fuel).
  - destruct (pw_Done _ _ _ _ _ _ (NewNode_nview _ w) E) as (r & h & Hh & ->).
    apply (lists_ok_push _ _ r _ (Item (Some r) None None) h); try done.
    + by apply lists_ok_alloc.
    + by rewrite list_lookup_middle.
  - eapply Hview; [|done]. apply keeps_nview_NewEdge.
  - eapply Hview; [|done]. keeps_attr_call_script nview_write.
  - eapply Hview; [|done]. keeps_attr_call_script nview_write.
  - destruct (pw_Done _ _ _ _ _ _ (MoveToNest_nview _ _ _ w) E)
      as [->|(i & k & k' & y & h & Hy & Hoy & Hk' & Hh & ->)]; [done|].
    pose proof (lists_ok_unlink _ _ k i y HL Hy Hoy) as H1.
    destruct (unlink_length k i y (node_heads w) (node_items w)) as [L1 L2].
    change (node_heads w, node_items w) with (nview w) in L1, L2.
    destruct (lookup_lt_is_Some_2 (unlink k i y (nview w)).2 i) as [z Hz].
    { rewrite L2. by eapply lookup_lt_Some. }
    assert (prv z = None) as Hpz.
    { unfold unlink in Hz. cbn [fst snd] in Hz.
      rewrite list_lookup_alter_eq in Hz.
      by apply fmap_Some in Hz as (z0 & _ & ->). }
    apply (lists_ok_push _ _ k' i (set_owner (Some k') z) h); try done.
    + apply lists_ok_retarget; [done|]. by rewrite L1.
    + by rewrite list_lookup_alter_eq, Hz.
  - rewrite (pw_Done _ _ _ _ _ _ (NewNest_nview _ w) E).
    by apply lists_ok_new_owner.
  - eapply Hview; [|done]. keeps_attr_call_script nview_write.
  - eapply Hview; [|done].
    keeps_ReleaseNest_script nview_write (keeps_nview_nest_sweep (nview w) fuel).
  - eapply Hview; [|done]. keeps_attr_call_script nview_write.
  - eapply Hview; [|done]. keeps_attr_call_script nview_write.
Qed.

Lemma reachable_node_lists w :
  reachable w → lists_ok None (node_heads w) (node_items w).
Proof.
  intros Hr. change (lists_ok None (nview w).1 (nview w).2).
  induction Hr as [|w fuel c w' Hr IH E].
  - apply lists_ok_nil.
  - by eapply exec_node_lists.
Qed.

(** ** Going through the nodes of a nest *)

Lemma reachable_spread : reachable world_spread.
Proof.
  pose proof reach_init as H.
  apply (reachable_exec _ 0 (Call_NewGraph DefaultAttrSpec)) in H; vm_compute in H.
  apply (reachable_exec _ 0 (Call_NewNest (Some 0))) in H; vm_compute in H.
  apply (reachable_exec _ 0 (Call_NewNest (Some 0))) in H; vm_compute in H.
  apply (reachable_exec _ 0 (Call_NewNode (Some 0))) in H; vm_compute in H.
  apply (reachable_exec _ 0 (Call_NewNode (Some 0))) in H; vm_compute in H.
  apply (reachable_exec _ 0 (Call_NewNode (Some 0))) in H; vm_compute in H.
  apply (reachable_exec _ 0 (Call_NewNode (Some 0))) in H; vm_compute in H.
  apply (reachable_exec _ 1 (Call_MoveToNest (Some 0) (Some 1))) in H; vm_compute in H.
  apply (reachable_exec _ 1 (Call_MoveToNest (Some 2) (Some 1))) in H; vm_compute in H.
  vm_compute. exact H.
Qed.

Lemma linked_walk items p ls n :
  linked items p ls None → length ls < n →
  dll_walk n items (head ls) = Some ls.
Proof.
  revert p n. induction ls as [|i l IH]; intros p n Hlk Hn.
  - destruct n; [simpl in Hn; lia|done].
  - destruct n as [|n]; [lia|]. simpl in Hlk, Hn.
    destruct Hlk as [(x & Hx & _ & Hnx) Hl]. simpl. rewrite Hx, Hnx.
    rewrite hd_or_None, (IH (Some i)); [done..|lia].
Qed.

Lemma nest_node_walk_dll n w e :
  nest_node_walk n w e = dll_walk n (node_items w) e.
Proof.
  revert e. induction n as [|n IH]; intros [a|]; simpl; try done.
  unfold Node_GetNextNodeInNest, bind, load, node_items. simpl.
  rewrite list_lookup_fmap. destruct (nodes w !! a); simpl; [|done].
  by rewrite IH.
Qed.

(** A list of distinct addresses is no longer than the store. *)
Lemma NoDup_bounded (l : list nat) m :
  NoDup l → (∀ i, i ∈ l → i < m) → length l ≤ m.
Proof.
  intros Hnd Hb. assert (l ⊆+ seq 0 m) as Hsub.
  { apply NoDup_submseteq; [done|]. intros i Hi. apply elem_of_seq.
    specialize (Hb i Hi). lia. }
  apply submseteq_length in Hsub. by rewrite length_seq in Hsub.
Qed.

Lemma list_of_bounded heads items o ls :
  list_of None heads items o ls → length ls ≤ length items.
Proof.
  intros (_ & Hnd & _ & Hmem). apply NoDup_bounded; [done|].
  intros i Hi. apply Hmem in Hi as (_ & x & Hx & _). by eapply lookup_lt_Some.
Qed.

Lemma GetNest_item w i k :
  Node_GetNest (Some i) w = Done (Some k) w ↔
  ∃ y, node_items w !! i = Some y ∧ owner y = Some k.
Proof.
  unfold Node_GetNest, bind, load, node_items, ret. simpl.
  rewrite list_lookup_fmap. destruct (nodes w !! i) as [N|]; simpl.
  - split.
    + intros [= H]. eauto.
    + intros (y & [= <-] & H). simpl in H. by rewrite H.
  - split; [done|]. by intros (y & ? & _).
Qed.

(** X18. In a world brought about by calls that returned, the loop over
    the nodes of a nest, from [GetFirstNode] of the nest along
    [GetNextNodeInNest] until nil, ends within one round more than there
    are nodes; it goes through the nodes whose [GetNest] is the nest and
    through no others, each once. *)
Theorem nest_nodes_are_the_nodes_in_the_nest n w k K :
  reachable w → nests w !! k = Some K → length (nodes w) < n →
  ∃ l, nest_nodes n w k = Some l ∧ NoDup l ∧
       ∀ i, i ∈ l ↔ Node_GetNest (Some i) w = Done (Some k) w.
Proof.
  intros Hr HK Hn. destruct (reachable_node_lists w Hr) as [HL _].
  destruct (HL k) as (ls & Hh & Hnd & Hlk & Hmem).
  { unfold node_heads. rewrite length_fmap. by eapply lookup_lt_Some. }
  pose proof (list_of_bounded _ _ _ _ (conj Hh (conj Hnd (conj Hlk Hmem)))) as Hlen.
  unfold node_items in Hlen. rewrite length_fmap in Hlen.
  exists ls. split_and!; [|done|].
  - unfold nest_nodes.
    assert (Nest_GetFirstNode (Some k) w = Done (head ls) w) as ->.
    { unfold Nest_GetFirstNode, bind, load. simpl. rewrite HK.
      unfold node_heads in Hh. rewrite list_lookup_fmap, HK in Hh.
      by injection Hh as ->. }
    rewrite nest_node_walk_dll. apply (linked_walk _ None); [done|lia].
  - intros i. rewrite Hmem, GetNest_item. split; [by intros [_ ?]|by split].
Qed.

Lemma nest_nodes_are_the_nodes_in_the_nest_witness :
  nest_nodes 5 world_spread 1 = Some [2; 0] ∧
  ∀ i, i ∈ [2; 0] ↔ Node_GetNest (Some i) world_spread = Done (Some 1) world_spread.
Proof.
  pose proof (λ K, nest_nodes_are_the_nodes_in_the_nest 5 world_spread 1 K
                     reachable_spread) as H.
  edestruct H as (l & El & _ & Hl); [by vm_compute..|].
  vm_compute in El. injection El as <-.
  split; [by vm_compute|exact Hl].
Defined.

(** ** Going through the nodes of a graph *)

Lemma next_chain_tail w k ks : next_chain w (k :: ks) → next_chain w ks.
Proof. intros H j a Ha. apply (H (S j) a Ha). Qed.

(** The nests of a walk follow each other. *)
Lemma nest_walk_succ w :
  Inv None w →
  ∀ n fuel k K l, nests w !! k = Some K → nest_walk n (S fuel) w k = Some l →
    head l = Some k ∧ next_chain w l.
Proof.
  intros HI. induction n as [|n IH]; intros fuel k K l HK Hw; [done|].
  cbn [nest_walk] in Hw. rewrite (GetNextNest_returns fuel w k K HI HK) in Hw.
  pose proof (λ f, GetNextNest_returns f w k K HI HK) as Hnext.
  destruct (inv_nest _ _ HI _ _ HK) as [_ (S1 & S2 & _)].
  destruct (match Nest.firstChildNest K with
            | Some c => Some c
            | None => Nest.nextSiblingNest K
            end) as [k'|] eqn:Ek'.
  - assert (∃ K', nests w !! k' = Some K') as [K' HK'].
    { destruct (Nest.firstChildNest K) as [c|].
      - injection Ek' as ->. destruct (S1 k' eq_refl) as (C & HC & _). eauto.
      - destruct (S2 k' Ek') as (D & HD & _). eauto. }
    destruct (nest_walk n (S fuel) w k') as [l'|] eqn:El'; [|done].
    injection Hw as <-. destruct (IH fuel k' K' l' HK' El') as [Hh Hc].
    split; [done|]. intros [|j] a Ha.
    + injection Ha as <-. split; [eauto|]. intros f. rewrite Hnext. simpl.
      destruct l'; [done|]. by injection Hh as ->.
    + apply (Hc j a Ha).
  - injection Hw as <-. split; [done|]. intros [|j] a Ha; [|done].
    injection Ha as <-. split; [eauto|]. intros f. by rewrite Hnext.
Qed.

Lemma first_node_from_eq f p w :
  first_node_from f p w
  = match skip_empty_fwd f p w with
    | Done (Some k) w' => (N <- load Nests (Some k) ;; ret (Nest.firstNode N)) w'
    | Done None w' => Done None w'
    | Panic => Panic
    | Cutoff w' => Cutoff w'
    end.
Proof.
  unfold first_node_from, bind at 1.
  by destruct (skip_empty_fwd f p w) as [[k|] w'| |].
Qed.

Lemma skip_empty_first w ks lss :
  next_chain w ks →
  Forall2 (list_of None (node_heads w) (node_items w)) ks lss →
  ∀ f, length ks ≤ f →
    first_node_from f (head ks) w = Done (head (concat lss)) w.
Proof.
  intros Hc HF. induction HF as [|k ls ks lss Hls HF IH]; intros f Hf.
  - rewrite first_node_from_eq. by destruct f.
  - destruct (Hc 0 k eq_refl) as [[K HK] Hnext].
    destruct Hls as (Hh & _). unfold node_heads in Hh.
    rewrite list_lookup_fmap, HK in Hh. injection Hh as Hh.
    destruct f as [|f]; [simpl in Hf; lia|].
    specialize (IH (next_chain_tail _ _ _ Hc) f).
    rewrite first_node_from_eq in IH. rewrite first_node_from_eq.
    change (head (k :: ks)) with (Some k). cbn [skip_empty_fwd].
    rewrite (bind_Done _ _ _ _ _ (load_Some Nests _ _ _ HK)).
    destruct ls as [|a ls]; simpl in Hh; rewrite Hh; cbv iota beta.
    + rewrite (bind_Done _ _ _ _ _ (Hnext f)).
      change ((k :: ks) !! 1) with (ks !! 0). rewrite <- head_lookup.
      apply IH. simpl in Hf. lia.
    + cbn [ret].
      rewrite (bind_Done _ _ _ _ _ (load_Some Nests _ _ _ HK)). by rewrite Hh.
Qed.

Lemma linked_lookup_nxt items p ls q idx a :
  linked items p ls q → ls !! idx = Some a →
  ∃ x, items !! a = Some x ∧
       nxt x = match ls !! S idx with Some b => Some b | None => q end.
Proof.
  revert p idx. induction ls as [|i l IH]; intros p idx; [done|].
  simpl. intros [(x & Hx & _ & Hn) Hl]. destruct idx as [|idx]; simpl.
  - intros [= <-]. exists x. split; [done|]. rewrite Hn. by destruct l.
  - intros Ha. by apply (IH (Some i)).
Qed.

Lemma node_of_item w a x :
  node_items w !! a = Some x →
  ∃ Nd, nodes w !! a = Some Nd ∧ Node.nest Nd = owner x ∧
        Node.nextNodeInNest Nd = nxt x.
Proof.
  unfold node_items. rewrite list_lookup_fmap.
  destruct (nodes w !! a) as [Nd|]; [|done]. intros [= <-]. eauto.
Qed.

(** In the list of the lists of the nests, [GetNextNode] gives the node
    that comes next. *)
Lemma succ_in_order w ks lss :
  next_chain w ks →
  Forall2 (list_of None (node_heads w) (node_items w)) ks lss →
  ∀ f idx a, length ks ≤ f → concat lss !! idx = Some a →
    Node_GetNextNode f (Some a) w = Done (concat lss !! S idx) w.
Proof.
  intros Hc HF. induction HF as [|k ls ks lss Hls HF IH]; intros f idx a Hf Ha.
  { simpl in Ha. by rewrite lookup_nil in Ha. }
  simpl concat in *. destruct (decide (idx < length ls)) as [Hlt|Hge].
  - rewrite lookup_app_l in Ha by done.
    destruct Hls as (_ & _ & Hlk & Hmem).
    destruct (linked_lookup_nxt _ _ _ _ _ _ Hlk Ha) as (x & Hx & Hn).
    assert (owner x = Some k) as Hox.
    { apply list_elem_of_lookup_2, Hmem in Ha as (_ & y & Hy & Hoy). congruence. }
    destruct (node_of_item _ _ _ Hx) as (Nd & HNd & Hnest & Hnext).
    unfold Node_GetNextNode.
    rewrite (bind_Done _ _ _ _ _ (load_Some Nodes _ _ _ HNd)).
    rewrite Hnext, Hn, Hnest, Hox.
    destruct (ls !! S idx) as [b|] eqn:Hb.
    + pose proof (lookup_lt_Some _ _ _ Hb) as Hlt'.
      rewrite lookup_app_l by done. by rewrite Hb.
    + destruct (Hc 0 k eq_refl) as [_ Hnx].
      destruct f as [|f]; [simpl in Hf; lia|].
      rewrite (bind_Done _ _ _ _ _ (Hnx f)). cbv beta.
      change ((k :: ks) !! 1) with (ks !! 0). rewrite <- head_lookup.
      change (first_node_from (S f) (head ks) w
              = Done ((ls ++ concat lss) !! S idx) w).
      rewrite (skip_empty_first w ks lss (next_chain_tail _ _ _ Hc) HF)
        by (simpl in Hf; lia).
      apply lookup_ge_None in Hb.
      assert (S idx = length ls) as -> by lia.
      rewrite lookup_app_r by lia. rewrite Nat.sub_diag. by destruct (concat lss).
  - rewrite lookup_app_r in Ha by lia.
    rewrite (IH (next_chain_tail _ _ _ Hc) f (idx - length ls) a);
      [|simpl in Hf; lia|done].
    f_equal. rewrite lookup_app_r by lia. f_equal. lia.
Qed.

Lemma lists_exist heads items ks :
  lists_ok None heads items → (∀ k, k ∈ ks → k < length heads) →
  ∃ lss, Forall2 (list_of None heads items) ks lss.
Proof.
  intros [HL _]. induction ks as [|k ks IH]; intros Hb.
  - exists []. constructor.
  - destruct (HL k) as [ls Hls]; [apply Hb; by left|].
    destruct IH as [lss Hlss]; [intros j Hj; apply Hb; by right|].
    exists (ls :: lss). by constructor.
Qed.

Lemma concat_lists heads items ks lss :
  NoDup ks → Forall2 (list_of None heads items) ks lss →
  NoDup (concat lss) ∧
  ∀ i, i ∈ concat lss ↔
       ∃ k x, k ∈ ks ∧ items !! i = Some x ∧ owner x = Some k.
Proof.
  intros Hnd HF. induction HF as [|k ls ks lss Hls HF IH].
  - split; [apply NoDup_nil_2|]. intros i. split; [by intros ?%elem_of_nil|].
    by intros (k & x & ?%elem_of_nil & _).
  - pose proof (NoDup_cons_1_1 _ _ Hnd) as Hk.
    destruct (IH (NoDup_cons_1_2 _ _ Hnd)) as [IH1 IH2].
    destruct Hls as (_ & Hnd1 & _ & Hmem). simpl. split.
    + apply list.NoDup_app. split_and!; [done| |done].
      intros i Hi Hi'. apply Hmem in Hi as (_ & x & Hx & Hox).
      apply IH2 in Hi' as (k' & x' & Hk' & Hx' & Hox').
      assert (k' = k) as -> by congruence. done.
    + intros i. rewrite elem_of_app, Hmem, IH2. split.
      * intros [(_ & x & Hx & Hox)|(k' & x & Hk' & Hx & Hox)].
        -- exists k, x. split_and!; [by left|done..].
        -- exists k', x. split_and!; [by right|done..].
      * intros (k' & x & [->|Hk']%elem_of_cons & Hx & Hox).
        -- left. split; [done|eauto].
        -- right. eauto.
Qed.

(** The nests of the tree of a graph in the order of [GetNextNest], and
    their node lists. *)
Lemma node_order_lists w g G f :
  Inv None w → links_ok (nests w) →
  lists_ok None (node_heads w) (node_items w) →
  graphs w !! g = Some G → length (nests w) < f →
  ∃ ks lss,
    next_chain w ks ∧ length ks ≤ length (nests w) ∧
    Forall2 (list_of None (node_heads w) (node_items w)) ks lss ∧
    NoDup (concat lss) ∧
    (∀ i, i ∈ concat lss ↔ ∃ N, nodes w !! i = Some N ∧ Node.graph N = Some g) ∧
    Graph_GetFirstNode f (Some g) w = Done (head (concat lss)) w.
Proof.
  intros HI HL HN HG Hf.
  destruct (graph_tree _ _ _ _ HI HG) as (t & T & r & R & Ht & HT & Hb & Hr & HRt & [HR _]).
  destruct (nest_walk_complete (S (length (nests w))) 1 w t T r HI HL HT Hr)
    as (L & EL & HLnd & HLmem); [lia..|].
  destruct (nest_walk_succ w HI _ _ _ _ _ HR EL) as [HLh HLc].
  assert (∀ k, k ∈ L → k < length (nests w)) as HLb.
  { intros k Hk. apply HLmem in Hk as (K & HK & _). by eapply lookup_lt_Some. }
  pose proof (NoDup_bounded L _ HLnd HLb) as HLlen.
  destruct (lists_exist (node_heads w) (node_items w) L HN) as [lss Hlss].
  { intros k Hk. unfold node_heads. rewrite length_fmap. by apply HLb. }
  destruct (concat_lists _ _ _ _ HLnd Hlss) as [Hnd Hmem].
  exists L, lss. split_and!; [done..| |].
  - intros i. rewrite Hmem. split.
    + intros (k & x & Hk & Hx & Hox).
      destruct (node_of_item _ _ _ Hx) as (Nd & HNd & Hnest & _).
      exists Nd. split; [done|].
      apply HLmem in Hk as (K & HK & HKt).
      destruct (node_place _ _ _ _ HI HNd)
        as (g' & G' & t' & T' & r' & k' & K' & Hg' & HG' & Ht' & HT' & Hb' & _ &
            Hk' & HKt' & [HK' _]).
      assert (k' = k) as -> by congruence.
      assert (t' = t) as -> by congruence. congruence.
    + intros (N & HNd & Hg).
      destruct (node_place _ _ _ _ HI HNd)
        as (g' & G' & t' & T' & r' & k' & K' & Hg' & HG' & Ht' & HT' & Hb' & _ &
            Hk' & HKt' & [HK' _]).
      assert (g' = g) as -> by congruence.
      assert (t' = t) as -> by congruence.
      exists k', (node_item N). split_and!; [|by unfold node_items;
        rewrite list_lookup_fmap, HNd|done].
      apply HLmem. eauto.
  - unfold Graph_GetFirstNode.
    rewrite (bind_Done _ _ _ _ _ (load_Some Graphs _ _ _ HG)). rewrite Ht.
    rewrite (bind_Done _ _ _ _ _ (load_Some NestTrees _ _ _ HT)). rewrite Hr.
    change (first_node_from f (Some r) w = Done (head (concat lss)) w).
    rewrite <- HLh. apply skip_empty_first; [done..|lia].
Qed.

(** The nodes of a graph in the order of [GetNextNode]. *)
Lemma node_order w g G f :
  Inv None w → links_ok (nests w) →
  lists_ok None (node_heads w) (node_items w) →
  graphs w !! g = Some G → length (nests w) < f →
  ∃ l, NoDup l ∧
       (∀ i, i ∈ l ↔ ∃ N, nodes w !! i = Some N ∧ Node.graph N = Some g) ∧
       Graph_GetFirstNode f (Some g) w = Done (head l) w ∧
       ∀ idx a, l !! idx = Some a →
         Node_GetNextNode f (Some a) w = Done (l !! S idx) w.
Proof.
  intros HI HL HN HG Hf.
  destruct (node_order_lists w g G f HI HL HN HG Hf)
    as (ks & lss & Hc & Hlen & Hlss & Hnd & Hmem & Hfirst).
  exists (concat lss). split_and!; [done..|].
  intros idx a Ha. apply (succ_in_order w ks lss Hc Hlss); [lia|done].
Qed.

Lemma node_walk_order w f (l : list nat) :
  (∀ idx a, l !! idx = Some a →
     Node_GetNextNode f (Some a) w = Done (l !! S idx) w) →
  ∀ n, length l < n → node_walk n f w (head l) = Some l.
Proof.
  induction l as [|a l IH]; intros Hs n Hn.
  - destruct n; [simpl in Hn; lia|done].
  - destruct n as [|n]; [lia|]. simpl in Hn. cbn [node_walk].
    change (head (a :: l)) with (Some a).
    rewrite (Hs 0 a eq_refl). change ((a :: l) !! 1) with (l !! 0).
    rewrite <- head_lookup, IH; [done| |lia].
    intros idx b Hb. apply (Hs (S idx) b Hb).
Qed.

(** X19. In a world brought about by calls that returned, the loop over
    the nodes of a graph, from [GetFirstNode] of the graph along
    [GetNextNode] until nil, ends when the loops inside the two methods
    may run more rounds than there are nests and the loop itself more
    rounds than there are nodes; it goes through the nodes whose
    [GetGraph] is the graph and through no others, each once. *)
Theorem graph_nodes_are_the_nodes_of_the_graph n fuel w g G :
  reachable w → graphs w !! g = Some G →
  length (nests w) < fuel → length (nodes w) < n →
  ∃ l, graph_nodes n fuel w g = Some l ∧ NoDup l ∧
       ∀ i, i ∈ l ↔ Node_GetGraph (Some i) w = Done (Some g) w.
Proof.
  intros Hr HG Hf Hn.
  destruct (node_order w g G fuel (reachable_Inv _ Hr) (reachable_links_ok _ Hr)
              (reachable_node_lists _ Hr) HG Hf)
    as (l & Hnd & Hmem & Hfirst & Hsucc).
  assert (length l ≤ length (nodes w)) as Hlen.
  { apply NoDup_bounded; [done|]. intros i Hi.
    apply Hmem in Hi as (N & HN & _). by eapply lookup_lt_Some. }
  exists l. split_and!; [|done|].
  - unfold graph_nodes. rewrite Hfirst. apply node_walk_order; [done|lia].
  - intros i. rewrite Hmem. unfold Node_GetGraph, bind, load, ret. simpl.
    destruct (nodes w !! i) as [N|]; split.
    + intros (? & [= <-] & ->). done.
    + intros [= Hg]. eauto.
    + by intros (? & ? & _).
    + done.
Qed.

Lemma graph_nodes_are_the_nodes_of_the_graph_witness :
  graph_nodes 5 4 world_spread 0 = Some [3; 1; 2; 0] ∧
  ∀ i, i ∈ [3; 1; 2; 0] ↔
       Node_GetGraph (Some i) world_spread = Done (Some 0) world_spread.
Proof.
  pose proof (λ G, graph_nodes_are_the_nodes_of_the_graph 5 4 world_spread 0 G
                     reachable_spread) as H.
  edestruct H as (l & El & _ & Hl); [by vm_compute|vm_compute; lia..|].
  vm_compute in El. injection El as <-.
  split; [by vm_compute|exact Hl].
Defined.

(** ** Releasing a node attribute *)

Lemma strip_nview w w' : strip w' = strip w → nview w' = nview w.
Proof.
  intros H. assert (∀ v, nview (strip v) = nview v) as Hs.
  { intros v. unfold nview, node_heads, node_items, strip. simpl. f_equal.
    rewrite <- list_fmap_compose. apply list_fmap_ext. by intros ? []. }
  by rewrite <- (Hs w'), H, Hs.
Qed.

Lemma strip_rest w w' :
  strip w' = strip w →
  graphs w' = graphs w ∧ nestTrees w' = nestTrees w ∧ nests w' = nests w ∧
  edges w' = edges w ∧ nodeStrAttrs w' = nodeStrAttrs w ∧
  length (nodes w') = length (nodes w).
Proof.
  intros H. split_and!.
  - exact (f_equal graphs H).
  - exact (f_equal nestTrees H).
  - exact (f_equal nests H).
  - exact (f_equal edges H).
  - exact (f_equal nodeStrAttrs H).
  - pose proof (f_equal (λ v, length (nodes v)) H) as L. simpl in L.
    by rewrite !length_fmap in L.
Qed.

Lemma strip_put_node w n N N' :
  nodes w !! n = Some N → strip_node N' = strip_node N →
  strip (put_node n N' w) = strip w.
Proof.
  intros HN HS. unfold strip, put_node. simpl. f_equal.
  rewrite list_fmap_insert, HS. apply list_insert_id.
  by rewrite list_lookup_fmap, HN.
Qed.

Lemma next_chain_same_nests w w' ks :
  Inv None w → Inv None w' → nests w' = nests w →
  next_chain w ks → next_chain w' ks.
Proof.
  intros HI HI' E Hc j a Ha. destruct (Hc j a Ha) as [[A HA] Hn].
  split; [rewrite E; eauto|]. intros f.
  assert (nests w' !! a = Some A) as HA' by (by rewrite E).
  rewrite (GetNextNest_returns f w' a A HI' HA').
  specialize (Hn f). rewrite (GetNextNest_returns f w a A HI HA) in Hn.
  by injection Hn as ->.
Qed.

Lemma clear_in_lookup l num w i :
  clear_in l num w !! i
  = (λ N, if decide (i ∈ l) then clear_slot num N else N) <$> nodes w !! i.
Proof. unfold clear_in. by rewrite list_lookup_imap. Qed.

Lemma clear_in_nil num w : clear_in [] num w = nodes w.
Proof.
  apply list_eq. intros i. rewrite clear_in_lookup.
  destruct (nodes w !! i); simpl; [|done].
  destruct (decide (i ∈ [])) as [H|_]; [by apply elem_of_nil in H|done].
Qed.

Lemma clear_in_snoc l b num w N v0 :
  b ∉ l → nodes w !! b = Some N → idx (Node.strAttrs N) num = Some v0 →
  <[b := Node.with_strAttrs
           (with_slot (Node.strAttrs N) num (mkVal false (data v0))) N]>
    (clear_in l num w)
  = clear_in (l ++ [b]) num w.
Proof.
  intros Hb HN Hi. apply list_eq. intros i.
  destruct (decide (i = b)) as [->|Hne].
  - rewrite list_lookup_insert_eq
      by (unfold clear_in; rewrite length_imap; by eapply lookup_lt_Some).
    rewrite clear_in_lookup, HN. simpl.
    destruct (decide (b ∈ l ++ [b])) as [_|Hn].
    + unfold clear_slot. by rewrite Hi.
    + destruct Hn. apply elem_of_app. right. by left.
  - rewrite list_lookup_insert_ne by done. rewrite !clear_in_lookup.
    destruct (nodes w !! i); simpl; [|done].
    destruct (decide (i ∈ l)) as [Hl|Hl], (decide (i ∈ l ++ [b])) as [Hlb|Hlb];
      try done.
    + destruct Hlb. apply elem_of_app. by left.
    + apply elem_of_app in Hlb as [?|Hib]; [done|].
      by apply list_elem_of_singleton in Hib.
Qed.

(** The sweep unsets the slot on the nodes of the graph, one after the
    other, and comes to the end of them. *)
Lemma sweep_run w g a A ks lss :
  Inv None w → nodeStrAttrs w !! a = Some A →
  StrAttr.isValid A = true → StrAttr.graph A = Some g →
  next_chain w ks →
  Forall2 (list_of None (node_heads w) (node_items w)) ks lss →
  NoDup (concat lss) →
  (∀ i, i ∈ concat lss → ∃ N, nodes w !! i = Some N ∧ Node.graph N = Some g) →
  ∀ l2 l1 wj fuel,
    concat lss = l1 ++ l2 → reachable wj → strip wj = strip w →
    nodes wj = clear_in l1 (StrAttr.attrNum A) w →
    length l2 + length ks < fuel →
    ∃ w', ReleaseNodeStrAttr_sweep fuel (head l2) (Some a) wj = Done tt w' ∧
          reachable w' ∧ strip w' = strip w ∧
          nodes w' = clear_in (concat lss) (StrAttr.attrNum A) w.
Proof.
  intros HI HA Hv Hg Hc Hlss Hnd Hall.
  induction l2 as [|b l2 IH]; intros l1 wj fuel El Hr Hs Hn Hf.
  - exists wj. rewrite app_nil_r in El. subst l1.
    split_and!; try done. by destruct fuel.
  - destruct fuel as [|fuel]; [lia|].
    assert (b ∈ concat lss) as Hb.
    { rewrite El. apply elem_of_app. right. by left. }
    destruct (Hall b Hb) as (N & HN & HNg).
    assert (b ∉ l1) as Hb1.
    { rewrite El in Hnd. apply list.NoDup_app in Hnd as (_ & Hd & _).
      intros Hin. apply (Hd b Hin). by left. }
    assert (nodes wj !! b = Some N) as HNj.
    { rewrite Hn, clear_in_lookup, HN. simpl. by destruct (decide (b ∈ l1)). }
    destruct (strip_rest _ _ Hs) as (_ & _ & Hnests & _ & Hh & _).
    assert (nodeStrAttrs wj !! a = Some A) as HAj by (by rewrite Hh).
    destruct (node_slot wj b N a A (reachable_AttrInv _ Hr) HNj HAj Hv)
      as [v0 Hi]; [congruence|].
    set (N' := Node.with_strAttrs
                 (with_slot (Node.strAttrs N) (StrAttr.attrNum A)
                            (mkVal false (data v0))) N).
    pose proof (Node_Remove_run wj b N a A v0 HNj HAj Hi) as Hrem.
    fold N' in Hrem. set (w1 := put_node b N' wj) in *.
    assert (reachable w1) as Hr1.
    { apply (reach_step wj 0 (Call_Node_RemoveStrAttr (Some b) (Some a))); [done|].
      simpl. by rewrite (bind_Done _ _ _ _ _ Hrem). }
    assert (strip w1 = strip w) as Hs1.
    { rewrite <- Hs. by apply (strip_put_node wj b N). }
    assert (nodes w1 = clear_in (l1 ++ [b]) (StrAttr.attrNum A) w) as Hn1.
    { unfold w1, put_node. simpl. rewrite Hn. by apply clear_in_snoc. }
    assert (Node_GetNextNode (S fuel) (Some b) w1 = Done (head l2) w1) as Hnext.
    { destruct (strip_rest _ _ Hs1) as (_ & _ & Hnests1 & _).
      pose proof (next_chain_same_nests w w1 ks HI (reachable_Inv _ Hr1) Hnests1 Hc)
        as Hc1.
      assert (Forall2 (list_of None (node_heads w1) (node_items w1)) ks lss) as Hl1.
      { pose proof (strip_nview _ _ Hs1) as Hv1. unfold nview in Hv1.
        injection Hv1 as -> ->. done. }
      rewrite (succ_in_order w1 ks lss Hc1 Hl1 (S fuel) (length l1) b); [|lia|].
      - f_equal. rewrite El. rewrite lookup_app_r by lia.
        replace (S (length l1) - length l1) with 1 by lia. simpl.
        by rewrite head_lookup.
      - rewrite El. by rewrite list_lookup_middle. }
    destruct (IH (l1 ++ [b]) w1 fuel) as (w' & Hsw & Hr' & Hs' & Hn');
      [by rewrite <- app_assoc|done..|simpl in Hf; lia|].
    exists w'. split; [|done].
    change (head (b :: l2)) with (Some b). cbn [ReleaseNodeStrAttr_sweep].
    rewrite (bind_Done _ _ _ _ _ Hrem).
    by rewrite (bind_Done _ _ _ _ _ Hnext).
Qed.

(** [ReleaseNodeStrAttr] through a valid handle of the graph, with rounds
    enough for its loops: the world it returns. *)
Lemma ReleaseNode_run fuel w g G a A :
  reachable w → graphs w !! g = Some G → nodeStrAttrs w !! a = Some A →
  StrAttr.isValid A = true → StrAttr.graph A = Some g →
  length (nodes w) + length (nests w) < fuel →
  ∃ w2 b0,
    Graph_ReleaseNodeStrAttr fuel (Some g) (Some a) w
    = Done None
        (modify_w NodeStrAttrs a (λ _, node_str_attr_invalid)
           (modify_w Graphs g
              (λ G, Graph.with_nodeStrAttrAllocMap
                      (upd (Graph.nodeStrAttrAllocMap G) (StrAttr.attrNum A)
                           (λ _, false)) G) w2)) ∧
    strip w2 = strip w ∧
    idx (Graph.nodeStrAttrAllocMap G) (StrAttr.attrNum A) = Some b0 ∧
    ∀ i, nodes w2 !! i
         = (λ N, if decide (Node.graph N = Some g)
                 then clear_slot (StrAttr.attrNum A) N else N) <$> nodes w !! i.
Proof.
  intros Hr HG HA Hv Hg Hf.
  pose proof (reachable_Inv _ Hr) as HI.
  pose proof (reachable_AttrInv _ Hr) as HAI.
  destruct (node_order_lists w g G fuel HI (reachable_links_ok _ Hr)
              (reachable_node_lists _ Hr) HG)
    as (ks & lss & Hc & Hlen & Hlss & Hnd & Hmem & Hfirst); [lia|].
  assert (length (concat lss) ≤ length (nodes w)) as Hll.
  { apply NoDup_bounded; [done|]. intros i Hi.
    apply Hmem in Hi as (N & HN & _). by eapply lookup_lt_Some. }
  destruct (sweep_run w g a A ks lss HI HA Hv Hg Hc Hlss Hnd
              (λ i Hi, proj1 (Hmem i) Hi) (concat lss) [] w fuel)
    as (w2 & Hsw & _ & Hs2 & Hn2); [done..|by rewrite clear_in_nil|lia|].
  destruct (strip_rest _ _ Hs2) as (Hgr & Htr & Hne & Hed & Hha & _).
  destruct (ai_graph _ HAI _ _ HG) as (_ & _ & Lmap).
  destruct (ai_node_handle _ HAI _ _ HA Hv) as (g' & spec & Hg' & Hsp & Hin).
  assert (g' = g) as -> by congruence.
  assert (spec = Graph.attrSpec G) as ->.
  { unfold gspec in Hsp. rewrite HG in Hsp. by injection Hsp as <-. }
  destruct (idx_in_pool (Graph.nodeStrAttrAllocMap G) _ _ Hin Lmap) as [b0 Hb0].
  assert (graphs w2 !! g = Some G) as HG2 by (by rewrite Hgr).
  assert (nodeStrAttrs w2 !! a = Some A) as HA2 by (by rewrite Hha).
  exists w2, b0. split_and!; [|done..|].
  - unfold Graph_ReleaseNodeStrAttr. run_load NodeStrAttrs HA.
    rewrite Hv, Hg, ptr_eqb_refl. cbn [negb]. cbv zeta.
    rewrite (bind_Done _ _ _ _ _ Hfirst).
    rewrite (bind_Done _ _ _ _ _ Hsw).
    run_load Graphs HG2. rewrite Hb0.
    erewrite bind_Done; [|apply (modify_Some Graphs); simpl; eauto].
    erewrite bind_Done; [|apply (modify_Some NodeStrAttrs); simpl; eauto].
    done.
  - intros i. rewrite Hn2, clear_in_lookup.
    destruct (nodes w !! i) as [N|] eqn:HN; [|done]. simpl. f_equal.
    destruct (decide (i ∈ concat lss)) as [Hi|Hi],
      (decide (Node.graph N = Some g)) as [HNg|HNg]; try done.
    + apply Hmem in Hi as (N0 & HN0 & HNg0). congruence.
    + destruct Hi. apply Hmem. eauto.
Qed.

(** X20. In a world brought about by calls that returned,
    [ReleaseNodeStrAttr] through a valid handle of the graph returns no
    error when its loops may run more rounds than there are nodes and
    nests together: the slot is then unset on every node of the graph and
    nothing else changes on any node, the slot is free in the allocation
    map of the graph, the handle is overwritten with the invalid one, and
    nests, nest trees and edges are as before. *)
Theorem ReleaseNodeStrAttr_unsets_the_slot_everywhere fuel w g G a A :
  reachable w → graphs w !! g = Some G → nodeStrAttrs w !! a = Some A →
  StrAttr.isValid A = true → StrAttr.graph A = Some g →
  length (nodes w) + length (nests w) < fuel →
  ∃ w' G',
    Graph_ReleaseNodeStrAttr fuel (Some g) (Some a) w = Done None w' ∧
    nodeStrAttrs w' !! a = Some node_str_attr_invalid ∧
    graphs w' !! g = Some G' ∧
    idx (Graph.nodeStrAttrAllocMap G') (StrAttr.attrNum A) = Some false ∧
    (∀ i N, nodes w !! i = Some N →
       nodes w' !! i
       = Some (if decide (Node.graph N = Some g)
               then clear_slot (StrAttr.attrNum A) N else N)) ∧
    (∀ i N, nodes w !! i = Some N → Node.graph N = Some g →
       ∃ N', nodes w' !! i = Some N' ∧
             isSet <$> idx (Node.strAttrs N') (StrAttr.attrNum A) = Some false) ∧
    nests w' = nests w ∧ nestTrees w' = nestTrees w ∧ edges w' = edges w.
Proof.
  intros Hr HG HA Hv Hg Hf.
  pose proof (reachable_AttrInv _ Hr) as HAI.
  destruct (ReleaseNode_run fuel w g G a A Hr HG HA Hv Hg Hf)
    as (w2 & b0 & Erun & Hs2 & Hb0 & Hn2).
  destruct (strip_rest _ _ Hs2) as (Hgr & Htr & Hne & Hed & Hha & _).
  assert (graphs w2 !! g = Some G) as HG2 by (by rewrite Hgr).
  assert (nodeStrAttrs w2 !! a = Some A) as HA2 by (by rewrite Hha).
  set (G' := Graph.with_nodeStrAttrAllocMap
               (upd (Graph.nodeStrAttrAllocMap G) (StrAttr.attrNum A) (λ _, false)) G).
  set (w' := modify_w NodeStrAttrs a (λ _, node_str_attr_invalid)
               (modify_w Graphs g
                  (λ G, Graph.with_nodeStrAttrAllocMap
                          (upd (Graph.nodeStrAttrAllocMap G) (StrAttr.attrNum A)
                               (λ _, false)) G) w2)) in *.
  assert (∀ i N, nodes w !! i = Some N →
            nodes w' !! i
            = Some (if decide (Node.graph N = Some g)
                    then clear_slot (StrAttr.attrNum A) N else N)) as Hnodes.
  { intros i N HN. unfold w'. simpl. by rewrite Hn2, HN. }
  exists w', G'. split_and!.
  - done.
  - unfold w'. simpl. by rewrite list_lookup_alter_eq, HA2.
  - unfold w'. simpl. by rewrite list_lookup_alter_eq, HG2.
  - unfold G'. simpl. rewrite (upd_Some _ _ _ _ Hb0). by eapply idx_insert.
  - done.
  - intros i N HN HNg. rewrite (Hnodes i N HN).
    destruct (decide (Node.graph N = Some g)); [|done].
    eexists. split; [done|].
    destruct (node_slot w i N a A HAI HN HA Hv) as [v0 Hi]; [congruence|].
    unfold clear_slot. rewrite Hi. simpl. unfold with_slot.
    by erewrite idx_insert.
  - done.
  - done.
  - done.
Qed.

Lemma ReleaseNodeStrAttr_unsets_the_slot_everywhere_witness :
  (∃ N, nodes world_foreign !! 0 = Some N ∧
        isSet <$> idx (Node.strAttrs N) 0 = Some true) ∧
  ∃ w' N',
    Graph_ReleaseNodeStrAttr 4 (Some 0) (Some 1) world_foreign = Done None w' ∧
    nodeStrAttrs w' !! 1 = Some node_str_attr_invalid ∧
    nodes w' !! 0 = Some N' ∧
    isSet <$> idx (Node.strAttrs N') 0 = Some false.
Proof.
  split; [eexists; split; by vm_compute|].
  pose proof (λ G A, ReleaseNodeStrAttr_unsets_the_slot_everywhere 4
                       world_foreign 0 G 1 A reachable_foreign) as H.
  edestruct H as (w' & G' & H1 & H2 & _ & _ & _ & H3 & _);
    [by vm_compute..|vm_compute; lia|].
  edestruct (H3 0) as (N' & H4 & H5); [by vm_compute..|].
  vm_compute in H5.
  exists w', N'. exact (conj H1 (conj H2 (conj H4 H5))).
Defined.

(** ** Going through the nests under a nest *)

Lemma child_lists_ok w :
  Inv None w → links_ok (nests w) → dll_ok (child_heads w) (child_items w).
Proof.
  intros HI [L1 L2 L3 L4 L5].
  assert (∀ k x, child_items w !! k = Some x →
            ∃ K, nests w !! k = Some K ∧ x = child_item K) as Hit.
  { intros k x. unfold child_items. rewrite list_lookup_fmap.
    destruct (nests w !! k) as [K|]; [|done]. intros [= <-]. eauto. }
  assert (∀ k K, nests w !! k = Some K →
            child_items w !! k = Some (child_item K)) as Hti.
  { intros k K HK. unfold child_items. by rewrite list_lookup_fmap, HK. }
  split.
  - intros o e Ho. unfold child_heads in Ho. rewrite list_lookup_fmap in Ho.
    destruct (nests w !! o) as [K|] eqn:HK; [|done]. injection Ho as Ho.
    destruct (inv_nest _ _ HI _ _ HK) as [_ (S1 & _)].
    destruct (S1 e Ho) as (C & HC & HCp & HCo).
    exists (child_item C). by rewrite (Hti _ _ HC).
  - intros e x f Hx Hf. apply Hit in Hx as (K & HK & ->). simpl in Hf.
    destruct (inv_nest _ _ HI _ _ HK) as [_ (_ & S2 & _)].
    destruct (S2 f Hf) as (D & HD & HDp).
    split; [by eapply L4|]. exists (child_item D).
    rewrite (Hti _ _ HD). simpl. split_and!; [done| |done].
    by eapply L5.
  - intros e x p Hx Hp. apply Hit in Hx as (K & HK & ->). simpl in Hp.
    destruct (L2 e K p HK Hp) as (P & HP & HPn).
    exists (child_item P). rewrite (Hti _ _ HP). simpl.
    split_and!; [done| |done]. symmetry. by eapply L5.
  - intros e x o Hx Ho Hp. apply Hit in Hx as (K & HK & ->). simpl in Ho, Hp.
    destruct (L3 e K o HK Ho Hp) as (R & HR & HRf).
    unfold child_heads. by rewrite list_lookup_fmap, HR, <- HRf.
Qed.

Lemma child_walk_dll n w e : child_walk n w e = dll_walk n (child_items w) e.
Proof.
  revert e. induction n as [|n IH]; intros [a|]; simpl; try done.
  unfold Nest_GetNextSiblingNest, bind, load, child_items. simpl.
  rewrite list_lookup_fmap. destruct (nests w !! a); simpl; [|done].
  by rewrite IH.
Qed.

(** X21. In a world brought about by calls that returned, the loop over
    the nests under a nest, from [GetFirstChildNest] along
    [GetNextSiblingNest] until nil, ends within one round more than there
    are nests; it goes through the nests whose [GetParentNest] is the
    nest and through no others, each once, the later made first. *)
Theorem nest_children_are_the_nests_under_the_nest n w k K :
  reachable w → nests w !! k = Some K → length (nests w) < n →
  ∃ l, nest_children n w k = Some l ∧ NoDup l ∧
       (∀ i j a b, l !! i = Some a → l !! j = Some b → i < j → b < a) ∧
       ∀ c, c ∈ l ↔ Nest_GetParentNest (Some c) w = Done (Some k) w.
Proof.
  intros Hr HK Hn.
  pose proof (child_lists_ok w (reachable_Inv _ Hr) (reachable_links_ok _ Hr)) as Hok.
  destruct n as [|n]; [lia|].
  assert (child_heads w !! k = Some (Nest.firstChildNest K)) as Hh.
  { unfold child_heads. by rewrite list_lookup_fmap, HK. }
  destruct (dll_walk_complete _ _ n k (Nest.firstChildNest K) Hok)
    as (l & El & Hord & Hl); [unfold child_items; rewrite length_fmap; lia|done|].
  exists l. split_and!; [|by apply falling_NoDup|done|].
  - unfold nest_children.
    assert (Nest_GetFirstChildNest (Some k) w
            = Done (Nest.firstChildNest K) w) as ->.
    { unfold Nest_GetFirstChildNest, bind, load. simpl. by rewrite HK. }
    by rewrite child_walk_dll.
  - intros c. rewrite Hl. unfold Nest_GetParentNest, bind, load, ret, child_items.
    simpl. rewrite list_lookup_fmap. destruct (nests w !! c) as [C|]; simpl.
    + split.
      * intros (y & [= <-] & Hy). simpl in Hy. by rewrite Hy.
      * intros [= Hp]. eauto.
    + split; [by intros (y & ? & _)|done].
Qed.

Lemma nest_children_are_the_nests_under_the_nest_witness :
  nest_children 4 world_two_nests 0 = Some [2; 1] ∧
  ∀ c, c ∈ [2; 1] ↔
       Nest_GetParentNest (Some c) world_two_nests = Done (Some 0) world_two_nests.
Proof.
  pose proof (λ K, nest_children_are_the_nests_under_the_nest 4 world_two_nests 0 K
                     reachable_two_nests) as H.
  edestruct H as (l & El & _ & _ & Hl); [by vm_compute|vm_compute; lia|].
  vm_compute in El. injection El as <-.
  split; [by vm_compute|exact Hl].
Defined.

(** ** The edge lists of the nests are written by [NewEdge] only *)

Ltac eview_write :=
  intros;
  first [ match goal with H : eview _ = _ |- _ => exact H end
        | unfold eview, edge_heads, edge_nitems in *; simpl;
          rewrite ?fmap_alter_keep by (by intros []);
          match goal with H : _ = _ |- _ => exact H end ].

Lemma keeps_eview_node_sweep v fuel node attr :
  keeps (λ w, eview w = v) (ReleaseNodeStrAttr_sweep fuel node attr).
Proof. keeps_node_sweep_script eview_write. Qed.

Lemma keeps_eview_nest_sweep v fuel nest attr :
  keeps (λ w, eview w = v) (ReleaseNestStrAttr_sweep fuel nest attr).
Proof. keeps_nest_sweep_script eview_write. Qed.

Lemma keeps_eview_NewNode v graph :
  keeps (λ w, eview w = v) (Graph_NewNode graph).
Proof.
  unfold Graph_NewNode, Nest_addNode. keeps_with eview_write.
Qed.

(** [addEdge] puts the edge in front of the list of the nest. *)
Lemma addEdge_eview k e w :
  pw (Nest_addEdge (Some k) (Some e)) w
     (λ _ w', ∃ h, edge_heads w !! k = Some h ∧
                   eview w' = push k e h (eview w))
     (λ _, True).
Proof.
  unfold Nest_addEdge.
  apply pw_bind, pw_load. intros ? N [= <-] HN. simpl in HN.
  destruct (Nest.nestTree N); [|apply pw_panic].
  apply pw_bind, pw_load. intros t T _ _.
  apply pw_bind, pw_load. intros ? E0 [= <-] HE.
  destruct (negb _); [apply pw_panic|]. cbv zeta.
  set (h := Nest.firstEdge N).
  assert (edge_heads w !! k = Some h) as Hh.
  { unfold edge_heads. by rewrite list_lookup_fmap, HN. }
  set (items1 := match h with
                 | Some f => alter (set_prv_to (Some e)) f (edge_nitems w)
                 | None => edge_nitems w
                 end).
  apply pw_bind.
  eapply pw_mono with (T := λ _, True)
    (Q := λ _ w1, edge_heads w1 = edge_heads w ∧ edge_nitems w1 = items1);
    [| |done].
  { unfold items1. destruct h as [f|].
    - apply pw_modify. intros ? [= <-] _.
      unfold edge_heads, edge_nitems. simpl. split; [done|].
      by rewrite (fmap_alter_comm edge_nitem _ (set_prv_to (Some e))) by (by intros []).
    - by apply pw_ret. }
  intros _ w1 [Hh1 Hi1]. simpl.
  apply pw_bind, pw_modify. intros ? [= <-] _.
  apply pw_modify. intros ? [= <-] _.
  exists h. split; [done|].
  unfold push, eview. cbn [fst snd]. fold items1.
  unfold edge_heads, edge_nitems in *. simpl. f_equal.
  - rewrite (fmap_alter_comm Nest.firstEdge _ (λ _, Some e)) by (by intros []).
    by rewrite Hh1.
  - rewrite (fmap_alter_comm edge_nitem _ (set_nxt h)) by (by intros []).
    by rewrite Hi1.
Qed.

(** [calcNestAndMoveToIt] on an edge that is in no nest yet puts it in
    front of the list of the nest it finds. *)
Lemma calc_eview_new fuel e w E :
  edges w !! e = Some E → Edge.nest E = None →
  pw (Edge_calcNestAndMoveToIt fuel (Some e)) w
     (λ _ w', ∃ k h,
        edge_heads w !! k = Some h ∧
        eview w' = push k e h
                     (edge_heads w, alter (set_owner (Some k)) e (edge_nitems w)))
     (λ _, True).
Proof.
  intros HE Hnone. unfold Edge_calcNestAndMoveToIt.
  apply pw_bind, pw_load. intros ? E' [= <-] HE'. simpl in HE'.
  assert (E' = E) as -> by congruence. cbv zeta.
  destruct (Edge.srcNode E); [|apply pw_panic].
  destruct (Edge.dstNode E); [|apply pw_panic].
  apply pw_bind, pw_load. intros ? Sn _ _.
  apply pw_bind, pw_load. intros ? Dn _ _.
  destruct (negb _); [apply pw_panic|]. destruct (negb _); [apply pw_panic|].
  destruct (Node.nest Sn); [|apply pw_panic].
  destruct (Node.nest Dn); [|apply pw_panic].
  apply pw_bind, pw_load. intros ? Ns _ _.
  apply pw_bind, pw_load. intros ? Nd _ _.
  destruct (negb _); [apply pw_panic|].
  apply pw_bind, pw_load. intros ? T _ _.
  destruct (negb _); [apply pw_panic|].
  apply pw_bind.
  apply (pw_after (λ w', w' = w)); [apply keeps_calc_lift|done| |done].
  intros r1 ? ->.
  apply pw_bind.
  apply (pw_after (λ w', w' = w)); [apply keeps_calc_lift|done| |done].
  intros r2 ? ->.
  apply pw_bind.
  apply (pw_after (λ w', w' = w)); [apply keeps_calc_meet|done| |done].
  intros src_nest ? ->. rewrite Hnone.
  apply pw_bind, pw_ret. apply pw_bind, pw_modify. intros ? [= <-] _.
  destruct src_nest as [k|]; [|exact I].
  eapply pw_mono; [apply addEdge_eview| |done].
  intros _ w' (h & Hh & Hv). exists k, h. split; [exact Hh|].
  rewrite Hv. unfold eview, edge_heads, edge_nitems. simpl. do 2 f_equal.
  by rewrite (fmap_alter_comm edge_nitem _ (set_owner (Some k))) by (by intros []).
Qed.

Lemma NewEdge_eview fuel graph src dst w :
  pw (Graph_NewEdge fuel graph src dst) w
     (λ _ w',
        eview w' = eview w ∨
        ∃ k h,
          edge_heads w !! k = Some h ∧
          eview w' = push k (length (edge_nitems w)) h
                       (edge_heads w,
                        alter (set_owner (Some k)) (length (edge_nitems w))
                              (edge_nitems w ++ [Item None None None])))
     (λ _, True).
Proof.
  unfold Graph_NewEdge.
  destruct src as [s|]; [|by left]. destruct dst as [d|]; [|by left].
  apply pw_bind, pw_load. intros ? Sn [= <-] HS.
  destruct (negb _); [by left|].
  apply pw_bind, pw_load. intros ? Dn [= <-] HD.
  destruct (negb _); [by left|]. cbv zeta.
  apply pw_bind, pw_load. intros g G _ _.
  apply pw_bind, pw_alloc. simpl sget.
  set (E0 := Edge.mk _ _ _ _ _ _ _ _ _ _ _).
  set (e := length (edges w)).
  set (v := (edge_heads w, edge_nitems w ++ [Item None None None])).
  assert (∀ w1 : World, (∃ F, eview w1 = v ∧ edges w1 !! e = Some F ∧
                              Edge.nest F = None) →
            pw (Edge_calcNestAndMoveToIt fuel (Some e) ;;;
                modify Graphs graph
                  (λ G, Graph.with_edgeCount (int_succ (Graph.edgeCount G)) G) ;;;
                ret (Some e, @None string)) w1
               (λ _ w',
                  eview w' = eview w ∨
                  ∃ k h,
                    edge_heads w !! k = Some h ∧
                    eview w' = push k (length (edge_nitems w)) h
                                 (edge_heads w,
                                  alter (set_owner (Some k)) (length (edge_nitems w))
                                    (edge_nitems w ++ [Item None None None])))
               (λ _, True)) as Hrest.
  { intros w1 (F & Hv1 & HF & HFn). apply pw_bind.
    eapply pw_mono; [by apply (calc_eview_new fuel e w1 F)| |done].
    intros _ w2 (k & h & Hh & Hv2). simpl.
    apply pw_bind, pw_modify. intros ? _ _. apply pw_ret. right.
    exists k, h. unfold eview in Hv1. injection Hv1 as Hv1a Hv1b.
    rewrite Hv1a in Hh. split; [done|].
    assert (length (edge_nitems w) = e) as ->
      by (unfold edge_nitems; apply length_fmap).
    change (eview w2 = push k e h
              (edge_heads w,
               alter (set_owner (Some k)) e (edge_nitems w ++ [Item None None None]))).
    by rewrite Hv2, Hv1a, Hv1b. }
  assert (∀ (m : M unit) (k : unit → M (ptr * error)) (w1 : World),
            (∃ F, eview w1 = v ∧ edges w1 !! e = Some F ∧ Edge.nest F = None) →
            keeps (λ w', ∃ F, eview w' = v ∧ edges w' !! e = Some F ∧
                              Edge.nest F = None) m →
            (∀ w2, (∃ F, eview w2 = v ∧ edges w2 !! e = Some F ∧ Edge.nest F = None) →
                   pw (k tt) w2
                      (λ _ w',
                         eview w' = eview w ∨
                         ∃ k h,
                           edge_heads w !! k = Some h ∧
                           eview w' = push k (length (edge_nitems w)) h
                                        (edge_heads w,
                                         alter (set_owner (Some k))
                                           (length (edge_nitems w))
                                           (edge_nitems w ++ [Item None None None])))
                      (λ _, True)) →
            pw (bind m k) w1
               (λ _ w',
                  eview w' = eview w ∨
                  ∃ k h,
                    edge_heads w !! k = Some h ∧
                    eview w' = push k (length (edge_nitems w)) h
                                 (edge_heads w,
                                  alter (set_owner (Some k)) (length (edge_nitems w))
                                    (edge_nitems w ++ [Item None None None])))
               (λ _, True)) as Hstep.
  { intros m k w1 H1 Hm Hk. apply pw_bind.
    apply (pw_after (λ w', ∃ F, eview w' = v ∧ edges w' !! e = Some F ∧
                               Edge.nest F = None)); [exact Hm|exact H1| |done].
    intros u w2 H2. destruct u. by apply Hk. }
  assert (∀ (a : nat) (f : Edge.t → Edge.t),
            (∀ F, Edge.nest (f F) = Edge.nest F) →
            (∀ F, edge_nitem (f F) = edge_nitem F) →
            keeps (λ w', ∃ F, eview w' = v ∧ edges w' !! e = Some F ∧
                              Edge.nest F = None)
                  (modify Edges (Some a) f)) as Hedge.
  { intros a f Hf1 Hf2. apply keeps_modify.
    intros ? w1 [= <-] (F & Hv1 & HF & HFn) _.
    destruct (decide (a = e)) as [->|Hne].
    - exists (f F). simpl. rewrite list_lookup_alter_eq, HF. split_and!; [|done|].
      + rewrite <- Hv1. unfold eview, edge_heads, edge_nitems. simpl.
        by rewrite fmap_alter_keep.
      + by rewrite Hf1.
    - exists F. simpl. rewrite list_lookup_alter_ne by done. split_and!; [|done..].
      rewrite <- Hv1. unfold eview, edge_heads, edge_nitems. simpl.
      by rewrite fmap_alter_keep. }
  assert (∀ (a : ptr) (f : Node.t → Node.t),
            keeps (λ w', ∃ F, eview w' = v ∧ edges w' !! e = Some F ∧
                              Edge.nest F = None)
                  (modify Nodes a f)) as Hnode.
  { intros a f. apply keeps_modify. intros ? w1 _ (F & Hv1 & HF & HFn) _.
    exists F. split_and!; done. }
  apply Hstep.
  { exists E0. split_and!; [|by apply list_lookup_middle|done].
    unfold eview, edge_heads, edge_nitems, v. simpl. by rewrite fmap_app. }
  { destruct (Node.firstOutcomingEdge Sn); [by apply Hedge|apply keeps_ret]. }
  intros w2 H2. apply Hstep; [done|apply Hnode|].
  intros w3 H3. apply Hstep; [done| |].
  { destruct (Node.firstIncomingEdge Dn); [by apply Hedge|apply keeps_ret]. }
  intros w4 H4. apply Hstep; [done|apply Hnode|].
  intros w5 H5. by apply Hrest.
Qed.

Lemma pw_never {A} (m : M A) w Q :
  (∀ u w', m w ≠ Done u w') → pw m w Q (λ _, True).
Proof.
  intros H. unfold pw. destruct (m w) as [u w'| |] eqn:E; [|done..].
  by destruct (H u w').
Qed.

(** [MoveToNest] returns on a node without edges only, and then leaves
    the edge lists alone. *)
Lemma MoveToNest_eview fuel node nest w :
  pw (Node_MoveToNest fuel node nest) w (λ _ w', eview w' = eview w) (λ _, True).
Proof.
  unfold Node_MoveToNest.
  apply pw_bind, pw_load. intros k' N -> HN.
  apply pw_bind, pw_load. intros t T _ _.
  apply pw_bind, pw_load. intros i Nd -> HNd.
  destruct (negb _); [done|].
  destruct (Node.nest Nd) as [k|]; [|apply pw_panic].
  apply pw_bind.
  apply (pw_after (λ w', eview w' = eview w));
    [unfold Nest_removeNode; keeps_with eview_write|done| |done].
  intros _ w1 H1. apply pw_bind.
  apply (pw_after (λ w', eview w' = eview w)); [keeps_with eview_write|done| |done].
  intros _ w2 H2. apply pw_bind.
  apply (pw_after (λ w', eview w' = eview w));
    [unfold Nest_addNode; keeps_with eview_write|done| |done].
  intros _ w3 H3. unfold Node_GetFirstIncomingEdge, Node_GetFirstOutcomingEdge.
  apply pw_bind, pw_bind, pw_load. intros ? N1 _ _. cbv beta. unfold pw at 1. simpl.
  destruct (Node.firstIncomingEdge N1) as [fi|].
  { apply pw_bind, pw_never. intros u w'. apply fix_incoming_never_returns. }
  rewrite fix_incoming_nil. apply pw_bind, pw_ret.
  apply pw_bind, pw_bind, pw_load. intros ? N2 _ _. cbv beta. unfold pw at 1. simpl.
  destruct (Node.firstOutcomingEdge N2) as [fo|].
  { apply pw_bind, pw_never. intros u w'. apply fix_outcoming_never_returns. }
  rewrite fix_outcoming_nil. apply pw_bind, pw_ret. by apply pw_ret.
Qed.

Lemma NewNest_eview nt w :
  pw (NestTree_NewNest nt) w
     (λ _ w', eview w' = (edge_heads w ++ [None], edge_nitems w))
     (λ _, True).
Proof.
  unfold NestTree_NewNest.
  apply pw_bind, pw_load. intros t T _ _.
  destruct (NestTree.rootNest T); [|apply pw_panic].
  destruct (NestTree.baseGraph T); [|apply pw_panic].
  apply pw_bind, pw_load. intros r R _ _.
  apply pw_bind, pw_load. intros g G _ _.
  apply pw_bind, pw_make. intros _.
  apply pw_bind, pw_alloc. cbv zeta.
  match goal with |- pw _ ?w1 _ _ => apply (pw_after (λ w', eview w' = eview w1)) end;
    [keeps_with eview_write|done| |done].
  intros _ w' ->. unfold eview, edge_heads, edge_nitems. simpl.
  by rewrite fmap_app.
Qed.

(** The edge lists of the nests are whole. *)
Lemma exec_edge_lists fuel c w w' :
  lists_ok None (eview w).1 (eview w).2 → exec fuel c w = Done tt w' →
  lists_ok None (eview w').1 (eview w').2.
Proof.
  intros HL E.
  assert (∀ {A} (m : M A) x,
            keeps (λ w0, eview w0 = eview w) m → m w = Done x w' →
            lists_ok None (eview w').1 (eview w').2) as Hview.
  { intros A m x Hm Em.
    by rewrite (keeps_Done _ m w x w' Hm eq_refl Em). }
  destruct c; simpl in E; apply bind_Done_inv in E as (x & w1 & E & [= <-]).
  - apply NewGraph_Done_inv in E as (_ & _ & ->).
    unfold eview, edge_heads, edge_nitems. simpl. rewrite fmap_app.
    by apply lists_ok_new_owner.
  - eapply Hview; [|done]. keeps_attr_call_script eview_write.
  - eapply Hview; [|done]. keeps_attr_call_script eview_write.
  - eapply Hview; [|done]. keeps_attr_call_script eview_write.
  - eapply Hview; [|done]. keeps_attr_call_script eview_write.
  - eapply Hview; [|done]. keeps_attr_call_script eview_write.
  - eapply Hview; [|done].
    keeps_ReleaseNode_script eview_write (keeps_eview_node_sweep (eview w) fuel).
  - eapply Hview; [|done]. apply keeps_eview_NewNode.
  - destruct (pw_Done _ _ _ _ _ _ (NewEdge_eview _ _ _ _ w) E)
      as [->|(k & h & Hh & ->)]; [done|].
    pose proof (lists_ok_alloc _ _ (Item None None None) HL) as H1.
    apply (lists_ok_push _ _ k _ (Item (Some k) None None) h); try done.
    + apply lists_ok_retarget; [done|]. by eapply lookup_lt_Some.
    + rewrite list_lookup_alter_eq. unfold eview. cbn [fst snd].
      by rewrite list_lookup_middle.
  - eapply Hview; [|done]. keeps_attr_call_script eview_write.
  - eapply Hview; [|done]. keeps_attr_call_script eview_write.
  - by rewrite (pw_Done _ _ _ _ _ _ (MoveToNest_eview _ _ _ w) E).
  - rewrite (pw_Done _ _ _ _ _ _ (NewNest_eview _ w) E).
    by apply lists_ok_new_owner.
  - eapply Hview; [|done]. keeps_attr_call_script eview_write.
  - eapply Hview; [|done].
    keeps_ReleaseNest_script eview_write (keeps_eview_nest_sweep (eview w) fuel).
  - eapply Hview; [|done]. keeps_attr_call_script eview_write.
  - eapply Hview; [|done]. keeps_attr_call_script eview_write.
Qed.

Lemma reachable_edge_lists w :
  reachable w → lists_ok None (edge_heads w) (edge_nitems w).
Proof.
  intros Hr. change (lists_ok None (eview w).1 (eview w).2).
  induction Hr as [|w fuel c w' Hr IH E].
  - apply lists_ok_nil.
  - by eapply exec_edge_lists.
Qed.

Lemma nest_edge_walk_dll n w e :
  nest_edge_walk n w e = dll_walk n (edge_nitems w) e.
Proof.
  revert e. induction n as [|n IH]; intros [a|]; simpl; try done.
  unfold Edge_GetNextEdgeInNest, bind, load, edge_nitems. simpl.
  rewrite list_lookup_fmap. destruct (edges w !! a); simpl; [|done].
  by rewrite IH.
Qed.

Lemma reachable_nested_fan : reachable world_nested_fan.
Proof.
  pose proof reach_init as H.
  apply (reachable_exec _ 0 (Call_NewGraph DefaultAttrSpec)) in H; vm_compute in H.
  apply (reachable_exec _ 0 (Call_NewNest (Some 0))) in H; vm_compute in H.
  apply (reachable_exec _ 0 (Call_NewNode (Some 0))) in H; vm_compute in H.
  apply (reachable_exec _ 0 (Call_NewNode (Some 0))) in H; vm_compute in H.
  apply (reachable_exec _ 0 (Call_NewNode (Some 0))) in H; vm_compute in H.
  apply (reachable_exec _ 1 (Call_MoveToNest (Some 1) (Some 1))) in H; vm_compute in H.
  apply (reachable_exec _ 1 (Call_MoveToNest (Some 2) (Some 1))) in H; vm_compute in H.
  apply (reachable_exec _ 2 (Call_NewEdge (Some 0) (Some 1) (Some 2))) in H; vm_compute in H.
  apply (reachable_exec _ 2 (Call_NewEdge (Some 0) (Some 0) (Some 1))) in H; vm_compute in H.
  apply (reachable_exec _ 2 (Call_NewEdge (Some 0) (Some 2) (Some 1))) in H; vm_compute in H.
  vm_compute. exact H.
Qed.

(** X22. In a world brought about by calls that returned, the loop over
    the edges of a nest, from [GetFirstEdge] of the nest along
    [GetNextEdgeInNest] until nil, ends within one round more than there
    are edges; it goes through the edges that lie in the nest and through
    no others, each once; and every edge lies in a nest. *)
Theorem nest_edges_are_the_edges_in_the_nest n w k K :
  reachable w → nests w !! k = Some K → length (edges w) < n →
  (∃ l, nest_edges n w k = Some l ∧ NoDup l ∧
        ∀ e, e ∈ l ↔ edge_nest w e = Some (Some k)) ∧
  ∀ e E, edges w !! e = Some E →
    ∃ k' K', Edge.nest E = Some k' ∧ nests w !! k' = Some K'.
Proof.
  intros Hr HK Hn. destruct (reachable_edge_lists w Hr) as [HL HO]. split.
  - destruct (HL k) as (ls & Hh & Hnd & Hlk & Hmem).
    { unfold edge_heads. rewrite length_fmap. by eapply lookup_lt_Some. }
    pose proof (list_of_bounded _ _ _ _ (conj Hh (conj Hnd (conj Hlk Hmem)))) as Hlen.
    unfold edge_nitems in Hlen. rewrite length_fmap in Hlen.
    exists ls. split_and!; [|done|].
    + unfold nest_edges.
      assert (Nest_GetFirstEdge (Some k) w = Done (head ls) w) as ->.
      { unfold Nest_GetFirstEdge, bind, load. simpl. rewrite HK.
        unfold edge_heads in Hh. rewrite list_lookup_fmap, HK in Hh.
        by injection Hh as ->. }
      rewrite nest_edge_walk_dll. apply (linked_walk _ None); [done|lia].
    + intros e. rewrite Hmem. unfold edge_nest, edge_nitems.
      rewrite list_lookup_fmap. destruct (edges w !! e) as [E|]; simpl.
      * split.
        -- intros (_ & y & [= <-] & Hy). simpl in Hy. by rewrite Hy.
        -- intros [= Hk]. split; [done|]. eexists. split; [done|]. done.
      * split; [by intros (_ & y & ? & _)|done].
  - intros e E HE.
    destruct (HO e (edge_nitem E)) as (k' & Hk' & Hlt); [|done|].
    { unfold edge_nitems. by rewrite list_lookup_fmap, HE. }
    unfold edge_heads in Hlt. rewrite length_fmap in Hlt.
    destruct (lookup_lt_is_Some_2 _ _ Hlt) as [K' HK']. eauto.
Qed.

Lemma nest_edges_are_the_edges_in_the_nest_witness :
  nest_edges 4 world_nested_fan 1 = Some [2; 0] ∧
  nest_edges 4 world_nested_fan 0 = Some [1] ∧
  ∀ e, e ∈ [2; 0] ↔ edge_nest world_nested_fan e = Some (Some 1).
Proof.
  pose proof (λ K, nest_edges_are_the_edges_in_the_nest 4 world_nested_fan 1 K
                     reachable_nested_fan) as H.
  edestruct H as [(l & El & _ & Hl) _]; [by vm_compute|vm_compute; lia|].
  vm_compute in El. injection El as <-.
  split; [by vm_compute|]. split; [by vm_compute|exact Hl].
Defined.

(** ** Identifiers count the objects of an owner *)

Lemma int_wrap_small z : (0 ≤ z < 2 ^ 63)%Z → int_wrap z = z.
Proof. intros H. unfold int_wrap. rewrite Z.mod_small; lia. Qed.

Lemma int_succ_wrap z : int_succ (int_wrap z) = int_wrap (z + 1).
Proof.
  unfold int_succ, int_wrap.
  replace ((z + 2 ^ 63) `mod` 2 ^ 64 - 2 ^ 63 + 1 + 2 ^ 63)%Z
    with ((z + 2 ^ 63) `mod` 2 ^ 64 + 1)%Z by lia.
  rewrite Zplus_mod_idemp_l. do 2 f_equal. lia.
Qed.

Lemma rank_app o l1 l2 : rank o (l1 ++ l2) = rank o l1 + rank o l2.
Proof. induction l1 as [|p l1 IH]; simpl; [done|]. rewrite IH. lia. Qed.

Lemma rank_le o l : rank o l ≤ length l.
Proof.
  induction l as [|p l IH]; simpl; [done|].
  destruct (decide (p = Some o)); lia.
Qed.

Lemma rank_none o l :
  (∀ i, l !! i ≠ Some (Some o)) → rank o l = 0.
Proof.
  induction l as [|p l IH]; intros H; simpl; [done|].
  destruct (decide (p = Some o)) as [->|_]; [by destruct (H 0)|].
  rewrite IH; [done|]. intros i. apply (H (S i)).
Qed.

Lemma rank_take_lt o l i j :
  l !! i = Some (Some o) → i < j → rank o (take i l) < rank o (take j l).
Proof.
  intros Hi Hij.
  assert (take j l = take (S i) l ++ drop (S i) (take j l)) as ->.
  { rewrite <- (take_drop (S i) (take j l)) at 1. f_equal.
    rewrite take_take. f_equal. lia. }
  rewrite (take_S_r _ _ _ Hi), !rank_app. simpl.
  destruct (decide (Some o = Some o)); [lia|done].
Qed.

Lemma ids_ok_nil : ids_ok [] [] [].
Proof. split; intros *; by rewrite lookup_nil. Qed.

(** A new owner has no objects. *)
Lemma ids_ok_new_owner owners ids counts :
  ids_ok owners ids counts → ids_ok owners ids (counts ++ [0%Z]).
Proof.
  intros [H1 H2]. split.
  - intros i o Ho. destruct (H1 i o Ho) as [Hlt Hid]. split; [|done].
    rewrite length_app. lia.
  - intros o c Hc. apply lookup_app_Some in Hc as [Hc|[Hle Hc]]; [by apply H2|].
    assert (o = length counts) as ->.
    { apply lookup_lt_Some in Hc. simpl in Hc. lia. }
    rewrite Nat.sub_diag in Hc. injection Hc as <-.
    rewrite rank_none; [done|]. intros i Hi.
    destruct (H1 i _ Hi) as [Hlt _]. lia.
Qed.

(** A new object takes the count of its owner, which goes up by one. *)
Lemma ids_ok_append owners ids counts o c :
  ids_ok owners ids counts → length ids = length owners →
  counts !! o = Some c →
  ids_ok (owners ++ [Some o]) (ids ++ [c]) (alter int_succ o counts).
Proof.
  intros [H1 H2] Hlen Hc. split.
  - intros i o' Ho'. rewrite length_alter.
    apply lookup_app_Some in Ho' as [Ho'|[Hle Ho']].
    + destruct (H1 i o' Ho') as [Hlt Hid]. split; [done|].
      pose proof (lookup_lt_Some _ _ _ Ho') as Hi.
      rewrite take_app_le by lia. by rewrite lookup_app_l by lia.
    + assert (i = length owners) as ->.
      { apply lookup_lt_Some in Ho'. simpl in Ho'. lia. }
      rewrite Nat.sub_diag in Ho'. injection Ho' as <-.
      split; [by eapply lookup_lt_Some|].
      rewrite take_app_length, <- Hlen, list_lookup_middle by done.
      by rewrite (H2 o c Hc).
  - intros o' c' Hc'. rewrite rank_app. simpl.
    destruct (decide (o' = o)) as [->|Hne].
    + rewrite list_lookup_alter_eq, Hc in Hc'. injection Hc' as <-.
      rewrite (H2 o c Hc), int_succ_wrap.
      destruct (decide (Some o = Some o)); [|done]. f_equal. lia.
    + rewrite list_lookup_alter_ne in Hc' by done.
      destruct (decide (Some o = Some o')) as [[= ->]|_]; [done|].
      rewrite Nat.add_0_r. by apply H2.
Qed.

(** Of two objects of one owner the later made has the larger
    identifier, as long as the store has fewer than 2^63 objects. *)
Lemma ids_ok_order owners ids counts i j o :
  ids_ok owners ids counts → (Z.of_nat (length owners) < 2 ^ 63)%Z →
  owners !! i = Some (Some o) → owners !! j = Some (Some o) → i < j →
  ∃ a b, ids !! i = Some a ∧ ids !! j = Some b ∧ (0 ≤ a < b)%Z.
Proof.
  intros [H1 _] Hlen Hi Hj Hij.
  destruct (H1 i o Hi) as [_ Ha]. destruct (H1 j o Hj) as [_ Hb].
  pose proof (rank_take_lt o owners i j Hi Hij) as Hlt.
  pose proof (rank_le o (take j owners)) as Hle.
  rewrite length_take in Hle.
  exists (Z.of_nat (rank o (take i owners))), (Z.of_nat (rank o (take j owners))).
  rewrite Ha, Hb, !int_wrap_small by lia. split_and!; [done..|lia|lia].
Qed.

(** ** Identifiers are given by [NewNode], [NewEdge] and [NewNest] only *)

Ltac ids_write :=
  intros;
  first [ match goal with H : all_ids _ = _ |- _ => exact H end
        | unfold all_ids, node_ids, edge_ids, nest_ids in *; simpl;
          rewrite ?fmap_alter_keep by (by intros []);
          match goal with H : _ = _ |- _ => exact H end ].

Lemma keeps_ids_calc v fuel edge :
  keeps (λ w, all_ids w = v) (Edge_calcNestAndMoveToIt fuel edge).
Proof. keeps_calc_script ids_write. Qed.

Lemma keeps_ids_fix_incoming v fuel n edge :
  keeps (λ w, all_ids w = v) (MoveToNest_fix_incoming fuel n edge).
Proof. keeps_fix_script (keeps_ids_calc v fuel). Qed.

Lemma keeps_ids_fix_outcoming v fuel n edge :
  keeps (λ w, all_ids w = v) (MoveToNest_fix_outcoming fuel n edge).
Proof. keeps_fix_script (keeps_ids_calc v fuel). Qed.

Lemma keeps_ids_MoveToNest v fuel node nest :
  keeps (λ w, all_ids w = v) (Node_MoveToNest fuel node nest).
Proof.
  keeps_MoveToNest_script ids_write
    (keeps_ids_fix_incoming v fuel) (keeps_ids_fix_outcoming v fuel).
Qed.

Lemma keeps_ids_node_sweep v fuel node attr :
  keeps (λ w, all_ids w = v) (ReleaseNodeStrAttr_sweep fuel node attr).
Proof. keeps_node_sweep_script ids_write. Qed.

Lemma keeps_ids_nest_sweep v fuel nest attr :
  keeps (λ w, all_ids w = v) (ReleaseNestStrAttr_sweep fuel nest attr).
Proof. keeps_nest_sweep_script ids_write. Qed.

Lemma NewNode_ids graph w :
  pw (Graph_NewNode graph) w
     (λ _ w', ∃ g, g < length (graphs w) ∧
        all_ids w' = (ids_grown g (node_ids w), edge_ids w, nest_ids w))
     (λ _, True).
Proof.
  unfold Graph_NewNode.
  apply pw_bind, pw_load. intros g G -> HG. simpl in HG.
  destruct (Graph.nestTree G); [|apply pw_panic].
  apply pw_bind, pw_load. intros t T _ _.
  destruct (NestTree.rootNest T) as [r|]; [|apply pw_panic].
  apply pw_bind, pw_make. intros _.
  apply pw_bind, pw_alloc. simpl sget.
  apply pw_bind.
  match goal with |- pw _ ?w1 _ _ => apply (pw_after (λ w', all_ids w' = all_ids w1)) end;
    [unfold Nest_addNode; keeps_with ids_write|done| |done].
  intros _ w2 H2. apply pw_bind, pw_modify. intros ? [= <-] _. apply pw_ret.
  exists g. split; [by eapply lookup_lt_Some|].
  unfold all_ids, node_ids, edge_ids, nest_ids, ids_grown in *. simpl in *.
  rewrite (fmap_alter_keep Graph.edgeCount) by (by intros []).
  rewrite (fmap_alter_comm Graph.nodeCount _ int_succ) by (by intros []).
  rewrite !fmap_app in H2. simpl in H2.
  injection H2 as -> -> -> -> -> -> -> -> ->.
  by rewrite list_lookup_fmap, HG.
Qed.

Lemma NewEdge_ids fuel graph src dst w :
  pw (Graph_NewEdge fuel graph src dst) w
     (λ _ w',
        all_ids w' = all_ids w ∨
        ∃ g, g < length (graphs w) ∧
          all_ids w' = (node_ids w, ids_grown g (edge_ids w), nest_ids w))
     (λ _, True).
Proof.
  unfold Graph_NewEdge.
  destruct src as [s|]; [|by left]. destruct dst as [d|]; [|by left].
  apply pw_bind, pw_load. intros ? Sn [= <-] HS.
  destruct (negb _); [by left|].
  apply pw_bind, pw_load. intros ? Dn [= <-] HD.
  destruct (negb _); [by left|]. cbv zeta.
  apply pw_bind, pw_load. intros g G -> HG. simpl in HG.
  apply pw_bind, pw_alloc. simpl sget.
  match goal with |- pw _ ?x _ _ => set (w1 := x) end.
  apply pw_bind.
  apply (pw_after (λ w', all_ids w' = all_ids w1)); [keeps_with ids_write|done| |done].
  intros _ w2 H2. apply pw_bind.
  apply (pw_after (λ w', all_ids w' = all_ids w1)); [keeps_with ids_write|done| |done].
  intros _ w3 H3. apply pw_bind.
  apply (pw_after (λ w', all_ids w' = all_ids w1)); [keeps_with ids_write|done| |done].
  intros _ w4 H4. apply pw_bind.
  apply (pw_after (λ w', all_ids w' = all_ids w1)); [keeps_with ids_write|done| |done].
  intros _ w5 H5. apply pw_bind.
  apply (pw_after (λ w', all_ids w' = all_ids w1)); [apply keeps_ids_calc|done| |done].
  intros _ w6 H6. apply pw_bind, pw_modify. intros ? [= <-] _. apply pw_ret.
  right. exists g. split; [by eapply lookup_lt_Some|].
  unfold w1, all_ids, node_ids, edge_ids, nest_ids, ids_grown in *. simpl in *.
  rewrite (fmap_alter_keep Graph.nodeCount) by (by intros []).
  rewrite (fmap_alter_comm Graph.edgeCount _ int_succ) by (by intros []).
  rewrite !fmap_app in H6. simpl in H6.
  injection H6 as -> -> -> -> -> -> -> -> ->.
  by rewrite list_lookup_fmap, HG.
Qed.

Lemma NewNest_ids nt w :
  pw (NestTree_NewNest nt) w
     (λ _ w', ∃ t, t < length (nestTrees w) ∧
        all_ids w' = (node_ids w, edge_ids w, ids_grown t (nest_ids w)))
     (λ _, True).
Proof.
  unfold NestTree_NewNest.
  apply pw_bind, pw_load. intros t T -> HT. simpl in HT.
  destruct (NestTree.rootNest T); [|apply pw_panic].
  destruct (NestTree.baseGraph T); [|apply pw_panic].
  apply pw_bind, pw_load. intros r R _ _.
  apply pw_bind, pw_load. intros g G _ _.
  apply pw_bind, pw_make. intros _.
  apply pw_bind, pw_alloc. simpl sget. cbv zeta.
  match goal with |- pw _ ?x _ _ => set (w1 := x) end.
  apply pw_bind.
  apply (pw_after (λ w', all_ids w' = all_ids w1)); [keeps_with ids_write|done| |done].
  intros _ w2 H2. apply pw_bind.
  apply (pw_after (λ w', all_ids w' = all_ids w1)); [keeps_with ids_write|done| |done].
  intros _ w3 H3. apply pw_bind, pw_modify. intros ? [= <-] _. apply pw_ret.
  exists t. split; [by eapply lookup_lt_Some|].
  unfold w1, all_ids, node_ids, edge_ids, nest_ids, ids_grown in *. simpl in *.
  rewrite (fmap_alter_comm NestTree.nestCount _ int_succ) by (by intros []).
  rewrite !fmap_app in H3. simpl in H3.
  injection H3 as -> -> -> -> -> -> -> -> ->.
  by rewrite list_lookup_fmap, HT.
Qed.

Lemma ids_grown_ok o v :
  ids_ok_of v → length v.1.2 = length v.1.1 → o < length v.2 →
  ids_ok_of (ids_grown o v).
Proof.
  intros Hok Hlen Ho. destruct (lookup_lt_is_Some_2 _ _ Ho) as [c Hc].
  unfold ids_ok_of, ids_grown. simpl. rewrite Hc. simpl.
  by apply ids_ok_append.
Qed.

(** The identifiers of nodes, edges and nests count them. *)
Lemma exec_ids fuel c w w' :
  ids_ok_of (node_ids w) ∧ ids_ok_of (edge_ids w) ∧ ids_ok_of (nest_ids w) →
  exec fuel c w = Done tt w' →
  ids_ok_of (node_ids w') ∧ ids_ok_of (edge_ids w') ∧ ids_ok_of (nest_ids w').
Proof.
  intros HL E.
  assert (∀ v, all_ids v = all_ids w →
            ids_ok_of (node_ids v) ∧ ids_ok_of (edge_ids v) ∧
            ids_ok_of (nest_ids v)) as Hsame.
  { intros v Hv.
    pose proof (f_equal (λ x, x.1.1) Hv) as E1.
    pose proof (f_equal (λ x, x.1.2) Hv) as E2.
    pose proof (f_equal snd Hv) as E3. simpl in E1, E2, E3.
    by rewrite E1, E2, E3. }
  assert (∀ {A} (m : M A) x,
            keeps (λ w0, all_ids w0 = all_ids w) m → m w = Done x w' →
            ids_ok_of (node_ids w') ∧ ids_ok_of (edge_ids w') ∧
            ids_ok_of (nest_ids w')) as Hview.
  { intros A m x Hm Em. apply Hsame.
    exact (keeps_Done _ m w x w' Hm eq_refl Em). }
  assert (∀ v, all_ids w' = v →
            ids_ok_of v.1.1 ∧ ids_ok_of v.1.2 ∧ ids_ok_of v.2 →
            ids_ok_of (node_ids w') ∧ ids_ok_of (edge_ids w') ∧
            ids_ok_of (nest_ids w')) as Hnew.
  { intros v <-. done. }
  destruct HL as (H1 & H2 & H3).
  destruct c; simpl in E; apply bind_Done_inv in E as (x & w1 & E & [= <-]).
  - apply NewGraph_Done_inv in E as (_ & _ & ->).
    unfold ids_ok_of, node_ids, edge_ids, nest_ids in *. simpl in *.
    rewrite !fmap_app. simpl. split_and!.
    + by apply ids_ok_new_owner.
    + by apply ids_ok_new_owner.
    + rewrite <- (alter_snoc int_succ _ 0%Z).
      replace (length (NestTree.nestCount <$> nestTrees w))
        with (length (nestTrees w)) by (by rewrite length_fmap).
      apply ids_ok_append; [by apply ids_ok_new_owner|by rewrite !length_fmap|].
      rewrite <- (length_fmap NestTree.nestCount). by rewrite list_lookup_middle.
  - eapply Hview; [|done]. keeps_attr_call_script ids_write.
  - eapply Hview; [|done]. keeps_attr_call_script ids_write.
  - eapply Hview; [|done]. keeps_attr_call_script ids_write.
  - eapply Hview; [|done]. keeps_attr_call_script ids_write.
  - eapply Hview; [|done]. keeps_attr_call_script ids_write.
  - eapply Hview; [|done].
    keeps_ReleaseNode_script ids_write (keeps_ids_node_sweep (all_ids w) fuel).
  - destruct (pw_Done _ _ _ _ _ _ (NewNode_ids _ w) E) as (g & Hg & Hv).
    apply (Hnew _ Hv). simpl. split_and!; [|done..].
    apply ids_grown_ok; [done|simpl; by rewrite !length_fmap|].
    simpl. by rewrite length_fmap.
  - destruct (pw_Done _ _ _ _ _ _ (NewEdge_ids _ _ _ _ w) E)
      as [Hv|(g & Hg & Hv)]; [by apply Hsame|].
    apply (Hnew _ Hv). simpl. split_and!; [done| |done].
    apply ids_grown_ok; [done|simpl; by rewrite !length_fmap|].
    simpl. by rewrite length_fmap.
  - eapply Hview; [|done]. keeps_attr_call_script ids_write.
  - eapply Hview; [|done]. keeps_attr_call_script ids_write.
  - eapply Hview; [|done]. apply keeps_ids_MoveToNest.
  - destruct (pw_Done _ _ _ _ _ _ (NewNest_ids _ w) E) as (t & Ht & Hv).
    apply (Hnew _ Hv). simpl. split_and!; [done..|].
    apply ids_grown_ok; [done|simpl; by rewrite !length_fmap|].
    simpl. by rewrite length_fmap.
  - eapply Hview; [|done]. keeps_attr_call_script ids_write.
  - eapply Hview; [|done].
    keeps_ReleaseNest_script ids_write (keeps_ids_nest_sweep (all_ids w) fuel).
  - eapply Hview; [|done]. keeps_attr_call_script ids_write.
  - eapply Hview; [|done]. keeps_attr_call_script ids_write.
Qed.

Lemma reachable_ids w :
  reachable w →
  ids_ok_of (node_ids w) ∧ ids_ok_of (edge_ids w) ∧ ids_ok_of (nest_ids w).
Proof.
  induction 1 as [|w fuel c w' Hr IH E].
  - split_and!; apply ids_ok_nil.
  - by eapply exec_ids.
Qed.

(** ** Identifiers tell the objects of a graph apart *)

Lemma ids_ok_below owners ids counts j o c :
  ids_ok owners ids counts → (Z.of_nat (length owners) < 2 ^ 63)%Z →
  owners !! j = Some (Some o) → counts !! o = Some c →
  ∃ b, ids !! j = Some b ∧ (b < c)%Z.
Proof.
  intros [H1 H2] Hlen Hj Hc. destruct (H1 j o Hj) as [_ Hb].
  pose proof (lookup_lt_Some _ _ _ Hj) as Hjl.
  pose proof (rank_take_lt o owners j (length owners) Hj Hjl) as Hlt.
  rewrite firstn_all in Hlt. pose proof (rank_le o owners) as Hle.
  exists (int_wrap (Z.of_nat (rank o (take j owners)))). split; [done|].
  rewrite (H2 o c Hc), !int_wrap_small by lia. lia.
Qed.

(** X23. In a world brought about by calls that returned and with fewer
    than 2^63 nodes, of two nodes of one graph the one made later has the
    larger [GetID]; the identifiers start at 0 and stay below the node
    count of the graph, which is the identifier of the next node. *)
Theorem node_ids_rise_with_creation w i j Ni Nj :
  reachable w → (Z.of_nat (length (nodes w)) < 2 ^ 63)%Z →
  nodes w !! i = Some Ni → nodes w !! j = Some Nj →
  Node.graph Ni = Node.graph Nj → i < j →
  ∃ a b g G,
    Node_GetID (Some i) w = Done a w ∧ Node_GetID (Some j) w = Done b w ∧
    Node_GetGraph (Some j) w = Done (Some g) w ∧ graphs w !! g = Some G ∧
    (0 ≤ a < b)%Z ∧ (b < Graph.nodeCount G)%Z.
Proof.
  intros Hr Hlen Hi Hj Hg Hij.
  destruct (reachable_ids w Hr) as (Hok & _ & _).
  destruct (inv_node _ _ (reachable_Inv _ Hr) _ _ Hj)
    as (_ & _ & _ & _ & g & G & _ & _ & Hgj & HG & _).
  unfold ids_ok_of, node_ids in Hok. simpl in Hok.
  assert ((Node.graph <$> nodes w) !! i = Some (Some g)) as Oi.
  { rewrite list_lookup_fmap, Hi. simpl. congruence. }
  assert ((Node.graph <$> nodes w) !! j = Some (Some g)) as Oj.
  { rewrite list_lookup_fmap, Hj. simpl. congruence. }
  rewrite <- (length_fmap Node.graph) in Hlen.
  destruct (ids_ok_order _ _ _ i j g Hok Hlen Oi Oj Hij) as (a & b & Ha & Hb & Hab).
  destruct (ids_ok_below _ _ _ j g (Graph.nodeCount G) Hok Hlen Oj)
    as (b' & Hb' & Hbc); [by rewrite list_lookup_fmap, HG|].
  assert (b' = b) as -> by congruence.
  rewrite list_lookup_fmap, Hi in Ha. rewrite list_lookup_fmap, Hj in Hb.
  injection Ha as <-. injection Hb as <-.
  exists (Node.id Ni), (Node.id Nj), g, G.
  unfold Node_GetID, Node_GetGraph, bind, load, ret. simpl.
  rewrite Hi, Hj, Hgj. done.
Qed.

Lemma node_ids_rise_with_creation_witness :
  ∃ a b g G,
    Node_GetID (Some 1) world_spread = Done a world_spread ∧
    Node_GetID (Some 3) world_spread = Done b world_spread ∧
    Node_GetGraph (Some 3) world_spread = Done (Some g) world_spread ∧
    graphs world_spread !! g = Some G ∧
    (0 ≤ a < b)%Z ∧ (b < Graph.nodeCount G)%Z.
Proof.
  pose proof (λ Ni Nj, node_ids_rise_with_creation world_spread 1 3 Ni Nj
                         reachable_spread) as H.
  eapply H; [by vm_compute..|lia].
Defined.

(** X24. In a world brought about by calls that returned and with fewer
    than 2^63 edges, of two edges of one graph the one made later has the
    larger [GetID]; the identifiers start at 0 and stay below the edge
    count of the graph, which is the identifier of the next edge. *)
Theorem edge_ids_rise_with_creation w i j Ei Ej :
  reachable w → (Z.of_nat (length (edges w)) < 2 ^ 63)%Z →
  edges w !! i = Some Ei → edges w !! j = Some Ej →
  Edge.graph Ei = Edge.graph Ej → i < j →
  ∃ a b g G,
    Edge_GetID (Some i) w = Done a w ∧ Edge_GetID (Some j) w = Done b w ∧
    Edge_GetGraph (Some j) w = Done (Some g) w ∧ graphs w !! g = Some G ∧
    (0 ≤ a < b)%Z ∧ (b < Graph.edgeCount G)%Z.
Proof.
  intros Hr Hlen Hi Hj Hg Hij.
  destruct (reachable_ids w Hr) as (_ & Hok & _).
  pose proof (reachable_Inv _ Hr) as HI.
  destruct (inv_edge _ _ HI _ _ Hj) as [((s & S & _ & _ & _ & HS & _ & _ & HSg & _) & _) _].
  destruct (inv_node _ _ HI _ _ HS) as (_ & _ & _ & _ & g & G & _ & _ & Hgs & HG & _).
  assert (Edge.graph Ej = Some g) as Hgj by congruence.
  unfold ids_ok_of, edge_ids in Hok. simpl in Hok.
  assert ((Edge.graph <$> edges w) !! i = Some (Some g)) as Oi.
  { rewrite list_lookup_fmap, Hi. simpl. congruence. }
  assert ((Edge.graph <$> edges w) !! j = Some (Some g)) as Oj.
  { rewrite list_lookup_fmap, Hj. simpl. congruence. }
  rewrite <- (length_fmap Edge.graph) in Hlen.
  destruct (ids_ok_order _ _ _ i j g Hok Hlen Oi Oj Hij) as (a & b & Ha & Hb & Hab).
  destruct (ids_ok_below _ _ _ j g (Graph.edgeCount G) Hok Hlen Oj)
    as (b' & Hb' & Hbc); [by rewrite list_lookup_fmap, HG|].
  assert (b' = b) as -> by congruence.
  rewrite list_lookup_fmap, Hi in Ha. rewrite list_lookup_fmap, Hj in Hb.
  injection Ha as <-. injection Hb as <-.
  exists (Edge.id Ei), (Edge.id Ej), g, G.
  unfold Edge_GetID, Edge_GetGraph, bind, load, ret. simpl.
  rewrite Hi, Hj, Hgj. done.
Qed.

Lemma edge_ids_rise_with_creation_witness :
  ∃ a b g G,
    Edge_GetID (Some 0) world_fan = Done a world_fan ∧
    Edge_GetID (Some 2) world_fan = Done b world_fan ∧
    Edge_GetGraph (Some 2) world_fan = Done (Some g) world_fan ∧
    graphs world_fan !! g = Some G ∧
    (0 ≤ a < b)%Z ∧ (b < Graph.edgeCount G)%Z.
Proof.
  pose proof (λ Ei Ej, edge_ids_rise_with_creation world_fan 0 2 Ei Ej
                         reachable_fan) as H.
  eapply H; [by vm_compute..|lia].
Defined.

(** X25. In a world brought about by calls that returned and with fewer
    than 2^63 nests, of two nests of one nest tree the one made later has
    the larger [GetID]; the identifiers start at 0 and stay below the
    nest count of the tree, which is the identifier of the next nest. *)
Theorem nest_ids_rise_with_creation w i j Ki Kj :
  reachable w → (Z.of_nat (length (nests w)) < 2 ^ 63)%Z →
  nests w !! i = Some Ki → nests w !! j = Some Kj →
  Nest.nestTree Ki = Nest.nestTree Kj → i < j →
  ∃ a b t T,
    Nest_GetID (Some i) w = Done a w ∧ Nest_GetID (Some j) w = Done b w ∧
    Nest_GetNestTree (Some j) w = Done (Some t) w ∧ nestTrees w !! t = Some T ∧
    (0 ≤ a < b)%Z ∧ (b < NestTree.nestCount T)%Z.
Proof.
  intros Hr Hlen Hi Hj Hg Hij.
  destruct (reachable_ids w Hr) as (_ & _ & Hok).
  destruct (Inv_nest_shape _ _ _ (reachable_Inv _ Hr) Hj)
    as (t & T & r & Htj & HT & _).
  unfold ids_ok_of, nest_ids in Hok. simpl in Hok.
  assert ((Nest.nestTree <$> nests w) !! i = Some (Some t)) as Oi.
  { rewrite list_lookup_fmap, Hi. simpl. congruence. }
  assert ((Nest.nestTree <$> nests w) !! j = Some (Some t)) as Oj.
  { rewrite list_lookup_fmap, Hj. simpl. congruence. }
  rewrite <- (length_fmap Nest.nestTree) in Hlen.
  destruct (ids_ok_order _ _ _ i j t Hok Hlen Oi Oj Hij) as (a & b & Ha & Hb & Hab).
  destruct (ids_ok_below _ _ _ j t (NestTree.nestCount T) Hok Hlen Oj)
    as (b' & Hb' & Hbc); [by rewrite list_lookup_fmap, HT|].
  assert (b' = b) as -> by congruence.
  rewrite list_lookup_fmap, Hi in Ha. rewrite list_lookup_fmap, Hj in Hb.
  injection Ha as <-. injection Hb as <-.
  exists (Nest.id Ki), (Nest.id Kj), t, T.
  unfold Nest_GetID, Nest_GetNestTree, bind, load, ret. simpl.
  rewrite Hi, Hj, Htj. done.
Qed.

Lemma nest_ids_rise_with_creation_witness :
  ∃ a b t T,
    Nest_GetID (Some 0) world_two_nests = Done a world_two_nests ∧
    Nest_GetID (Some 2) world_two_nests = Done b world_two_nests ∧
    Nest_GetNestTree (Some 2) world_two_nests = Done (Some t) world_two_nests ∧
    nestTrees world_two_nests !! t = Some T ∧
    (0 ≤ a < b)%Z ∧ (b < NestTree.nestCount T)%Z.
Proof.
  pose proof (λ Ki Kj, nest_ids_rise_with_creation world_two_nests 0 2 Ki Kj
                         reachable_two_nests) as H.
  eapply H; [by vm_compute..|lia].
Defined.

(** ** The pool of graph attributes *)




























(** ** More rounds for the loops *)










(** ** The pool of node attributes *)











(** ** The calls and the pool of node attributes *)




















(** ** The last node of a nest *)

Lemma tails_ok_nil : tails_ok None [] [] [].
Proof. split; [done|]. intros o t. by rewrite lookup_nil. Qed.

Lemma tails_ok_new_owner skip heads items tails :
  tails_ok skip heads items tails →
  tails_ok skip (heads ++ [None]) items (tails ++ [None]).
Proof.
  intros [HL HT]. split; [by rewrite !length_app, HL|].
  intros o t Ho. apply lookup_app_Some in Ho as [Ho|[Hle Ho]].
  - specialize (HT o t Ho). destruct t as [e|]; [done|].
    by apply lookup_app_l_Some.
  - destruct (o - length tails) as [|?] eqn:Eo; [|by simpl in Ho].
    injection Ho as <-. assert (o = length heads) as -> by lia.
    by apply list_lookup_middle.
Qed.

Lemma tails_ok_alloc heads items tails x :
  tails_ok None heads items tails →
  tails_ok (Some (length items)) heads (items ++ [x]) tails.
Proof.
  intros [HL HT]. split; [done|]. intros o t Ho. specialize (HT o t Ho).
  destruct t as [e|]; [|done]. destruct HT as (_ & y & Hy & Hoy & Hny).
  split.
  - intros [= ->]. apply lookup_lt_Some in Hy. lia.
  - exists y. by rewrite (lookup_app_l_Some _ _ _ _ Hy).
Qed.

Lemma tails_ok_retarget heads items tails i o' :
  tails_ok (Some i) heads items tails →
  tails_ok (Some i) heads (alter (set_owner (Some o')) i items) tails.
Proof.
  intros [HL HT]. split; [done|]. intros o t Ho. specialize (HT o t Ho).
  destruct t as [e|]; [|done]. destruct HT as (Hs & y & Hy & Hoy & Hny).
  split; [done|]. exists y. rewrite list_lookup_alter_ne; [done|congruence].
Qed.

Lemma tails_ok_push heads items tails k i x h :
  tails_ok (Some i) heads items tails → items !! i = Some x →
  owner x = Some k → heads !! k = Some h →
  tails_ok None (push k i h (heads, items)).1 (push k i h (heads, items)).2
           (push_tail k i h tails).
Proof.
  intros [HL HT] Hx Hk Hh. unfold push, push_tail. cbn [fst snd].
  pose proof (lookup_lt_Some _ _ _ Hh) as Hlt.
  assert (∀ e y, e ≠ i → items !! e = Some y →
            ∃ y', alter (set_nxt h) i
                    match h with
                    | Some f => alter (set_prv_to (Some i)) f items
                    | None => items
                    end !! e = Some y' ∧ owner y' = owner y ∧ nxt y' = nxt y)
    as Hkeep.
  { intros e y He Hy. rewrite list_lookup_alter_ne by done.
    destruct h as [f|]; [|eauto]. destruct (decide (e = f)) as [->|Hef].
    - rewrite list_lookup_alter_eq, Hy. simpl. eauto.
    - rewrite list_lookup_alter_ne by done. eauto. }
  split.
  { rewrite length_alter. destruct h; by rewrite ?length_alter. }
  intros o t Ho.
  assert (∀ e, tails !! o = Some (Some e) →
            ∃ y', alter (set_nxt h) i
                    match h with
                    | Some f => alter (set_prv_to (Some i)) f items
                    | None => items
                    end !! e = Some y' ∧ owner y' = Some o ∧ nxt y' = None)
    as Hold.
  { intros e He. destruct (HT o _ He) as (Hs & y & Hy & Hoy & Hny).
    destruct (Hkeep e y) as (y' & Hy' & Ho' & Hn'); [congruence|done|].
    exists y'. split_and!; congruence. }
  destruct h as [f|].
  - destruct t as [e|]; [split; [done|by apply Hold]|].
    pose proof (HT o None Ho) as Hn. simpl in Hn.
    destruct (decide (o = k)) as [->|Hne]; [congruence|].
    by rewrite list_lookup_alter_ne.
  - destruct (decide (o = k)) as [->|Hne].
    + rewrite list_lookup_alter_eq in Ho.
      apply fmap_Some in Ho as (t0 & _ & ->). split; [done|].
      exists (set_nxt None x). by rewrite list_lookup_alter_eq, Hx.
    + rewrite list_lookup_alter_ne in Ho by done.
      destruct t as [e|]; [split; [done|by apply Hold]|].
      pose proof (HT o None Ho) as Hn. simpl in Hn.
      by rewrite list_lookup_alter_ne.
Qed.

(** The items before and after an item of a list. *)
Lemma list_neighbours heads items i x k :
  lists_ok None heads items → items !! i = Some x → owner x = Some k →
  (∀ p, prv x = Some p →
        p ≠ i ∧ ∃ y, items !! p = Some y ∧ owner y = Some k ∧ nxt y = Some i) ∧
  (∀ n, nxt x = Some n →
        n ≠ i ∧ ∃ y, items !! n = Some y ∧ owner y = Some k) ∧
  (prv x = None → heads !! k = Some (Some i)) ∧
  (∃ h, heads !! k = Some (Some h)).
Proof.
  intros [HL HO] Hx Hk.
  destruct (HO i x Hx) as (k' & Hk' & Hlt); [done|].
  assert (k' = k) as -> by congruence.
  destruct (HL k Hlt) as (ls & Hh & Hnd & Hlk & Hmem).
  assert (i ∈ ls) as Hi by (apply Hmem; eauto).
  apply list_elem_of_split in Hi as (l1 & l2 & ->).
  pose proof Hnd as Hnd0.
  apply list.NoDup_app in Hnd as (Hnd1 & Hdis & Hnd2').
  pose proof (NoDup_cons_1_1 _ _ Hnd2') as Hi2.
  assert (i ∉ l1) as Hi1.
  { intros Hin. apply (Hdis i Hin). by left. }
  pose proof Hlk as Hlk0.
  apply linked_app in Hlk as [Hlk1 [(x' & Hx' & Hp & Hn) Hlk2]].
  assert (x' = x) as -> by congruence. simpl in Hlk1.
  split_and!.
  - intros p Hpx. rewrite Hpx in Hp.
    destruct (snoc_cases l1) as [->|(l1' & p' & ->)]; [done|].
    rewrite last_or_snoc in Hp. injection Hp as <-.
    assert (p ∈ l1' ++ [p]) as Hpin by (apply elem_of_app; right; by left).
    split; [by intros ->|].
    apply linked_app in Hlk1 as [_ [(y & Hy & _ & Hny) _]].
    exists y. split; [done|]. split; [|done].
    assert (p ∈ (l1' ++ [p]) ++ i :: l2) as Hpl by (apply elem_of_app; by left).
    apply Hmem in Hpl as (_ & y' & Hy' & Hoy'). congruence.
  - intros n Hnx. rewrite Hnx in Hn. destruct l2 as [|n' l2']; [done|].
    injection Hn as <-. split.
    + intros ->. apply Hi2. by left.
    + assert (n ∈ l1 ++ i :: n :: l2') as Hnl.
      { apply elem_of_app. right. right. by left. }
      apply Hmem in Hnl as (_ & y & Hy & Hoy). eauto.
  - intros Hpx. rewrite Hpx in Hp. destruct l1 as [|a l1']; [by rewrite Hh|].
    destruct (snoc_cases (a :: l1')) as [?|(l1'' & p & E)]; [done|].
    by rewrite E, last_or_snoc in Hp.
  - rewrite Hh. destruct l1; simpl; eauto.
Qed.

Lemma tails_ok_unlink heads items tails k i x :
  lists_ok None heads items → tails_ok None heads items tails →
  items !! i = Some x → owner x = Some k →
  tails_ok (Some i) (unlink k i x (heads, items)).1
           (unlink k i x (heads, items)).2 (unlink_tail k x tails).
Proof.
  intros HLs [HL HT] Hx Hk.
  destruct (list_neighbours heads items i x k HLs Hx Hk)
    as (Hprev & Hnext & Hfirst & [h0 Hh0]).
  unfold unlink, unlink_tail. cbn [fst snd].
  set (items1 := match nxt x with
                 | Some n => alter (set_prv_to (prv x)) n items
                 | None => items
                 end).
  set (items2 := match prv x with
                 | Some p => alter (set_nxt (nxt x)) p items1
                 | None => items1
                 end).
  set (items' := alter (set_prv_to None) i (alter (set_nxt None) i items2)).
  assert (∀ e y, e ≠ i → prv x ≠ Some e → items !! e = Some y →
            ∃ y', items' !! e = Some y' ∧ owner y' = owner y ∧ nxt y' = nxt y)
    as Hkeep.
  { intros e y Hei Hpe Hy. unfold items', items2, items1.
    rewrite !list_lookup_alter_ne by done.
    assert (∃ y', match nxt x with
                  | Some n => alter (set_prv_to (prv x)) n items
                  | None => items
                  end !! e = Some y' ∧ owner y' = owner y ∧ nxt y' = nxt y)
      as (y1 & Hy1 & Ho1 & Hn1).
    { destruct (nxt x) as [n|]; [|eauto].
      destruct (decide (e = n)) as [->|Hen].
      - rewrite list_lookup_alter_eq, Hy. simpl. eauto.
      - rewrite list_lookup_alter_ne by done. eauto. }
    destruct (prv x) as [p|]; [|eauto].
    rewrite list_lookup_alter_ne by congruence. eauto. }
  assert (∀ o e, tails !! o = Some (Some e) → e ≠ i →
            Some e ≠ Some i ∧
            ∃ y', items' !! e = Some y' ∧ owner y' = Some o ∧ nxt y' = None)
    as Hold.
  { intros o e He Hei. destruct (HT o _ He) as (_ & y & Hy & Hoy & Hny).
    split; [congruence|].
    destruct (Hkeep e y) as (y' & Hy' & Ho' & Hn'); [done| |done|].
    - intros Hpe. destruct (Hprev e Hpe) as (_ & y0 & Hy0 & _ & Hn0). congruence.
    - exists y'. split_and!; congruence. }
  assert (∀ o, o ≠ k → tails !! o = Some None →
            match prv x with
            | Some _ => heads
            | None => alter (λ _, nxt x) k heads
            end !! o = Some None) as Hnone.
  { intros o Hne Ho. pose proof (HT o None Ho) as Hn. simpl in Hn.
    destruct (prv x); [done|]. by rewrite list_lookup_alter_ne. }
  assert (∀ o e, tails !! o = Some (Some e) → o ≠ k → e ≠ i) as Hother.
  { intros o e He Hne ->. destruct (HT o _ He) as (_ & y & Hy & Hoy & _).
    congruence. }
  split.
  { destruct (nxt x), (prv x); by rewrite ?length_alter. }
  intros o t Ho. destruct (nxt x) as [n|] eqn:Hn.
  - destruct t as [e|].
    + apply Hold; [done|]. intros ->.
      destruct (HT o _ Ho) as (_ & y & Hy & _ & Hny). congruence.
    + destruct (decide (o = k)) as [->|Hne]; [|by apply Hnone].
      pose proof (HT k None Ho) as Hnk. simpl in Hnk. congruence.
  - destruct (decide (o = k)) as [->|Hne].
    + rewrite list_lookup_alter_eq in Ho.
      apply fmap_Some in Ho as (t0 & _ & ->).
      destruct (prv x) as [p|] eqn:Hp.
      * destruct (Hprev p eq_refl) as (Hpi & y & Hy & Hoy & Hny).
        split; [congruence|]. unfold items', items2, items1.
        rewrite !list_lookup_alter_ne by done.
        rewrite list_lookup_alter_eq, Hy. simpl. eauto.
      * by rewrite list_lookup_alter_eq, Hh0.
    + rewrite list_lookup_alter_ne in Ho by done. destruct t as [e|].
      * apply Hold; [done|]. by eapply Hother.
      * by apply Hnone.
Qed.

(** The tail of an owner is the last item of its list. *)
Lemma tails_last heads items tails o ls :
  tails_ok None heads items tails → list_of None heads items o ls →
  tails !! o = Some (last_or None ls).
Proof.
  intros [HL HT] (Hh & Hnd & Hlk & Hmem).
  destruct (lookup_lt_is_Some_2 tails o) as [t Ht].
  { rewrite HL. by eapply lookup_lt_Some. }
  rewrite Ht. f_equal. specialize (HT o t Ht). destruct t as [e|].
  - destruct HT as (_ & x & Hx & Hox & Hnx).
    assert (e ∈ ls) as He by (apply Hmem; eauto).
    apply list_elem_of_split in He as (l1 & l2 & ->).
    apply linked_app in Hlk as [_ [(x' & Hx' & _ & Hn) _]].
    assert (x' = x) as -> by congruence. rewrite Hnx in Hn.
    destruct l2; [|done].
    by rewrite last_or_snoc.
  - simpl in HT. rewrite Hh in HT. injection HT as HT. by destruct ls.
Qed.

Lemma linked_walk_back items ls q n :
  linked items None ls q → length ls < n →
  dll_walk_back n items (last_or None ls) = Some (rev ls).
Proof.
  revert n q. induction ls as [|a ls IH] using rev_ind; intros n q Hlk Hn.
  - destruct n; [simpl in Hn; lia|done].
  - rewrite length_app in Hn. simpl in Hn. destruct n as [|n]; [lia|].
    apply linked_app in Hlk as [Hlk1 [(x & Hx & Hp & _) _]].
    rewrite last_or_snoc, rev_unit. simpl. rewrite Hx, Hp.
    rewrite (IH n (hd_or q [a])); [done..|lia].
Qed.

(** ** The calls and the last node of a nest *)

Lemma pw_and {A} (m : M A) w (Q1 Q2 : A → World → Prop) (T1 T2 : World → Prop) :
  pw m w Q1 T1 → pw m w Q2 T2 →
  pw m w (λ a w', Q1 a w' ∧ Q2 a w') (λ w', T1 w' ∧ T2 w').
Proof. unfold pw. by destruct (m w). Qed.

Ltac tails_write :=
  intros;
  first [ match goal with H : node_tails _ = _ |- _ => exact H end
        | unfold node_tails in *; simpl;
          rewrite ?fmap_alter_keep by (by intros []);
          match goal with H : _ = _ |- _ => exact H end ].

Lemma keeps_tails_calc v fuel edge :
  keeps (λ w, node_tails w = v) (Edge_calcNestAndMoveToIt fuel edge).
Proof. keeps_calc_script tails_write. Qed.

Lemma keeps_tails_fix_incoming v fuel n edge :
  keeps (λ w, node_tails w = v) (MoveToNest_fix_incoming fuel n edge).
Proof. keeps_fix_script (keeps_tails_calc v fuel). Qed.

Lemma keeps_tails_fix_outcoming v fuel n edge :
  keeps (λ w, node_tails w = v) (MoveToNest_fix_outcoming fuel n edge).
Proof. keeps_fix_script (keeps_tails_calc v fuel). Qed.

Lemma keeps_tails_NewEdge v fuel graph src dst :
  keeps (λ w, node_tails w = v) (Graph_NewEdge fuel graph src dst).
Proof. keeps_NewEdge_script tails_write (keeps_tails_calc v fuel). Qed.

Lemma keeps_tails_node_sweep v fuel node attr :
  keeps (λ w, node_tails w = v) (ReleaseNodeStrAttr_sweep fuel node attr).
Proof. keeps_node_sweep_script tails_write. Qed.

Lemma keeps_tails_nest_sweep v fuel nest attr :
  keeps (λ w, node_tails w = v) (ReleaseNestStrAttr_sweep fuel nest attr).
Proof. keeps_nest_sweep_script tails_write. Qed.

(** [removeNode] moves the tail of the nest back when it takes out the
    last node. *)
Lemma removeNode_tails k i w :
  pw (Nest_removeNode (Some k) (Some i)) w
     (λ _ w', ∀ x, node_items w !! i = Some x →
                   node_tails w' = unlink_tail k x (node_tails w))
     (λ _, True).
Proof.
  unfold Nest_removeNode.
  apply pw_bind, pw_load. intros ? N [= <-] HN.
  destruct (Nest.nestTree N); [|apply pw_panic].
  apply pw_bind, pw_load. intros t T _ _.
  apply pw_bind, pw_load. intros ? Nd [= <-] HNd. simpl in HNd.
  destruct (negb _); [apply pw_panic|]. cbv zeta.
  set (v := unlink_tail k (node_item Nd) (node_tails w)).
  apply pw_bind.
  eapply pw_mono with (T := λ _, True) (Q := λ _ w1, node_tails w1 = v);
    [| |done].
  { unfold v, unlink_tail. change (nxt (node_item Nd)) with (Node.nextNodeInNest Nd).
    destruct (Node.nextNodeInNest Nd) as [nn|].
    - apply pw_modify. intros ? [= <-] _. done.
    - apply pw_modify. intros ? [= <-] _. unfold node_tails. simpl.
      by rewrite (fmap_alter_comm Nest.lastNode _ (λ _, prv (node_item Nd)))
        by (by intros []). }
  intros _ w1 H1. simpl.
  apply (pw_after (λ w', node_tails w' = v)); [|done| |done].
  - keeps_with tails_write.
  - intros _ w' Hw' x Hx. unfold node_items in Hx.
    rewrite list_lookup_fmap, HNd in Hx. by injection Hx as <-.
Qed.

(** [addNode] makes the node the tail of a nest that was empty. *)
Lemma addNode_tails k i w :
  pw (Nest_addNode (Some k) (Some i)) w
     (λ _ w', ∀ h, node_heads w !! k = Some h →
                   node_tails w' = push_tail k i h (node_tails w))
     (λ _, True).
Proof.
  unfold Nest_addNode.
  apply pw_bind, pw_load. intros ? N [= <-] HN. simpl in HN.
  destruct (Nest.nestTree N); [|apply pw_panic].
  apply pw_bind, pw_load. intros t T _ _.
  apply pw_bind, pw_load. intros ? Nd [= <-] HNd.
  destruct (negb _); [apply pw_panic|]. cbv zeta.
  set (v := push_tail k i (Nest.firstNode N) (node_tails w)).
  apply pw_bind.
  eapply pw_mono with (T := λ _, True) (Q := λ _ w1, node_tails w1 = v);
    [| |done].
  { unfold v, push_tail. destruct (Nest.firstNode N) as [f|].
    - apply pw_modify. intros ? [= <-] _. done.
    - apply pw_modify. intros ? [= <-] _. unfold node_tails. simpl.
      by rewrite (fmap_alter_comm Nest.lastNode _ (λ _, Some i))
        by (by intros []). }
  intros _ w1 H1. simpl.
  apply (pw_after (λ w', node_tails w' = v)); [|done| |done].
  - keeps_with tails_write.
  - intros _ w' Hw' h Hh. unfold node_heads in Hh.
    rewrite list_lookup_fmap, HN in Hh. by injection Hh as <-.
Qed.

Lemma NewNode_lview graph w :
  pw (Graph_NewNode graph) w
     (λ _ w', ∃ r h,
        node_heads w !! r = Some h ∧
        nview w' = push r (length (node_items w)) h
                     (node_heads w, node_items w ++ [Item (Some r) None None]) ∧
        node_tails w' = push_tail r (length (node_items w)) h (node_tails w))
     (λ _, True).
Proof.
  unfold Graph_NewNode.
  apply pw_bind, pw_load. intros g G _ _.
  destruct (Graph.nestTree G); [|apply pw_panic].
  apply pw_bind, pw_load. intros t T _ _.
  destruct (NestTree.rootNest T) as [r|]; [|apply pw_panic].
  apply pw_bind, pw_make. intros _.
  apply pw_bind, pw_alloc. simpl sget.
  apply pw_bind.
  eapply pw_mono; [apply pw_and; [apply addNode_nview|apply addNode_tails]| |done].
  intros _ w2 [(h & Hh & Hv) Ht]. simpl.
  apply pw_bind, pw_modify. intros ? _ _. apply pw_ret.
  exists r, h. split; [exact Hh|]. unfold node_items at 1 3. rewrite length_fmap.
  split.
  - etransitivity; [|etransitivity; [exact Hv|]].
    + unfold nview, node_heads, node_items. done.
    + unfold nview, node_heads, node_items. simpl. by rewrite fmap_app.
  - etransitivity; [|exact (Ht h Hh)]. done.
Qed.

Lemma NewNest_tails nt w :
  pw (NestTree_NewNest nt) w
     (λ _ w', node_tails w' = node_tails w ++ [None]) (λ _, True).
Proof.
  unfold NestTree_NewNest.
  apply pw_bind, pw_load. intros t T _ _.
  destruct (NestTree.rootNest T); [|apply pw_panic].
  destruct (NestTree.baseGraph T); [|apply pw_panic].
  apply pw_bind, pw_load. intros r R _ _.
  apply pw_bind, pw_load. intros g G _ _.
  apply pw_bind, pw_make. intros _.
  apply pw_bind, pw_alloc. cbv zeta.
  match goal with |- pw _ ?w1 _ _ =>
    apply (pw_after (λ w', node_tails w' = node_tails w1)) end;
    [keeps_with tails_write|done| |done].
  intros _ w' ->. unfold node_tails. simpl. by rewrite fmap_app.
Qed.

(** [MoveToNest] leaves the node lists and their tails alone or takes
    the node out of the list of its nest and puts it in front of the list
    of the target. *)
Lemma MoveToNest_lview fuel node nest w :
  pw (Node_MoveToNest fuel node nest) w
     (λ _ w',
        lview w' = lview w ∨
        ∃ i k k' x h,
          node_items w !! i = Some x ∧ owner x = Some k ∧
          k' < length (node_heads w) ∧
          (unlink k i x (nview w)).1 !! k' = Some h ∧
          nview w' = push k' i h
                       ((unlink k i x (nview w)).1,
                        alter (set_owner (Some k')) i (unlink k i x (nview w)).2) ∧
          node_tails w' = push_tail k' i h (unlink_tail k x (node_tails w)))
     (λ _, True).
Proof.
  unfold Node_MoveToNest.
  apply pw_bind, pw_load. intros k' N -> HN. simpl in HN.
  apply pw_bind, pw_load. intros t T _ _.
  apply pw_bind, pw_load. intros i Nd -> HNd. simpl in HNd.
  destruct (negb _); [by left|].
  destruct (Node.nest Nd) as [k|] eqn:Hk; [|apply pw_panic].
  apply pw_bind.
  eapply pw_mono;
    [apply pw_and; [apply removeNode_nview|apply removeNode_tails]| |done].
  intros _ w1 [(x & Hx & Hv1) Ht1]. simpl. specialize (Ht1 x Hx).
  assert (x = node_item Nd) as Ex.
  { unfold node_items in Hx. rewrite list_lookup_fmap, HNd in Hx.
    by injection Hx as <-. }
  apply pw_bind, pw_modify. intros ? [= <-] _.
  apply pw_bind.
  eapply pw_mono;
    [apply pw_and; [apply addNode_nview|apply addNode_tails]| |done].
  intros _ w3 [(h & Hh & Hv3) Ht3]. simpl. specialize (Ht3 h Hh).
  set (v := push k' i h
              ((unlink k i x (nview w)).1,
               alter (set_owner (Some k')) i (unlink k i x (nview w)).2)).
  set (tl := push_tail k' i h (unlink_tail k x (node_tails w))).
  assert (nview w3 = v) as Hv.
  { rewrite Hv3. unfold v. f_equal. rewrite <- Hv1.
    unfold nview, node_heads, node_items. simpl. f_equal.
    by rewrite (fmap_alter_comm node_item _ (set_owner (Some k'))) by (by intros []). }
  assert (node_tails w3 = tl) as Htl.
  { rewrite Ht3. unfold tl. by rewrite <- Ht1. }
  apply (pw_after (λ w', nview w' = v ∧ node_tails w' = tl)); [|done| |done].
  - apply keeps_and.
    + apply keeps_bind; [unfold Node_GetFirstIncomingEdge; keeps_with idtac|intros fi].
      apply keeps_bind; [apply keeps_nview_fix_incoming|intros _].
      apply keeps_bind; [unfold Node_GetFirstOutcomingEdge; keeps_with idtac|intros fo].
      apply keeps_bind; [apply keeps_nview_fix_outcoming|intros _].
      apply keeps_ret.
    + apply keeps_bind; [unfold Node_GetFirstIncomingEdge; keeps_with idtac|intros fi].
      apply keeps_bind; [apply keeps_tails_fix_incoming|intros _].
      apply keeps_bind; [unfold Node_GetFirstOutcomingEdge; keeps_with idtac|intros fo].
      apply keeps_bind; [apply keeps_tails_fix_outcoming|intros _].
      apply keeps_ret.
  - intros _ w' [Hw' Hw't]. right. exists i, k, k', x, h. split_and!; try done.
    + by rewrite Ex; simpl.
    + unfold node_heads. rewrite length_fmap. by eapply lookup_lt_Some.
    + change ((unlink k i x (nview w)).1 !! k' = Some h). rewrite <- Hv1.
      exact Hh.
Qed.

(** The tails of the node lists are kept. *)
Lemma exec_node_tails fuel c w w' :
  lists_ok None (node_heads w) (node_items w) →
  tails_ok None (node_heads w) (node_items w) (node_tails w) →
  exec fuel c w = Done tt w' →
  tails_ok None (node_heads w') (node_items w') (node_tails w').
Proof.
  intros HL HT E.
  assert (∀ {A} (m : M A) x,
            keeps (λ w0, nview w0 = nview w) m →
            keeps (λ w0, node_tails w0 = node_tails w) m → m w = Done x w' →
            tails_ok None (node_heads w') (node_items w') (node_tails w'))
    as Hview.
  { intros A m x Hm Hm' Em.
    pose proof (keeps_Done _ m w x w' Hm eq_refl Em) as Hv.
    pose proof (keeps_Done _ m w x w' Hm' eq_refl Em) as Hv'.
    change (tails_ok None (nview w').1 (nview w').2 (node_tails w')).
    by rewrite Hv, Hv'. }
  assert (∀ v t, nview w' = v → node_tails w' = t → tails_ok None v.1 v.2 t →
            tails_ok None (node_heads w') (node_items w') (node_tails w'))
    as Hnew.
  { intros v t <- <-. done. }
  destruct c; simpl in E; apply bind_Done_inv in E as (x & w1 & E & [= <-]).
  - apply NewGraph_Done_inv in E as (_ & _ & ->).
    unfold node_heads, node_items, node_tails. simpl. rewrite !fmap_app.
    by apply tails_ok_new_owner.
  - eapply Hview; [| |done]; keeps_attr_call_script ltac:(first [nview_write|tails_write]).
  - eapply Hview; [| |done]; keeps_attr_call_script ltac:(first [nview_write|tails_write]).
  - eapply Hview; [| |done]; keeps_attr_call_script ltac:(first [nview_write|tails_write]).
  - eapply Hview; [| |done]; keeps_attr_call_script ltac:(first [nview_write|tails_write]).
  - eapply Hview; [| |done]; keeps_attr_call_script ltac:(first [nview_write|tails_write]).
  - eapply Hview; [| |done].
    + keeps_ReleaseNode_script nview_write (keeps_nview_node_sweep (nview w) fuel).
    + keeps_ReleaseNode_script tails_write
        (keeps_tails_node_sweep (node_tails w) fuel).
  - destruct (pw_Done _ _ _ _ _ _ (NewNode_lview _ w) E) as (r & h & Hh & Hv & Ht).
    apply (Hnew _ _ Hv Ht).
    apply (tails_ok_push _ _ _ r _ (Item (Some r) None None) h); try done.
    + by apply tails_ok_alloc.
    + by rewrite list_lookup_middle.
  - eapply Hview; [| |done]; [apply keeps_nview_NewEdge|apply keeps_tails_NewEdge].
  - eapply Hview; [| |done]; keeps_attr_call_script ltac:(first [nview_write|tails_write]).
  - eapply Hview; [| |done]; keeps_attr_call_script ltac:(first [nview_write|tails_write]).
  - destruct (pw_Done _ _ _ _ _ _ (MoveToNest_lview _ _ _ w) E)
      as [Hv|(i & k & k' & y & h & Hy & Hoy & Hk' & Hh & Hv & Ht)].
    { injection Hv as Hv1 Hv2 Hv3. unfold node_heads, node_items, node_tails in *.
      by rewrite Hv1, Hv2, Hv3. }
    apply (Hnew _ _ Hv Ht).
    pose proof (tails_ok_unlink _ _ _ k i y HL HT Hy Hoy) as H1.
    destruct (unlink_length k i y (node_heads w) (node_items w)) as [L1 L2].
    change (node_heads w, node_items w) with (nview w) in L1, L2, H1.
    destruct (lookup_lt_is_Some_2 (unlink k i y (nview w)).2 i) as [z Hz].
    { rewrite L2. by eapply lookup_lt_Some. }
    apply (tails_ok_push _ _ _ k' i (set_owner (Some k') z) h); try done.
    + by apply tails_ok_retarget.
    + by rewrite list_lookup_alter_eq, Hz.
  - pose proof (pw_Done _ _ _ _ _ _ (NewNest_nview _ w) E) as Hv.
    pose proof (pw_Done _ _ _ _ _ _ (NewNest_tails _ w) E) as Ht.
    apply (Hnew _ _ Hv Ht). by apply tails_ok_new_owner.
  - eapply Hview; [| |done]; keeps_attr_call_script ltac:(first [nview_write|tails_write]).
  - eapply Hview; [| |done].
    + keeps_ReleaseNest_script nview_write (keeps_nview_nest_sweep (nview w) fuel).
    + keeps_ReleaseNest_script tails_write
        (keeps_tails_nest_sweep (node_tails w) fuel).
  - eapply Hview; [| |done]; keeps_attr_call_script ltac:(first [nview_write|tails_write]).
  - eapply Hview; [| |done]; keeps_attr_call_script ltac:(first [nview_write|tails_write]).
Qed.

Lemma reachable_node_tails w :
  reachable w → tails_ok None (node_heads w) (node_items w) (node_tails w).
Proof.
  induction 1 as [|w fuel c w' Hr IH E].
  - apply tails_ok_nil.
  - eapply exec_node_tails; [|done..]. by apply reachable_node_lists.
Qed.

Lemma nest_node_walk_back_dll n w e :
  nest_node_walk_back n w e = dll_walk_back n (node_items w) e.
Proof.
  revert e. induction n as [|n IH]; intros [a|]; simpl; try done.
  unfold Node_GetPrevNodeInNest, bind, load, node_items. simpl.
  rewrite list_lookup_fmap. destruct (nodes w !! a); simpl; [|done].
  by rewrite IH.
Qed.

(** X28. In a world brought about by calls that returned, the loop over
    the nodes of a nest from [GetLastNode] along [GetPrevNodeInNest]
    until nil ends within one round more than there are nodes, and it
    goes through the nodes that the loop from [GetFirstNode] along
    [GetNextNodeInNest] goes through, in the opposite order. *)
Theorem nest_nodes_back_is_the_reverse n w k K :
  reachable w → nests w !! k = Some K → length (nodes w) < n →
  ∃ l, nest_nodes n w k = Some l ∧ nest_nodes_back n w k = Some (rev l).
Proof.
  intros Hr HK Hn. pose proof (reachable_node_tails w Hr) as HT.
  destruct (reachable_node_lists w Hr) as [HL _].
  destruct (HL k) as (ls & Hls).
  { unfold node_heads. rewrite length_fmap. by eapply lookup_lt_Some. }
  pose proof (tails_last _ _ _ _ _ HT Hls) as Hlast.
  pose proof (list_of_bounded _ _ _ _ Hls) as Hlen.
  destruct Hls as (Hh & Hnd & Hlk & Hmem).
  unfold node_items in Hlen. rewrite length_fmap in Hlen.
  exists ls. split.
  - unfold nest_nodes.
    assert (Nest_GetFirstNode (Some k) w = Done (head ls) w) as ->.
    { unfold Nest_GetFirstNode, bind, load. simpl. rewrite HK.
      unfold node_heads in Hh. rewrite list_lookup_fmap, HK in Hh.
      by injection Hh as ->. }
    rewrite nest_node_walk_dll. apply (linked_walk _ None); [done|lia].
  - unfold nest_nodes_back.
    assert (Nest_GetLastNode (Some k) w = Done (last_or None ls) w) as ->.
    { unfold Nest_GetLastNode, bind, load. simpl. rewrite HK.
      unfold node_tails in Hlast. rewrite list_lookup_fmap, HK in Hlast.
      by injection Hlast as ->. }
    rewrite nest_node_walk_back_dll. apply (linked_walk_back _ _ None); [done|lia].
Qed.

Lemma nest_nodes_back_is_the_reverse_witness :
  nest_nodes 5 world_spread 1 = Some [2; 0] ∧
  nest_nodes_back 5 world_spread 1 = Some [0; 2].
Proof.
  pose proof (λ K, nest_nodes_back_is_the_reverse 5 world_spread 1 K
                     reachable_spread) as H.
  edestruct H as (l & El & Eb); [by vm_compute..|].
  vm_compute in El. injection El as <-. split; [by vm_compute|exact Eb].
Defined.

(** ** The node before and the node after *)

Lemma GetPrevNest_of_next w g G n :
  Inv None w → nests w !! g = Some G →
  match Nest.firstChildNest G with
  | Some c => Some c
  | None => Nest.nextSiblingNest G
  end = Some n →
  ∀ f, Nest_GetPrevNest f (Some n) w = Done (Some g) w.
Proof.
  intros HI HG Hn f.
  destruct (inv_nest _ _ HI _ _ HG) as [_ (S1 & S2 & S3 & S4)].
  unfold Nest_GetPrevNest.
  destruct (Nest.firstChildNest G) as [c|] eqn:Hc.
  - injection Hn as ->. destruct (S1 n eq_refl) as (C & HC & Hprev & Hp).
    run_load Nests HC. by rewrite Hprev, Hp.
  - destruct (S2 n Hn) as (D & HD & Hprev).
    run_load Nests HD. rewrite Hprev.
    destruct f; cbn [GetPrevNest_down]; run_load Nests HG; by rewrite (S3 eq_refl).
Qed.

Section Ends.

Variable w : World.
Hypothesis HL : lists_ok None (node_heads w) (node_items w).
Hypothesis HT : tails_ok None (node_heads w) (node_items w) (node_tails w).

Lemma nest_list k K :
  nests w !! k = Some K →
  ∃ ls, list_of None (node_heads w) (node_items w) k ls ∧
        Nest.firstNode K = head ls ∧ Nest.lastNode K = last_or None ls.
Proof using All.
  intros HK. destruct HL as [HL1 _]. destruct (HL1 k) as (ls & Hls).
  { unfold node_heads. rewrite length_fmap. by eapply lookup_lt_Some. }
  exists ls. split; [done|].
  pose proof (tails_last _ _ _ _ _ HT Hls) as Hlast.
  destruct Hls as (Hh & _). unfold node_heads, node_tails in *.
  rewrite list_lookup_fmap, HK in Hh, Hlast. simpl in Hh, Hlast.
  split; congruence.
Qed.

Lemma empty_nest_ends k K :
  nests w !! k = Some K →
  Nest.firstNode K = None ↔ Nest.lastNode K = None.
Proof using All.
  intros HK. destruct (nest_list k K HK) as (ls & _ & -> & ->).
  destruct (snoc_cases ls) as [->|(l' & a & ->)]; [done|].
  rewrite last_or_snoc. by destruct l'.
Qed.

Lemma node_nest_list n N :
  nodes w !! n = Some N →
  ∃ k K l1 l2, Node.nest N = Some k ∧ nests w !! k = Some K ∧
    list_of None (node_heads w) (node_items w) k (l1 ++ n :: l2) ∧
    Node.prevNodeInNest N = last_or None l1 ∧
    Node.nextNodeInNest N = head l2 ∧
    Nest.firstNode K = head (l1 ++ n :: l2) ∧
    Nest.lastNode K = last_or None (l1 ++ n :: l2).
Proof using All.
  intros HN.
  assert (node_items w !! n = Some (node_item N)) as Hx
    by (unfold node_items; by rewrite list_lookup_fmap, HN).
  destruct (lk_owner _ _ _ HL n _ Hx) as (k & Hk & Hlt); [done|].
  unfold node_heads in Hlt. rewrite length_fmap in Hlt.
  destruct (lookup_lt_is_Some_2 _ _ Hlt) as [K HK].
  destruct (nest_list k K HK) as (ls & Hls & Hf & Hl).
  assert (n ∈ ls) as Hin.
  { destruct Hls as (_ & _ & _ & Hmem). apply Hmem. eauto. }
  apply list_elem_of_split in Hin as (l1 & l2 & ->).
  exists k, K, l1, l2. split_and!; [done..| | |done|done].
  - destruct Hls as (_ & _ & Hlk & _).
    apply linked_app in Hlk as [_ [(x & Hx' & Hp & _) _]].
    assert (x = node_item N) as -> by congruence. done.
  - destruct Hls as (_ & _ & Hlk & _).
    apply linked_app in Hlk as [_ [(x & Hx' & _ & Hn) _]].
    assert (x = node_item N) as -> by congruence.
    by rewrite hd_or_None in Hn.
Qed.

(** The first node of a nest has no node before it, the last none after. *)
Lemma end_nodes k K :
  nests w !! k = Some K →
  (∀ m, Nest.firstNode K = Some m →
        ∃ M, nodes w !! m = Some M ∧ Node.nest M = Some k ∧
             Node.prevNodeInNest M = None) ∧
  (∀ m, Nest.lastNode K = Some m →
        ∃ M, nodes w !! m = Some M ∧ Node.nest M = Some k ∧
             Node.nextNodeInNest M = None).
Proof using All.
  intros HK. destruct (nest_list k K HK) as (ls & Hls & Hf & Hl).
  destruct Hls as (_ & _ & Hlk & Hmem).
  assert (∀ m, m ∈ ls → ∃ M, nodes w !! m = Some M ∧ Node.nest M = Some k ∧
            node_items w !! m = Some (node_item M)) as Hnode.
  { intros m Hm. apply Hmem in Hm as (_ & x & Hx & Hox).
    pose proof Hx as Hx0. unfold node_items in Hx.
    rewrite list_lookup_fmap in Hx.
    destruct (nodes w !! m) as [M|]; [|done]. injection Hx as <-. eauto. }
  split.
  - intros m Hm. rewrite Hf in Hm. destruct ls as [|a ls']; [done|].
    injection Hm as ->. destruct (Hnode m) as (M & HM & HMk & Hx); [by left|].
    exists M. split_and!; [done..|].
    destruct Hlk as [(x & Hx' & Hp & _) _].
    assert (x = node_item M) as -> by congruence. done.
  - intros m Hm. rewrite Hl in Hm.
    destruct (snoc_cases ls) as [->|(l' & a & ->)]; [done|].
    rewrite last_or_snoc in Hm. injection Hm as ->.
    destruct (Hnode m) as (M & HM & HMk & Hx).
    { apply elem_of_app. right. by left. }
    exists M. split_and!; [done..|].
    apply linked_app in Hlk as [_ [(x & Hx' & _ & Hn) _]].
    assert (x = node_item M) as -> by congruence. done.
Qed.

Hypothesis HI : Inv None w.
Hypothesis HLk : links_ok (nests w).

(** Going on from [p] over empty nests and back from where that ends
    over empty nests comes to where going back from [p] comes. *)
Lemma skip_fwd_back k f :
  ∀ d p kj, skip_empty_fwd f (Some p) w = Done (Some kj) w →
    (∃ y, (∀ g, Nest_GetPrevNest g (Some p) w = Done (Some y) w) ∧
          ∀ g, d ≤ g → skip_empty_bwd g (Some y) w = Done (Some k) w) →
    ∃ y, (∀ g, Nest_GetPrevNest g (Some kj) w = Done (Some y) w) ∧
         ∀ g, d + f ≤ g → skip_empty_bwd g (Some y) w = Done (Some k) w.
Proof using All.
  induction f as [|f IH]; intros d p kj E (y & Hy & Hback).
  - cbn [skip_empty_fwd] in E. apply bind_Done_inv in E as (P & w1 & El & E).
    apply load_Done_inv in El as (-> & p0 & [= <-] & HP).
    destruct (Nest.firstNode P); [|done]. injection E as <-.
    exists y. split; [done|]. intros g Hg. apply Hback. lia.
  - cbn [skip_empty_fwd] in E. apply bind_Done_inv in E as (P & w1 & El & E).
    apply load_Done_inv in El as (-> & p0 & [= <-] & HP). simpl in HP.
    destruct (Nest.firstNode P) eqn:HPf.
    { injection E as <-. exists y. split; [done|]. intros g Hg. apply Hback. lia. }
    rewrite (bind_Done _ _ _ _ _ (GetNextNest_returns f w p P HI HP)) in E.
    destruct (match Nest.firstChildNest P with
              | Some c => Some c
              | None => Nest.nextSiblingNest P
              end) as [p'|] eqn:Hnext; [|by destruct f].
    destruct (IH (S d) p' kj E) as (y' & Hy' & Hback').
    + exists p. split; [by apply (GetPrevNest_of_next w p P)|].
      intros g Hg. destruct g as [|g]; [lia|]. cbn [skip_empty_bwd].
      run_load Nests HP. rewrite (proj1 (empty_nest_ends p P HP) HPf).
      rewrite (bind_Done _ _ _ _ _ (Hy (S g))). apply Hback. lia.
    + exists y'. split; [done|]. intros g Hg. apply Hback'. lia.
Qed.

Lemma skip_bwd_fwd k f :
  ∀ d p kj, skip_empty_bwd f (Some p) w = Done (Some kj) w →
    (∃ y, (∀ g, Nest_GetNextNest g (Some p) w = Done (Some y) w) ∧
          ∀ g, d ≤ g → skip_empty_fwd g (Some y) w = Done (Some k) w) →
    ∃ y, (∀ g, Nest_GetNextNest g (Some kj) w = Done (Some y) w) ∧
         ∀ g, d + f ≤ g → skip_empty_fwd g (Some y) w = Done (Some k) w.
Proof using All.
  induction f as [|f IH]; intros d p kj E (y & Hy & Hback).
  - cbn [skip_empty_bwd] in E. apply bind_Done_inv in E as (P & w1 & El & E).
    apply load_Done_inv in El as (-> & p0 & [= <-] & HP).
    destruct (Nest.lastNode P); [|done]. injection E as <-.
    exists y. split; [done|]. intros g Hg. apply Hback. lia.
  - cbn [skip_empty_bwd] in E. apply bind_Done_inv in E as (P & w1 & El & E).
    apply load_Done_inv in El as (-> & p0 & [= <-] & HP). simpl in HP.
    destruct (Nest.lastNode P) eqn:HPl.
    { injection E as <-. exists y. split; [done|]. intros g Hg. apply Hback. lia. }
    destruct (GetPrevNest_run w p P HI HLk HP) as (prev & Hprev & _ & Hnext).
    rewrite (bind_Done _ _ _ _ _ (Hprev (S f))) in E.
    destruct prev as [p'|]; [|by destruct f].
    destruct (IH (S d) p' kj E) as (y' & Hy' & Hback').
    + exists p. split; [by apply Hnext|].
      intros g Hg. destruct g as [|g]; [lia|]. cbn [skip_empty_fwd].
      run_load Nests HP. rewrite (proj2 (empty_nest_ends p P HP) HPl).
      rewrite (bind_Done _ _ _ _ _ (Hy (S g))). apply Hback. lia.
    + exists y'. split; [done|]. intros g Hg. apply Hback'. lia.
Qed.

End Ends.

Lemma keeps_skip_empty_bwd P fuel nest : keeps P (skip_empty_bwd fuel nest).
Proof.
  revert nest. induction fuel as [|fuel IH]; intros nest;
    cbn [skip_empty_bwd]; (destruct nest; [|apply keeps_ret]);
    (apply keeps_bind; [apply keeps_load|intros N]);
    (destruct (Nest.lastNode N); [apply keeps_ret|]).
  - apply keeps_cutoff.
  - apply keeps_bind; [apply keeps_GetPrevNest|intros prev]. apply IH.
Qed.

(** The nodes before and after a node in its nest point at it. *)
Lemma node_neighbours w n N :
  lists_ok None (node_heads w) (node_items w) → nodes w !! n = Some N →
  (∀ m, Node.nextNodeInNest N = Some m →
        ∃ M, nodes w !! m = Some M ∧ Node.prevNodeInNest M = Some n) ∧
  (∀ m, Node.prevNodeInNest N = Some m →
        ∃ M, nodes w !! m = Some M ∧ Node.nextNodeInNest M = Some n).
Proof.
  intros HL HN.
  assert (∀ m x, node_items w !! m = Some x →
            ∃ M, nodes w !! m = Some M ∧ x = node_item M) as Hit.
  { intros m x. unfold node_items. rewrite list_lookup_fmap.
    destruct (nodes w !! m) as [M|]; [|done]. intros [= <-]. eauto. }
  assert (node_items w !! n = Some (node_item N)) as Hx
    by (unfold node_items; by rewrite list_lookup_fmap, HN).
  destruct (lk_owner _ _ _ HL n _ Hx) as (k & Hk & Hlt); [done|].
  split.
  - intros m Hm. destruct (lk_list _ _ _ HL k Hlt) as (ls & _ & _ & Hlk & Hmem).
    assert (n ∈ ls) as Hin by (apply Hmem; eauto).
    apply list_elem_of_split in Hin as (l1 & l2 & ->).
    apply linked_app in Hlk as [_ [(x & Hx' & _ & Hn) Hlk2]].
    assert (x = node_item N) as -> by congruence.
    simpl in Hn. rewrite Hm in Hn. destruct l2 as [|m' l2']; [done|].
    injection Hn as <-. destruct Hlk2 as [(y & Hy & Hpy & _) _].
    destruct (Hit m y Hy) as (M & HM & ->). eauto.
  - intros m Hm.
    destruct (list_neighbours _ _ n _ k HL Hx Hk) as (Hprev & _).
    destruct (Hprev m Hm) as (_ & y & Hy & _ & Hny).
    destruct (Hit m y Hy) as (M & HM & ->). eauto.
Qed.

(** X29. In a world brought about by calls that returned, [GetPrevNode]
    undoes [GetNextNode] and [GetNextNode] undoes [GetPrevNode], within a
    nest and across nests, also over nests without nodes: when one of
    them returns a node, the other returns from that node the node one
    started from, under the same loop budget. *)
Theorem prev_node_and_next_node_undo_each_other f w n N :
  reachable w → nodes w !! n = Some N → 0 < f →
  (∀ m, Node_GetNextNode f (Some n) w = Done (Some m) w →
        Node_GetPrevNode f (Some m) w = Done (Some n) w) ∧
  (∀ m, Node_GetPrevNode f (Some n) w = Done (Some m) w →
        Node_GetNextNode f (Some m) w = Done (Some n) w).
Proof.
  intros Hr HN Hf. pose proof (reachable_Inv _ Hr) as HI.
  pose proof (reachable_links_ok _ Hr) as HLk.
  pose proof (reachable_node_lists _ Hr) as HL.
  pose proof (reachable_node_tails _ Hr) as HT.
  destruct (node_neighbours w n N HL HN) as [Hnx Hpv].
  destruct (node_nest_list w HL HT n N HN)
    as (k & K & l1 & l2 & Hk & HK & Hls & Hp & Hn & HKf & HKl).
  destruct f as [|f0]; [lia|]. split.
  - intros m E. unfold Node_GetNextNode in E. rewrite (bind_Done _ _ _ _ _ (load_Some Nodes _ _ _ HN)) in E.
    destruct (Node.nextNodeInNest N) as [m'|] eqn:Hnext.
    { injection E as <-. destruct (Hnx m' eq_refl) as (M & HM & HMp).
      unfold Node_GetPrevNode. run_load Nodes HM. by rewrite HMp. }
    rewrite Hk in E.
    rewrite (bind_Done _ _ _ _ _ (GetNextNest_returns f0 w k K HI HK)) in E.
    apply bind_Done_inv in E as (nest & w1 & Es & E).
    pose proof (keeps_Done _ _ _ _ _ (keeps_skip_empty_fwd (λ v, v = w) _ _)
                  eq_refl Es) as ->.
    destruct nest as [kj|]; [|done].
    apply bind_Done_inv in E as (KJ & w1 & El & E).
    apply load_Done_inv in El as (-> & kj' & [= <-] & HKJ). simpl in HKJ.
    injection E as HKJf.
    destruct (match Nest.firstChildNest K with
              | Some c => Some c
              | None => Nest.nextSiblingNest K
              end) as [p|] eqn:Hnextk; [|by destruct f0].
    assert (Nest.lastNode K = Some n) as HKn.
    { rewrite HKl. destruct l2; [|done]. by rewrite last_or_snoc. }
    destruct (skip_fwd_back w HL HT HI HLk k (S f0) 0 p kj Es) as (y & Hy & Hback).
    { exists k. split; [by apply (GetPrevNest_of_next w k K)|].
      intros g _. destruct g; cbn [skip_empty_bwd]; run_load Nests HK;
        by rewrite HKn. }
    destruct (end_nodes w HL HT kj KJ HKJ) as [Hfirst _].
    destruct (Hfirst m HKJf) as (M & HM & HMk & HMp).
    unfold Node_GetPrevNode. run_load Nodes HM. rewrite HMp, HMk.
    rewrite (bind_Done _ _ _ _ _ (Hy (S f0))).
    rewrite (bind_Done _ _ _ _ _ (Hback (S f0) ltac:(lia))).
    run_load Nests HK. by rewrite HKn.
  - intros m E. unfold Node_GetPrevNode in E. rewrite (bind_Done _ _ _ _ _ (load_Some Nodes _ _ _ HN)) in E.
    destruct (Node.prevNodeInNest N) as [m'|] eqn:Hprev.
    { injection E as <-. destruct (Hpv m' eq_refl) as (M & HM & HMn).
      unfold Node_GetNextNode. run_load Nodes HM. by rewrite HMn. }
    rewrite Hk in E.
    destruct (GetPrevNest_run w k K HI HLk HK) as (prev & Hprevk & _ & Hnextp).
    rewrite (bind_Done _ _ _ _ _ (Hprevk (S f0))) in E.
    apply bind_Done_inv in E as (nest & w1 & Es & E).
    pose proof (keeps_Done _ _ _ _ _ (keeps_skip_empty_bwd (λ v, v = w) _ _)
                  eq_refl Es) as ->.
    destruct nest as [kj|]; [|done].
    apply bind_Done_inv in E as (KJ & w1 & El & E).
    apply load_Done_inv in El as (-> & kj' & [= <-] & HKJ). simpl in HKJ.
    injection E as HKJl.
    destruct prev as [p|]; [|by destruct f0].
    assert (Nest.firstNode K = Some n) as HKn.
    { rewrite HKf. destruct (snoc_cases l1) as [->|(l' & a & ->)]; [done|].
      by rewrite last_or_snoc in Hp. }
    destruct (skip_bwd_fwd w HL HT HI HLk k (S f0) 0 p kj Es) as (y & Hy & Hback).
    { exists k. split; [by apply Hnextp|].
      intros g _. destruct g; cbn [skip_empty_fwd]; run_load Nests HK;
        by rewrite HKn. }
    destruct (end_nodes w HL HT kj KJ HKJ) as [_ Hlast].
    destruct (Hlast m HKJl) as (M & HM & HMk & HMn).
    unfold Node_GetNextNode. run_load Nodes HM. rewrite HMn, HMk.
    rewrite (bind_Done _ _ _ _ _ (Hy (S f0))).
    rewrite (bind_Done _ _ _ _ _ (Hback (S f0) ltac:(lia))).
    run_load Nests HK. by rewrite HKn.
Qed.

Lemma prev_node_and_next_node_undo_each_other_witness :
  Node_GetNextNode 4 (Some 1) world_spread = Done (Some 2) world_spread ∧
  Node_GetPrevNode 4 (Some 2) world_spread = Done (Some 1) world_spread.
Proof.
  pose proof (λ N HN, prev_node_and_next_node_undo_each_other 4 world_spread 1 N
                        reachable_spread HN) as H.
  edestruct H as [H1 _]; [by vm_compute|lia|].
  split; [by vm_compute|]. apply H1. by vm_compute.
Defined.

(** ** The last nest under a nest *)

Lemma tails_ok_new_item skip heads items tails x :
  tails_ok skip heads items tails → tails_ok skip heads (items ++ [x]) tails.
Proof.
  intros [HL HT]. split; [done|]. intros o t Ho. specialize (HT o t Ho).
  destruct t as [e|]; [|done]. destruct HT as (Hs & y & Hy & Hoy & Hny).
  split; [done|]. exists y. by rewrite (lookup_app_l_Some _ _ _ _ Hy).
Qed.

Lemma cview_links w w' : links w' = links w → cview w' = cview w.
Proof.
  intros E.
  assert (∀ {B} (h : Nest.t → B) (g : ptr * (ptr * ptr * ptr * ptr) → B),
            (∀ K, h K = g (nest_links K)) →
            h <$> nests w' = h <$> nests w) as Hvia.
  { intros B h g Hh.
    rewrite (list_fmap_ext h (g ∘ nest_links) (nests w')) by (intros; apply Hh).
    rewrite (list_fmap_ext h (g ∘ nest_links) (nests w)) by (intros; apply Hh).
    rewrite !list_fmap_compose. unfold links in E. by rewrite E. }
  unfold cview, child_heads, child_items, child_tails. f_equal; [f_equal|].
  - by apply (Hvia _ _ (λ v, v.2.1.1.1)).
  - by apply (Hvia _ _ (λ v, Item v.1 v.2.1.2 v.2.2)).
  - by apply (Hvia _ _ (λ v, v.2.1.1.2)).
Qed.

Lemma alter_same {A} (f : A → A) (l : list A) i x :
  l !! i = Some x → f x = x → alter f i l = l.
Proof.
  intros Hx Hf. apply list_eq. intros j. destruct (decide (j = i)) as [->|Hne].
  - by rewrite list_lookup_alter_eq, Hx; simpl; rewrite Hf.
  - by rewrite list_lookup_alter_ne.
Qed.

(** [NewNest] puts the new nest in front of the child list of the root,
    whose first child is an older nest. *)
Lemma NewNest_cview nt w :
  (∀ k K f, nests w !! k = Some K → Nest.firstChildNest K = Some f →
            f < length (nests w)) →
  pw (NestTree_NewNest nt) w
     (λ _ w', ∃ r h,
        child_heads w !! r = Some h ∧
        (child_heads w', child_items w')
        = push r (length (nests w)) h
            (child_heads w ++ [None], child_items w ++ [Item (Some r) h None]) ∧
        child_tails w' = push_tail r (length (nests w)) h (child_tails w ++ [None]))
     (λ _, True).
Proof.
  intros Hold. unfold NestTree_NewNest.
  apply pw_bind, pw_load. intros t T _ _.
  destruct (NestTree.rootNest T) as [r|]; [|apply pw_panic].
  destruct (NestTree.baseGraph T); [|apply pw_panic].
  apply pw_bind, pw_load. intros ? R [= <-] HR. simpl in HR.
  apply pw_bind, pw_load. intros g G _ _.
  apply pw_bind, pw_make. intros _.
  apply pw_bind, pw_alloc. simpl sget. cbv zeta.
  set (c := length (nests w)). set (h := Nest.firstChildNest R).
  assert (∀ f, h = Some f → f ≠ c) as Hfc.
  { intros f Hf. pose proof (Hold r R f HR Hf). unfold c. lia. }
  set (hs0 := child_heads w ++ [None]).
  set (it0 := child_items w ++ [Item (Some r) h None]).
  set (tl0 := child_tails w ++ [None]).
  set (it1 := match h with
              | Some f => alter (set_prv_to (Some c)) f it0
              | None => it0
              end).
  apply pw_bind.
  eapply pw_mono with (T := λ _, True)
    (Q := λ _ w1, child_heads w1 = hs0 ∧ child_items w1 = it1 ∧
                  child_tails w1 = push_tail r c h tl0); [| |done].
  { unfold it1, push_tail. clear Hfc. destruct h as [f|].
    - apply pw_modify. intros ? [= <-] _.
      unfold child_heads, child_items, child_tails. simpl.
      rewrite (fmap_alter_keep Nest.firstChildNest) by (by intros []).
      rewrite (fmap_alter_keep Nest.lastChildNest) by (by intros []).
      rewrite (fmap_alter_comm child_item _ (set_prv_to (Some c))) by (by intros []).
      unfold hs0, it0, tl0, child_heads, child_items, child_tails.
      by rewrite !fmap_app.
    - apply pw_modify. intros ? [= <-] _.
      unfold child_heads, child_items, child_tails. simpl.
      rewrite (fmap_alter_keep Nest.firstChildNest) by (by intros []).
      rewrite (fmap_alter_keep child_item) by (by intros []).
      rewrite (fmap_alter_comm Nest.lastChildNest _ (λ _, Some c)) by (by intros []).
      unfold hs0, it0, tl0, child_heads, child_items, child_tails.
      by rewrite !fmap_app. }
  intros _ w1 (H1 & H2 & H3). simpl.
  apply pw_bind, pw_modify. intros ? [= <-] _.
  apply pw_bind, pw_modify. intros ? _ _. apply pw_ret.
  exists r, h. split; [unfold child_heads; by rewrite list_lookup_fmap, HR|].
  unfold child_heads, child_items, child_tails in *. simpl.
  rewrite (fmap_alter_keep child_item) by (by intros []).
  rewrite (fmap_alter_keep Nest.lastChildNest) by (by intros []).
  rewrite (fmap_alter_comm Nest.firstChildNest _ (λ _, Some c)) by (by intros []).
  rewrite H1, H2, H3. split; [|done].
  unfold push. cbn [fst snd]. fold it1. f_equal. symmetry.
  apply (alter_same _ _ _ (Item (Some r) h None)); [|done].
  assert (it0 !! c = Some (Item (Some r) h None)) as Hc.
  { unfold it0. apply list_lookup_middle. by rewrite length_fmap. }
  unfold it1. destruct h as [f|]; [|done].
  rewrite list_lookup_alter_ne; [done|]. by apply Hfc.
Qed.

(** The tails of the child lists are kept. *)
Lemma exec_child_tails fuel c w w' :
  Inv None w →
  tails_ok None (child_heads w) (child_items w) (child_tails w) →
  exec fuel c w = Done tt w' →
  tails_ok None (child_heads w') (child_items w') (child_tails w').
Proof.
  intros HI HT E.
  assert (∀ {A} (m : M A) x,
            keeps (λ w0, links w0 = links w) m → m w = Done x w' →
            tails_ok None (child_heads w') (child_items w') (child_tails w'))
    as Hview.
  { intros A m x Hm Em.
    pose proof (cview_links w w' (keeps_Done _ m w x w' Hm eq_refl Em)) as Hv.
    injection Hv as -> -> ->. done. }
  destruct c; simpl in E; apply bind_Done_inv in E as (x & w1 & E & [= <-]).
  - apply NewGraph_Done_inv in E as (_ & _ & ->).
    unfold child_heads, child_items, child_tails. simpl. rewrite !fmap_app.
    by apply tails_ok_new_owner, tails_ok_new_item.
  - eapply Hview; [|done]. keeps_attr_call_script links_write.
  - eapply Hview; [|done]. keeps_attr_call_script links_write.
  - eapply Hview; [|done]. keeps_attr_call_script links_write.
  - eapply Hview; [|done]. keeps_attr_call_script links_write.
  - eapply Hview; [|done]. keeps_attr_call_script links_write.
  - eapply Hview; [|done].
    keeps_ReleaseNode_script links_write (keeps_links_node_sweep (links w) fuel).
  - eapply Hview; [|done]. apply keeps_links_NewNode.
  - eapply Hview; [|done]. apply keeps_links_NewEdge.
  - eapply Hview; [|done]. keeps_attr_call_script links_write.
  - eapply Hview; [|done]. keeps_attr_call_script links_write.
  - eapply Hview; [|done]. apply keeps_links_MoveToNest.
  - assert (∀ k K f, nests w !! k = Some K → Nest.firstChildNest K = Some f →
              f < length (nests w)) as Hold.
    { intros k K f HK Hf. destruct (inv_nest _ _ HI _ _ HK) as [_ (S1 & _)].
      destruct (S1 f Hf) as (F & HF & _). by eapply lookup_lt_Some. }
    destruct (pw_Done _ _ _ _ _ _ (NewNest_cview _ w Hold) E)
      as (r & h & Hh & Hv & Ht).
    injection Hv as -> ->. rewrite Ht.
    assert (length (nests w) = length (child_items w)) as Hlen
      by (unfold child_items; by rewrite length_fmap).
    apply (tails_ok_push _ _ _ r _ (Item (Some r) h None) h).
    + apply tails_ok_new_owner. rewrite Hlen. by apply tails_ok_alloc.
    + rewrite Hlen. by apply list_lookup_middle.
    + done.
    + by apply lookup_app_l_Some.
  - eapply Hview; [|done]. keeps_attr_call_script links_write.
  - eapply Hview; [|done].
    keeps_ReleaseNest_script links_write (keeps_links_nest_sweep (links w) fuel).
  - eapply Hview; [|done]. keeps_attr_call_script links_write.
  - eapply Hview; [|done]. keeps_attr_call_script links_write.
Qed.

Lemma reachable_child_tails w :
  reachable w → tails_ok None (child_heads w) (child_items w) (child_tails w).
Proof.
  induction 1 as [|w fuel c w' Hr IH E].
  - apply tails_ok_nil.
  - eapply exec_child_tails; [|done..]. by apply reachable_Inv.
Qed.

(** A walk along a well-formed list goes through linked items. *)
Lemma dll_walk_linked heads items :
  dll_ok heads items →
  ∀ n e l p, dll_walk n items e = Some l →
    (∀ a x, e = Some a → items !! a = Some x → prv x = p) →
    linked items p l None.
Proof.
  intros Hok. induction n as [|n IH]; intros e l p El Hp; [done|].
  destruct e as [a|]; [|by injection El as <-].
  cbn [dll_walk] in El. destruct (items !! a) as [x|] eqn:Hx; [|done].
  apply fmap_Some in El as (l' & El' & ->). simpl. split.
  - exists x. split_and!; [done|by eapply Hp|].
    destruct (nxt x) as [f|] eqn:Hf.
    + destruct n as [|n']; [done|]. cbn [dll_walk] in El'.
      destruct (items !! f); [|done].
      by apply fmap_Some in El' as (l'' & _ & ->).
    + destruct n; [done|]. by injection El' as <-.
  - apply (IH (nxt x)); [done|]. intros f y Hf Hy.
    by destruct (dl_next _ _ Hok _ _ _ Hx Hf) as (_ & y' & Hy' & _ & Hpy);
      assert (y' = y) as -> by congruence.
Qed.

Lemma child_walk_back_dll n w e :
  child_walk_back n w e = dll_walk_back n (child_items w) e.
Proof.
  revert e. induction n as [|n IH]; intros [a|]; simpl; try done.
  unfold Nest_GetPrevSiblingNest, bind, load, child_items. simpl.
  rewrite list_lookup_fmap. destruct (nests w !! a); simpl; [|done].
  by rewrite IH.
Qed.

(** X30. In a world brought about by calls that returned, the loop over
    the nests under a nest from [GetLastChildNest] along
    [GetPrevSiblingNest] until nil ends within one round more than there
    are nests, and it goes through the nests that the loop from
    [GetFirstChildNest] along [GetNextSiblingNest] goes through, in the
    opposite order. *)
Theorem nest_children_back_is_the_reverse n w k K :
  reachable w → nests w !! k = Some K → length (nests w) < n →
  ∃ l, nest_children n w k = Some l ∧ nest_children_back n w k = Some (rev l).
Proof.
  intros Hr HK Hn.
  pose proof (child_lists_ok w (reachable_Inv _ Hr) (reachable_links_ok _ Hr)) as Hok.
  pose proof (reachable_child_tails w Hr) as [_ HT].
  destruct n as [|n]; [lia|].
  assert (length (child_items w) = length (nests w)) as Hlen
    by (unfold child_items; by rewrite length_fmap).
  assert (child_heads w !! k = Some (Nest.firstChildNest K)) as Hh.
  { unfold child_heads. by rewrite list_lookup_fmap, HK. }
  assert (child_tails w !! k = Some (Nest.lastChildNest K)) as Ht.
  { unfold child_tails. by rewrite list_lookup_fmap, HK. }
  destruct (dll_walk_complete _ _ n k (Nest.firstChildNest K) Hok)
    as (l & El & Hord & Hl); [lia|done|].
  assert (linked (child_items w) None l None) as Hlk.
  { apply (dll_walk_linked _ _ Hok _ _ _ _ El). intros a x Ha Hx.
    rewrite Ha in Hh. by destruct (dl_head _ _ Hok _ _ Hh) as (x' & Hx' & _ & Hp);
      assert (x' = x) as -> by congruence. }
  assert (length l ≤ length (nests w)) as Hll.
  { apply NoDup_bounded; [by apply falling_NoDup|]. intros i Hi.
    apply Hl in Hi as (y & Hy & _). apply lookup_lt_Some in Hy. lia. }
  assert (Nest.lastChildNest K = last_or None l) as Hlast.
  { specialize (HT k _ Ht). destruct (Nest.lastChildNest K) as [c|].
    - destruct HT as (_ & x & Hx & Hox & Hnx).
      assert (c ∈ l) as Hc by (apply Hl; eauto).
      apply list_elem_of_split in Hc as (l1 & l2 & ->).
      apply linked_app in Hlk as [_ [(x' & Hx' & _ & Hnx') _]].
      assert (x' = x) as -> by congruence. rewrite Hnx in Hnx'.
      destruct l2; [|done]. by rewrite last_or_snoc.
    - pose proof (eq_trans (eq_sym Hh) HT) as HT'. injection HT' as HT'.
      rewrite HT' in El. by injection El as <-. }
  exists l. split.
  - unfold nest_children.
    assert (Nest_GetFirstChildNest (Some k) w
            = Done (Nest.firstChildNest K) w) as ->.
    { unfold Nest_GetFirstChildNest, bind, load. simpl. by rewrite HK. }
    by rewrite child_walk_dll.
  - unfold nest_children_back.
    assert (Nest_GetLastChildNest (Some k) w
            = Done (Nest.lastChildNest K) w) as ->.
    { unfold Nest_GetLastChildNest, bind, load. simpl. by rewrite HK. }
    rewrite child_walk_back_dll, Hlast.
    apply (linked_walk_back _ _ None); [done|lia].
Qed.

Lemma nest_children_back_is_the_reverse_witness :
  nest_children 4 world_two_nests 0 = Some [2; 1] ∧
  nest_children_back 4 world_two_nests 0 = Some [1; 2].
Proof.
  pose proof (λ K, nest_children_back_is_the_reverse 4 world_two_nests 0 K
                     reachable_two_nests) as H.
  edestruct H as (l & El & Eb); [by vm_compute|vm_compute; lia|].
  vm_compute in El. injection El as <-. split; [by vm_compute|exact Eb].
Defined.
